(* ===== verification/_CoqProject ===== *)
-Q . S2P
Prelude.v
Utf8.v
GoString.v
Sorting.v
Match.v
MatchFacts.v
Glob.v
GlobMatch.v
Memkv.v
Strings.v
Patterns.v
Globbing.v
Bounds.v
Sync.v
Concurrent.v
Methods.v
Termination.v
Readers.v
Abstract.v
Zero.v
Serial.v
Linear.v
Accesses.v
Threads.v
