(* ===== verification/Prelude.v ===== *)
(** * memkv: a verification development for the in-memory key/value store

    The program is one Go package, [memkv] (src/store.go): a [Store] that
    wraps a Go [map[string]KVPair] and an embedded [sync.RWMutex], with the
    methods [New], [Set], [Del], [Get], [GetValue], [GetAll], [GetAllValues],
    [List] and [ListDir].  Every method takes the lock of its receiver,
    accesses the map, and releases the lock.  The methods call four pieces
    of the Go standard library: [strings] (HasPrefix, TrimPrefix, SplitN),
    [path/filepath] (Match), [sort] (Sort, Strings) and [sync] (RWMutex).

    ** Files

    - [Prelude] (this file): the [result] type used for run-time panics and
      for the result of [filepath.Match], its monad instances, the tactics
      and the hint database [go] shared by all files, and generic lemmas on
      lists and on sums over lists.
    - [Utf8]: [utf8.DecodeRuneInString], which [filepath.Match] reads runes
      with.
    - [GoString]: Go strings as byte strings (Rocq [string]); slicing with
      its bounds check, [HasPrefix], [TrimPrefix], [IndexByte], [SplitN], and
      the byte-wise order [<] of Go strings.
    - [Strings]: [strings.SplitN] for a separator that is any string
      ([Index], [Count], [explode], [genSplit]), equal to the function of
      [GoString] on a separator of one byte.
    - [Sorting]: [KVPair], [KVPairs] with its [Less], and [sort.Sort] /
      [sort.Strings] as a sort whose result is characterised uniquely.
    - [Match]: [filepath.Match] with [scanChunk], [matchChunk] and [getEsc].
    - [MatchFacts]: the answers of [Match] freed from its loops: its error
      as a function of the pattern ([pattern_error]), one round of its loop
      without fuel, and its answer on literal patterns.
    - [Glob]: the patterns of [Match] as syntax: the parser [segments],
      the reference matcher [glob] that says what a pattern matches, and
      the loop of [Match] on a parsed pattern ([gmatch]); [Match] is the
      parser followed by that loop.
    - [GlobMatch]: the loop of [Match] against the reference matcher:
      sound on every name, complete on names of bytes below [RuneSelf]
      when no class of the pattern matches the separator.
    - [Memkv]: the [Store] and its nine operations as sequential functions,
      translated from src/store.go statement by statement: [New], [Set'],
      [Del], [Get], [GetValue], [GetAll] (with its loop [GetAll_loop]),
      [GetAllValues], [List] and [ListDir] (with their loop bodies
      [List_step] and [ListDir_step]).
    - [Patterns]: [GetAll] on malformed patterns, on patterns without
      special characters, and on such a pattern followed by a star.
    - [Globbing]: what [GetAll] returns in terms of what the pattern
      matches, and the examples in which it misses or adds a key.
    - [Bounds]: the sizes of the results of [GetAll], [GetAllValues],
      [List] and [ListDir] against the size of the map, and the index
      expression of [List] and [ListDir] in range.
    - [Sync]: [sync.RWMutex] as its abstract state, a writer flag and a
      count of readers, with [Lock], [Unlock], [RLock], [RUnlock],
      [TryLock] and [TryRLock].
    - [Concurrent]: the lock, access and unlock statements of every
      method, in their order ([Del_code], [Get_code], [GetAll_code],
      [List_code], [ListDir_code], [Set_code]), run by several threads
      that interleave ([step_thread], [step], [run]); the receiver
      semantics the source declares ([declared], which is [ByValue]) and
      the one with a shared mutex ([ByPointer]).
    - [Methods]: the method bodies of src/store.go statement by statement,
      as programs ([prog]) of the actions they ask of the mutex and the
      map: [Del_method], [Get_method], [GetValue_method] (which calls
      [Get_method]), [GetAll_method], [GetAllValues_method] (which calls
      [GetAll_method]), [List_method], [ListDir_method], [Set_method];
      [defer] for [defer s.RUnlock()]; [run_prog], which runs a body alone;
      the locking discipline as a type system ([lock_typed]).
    - [Termination]: the number of steps the calls have still to take
      ([remaining]) as a measure of the step relation of [Concurrent].
    - [Readers]: the shared mutex beyond mutual exclusion: readers at
      their access together ([reading]), and the preference of
      [sync.RWMutex] for a waiting writer, as configurations with an
      announced writer ([wp_config]) and the steps the preference admits
      ([announce], [admitted], [wp_thread], [wp_step]).
    - [Abstract]: the specification of the store, a finite map from keys to
      values with the queries as functions of it ([spec_ret]); the
      interface [KVStore] between a store and its clients; the instance for
      the store of the source.
    - [Zero]: the map as Go has it, nil or made ([gomap]), the statements
      of the methods on it, and calls on a [Store] that [New] did not
      make.
    - [Serial]: the order in which the calls of a run have accessed the
      map, kept along the run as an invariant ([serial_inv]).
    - [Linear]: that order as a function of the schedule ([history]), and
      the order of the calls in time ([precedes]).
    - [Accesses]: the runs in which an access to the map takes time: a
      step to begin it and a step to end it ([begin_access],
      [end_access], [astep], [arun]), and a fault of the Go runtime when an
      access begins while an access in conflict with it is open.
    - [Threads]: the bodies of [Methods] run by several goroutines
      ([go_step], [go_run]), a goroutine being what is left of its body,
      and the map [world_of] from the configurations of [Concurrent] to
      the goroutines they stand for.

    Definitions that translate src/store.go carry the source's names
    ([Set'] for [Set], which is a keyword).  Code of the Go standard library
    and kvpair.go are not part of src/; they are modelled from their
    documented behaviour and are marked as such in the manifest.

    ** Modelling decisions

    - A Go [string] is a sequence of bytes: Rocq's [string] (a list of 8-bit
      [ascii]).  Comparison is byte-wise lexicographic, as Go's [<].
    - A Go map is a [gmap string KVPair]; [Zero] justifies it for the
      stores that [New] made, and treats the nil map of a [Store] that was
      declared without [New].  Go iterates a map in an
      unspecified order; every loop over the map is a function of the list
      of entries it visits ([GetAll_from], [List_from], [ListDir_from]), the
      operations instantiate it with the entries of the map, and the
      theorems show that any other order gives the same result.
    - A Go result [(T, error)] is a pair [T * option error], [None] being
      [nil]; a slice that may be [nil] is an [option] of a list.  A run-time
      panic (the slice expression [strippedKey[1:]] out of range) is
      [Err] at type [result panic T].
    - [sort.Sort] is not stable and its algorithm is not part of its
      contract.  It is modelled by merge sort, and the lemmas of [Sorting]
      show that any sorted permutation of the input equals the model's
      output whenever the keys are distinct, which the store guarantees.
    - [filepath.Match] is the non-Windows implementation of Go 1.16 and
      later, which reports a malformed pattern even after the name has
      failed to match.  The results on malformed patterns
      ([GetAll_ErrBadPattern_pattern]) are results about the store built
      with such a Go: before 1.16 [Match] reported a malformed pattern
      only when matching reached the malformed part, so that the error of
      [GetAll] depended on the keys.  The loops of [Match] consume the
      pattern and are written with fuel; [Match] gives them the length of
      the pattern plus one, and the
      lemmas [classLoop_fuel_indep], [matchChunk_loop_Some],
      [checkRest_fuel_indep] and [Match_loop_Match] show that this fuel is
      never exhausted and that more fuel changes nothing.  [Match_tests]
      runs the model on the cases of the test table of the package, and
      [glob_tests] the reference matcher.
    - What a pattern matches is defined on its syntax by [glob]: an
      element matches one character, a star any number of bytes none of
      which is the separator.  The star counts bytes and not runes
      because the star loop of [Match] does; on names of bytes below
      [RuneSelf] the two are the same.  A class may match the separator,
      as it does in [Match].  The parser shares [getEsc], [getRange] and
      [scanChunk] with [Match], so that a pattern parses exactly when
      [Match] reports no error on it.
    - A thread of [Concurrent] is a call, the index of its next step, the
      mutex of its receiver, and the map it read.  Two threads race when
      both are about to access the map and one of the accesses writes.  A
      method with a value receiver locks the copy of the mutex made at the
      call, which starts unlocked because nothing ever locks the
      original: the methods do not, and the clients are taken not to
      call the [Lock] that [Store] promotes from its embedded mutex.
    - An access to the map is one step in [Concurrent], the whole loop
      over the map of [GetAll], [List] and [ListDir] included.  Go
      promises that only to programs in which no write of the map
      overlaps another access; for the others the language leaves the
      behaviour undefined and the runtime stops the program where it sees
      the overlap.  [Accesses] is the semantics that does not take the
      promise for granted: an access is an interval, what a [range] loop
      reads, matches and collects lies inside it, and an access that
      begins while a conflicting access is open is a [fault] at which
      the run ends.  What [Concurrent], [Serial] and [Linear] show of
      runs with one-step accesses are results about the program only
      through [Accesses]: for one shared mutex, where no run faults
      ([by_pointer_linearizable]), and not for the receivers of the
      source, where runs fault ([declared_faults]).
    - The count [n] of [SplitN] is an unbounded integer; the store passes
      2, so the width of Go's [int] plays no part.
    - A writer's [Lock] on the mutex that prefers writers is two steps:
      the announcement, which is the moment from which [RLock] waits, and
      the acquisition, once the active readers have left.  Only one
      writer is announced at a time, as in [sync.RWMutex], where a second
      writer waits on an inner mutex until the first has unlocked.
    - A method body is a program of [Methods]: a tree whose nodes are the
      statements that call the mutex or access the map ([Act]), each
      continued by a function of what the statement answers, and whose
      leaves are a return ([Ret]) or a panic ([Panic]).  The statements
      between two actions are pure and are part of the continuation.
      [defer d body] runs [d] at every leaf of [body], so a deferred
      unlock runs when the body panics.  The same instruction semantics
      ([exec_instr]) answers the actions of a body and the steps of a
      thread.  Every body has three actions, so no fuel is needed:
      [run_prog] is structural in the body, and [Termination] shows that
      a run of n calls has 3n steps at most.

    ** Theorems

    - [Memkv], point operations: what [Get] and [GetValue] return after
      [Set] and [Del], on the key written and on every other key; the
      invariant that the pair stored under a key carries that key, for every
      store built from [New] by [Set] and [Del].
    - [Memkv], [GetAll] and [GetAllValues]: the result on each of the three
      exits (error of [Match], [ErrNoMatch], success) characterised by the
      keys of the store; the returned slice is strictly sorted and holds
      exactly the matching pairs; independence of the iteration order.
    - [MatchFacts] and [Patterns]: [Match] reports an error for a pattern
      on one name exactly if it does on every name ([Match_err]), so
      [GetAll] reports a malformed pattern exactly when the store is not
      empty; with a literal pattern [GetAll] is [Get]; a star after a
      literal prefix matches what extends the prefix without a separator.
    - [Strings]: on a separator of one byte the general [SplitN] is the
      function of [GoString] ([SplitN_string_byte]) and the loop of
      [Count] counts the bytes ([Count_loop_byte]); joining the pieces
      gives the string back ([SplitN_string_Join]); at most [n] pieces
      ([SplitN_string_length]); the index expression of [List] has the
      same value with either function ([SplitN_string_first_segment]).
    - [Glob], [GlobMatch] and [Globbing]: [Match] is the parser followed
      by the greedy matcher ([Match_segments]); the greedy matcher accepts
      only what the pattern matches ([gmatch_sound]) and, on names of
      bytes below [RuneSelf] with classes that do not match the separator,
      all of it ([gmatch_complete]), because the first position at which
      a chunk matches leaves what any later position leaves, after text
      that the next star can take ([elems_match_shift]).  For the store:
      [GetAll_glob], [GetAll_glob_sound].
    - [Memkv], [List] and [ListDir]: both implement the function [listing];
      they panic exactly when the path is itself a key; otherwise the result
      is strictly sorted and holds exactly the first segments described by
      the source; [ListDir] returns a subset of [List]; independence of the
      iteration order.
    - [Concurrent]: as declared, no call ever waits and a race is reachable
      for every pair of calls of which one writes; with one shared mutex the
      invariant [lock_inv] ties the state of the mutex to the positions of
      the threads, no race is reachable and no reachable state is a
      deadlock; a call that runs alone behaves as the function of [Memkv].
    - [Methods]: a body run alone from an unlocked mutex performs the steps
      of [code], returns the result of the function of [Memkv], changes
      the map as [effect] says and leaves the mutex unlocked, also when it
      panics ([method_run]); every body is well typed in the locking
      discipline ([methods_lock_typed]); the lemma [lock_typed_sound]
      says what the discipline is for: a well-typed body neither waits
      for itself nor releases a lock that is not held.
    - [Termination]: every step takes one off [remaining], so a schedule
      of n calls runs 3n steps at most ([run_length]), and every run can
      be continued until all calls have returned ([every_call_returns]).
    - [Readers]: calls that only read can all be at their access at the
      same time ([readers_share]); the runs with the preference for a
      waiting writer are runs of [Concurrent] ([wp_steps_steps]); they
      cannot deadlock ([wp_progress]); an announced writer waits for two
      steps of every active reader at most ([announced_writer_waits]).
    - [Bounds]: [GetAll] returns between one pair and as many as the map
      has entries ([GetAll_length]), [List] and [ListDir] at most one name
      per entry, and they never panic with an index out of range
      ([List_index_in_range]).
    - [Abstract]: every operation of [Memkv] commutes with the abstraction
      [abs] to the finite map, so every sequential program of calls returns
      what the specification returns ([exec_abs], proved once against the
      interface for any two implementations); a store that satisfies the
      invariant is determined by its abstraction.
    - [Zero]: from [New] no assignment to the map panics and the calls
      return what the functions of [Memkv] return; on the zero value of
      [Store] the first [Set] panics and the other calls answer as on an
      empty store ([exec_go_cases]).
    - [Serial] and [Linear], lemmas for [Accesses]: along a run of
      [Concurrent] the map and the values read are those of the
      sequential execution [exec] of the calls in the order of their
      accesses ([serial_inv_step], [run_history]), an order that respects
      the order of the calls in time ([precedes_before]).
    - [Accesses]: some run faults exactly if some run of [Concurrent]
      reaches a race ([fault_iff_race]); every run is a run of
      [Concurrent] under the schedule without the steps that begin an
      access ([arun_inv]);
      with one shared mutex no run faults and every finished run is
      linearizable, in the order in which the calls ended their accesses
      ([by_pointer_linearizable]); as the source declares the methods,
      two calls of which one writes fault ([declared_faults]).  The
      theorem for the shared mutex rests on the locks: with a [Lock] that
      admits a second holder the schedule of [declared_faults] faults
      under [ByPointer] too.
    - [Threads], lemmas: [world_of] commutes with every step, so
      goroutines that run the bodies and threads that step through [code]
      have the same runs ([go_run_init]): the statement lists of
      [Concurrent] are the actions of the bodies of [Methods].

    ** Where the code departs from its documentation

    - The methods have value receivers, so each call locks its own copy of
      the mutex: [race_by_value], [by_value_never_waits],
      [declared_faults].
    - [List] and [ListDir] panic when the path is itself a key:
      [List_panics_iff], [ListDir_panics_iff].
    - On an empty store [GetAll] answers [ErrNoMatch] to a malformed
      pattern: [GetAll_New], [GetAll_ErrBadPattern_pattern].
    - A character class of a pattern matches the separator:
      [GetAll_patterns_example].
    - [Match] never goes back on a chunk and advances by bytes after a
      star: with a class that matches the separator [GetAll] misses a
      key that the pattern matches, and on a key with a character of
      several bytes it returns a key that the pattern excludes:
      [GetAll_greedy_example].
    - [Set] panics on a [Store] that was declared without [New], whose
      map is nil: [exec_go_cases].

    ** Not modelled

    The functions of package [strings] that the store does not call;
    [explode] as it was before Go 1.17, which replaced the bytes of an
    invalid encoding instead of slicing them; [RLocker] of
    [sync.RWMutex], a view without state; the order in which the Go
    scheduler wakes the readers that wait behind a writer, which the
    announcement of [Readers] abstracts (a reader that waits is a reader
    that has not taken its step); the hash table behind Go's map, and the
    program after the runtime has reported a concurrent access, where
    every run of [Accesses] ends; the time a statement takes other than
    an access to the map, so that what else runs while a lock is held is
    not observable. *)

From stdpp Require Export base tactics option list sorting.
From Stdlib Require Export Ascii String.

(** ** Results of Go calls

    [Ok a] is a normal return; [Err e] is a returned [error] value or, at
    type [result panic A], a panic that unwinds the call. *)

Inductive result (E A : Type) : Type :=
| Ok (a : A)
| Err (e : E).

Arguments Ok {E A} a.
Arguments Err {E A} e.

#[export] Instance result_ret {E} : MRet (result E) := fun _ a => Ok a.

#[export] Instance result_bind {E} : MBind (result E) := fun _ _ f r =>
  match r with
  | Ok a => f a
  | Err e => Err e
  end.

#[export] Instance result_fmap {E} : FMap (result E) := fun _ _ f r =>
  match r with
  | Ok a => Ok (f a)
  | Err e => Err e
  end.

Definition is_Ok {E A} (r : result E A) : Prop :=
  match r with Ok _ => True | Err _ => False end.

Definition is_Err {E A} (r : result E A) : Prop :=
  match r with Ok _ => False | Err _ => True end.

#[export] Instance is_Ok_dec {E A} (r : result E A) : Decision (is_Ok r).
Proof. destruct r; apply _. Defined.

#[export] Instance is_Err_dec {E A} (r : result E A) : Decision (is_Err r).
Proof. destruct r; apply _. Defined.

#[export] Instance result_eq_dec {E A} `{EqDecision E, EqDecision A} :
  EqDecision (result E A).
Proof. solve_decision. Defined.

(** ** Tactics *)

(** [case_result] destructs the first [result]-valued scrutinee of the goal
    or of a hypothesis, keeping the equation. *)

Ltac case_result :=
  match goal with
  | |- context [match ?r with Ok _ => _ | Err _ => _ end] =>
      let E := fresh "Hres" in destruct r eqn:E
  | H : context [match ?r with Ok _ => _ | Err _ => _ end] |- _ =>
      let E := fresh "Hres" in destruct r eqn:E
  end.

(** [simplify_result] unfolds the monad operations on [result], then cleans
    up the equations between constructors. *)

Ltac simplify_result :=
  cbv [mbind mret fmap result_bind result_ret result_fmap] in *;
  simplify_eq/=.

Create HintDb go discriminated.
Create Rewrite HintDb go.

(** ** Laws of [result] *)

Section result_laws.
Context {E A B : Type}.
Implicit Types (r : result E A) (f : A → result E B).

Lemma result_bind_Ok r f b :
  r ≫= f = Ok b ↔ ∃ a, r = Ok a ∧ f a = Ok b.
Proof. destruct r; simplify_result; naive_solver. Qed.

Lemma result_bind_Err r f e :
  r ≫= f = Err e ↔ r = Err e ∨ ∃ a, r = Ok a ∧ f a = Err e.
Proof. destruct r; simplify_result; naive_solver. Qed.

Lemma result_fmap_Ok r (g : A → B) b :
  g <$> r = Ok b ↔ ∃ a, r = Ok a ∧ b = g a.
Proof. destruct r; simplify_result; naive_solver. Qed.

Lemma result_fmap_Err r (g : A → B) e :
  g <$> r = Err e ↔ r = Err e.
Proof. destruct r; simplify_result; naive_solver. Qed.

Lemma is_Ok_alt r : is_Ok r ↔ ∃ a, r = Ok a.
Proof. destruct r; simpl; naive_solver. Qed.

Lemma is_Err_alt r : is_Err r ↔ ∃ e, r = Err e.
Proof. destruct r; simpl; naive_solver. Qed.

Lemma is_Ok_not_Err r : is_Ok r ↔ ¬ is_Err r.
Proof. destruct r; simpl; naive_solver. Qed.

End result_laws.

#[export] Hint Rewrite @result_bind_Ok @result_bind_Err
  @result_fmap_Ok @result_fmap_Err : go.

(** ** Lists *)

Section lists.
Context {A B : Type}.
Implicit Types (l : list A) (f : A → B).

(** Filtering keeps the images under [f] distinct. *)
Lemma NoDup_fmap_filter f (P : A → Prop) `{!∀ x, Decision (P x)} l :
  NoDup (f <$> l) → NoDup (f <$> filter P l).
Proof.
  intros Hnd. eapply sublist_NoDup; [done|]. apply fmap_sublist, sublist_filter.
Qed.

(** Two predicates that agree on the elements of a list filter it alike. *)
Lemma list_filter_iff_in (P1 P2 : A → Prop)
    `{!∀ x, Decision (P1 x), !∀ x, Decision (P2 x)} l :
  (∀ x, x ∈ l → P1 x ↔ P2 x) → filter P1 l = filter P2 l.
Proof.
  induction l as [|a l IH]; [done|]. intros Hiff.
  rewrite !filter_cons, IH by (intros; apply Hiff; by right).
  pose proof (Hiff a ltac:(by left)). repeat case_decide; naive_solver.
Qed.

(** Two lists without duplicates that have the same elements are
    permutations of each other, also after mapping an injective-on-them [f]. *)
Lemma NoDup_fmap_elem_of_inj f l x y :
  NoDup (f <$> l) → x ∈ l → y ∈ l → f x = f y → x = y.
Proof.
  intros Hnd [i Hi]%list_elem_of_lookup [j Hj]%list_elem_of_lookup Hxy.
  assert (i = j) as ->; [|congruence].
  eapply NoDup_lookup; [done|..]; rewrite list_lookup_fmap.
  - by rewrite Hi.
  - by rewrite Hj, Hxy.
Qed.

(** A list without duplicates whose elements are those of an option is the
    list of that option. *)
Lemma NoDup_option_list (l : list A) (o : option A) :
  NoDup l → (∀ x, x ∈ l ↔ o = Some x) → l = option_list o.
Proof.
  intros Hnd Hin. destruct o as [a|]; simpl.
  - assert (∀ y, y ∈ l → y = a) as Hall by (by intros y [= ->]%Hin).
    destruct l as [|x l]; [exfalso; by apply (elem_of_nil a), Hin|].
    apply NoDup_cons in Hnd as [Hx _]. rewrite (Hall x) in * by left.
    f_equal. apply elem_of_nil_inv. intros y Hy. by rewrite (Hall y) in Hy by by right.
  - apply elem_of_nil_inv. by intros x Hx%Hin.
Qed.

Lemma filter_nil_iff (P : A → Prop) `{!∀ x, Decision (P x)} l :
  filter P l = [] ↔ Forall (λ x, ¬ P x) l.
Proof.
  induction l as [|x l IH]; simpl; [by split; [constructor|]|].
  rewrite Forall_cons. destruct (decide (P x)).
  - rewrite filter_cons_True by done. naive_solver.
  - rewrite filter_cons_False by done. naive_solver.
Qed.

(** Removing duplicates and dropping elements do not make a list longer. *)
Lemma length_remove_dups `{EqDecision A} l :
  List.length (remove_dups l) ≤ List.length l.
Proof. induction l as [|x l IH]; simpl; [done|]. destruct (decide_rel _ _ _); simpl; lia. Qed.

Lemma length_omap (g : A → option B) l : List.length (omap g l) ≤ List.length l.
Proof. induction l as [|x l IH]; csimpl; [done|]. destruct (g x); simpl; lia. Qed.

End lists.

(** ** Counting over a list that is updated in place *)

Section sum_list_with.
Context {A : Type} (f : A → nat).
Implicit Types (l : list A) (x y : A) (i j : nat).

Lemma sum_list_with_insert l i x y :
  l !! i = Some x →
  sum_list_with f (<[i := y]> l) + f x = sum_list_with f l + f y.
Proof.
  revert i. induction l as [|z l IH]; intros [|i] Hi; simplify_eq/=; [lia|].
  specialize (IH _ Hi). lia.
Qed.

Lemma sum_list_with_lookup l i x : l !! i = Some x → f x ≤ sum_list_with f l.
Proof.
  revert i. induction l as [|z l IH]; intros [|i] Hi; simplify_eq/=; [lia|].
  specialize (IH _ Hi). lia.
Qed.

Lemma sum_list_with_lookup2 l i j x y :
  i ≠ j → l !! i = Some x → l !! j = Some y → f x + f y ≤ sum_list_with f l.
Proof.
  revert i j. induction l as [|z l IH]; intros [|i] [|j] Hne Hi Hj; simplify_eq/=.
  - pose proof (sum_list_with_lookup _ _ _ Hj). lia.
  - pose proof (sum_list_with_lookup _ _ _ Hi). lia.
  - assert (i ≠ j) as Hne' by congruence. specialize (IH _ _ Hne' Hi Hj). lia.
Qed.

Lemma sum_list_with_0 l : Forall (λ x, f x = 0) l → sum_list_with f l = 0.
Proof. induction 1 as [|x l Hx _ IH]; simpl; lia. Qed.

(** If the sum is zero, so is every summand. *)
Lemma sum_list_with_0_inv l i x : sum_list_with f l = 0 → l !! i = Some x → f x = 0.
Proof. intros H0 Hi. pose proof (sum_list_with_lookup _ _ _ Hi). lia. Qed.

(** A positive sum has a positive summand. *)
Lemma sum_list_with_pos l : 0 < sum_list_with f l → ∃ i x, l !! i = Some x ∧ 0 < f x.
Proof.
  induction l as [|y l IH]; simpl; [lia|]. intros Hpos.
  destruct (decide (0 < f y)) as [Hy|Hy]; [by exists 0, y|].
  destruct IH as (i & x & Hi & Hx); [lia|]. by exists (S i), x.
Qed.

End sum_list_with.
