(* ===== verification/Utf8.v ===== *)
(** * Utf8: decoding one rune from a Go string

    [filepath.Match] reads the name and the character classes of the pattern
    rune by rune with [utf8.DecodeRuneInString].  This file models that
    function on byte strings: the lead-byte table [first], the table
    [acceptRanges] of the second byte, and the decoder itself, with the bit
    operations of the Go code written with [Z.land], [Z.lor] and
    [Z.shiftl].  An invalid or truncated encoding decodes to
    [(RuneError, 1)], the empty string to [(RuneError, 0)]. *)

From S2P Require Import Prelude.
From Stdlib Require Import ZArith Lia.

#[local] Open Scope Z_scope.

(** ** Bytes and constants *)

Definition byte_val (c : ascii) : Z := Z.of_N (N_of_ascii c).

Definition RuneError : Z := 0xFFFD.
Definition MaxRune : Z := 0x10FFFF.
Definition RuneSelf : Z := 0x80.

Definition maskx : Z := 0x3F.
Definition mask2 : Z := 0x1F.
Definition mask3 : Z := 0x0F.
Definition mask4 : Z := 0x07.
Definition locb : Z := 0x80.
Definition hicb : Z := 0xBF.

(** The information byte of a lead byte: [0xF0] for ASCII, [0xF1] for a byte
    that cannot start an encoding, otherwise the size in the low three bits
    and the index of the accepted range of the second byte in the high four. *)

Definition first (b : Z) : Z :=
  if b <? 0x80 then 0xF0
  else if b <? 0xC2 then 0xF1
  else if b <? 0xE0 then 0x02
  else if b =? 0xE0 then 0x13
  else if b <? 0xED then 0x03
  else if b =? 0xED then 0x23
  else if b <? 0xF0 then 0x03
  else if b =? 0xF0 then 0x34
  else if b <? 0xF4 then 0x04
  else if b =? 0xF4 then 0x44
  else 0xF1.

Definition acceptRanges (i : Z) : Z * Z :=
  if i =? 0 then (locb, hicb)
  else if i =? 1 then (0xA0, hicb)
  else if i =? 2 then (locb, 0x9F)
  else if i =? 3 then (0x90, hicb)
  else if i =? 4 then (locb, 0x8F)
  else (0, 0).

(** ** The decoder *)

Definition DecodeRuneInString (s : string) : Z * nat :=
  match s with
  | EmptyString => (RuneError, 0%nat)
  | String c0 t0 =>
      let s0 := byte_val c0 in
      let x := first s0 in
      if 0xF0 <=? x then
        ((if x =? 0xF0 then s0 else RuneError), 1%nat)
      else
        let sz := Z.land x 7 in
        let accept := acceptRanges (Z.shiftr x 4) in
        match t0 with
        | EmptyString => (RuneError, 1%nat)
        | String c1 t1 =>
            let s1 := byte_val c1 in
            if (s1 <? fst accept) || (snd accept <? s1) then (RuneError, 1%nat)
            else if sz <=? 2 then
              (Z.lor (Z.shiftl (Z.land s0 mask2) 6) (Z.land s1 maskx), 2%nat)
            else
              match t1 with
              | EmptyString => (RuneError, 1%nat)
              | String c2 t2 =>
                  let s2 := byte_val c2 in
                  if (s2 <? locb) || (hicb <? s2) then (RuneError, 1%nat)
                  else if sz <=? 3 then
                    (Z.lor (Z.lor (Z.shiftl (Z.land s0 mask3) 12)
                                  (Z.shiftl (Z.land s1 maskx) 6))
                           (Z.land s2 maskx), 3%nat)
                  else
                    match t2 with
                    | EmptyString => (RuneError, 1%nat)
                    | String c3 _ =>
                        let s3 := byte_val c3 in
                        if (s3 <? locb) || (hicb <? s3) then (RuneError, 1%nat)
                        else
                          (Z.lor (Z.lor (Z.lor (Z.shiftl (Z.land s0 mask4) 18)
                                               (Z.shiftl (Z.land s1 maskx) 12))
                                        (Z.shiftl (Z.land s2 maskx) 6))
                                 (Z.land s3 maskx), 4%nat)
                    end
              end
        end
  end.

(** ** Properties *)

Lemma byte_val_range c : 0 ≤ byte_val c < 256.
Proof.
  unfold byte_val. pose proof (N_ascii_bounded c) as H.
  split; [apply N2Z.is_nonneg|]. change 256 with (Z.of_N 256). by apply N2Z.inj_lt.
Qed.

Lemma byte_val_inj c d : byte_val c = byte_val d → c = d.
Proof.
  unfold byte_val. intros H%N2Z.inj.
  by rewrite <-(ascii_N_embedding c), <-(ascii_N_embedding d), H.
Qed.

(** The width never exceeds the number of bytes that are there. *)
Lemma DecodeRuneInString_width_le s :
  (snd (DecodeRuneInString s) ≤ String.length s)%nat.
Proof.
  destruct s as [|c0 [|c1 [|c2 [|c3 t]]]]; simpl;
    repeat (case_match; simpl); lia.
Qed.

(** A non-empty string always yields a rune of at least one byte, so a loop
    that drops the decoded width makes progress. *)
Lemma DecodeRuneInString_width_pos s :
  s ≠ EmptyString → (1 ≤ snd (DecodeRuneInString s))%nat.
Proof.
  destruct s as [|c0 [|c1 [|c2 [|c3 t]]]]; [done|..]; intros _; simpl;
    repeat (case_match; simpl); lia.
Qed.

Lemma DecodeRuneInString_empty : DecodeRuneInString EmptyString = (RuneError, 0%nat).
Proof. reflexivity. Qed.

(** A byte below [RuneSelf] decodes to itself, with width one. *)
Lemma DecodeRuneInString_ascii c t :
  byte_val c < RuneSelf → DecodeRuneInString (String c t) = (byte_val c, 1%nat).
Proof.
  intros Hc. unfold RuneSelf in Hc. unfold DecodeRuneInString, first.
  destruct (Z.ltb_spec (byte_val c) 0x80); [done | lia].
Qed.
