(* ===== verification/GoString.v ===== *)
(** * GoString: Go strings and the [strings] functions the store calls

    A Go string is a sequence of bytes, here a Rocq [string].  The file
    gives the slice expressions [s[:n]] and [s[n:]] (with the bounds check
    that makes Go panic), [strings.HasPrefix], [strings.TrimPrefix],
    [strings.IndexByte], [strings.Count] and [strings.SplitN] for a
    one-byte separator (the store only ever splits on ["/"]), and the order
    that Go's [<] puts on strings. *)

From S2P Require Import Prelude.
From stdpp Require Import strings.
From Stdlib Require Import ZArith Lia.

(** ** Run-time panics *)

Inductive panic : Set :=
| SliceBoundsOutOfRange
| IndexOutOfRange.

#[export] Instance panic_eq_dec : EqDecision panic.
Proof. solve_decision. Defined.

(** ** Slicing *)

(** [stake n s] is [s[:n]] and [sdrop n s] is [s[n:]], for [n ≤ len(s)]. *)

Fixpoint stake (n : nat) (s : string) : string :=
  match n, s with
  | S n', String c s' => String c (stake n' s')
  | _, _ => EmptyString
  end.

Fixpoint sdrop (n : nat) (s : string) : string :=
  match n, s with
  | S n', String _ s' => sdrop n' s'
  | _, _ => s
  end.

(** The slice expression [s[n:]] as Go evaluates it: a panic when [n] is
    past the end of [s]. *)

Definition slice_from (s : string) (n : nat) : result panic string :=
  if decide (n ≤ String.length s) then Ok (sdrop n s) else Err SliceBoundsOutOfRange.

(** The index expression [a[i]] on a slice of strings. *)

Definition index_at (a : list string) (i : nat) : result panic string :=
  match a !! i with
  | Some x => Ok x
  | None => Err IndexOutOfRange
  end.

(** ** [strings.HasPrefix], [strings.TrimPrefix] *)

Definition HasPrefix (s prefix : string) : bool :=
  bool_decide (String.length prefix ≤ String.length s)
  && bool_decide (stake (String.length prefix) s = prefix).

Definition TrimPrefix (s prefix : string) : string :=
  if HasPrefix s prefix then sdrop (String.length prefix) s else s.

(** ** [strings.IndexByte], [strings.Count], [strings.SplitN] *)

Fixpoint IndexByte (s : string) (c : ascii) : option nat :=
  match s with
  | EmptyString => None
  | String d s' => if decide (d = c) then Some 0 else S <$> IndexByte s' c
  end.

Fixpoint Count (s : string) (c : ascii) : nat :=
  match s with
  | EmptyString => 0
  | String d s' => (if decide (d = c) then 1 else 0) + Count s' c
  end.

(** The loop of [genSplit]: at most [n] cuts, then the remainder. *)

Fixpoint genSplit (n : nat) (s : string) (sep : ascii) : list string :=
  match n with
  | 0 => [s]
  | S n' =>
      match IndexByte s sep with
      | None => [s]
      | Some m => stake m s :: genSplit n' (sdrop (m + 1) s) sep
      end
  end.

Definition SplitN (s : string) (sep : ascii) (n : Z) : list string :=
  if decide (n = 0)%Z then []
  else
    let n1 := if decide (n < 0)%Z then (Z.of_nat (Count s sep) + 1)%Z else n in
    let n2 := Z.min n1 (Z.of_nat (String.length s) + 1) in
    genSplit (Z.to_nat (n2 - 1)) s sep.

(** ** The order of Go strings

    [str_lt] is Go's [<] on strings (byte-wise lexicographic); [String.le],
    from stdpp, is the reflexive order that the sorts use. *)

Definition str_lt (s1 s2 : string) : Prop := String.ltb s1 s2.

#[export] Instance str_lt_dec : RelDecision str_lt.
Proof. intros s1 s2. unfold str_lt. apply _. Defined.

(** ** Slicing lemmas *)

Section slicing.
Implicit Types (s t p : string) (n : nat) (c : ascii).

Lemma string_app_nil_l s : "" +:+ s = s.
Proof. reflexivity. Qed.

Lemma string_app_cons c s t : String c s +:+ t = String c (s +:+ t).
Proof. reflexivity. Qed.

Lemma string_app_nil_r s : s +:+ "" = s.
Proof. induction s; rewrite ?string_app_cons; by f_equal. Qed.

Lemma string_app_assoc s t p : (s +:+ t) +:+ p = s +:+ (t +:+ p).
Proof. induction s; rewrite ?string_app_cons; by f_equal. Qed.

Lemma string_app_length p t : String.length (p +:+ t) = String.length p + String.length t.
Proof. induction p; rewrite ?string_app_cons; simpl; auto. Qed.

Lemma string_app_eq_l p t : p +:+ t = p ↔ t = "".
Proof.
  split; [|intros ->; apply string_app_nil_r].
  intros H%(f_equal String.length). rewrite string_app_length in H.
  destruct t; [done | simpl in H; lia].
Qed.

Lemma stake_app_length p t : stake (String.length p) (p +:+ t) = p.
Proof. induction p; rewrite ?string_app_cons; simpl; [by destruct t | by f_equal]. Qed.

Lemma sdrop_app_length p t : sdrop (String.length p) (p +:+ t) = t.
Proof. induction p; rewrite ?string_app_cons; simpl; done. Qed.

Lemma stake_sdrop n s : stake n s +:+ sdrop n s = s.
Proof.
  revert s; induction n; intros [|c s]; simpl; [done..|].
  by rewrite string_app_cons, IHn.
Qed.

Lemma stake_length n s : n ≤ String.length s → String.length (stake n s) = n.
Proof. revert s; induction n; intros [|c s]; simpl; intros; auto with lia. Qed.

Lemma sdrop_length n s : String.length (sdrop n s) = String.length s - n.
Proof. revert s; induction n; intros [|c s]; simpl; auto. Qed.

Lemma sdrop_0 s : sdrop 0 s = s.
Proof. by destruct s. Qed.

Lemma sdrop_app_ge p t n :
  String.length p ≤ n → sdrop n (p +:+ t) = sdrop (n - String.length p) t.
Proof.
  revert n; induction p as [|c p IH]; intros n Hn; simpl in *.
  - by rewrite Nat.sub_0_r.
  - destruct n as [|n]; [lia|]. rewrite string_app_cons. simpl. apply IH. lia.
Qed.

Lemma slice_from_Ok s n t :
  slice_from s n = Ok t ↔ (n ≤ String.length s) ∧ t = sdrop n s.
Proof. unfold slice_from. case_decide; naive_solver. Qed.

Lemma slice_from_Err s n e :
  slice_from s n = Err e ↔ (String.length s < n) ∧ e = SliceBoundsOutOfRange.
Proof. unfold slice_from. case_decide; naive_solver lia. Qed.

End slicing.

(** ** Prefix lemmas *)

Section prefix.
Implicit Types (s t p : string).

Lemma HasPrefix_true s p : HasPrefix s p = true ↔ ∃ t, s = p +:+ t.
Proof.
  unfold HasPrefix. rewrite andb_true_iff, !bool_decide_eq_true. split.
  - intros [_ Hp]. exists (sdrop (String.length p) s).
    by rewrite <-Hp at 1; rewrite stake_sdrop.
  - intros [t ->]. rewrite string_app_length, stake_app_length. split; [lia | done].
Qed.

Lemma HasPrefix_false s p : HasPrefix s p = false ↔ ∀ t, s ≠ p +:+ t.
Proof.
  rewrite <-not_true_iff_false, HasPrefix_true. naive_solver.
Qed.

Lemma HasPrefix_app p t : HasPrefix (p +:+ t) p = true.
Proof. apply HasPrefix_true; eauto. Qed.

Lemma HasPrefix_empty s : HasPrefix s "" = true.
Proof. by apply HasPrefix_true; exists s. Qed.

Lemma HasPrefix_refl s : HasPrefix s s = true.
Proof. apply HasPrefix_true. exists "". by rewrite string_app_nil_r. Qed.

Lemma stake_all s : stake (String.length s) s = s.
Proof. by rewrite <-(string_app_nil_r s) at 2; rewrite stake_app_length. Qed.

Lemma sdrop_all s : sdrop (String.length s) s = "".
Proof. by rewrite <-(string_app_nil_r s) at 2; rewrite sdrop_app_length. Qed.

Lemma HasPrefix_cons a s b p :
  HasPrefix (String a s) (String b p) = bool_decide (a = b) && HasPrefix s p.
Proof.
  unfold HasPrefix. simpl. apply eq_true_iff_eq.
  rewrite !andb_true_iff, !bool_decide_eq_true. split.
  - intros [Hl [= -> ->]]. split_and!; [done | lia | done].
  - intros (-> & Hl & ->). split; [lia | done].
Qed.

Lemma TrimPrefix_app p t : TrimPrefix (p +:+ t) p = t.
Proof. unfold TrimPrefix. by rewrite HasPrefix_app, sdrop_app_length. Qed.

Lemma TrimPrefix_no_prefix s p : HasPrefix s p = false → TrimPrefix s p = s.
Proof. unfold TrimPrefix. by intros ->. Qed.

Lemma TrimPrefix_self s : TrimPrefix s s = "".
Proof. rewrite <-(string_app_nil_r s) at 1. apply TrimPrefix_app. Qed.

End prefix.

#[export] Hint Rewrite string_app_nil_l string_app_nil_r stake_app_length sdrop_app_length
  stake_sdrop stake_all sdrop_all sdrop_0
  HasPrefix_app HasPrefix_empty HasPrefix_refl TrimPrefix_app TrimPrefix_self : go.

(** ** Splitting at a byte *)

Section split.
Implicit Types (s t : string) (c sep : ascii) (n m : nat).

Lemma IndexByte_None s c : IndexByte s c = None ↔ Count s c = 0.
Proof.
  induction s as [|d s IH]; simpl; [done|].
  case_decide; [done|]. rewrite fmap_None, IH. lia.
Qed.

Lemma IndexByte_Some_lt s c m : IndexByte s c = Some m → m < String.length s.
Proof.
  revert m. induction s as [|d s IH]; intros m; simpl; [done|].
  case_decide; [intros [= <-]; lia|].
  intros (m' & Hm & ->)%fmap_Some. apply IH in Hm. lia.
Qed.

(** [genSplit] returns at least one piece and at most [n + 1]. *)
Lemma genSplit_length n s sep : 1 ≤ length (genSplit n s sep) ≤ S n.
Proof.
  revert s. induction n as [|n IH]; intros s; simpl; [lia|].
  destruct (IndexByte s sep); simpl; [|lia]. specialize (IH (sdrop (n0 + 1) s)). lia.
Qed.

(** [SplitN] with a positive count returns at least one piece, so indexing
    its result at [0] cannot panic. *)
Lemma SplitN_length s sep (n : Z) :
  (0 < n)%Z → 1 ≤ length (SplitN s sep n) ∧ (Z.of_nat (length (SplitN s sep n)) ≤ n)%Z.
Proof.
  intros Hn. unfold SplitN. rewrite decide_False, (decide_False (P := (n < 0)%Z)) by lia.
  pose proof (genSplit_length (Z.to_nat (Z.min n (Z.of_nat (String.length s) + 1) - 1)) s sep).
  lia.
Qed.

(** The two shapes of [SplitN(s, sep, 2)]. *)
Lemma SplitN_2_None s sep : IndexByte s sep = None → SplitN s sep 2 = [s].
Proof.
  intros Hi. unfold SplitN; simpl.
  destruct (Z.to_nat _); simpl; [done | by rewrite Hi].
Qed.

Lemma SplitN_2_Some s sep m :
  IndexByte s sep = Some m → SplitN s sep 2 = [stake m s; sdrop (m + 1) s].
Proof.
  intros Hi. unfold SplitN; simpl. pose proof (IndexByte_Some_lt _ _ _ Hi).
  replace (Z.to_nat _) with 1 by lia. simpl. by rewrite Hi.
Qed.

End split.
