(* ===== verification/Sorting.v ===== *)
(** * Sorting: key/value pairs and the sorts of package [sort]

    [KVPair] and [KVPairs] are the record and the slice type the store
    returns; [Less] is the comparison [KVPairs] hands to [sort.Sort] (by
    key, with Go's [<] on strings).  [sort.Sort] and [sort.Strings] promise a
    sorted rearrangement of their argument and nothing about the algorithm
    or about the order of equal elements; they are modelled by merge sort.
    The lemmas of this file show that the model is the only possible
    result: a sorted permutation of a list of strings, or of pairs with
    distinct keys, is unique. *)

From S2P Require Import Prelude GoString.
From stdpp Require Import strings sorting.

(** ** Data *)

Record KVPair : Set := mkKVPair { Key : string; Value : string }.

#[export] Instance KVPair_eq_dec : EqDecision KVPair.
Proof. solve_decision. Defined.

Abbreviation KVPairs := (list KVPair).

(** [Less] of [KVPairs], on the elements it compares, and the order a
    sorted slice satisfies: no later element is [Less] than an earlier one. *)

Definition Less (a b : KVPair) : Prop := str_lt (Key a) (Key b).

Definition kv_le (a b : KVPair) : Prop := String.le (Key a) (Key b).

#[export] Instance Less_dec : RelDecision Less.
Proof. intros a b. unfold Less. apply _. Defined.

#[export] Instance kv_le_dec : RelDecision kv_le.
Proof. intros a b. unfold kv_le. apply _. Defined.

(** ** The sorts *)

Definition sort_Sort (ks : KVPairs) : KVPairs := merge_sort kv_le ks.

Definition sort_Strings (vs : list string) : list string := merge_sort String.le vs.

(** ** The order on strings *)

Section string_order.
Implicit Types (s t : string).

Lemma string_compare_refl s : String.compare s s = Eq.
Proof.
  induction s as [|c s IH]; simpl; [done|].
  unfold Ascii.compare. by rewrite N.compare_refl.
Qed.

Lemma str_lt_compare s t : str_lt s t ↔ String.compare s t = Lt.
Proof.
  unfold str_lt, String.ltb. destruct (String.compare s t); simpl; naive_solver.
Qed.

Lemma string_le_compare s t : String.le s t ↔ String.compare s t ≠ Gt.
Proof.
  unfold String.le, String.leb. destruct (String.compare s t); simpl; naive_solver.
Qed.

Lemma str_lt_le_ne s t : str_lt s t ↔ String.le s t ∧ s ≠ t.
Proof.
  rewrite str_lt_compare, string_le_compare. split.
  - intros Hlt. split; [by rewrite Hlt|]. intros ->.
    by rewrite string_compare_refl in Hlt.
  - intros [Hle Hne]. destruct (String.compare s t) eqn:Hc; [|done..].
    by apply String.compare_eq_iff in Hc.
Qed.

Lemma str_lt_irrefl s : ¬ str_lt s s.
Proof. rewrite str_lt_le_ne. naive_solver. Qed.

Lemma str_lt_not_le s t : str_lt s t ↔ ¬ String.le t s.
Proof.
  rewrite str_lt_le_ne. split.
  - intros [Hle Hne] Hge. by apply Hne, (anti_symm String.le).
  - intros Hn. destruct (total String.le s t) as [?|?]; [|done].
    split; [done|]. by intros ->.
Qed.

#[export] Instance str_lt_trans : Transitive str_lt.
Proof.
  intros s t u [H1 N1]%str_lt_le_ne [H2 N2]%str_lt_le_ne. apply str_lt_le_ne.
  split; [by etrans|]. intros ->. by apply N1, (anti_symm String.le).
Qed.

End string_order.

(** ** Sorted lists of strings *)

Section sort_strings.
Implicit Types (vs ws : list string).

Lemma sort_Strings_Permutation vs : sort_Strings vs ≡ₚ vs.
Proof. apply merge_sort_Permutation. Qed.

Lemma sort_Strings_Sorted vs : StronglySorted String.le (sort_Strings vs).
Proof. apply (StronglySorted_merge_sort _). Qed.

Lemma sort_Strings_elem_of vs x : x ∈ sort_Strings vs ↔ x ∈ vs.
Proof. by rewrite sort_Strings_Permutation. Qed.

Lemma sort_Strings_length vs : length (sort_Strings vs) = length vs.
Proof. by rewrite sort_Strings_Permutation. Qed.

(** Any sorted rearrangement of [vs] is the model's output: the result of
    [sort.Strings] does not depend on the algorithm. *)
Lemma sort_Strings_unique vs ws :
  ws ≡ₚ vs → Sorted String.le ws → ws = sort_Strings vs.
Proof.
  intros Hp Hs. apply (Sorted_unique String.le); [done| |].
  - apply (Sorted_merge_sort _).
  - by rewrite sort_Strings_Permutation.
Qed.

Lemma sort_Strings_perm vs ws : vs ≡ₚ ws → sort_Strings vs = sort_Strings ws.
Proof.
  intros Hp. apply sort_Strings_unique; [by rewrite sort_Strings_Permutation|].
  apply (Sorted_merge_sort _).
Qed.

Lemma sort_Strings_NoDup vs : NoDup vs → NoDup (sort_Strings vs).
Proof. by rewrite sort_Strings_Permutation. Qed.

(** Without duplicates the result is strictly increasing. *)
Lemma sort_Strings_strict vs :
  NoDup vs → StronglySorted str_lt (sort_Strings vs).
Proof.
  intros Hnd%sort_Strings_NoDup. pose proof (sort_Strings_Sorted vs) as Hs.
  induction Hs as [|x l Hs IH Hall]; [constructor|].
  apply NoDup_cons in Hnd as [Hx Hnd]. constructor; [by apply IH|].
  apply Forall_forall. intros y Hy. apply str_lt_le_ne. split.
  - by eapply Forall_forall in Hall.
  - by intros ->.
Qed.

End sort_strings.

(** ** Sorted slices of pairs *)

Section sort_pairs.
Implicit Types (ks ls : KVPairs).

#[export] Instance kv_le_trans : Transitive kv_le.
Proof. intros a b c. unfold kv_le. apply transitivity. Qed.

#[export] Instance kv_le_total : Total kv_le.
Proof. intros a b. unfold kv_le. apply total, _. Qed.

Lemma sort_Sort_Permutation ks : sort_Sort ks ≡ₚ ks.
Proof. apply merge_sort_Permutation. Qed.

Lemma sort_Sort_Sorted ks : StronglySorted kv_le (sort_Sort ks).
Proof. apply (StronglySorted_merge_sort _). Qed.

Lemma sort_Sort_elem_of ks kv : kv ∈ sort_Sort ks ↔ kv ∈ ks.
Proof. by rewrite sort_Sort_Permutation. Qed.

Lemma sort_Sort_length ks : length (sort_Sort ks) = length ks.
Proof. by rewrite sort_Sort_Permutation. Qed.

Lemma sort_Sort_nil_inv ks : sort_Sort ks = [] → ks = [].
Proof.
  intros H. apply Permutation_nil_r. by rewrite <-H, sort_Sort_Permutation.
Qed.

(** Two pairs of a slice with distinct keys that compare equal both ways
    are the same pair. *)
Lemma kv_le_antisym_on ks a b :
  NoDup (Key <$> ks) → a ∈ ks → b ∈ ks → kv_le a b → kv_le b a → a = b.
Proof.
  intros Hnd Ha Hb Hab Hba. apply (NoDup_fmap_elem_of_inj Key ks); [done..|].
  by apply (anti_symm String.le).
Qed.

(** With distinct keys, any sorted rearrangement of [ks] is the model's
    output: neither the algorithm of [sort.Sort] nor its instability can be
    observed. *)
Lemma sort_Sort_unique ks ls :
  NoDup (Key <$> ks) → ls ≡ₚ ks → Sorted kv_le ls → ls = sort_Sort ks.
Proof.
  intros Hnd Hp Hs. apply (Sorted_unique_strong kv_le); [|done| |].
  - intros a b Ha Hb. rewrite sort_Sort_elem_of in Hb. rewrite Hp in Ha.
    by apply (kv_le_antisym_on ks).
  - apply (Sorted_merge_sort _).
  - by rewrite sort_Sort_Permutation.
Qed.

Lemma sort_Sort_perm ks ls :
  NoDup (Key <$> ks) → ks ≡ₚ ls → sort_Sort ks = sort_Sort ls.
Proof.
  intros Hnd Hp. symmetry. apply sort_Sort_unique; [done| |].
  - by rewrite sort_Sort_Permutation.
  - apply (Sorted_merge_sort _).
Qed.

(** With distinct keys the result is strictly increasing for [Less]. *)
Lemma sort_Sort_strict ks :
  NoDup (Key <$> ks) → StronglySorted Less (sort_Sort ks).
Proof.
  intros Hnd. rewrite <-(sort_Sort_Permutation ks) in Hnd.
  pose proof (sort_Sort_Sorted ks) as Hs.
  induction Hs as [|x l Hs IH Hall]; [constructor|].
  rewrite fmap_cons in Hnd. apply NoDup_cons in Hnd as [Hx Hnd].
  constructor; [by apply IH|].
  apply Forall_forall. intros y Hy. apply str_lt_le_ne. split.
  - by eapply Forall_forall in Hall.
  - intros Heq. apply Hx. rewrite Heq. by apply list_elem_of_fmap_2.
Qed.

End sort_pairs.
