(* ===== verification/Match.v ===== *)
(** * Match: shell-pattern matching of [path/filepath]

    [GetAll] tests every key against its pattern with [filepath.Match].
    This file models that function for the separator ['/'] (the non-Windows
    build): [getEsc], [matchChunk] with its character-class loop,
    [scanChunk], and [Match] with its star loop and the final check that
    the rest of the pattern is well formed.

    The loops that consume the pattern are not structural; they take fuel
    and return [None] when it runs out.  [matchChunk] and [Match] start them
    with the length of the text they consume plus one, and the lemmas at
    the end of the file show that this is always enough. *)

From S2P Require Import Prelude Utf8 GoString.
From stdpp Require Import strings.
From Stdlib Require Import ZArith Lia.

(** ** Errors and constants *)

Inductive match_error : Set := ErrBadPattern.

#[export] Instance match_error_eq_dec : EqDecision match_error.
Proof. solve_decision. Defined.

Definition Separator : ascii := "/"%char.

(** [strings.Contains] for a one-byte substring. *)
Definition Contains (s : string) (c : ascii) : bool :=
  bool_decide (is_Some (IndexByte s c)).

(** ** [getEsc]: one possibly escaped character of a class *)

Definition getEsc (chunk : string) : result match_error (Z * string) :=
  match chunk with
  | EmptyString => Err ErrBadPattern
  | String c rest =>
      if bool_decide (c = "-"%char) || bool_decide (c = "]"%char) then Err ErrBadPattern
      else
        let chunk1 := if bool_decide (c = "\"%char) then rest else chunk in
        if bool_decide (chunk1 = EmptyString) then Err ErrBadPattern
        else
          let '(r, n) := DecodeRuneInString chunk1 in
          if bool_decide (r = RuneError) && bool_decide (n = 1) then Err ErrBadPattern
          else
            let nchunk := sdrop n chunk1 in
            if bool_decide (nchunk = EmptyString) then Err ErrBadPattern
            else Ok (r, nchunk)
  end.

(** One range [lo] or [lo-hi] of a class: the two calls of [getEsc] in the
    body of the class loop. *)

Definition getRange (chunk : string) : result match_error (Z * Z * string) :=
  match getEsc chunk with
  | Err e => Err e
  | Ok (lo, chunk1) =>
      match chunk1 with
      | EmptyString => Ok (lo, lo, chunk1)
      | String c chunk2 =>
          if bool_decide (c = "-"%char) then
            match getEsc chunk2 with
            | Err e => Err e
            | Ok (hi, chunk3) => Ok (lo, hi, chunk3)
            end
          else Ok (lo, lo, chunk1)
      end
  end.

(** The loop that parses all ranges of a class, after ['['] and the
    optional ['^']: it returns whether [r] is in one of them and what
    follows the closing [']']. *)

Fixpoint classLoop (fuel : nat) (r : Z) (chunk : string) (matched : bool) (nrange : nat)
  : option (result match_error (bool * string)) :=
  match fuel with
  | 0 => None
  | S fuel' =>
      if bool_decide (stake 1 chunk = "]") && bool_decide (0 < nrange) then
        Some (Ok (matched, sdrop 1 chunk))
      else
        match getRange chunk with
        | Err e => Some (Err e)
        | Ok (lo, hi, chunk') =>
            classLoop fuel' r chunk'
              (matched || (bool_decide (lo ≤ r)%Z && bool_decide (r ≤ hi)%Z)) (S nrange)
        end
  end.

(** ** [matchChunk] *)

Fixpoint matchChunk_loop (fuel : nat) (chunk s : string) (failed : bool)
  : option (result match_error (string * bool)) :=
  match fuel with
  | 0 => None
  | S fuel' =>
      match chunk with
      | EmptyString => Some (Ok (if failed then (EmptyString, false) else (s, true)))
      | String c chunk1 =>
          let failed := failed || bool_decide (s = EmptyString) in
          if bool_decide (c = "["%char) then
            let '(r, s1) :=
              if failed then (0%Z, s)
              else let '(r, n) := DecodeRuneInString s in (r, sdrop n s) in
            let negated := bool_decide (stake 1 chunk1 = "^") in
            let chunk2 := if negated then sdrop 1 chunk1 else chunk1 in
            match classLoop fuel' r chunk2 false 0 with
            | None => None
            | Some (Err e) => Some (Err e)
            | Some (Ok (matched, chunk3)) =>
                matchChunk_loop fuel' chunk3 s1 (failed || bool_decide (matched = negated))
            end
          else if bool_decide (c = "?"%char) then
            if failed then matchChunk_loop fuel' chunk1 s failed
            else
              match s with
              | EmptyString => None
              | String s0 _ =>
                  matchChunk_loop fuel' chunk1 (sdrop (snd (DecodeRuneInString s)) s)
                    (bool_decide (s0 = Separator))
              end
          else
            let lit := if bool_decide (c = "\"%char) then chunk1 else chunk in
            match lit with
            | EmptyString => Some (Err ErrBadPattern)
            | String d chunk2 =>
                if failed then matchChunk_loop fuel' chunk2 s failed
                else
                  match s with
                  | EmptyString => None
                  | String s0 s1 => matchChunk_loop fuel' chunk2 s1 (bool_decide (d ≠ s0))
                  end
            end
      end
  end.

Definition matchChunk (chunk s : string) : result match_error (string * bool) :=
  default (Err ErrBadPattern) (matchChunk_loop (S (String.length chunk)) chunk s false).

(** ** [scanChunk] *)

Fixpoint skipStars (pattern : string) (star : bool) : bool * string :=
  match pattern with
  | EmptyString => (star, pattern)
  | String c pattern' =>
      if bool_decide (c = "*"%char) then skipStars pattern' true else (star, pattern)
  end.

(** The index at which the scan of a chunk stops. *)

Fixpoint scanIndex (pattern : string) (inrange : bool) : nat :=
  match pattern with
  | EmptyString => 0
  | String c p1 =>
      if bool_decide (c = "\"%char) then
        match p1 with
        | EmptyString => 1
        | String _ p2 => 2 + scanIndex p2 inrange
        end
      else if bool_decide (c = "["%char) then 1 + scanIndex p1 true
      else if bool_decide (c = "]"%char) then 1 + scanIndex p1 false
      else if bool_decide (c = "*"%char) then
        if inrange then 1 + scanIndex p1 inrange else 0
      else 1 + scanIndex p1 inrange
  end.

Definition scanChunk (pattern : string) : bool * string * string :=
  let '(star, pattern) := skipStars pattern false in
  let i := scanIndex pattern false in
  (star, stake i pattern, sdrop i pattern).

(** ** [Match] *)

(** The loop that, after a star, tries the chunk at every later position of
    the name up to the next separator.  [Some t] is a match that leaves [t];
    [last] says that the chunk is the last one, which must consume the whole
    name. *)

Fixpoint starLoop (chunk : string) (last : bool) (name : string)
  : result match_error (option string) :=
  match name with
  | EmptyString => Ok None
  | String c name' =>
      if bool_decide (c = Separator) then Ok None
      else
        match matchChunk chunk name' with
        | Err e => Err e
        | Ok (t, true) =>
            if last && bool_decide (t ≠ EmptyString) then starLoop chunk last name'
            else Ok (Some t)
        | Ok (_, false) => starLoop chunk last name'
        end
  end.

(** The check, made before [Match] answers [false], that the rest of the
    pattern is well formed. *)

Fixpoint checkRest (fuel : nat) (pattern : string) : option (result match_error ()) :=
  match fuel with
  | 0 => None
  | S fuel' =>
      match pattern with
      | EmptyString => Some (Ok ())
      | _ =>
          let '(_, chunk, rest) := scanChunk pattern in
          match matchChunk chunk EmptyString with
          | Err e => Some (Err e)
          | Ok _ => checkRest fuel' rest
          end
      end
  end.

(** What [Match] does when the chunk did not match at the current
    position: [found] is the outcome of the star loop (or [Ok None] without
    a star), [continue] the rest of the matching after a later match, and
    [check] the check of the rest of the pattern that precedes the answer
    [false]. *)

Definition retry (found : result match_error (option string))
    (continue : string → option (result match_error bool))
    (check : option (result match_error ())) : option (result match_error bool) :=
  match found with
  | Err e => Some (Err e)
  | Ok (Some t) => continue t
  | Ok None =>
      match check with
      | None => None
      | Some (Err e) => Some (Err e)
      | Some (Ok _) => Some (Ok false)
      end
  end.

Fixpoint Match_loop (fuel : nat) (pattern name : string) : option (result match_error bool) :=
  match fuel with
  | 0 => None
  | S fuel' =>
      match pattern with
      | EmptyString => Some (Ok (bool_decide (name = EmptyString)))
      | _ =>
          let '(star, chunk, rest) := scanChunk pattern in
          if star && bool_decide (chunk = EmptyString) then
            Some (Ok (negb (Contains name Separator)))
          else
            let found :=
              if star then starLoop chunk (bool_decide (rest = EmptyString)) name
              else Ok None in
            match matchChunk chunk name with
            | Err e => Some (Err e)
            | Ok (t, true) =>
                if bool_decide (t = EmptyString) || bool_decide (rest ≠ EmptyString)
                then Match_loop fuel' rest t
                else retry found (Match_loop fuel' rest) (checkRest fuel' rest)
            | Ok (_, false) => retry found (Match_loop fuel' rest) (checkRest fuel' rest)
            end
      end
  end.

Definition Match (pattern name : string) : result match_error bool :=
  default (Err ErrBadPattern) (Match_loop (S (String.length pattern)) pattern name).

(** ** Progress: every step consumes pattern *)

Section progress.
Implicit Types (chunk pattern s name : string) (fuel : nat) (r lo hi : Z).

#[local] Open Scope nat_scope.

(** A successful [getEsc] decoded one rune of [chunk], after an optional
    backslash, and leaves a non-empty rest. *)
Lemma getEsc_Ok chunk r nchunk :
  getEsc chunk = Ok (r, nchunk) →
  ∃ chunk1, (chunk1 = chunk ∨ String "\"%char chunk1 = chunk) ∧ chunk1 ≠ EmptyString
    ∧ r = fst (DecodeRuneInString chunk1)
    ∧ nchunk = sdrop (snd (DecodeRuneInString chunk1)) chunk1
    ∧ nchunk ≠ EmptyString.
Proof.
  unfold getEsc. destruct chunk as [|c rest]; [done|].
  destruct (_ || _); [done|].
  set (chunk1 := if bool_decide (c = "\"%char) then rest else String c rest).
  case_bool_decide as Hne; [done|].
  destruct (DecodeRuneInString chunk1) as [r' n] eqn:E.
  destruct (_ && _); [done|]. case_bool_decide as Hn; [done|]. intros [= <- <-].
  exists chunk1. rewrite E. split_and!; try done.
  unfold chunk1. case_bool_decide; [right; by subst | by left].
Qed.

Lemma getEsc_shorter chunk r nchunk :
  getEsc chunk = Ok (r, nchunk) →
  String.length nchunk < String.length chunk ∧ nchunk ≠ EmptyString.
Proof.
  intros (chunk1 & Hc & Hne & _ & -> & Hn)%getEsc_Ok. split; [|done].
  pose proof (DecodeRuneInString_width_pos chunk1 Hne).
  assert (1 ≤ String.length chunk1) by (destruct chunk1; [done | simpl; lia]).
  rewrite sdrop_length. destruct Hc as [<-|<-]; simpl; lia.
Qed.

Lemma getRange_shorter chunk lo hi chunk' :
  getRange chunk = Ok (lo, hi, chunk') → String.length chunk' < String.length chunk.
Proof.
  unfold getRange. destruct (getEsc chunk) as [[lo' chunk1]|] eqn:E1; [|done].
  apply getEsc_shorter in E1 as [H1 _].
  destruct chunk1 as [|c chunk2]; [by intros [= <- <- <-]|].
  case_bool_decide; [|by intros [= <- <- <-]].
  destruct (getEsc chunk2) as [[hi' chunk3]|] eqn:E2; [|done].
  apply getEsc_shorter in E2 as [H2 _]. intros [= <- <- <-]. simpl in *. lia.
Qed.

(** With more fuel than there is chunk, the class loop finishes, and what
    it leaves is shorter than what it was given. *)
Lemma classLoop_fuel fuel r chunk matched nrange :
  String.length chunk < fuel →
  ∃ res, classLoop fuel r chunk matched nrange = Some res ∧
    ∀ m chunk', res = Ok (m, chunk') → String.length chunk' < String.length chunk.
Proof.
  revert chunk matched nrange. induction fuel as [|fuel IH]; intros chunk matched nrange Hf;
    [lia|]. simpl. destruct (_ && _) eqn:Hclose.
  - eexists. split; [done|]. intros m c [= <- <-].
    apply andb_true_iff in Hclose as [Hc%bool_decide_eq_true _].
    destruct chunk; [done | simpl; lia].
  - destruct (getRange chunk) as [[[lo hi] chunk']|e] eqn:E; [|by eexists].
    apply getRange_shorter in E.
    destruct (IH chunk' (matched || bool_decide (lo ≤ r)%Z && bool_decide (r ≤ hi)%Z)
                (S nrange)) as (res & -> & Hres); [lia|].
    exists res. split; [done|]. intros m c ->. specialize (Hres _ _ eq_refl). lia.
Qed.

Lemma classLoop_fuel_indep fuel fuel' r chunk matched nrange :
  String.length chunk < fuel → String.length chunk < fuel' →
  classLoop fuel r chunk matched nrange = classLoop fuel' r chunk matched nrange.
Proof.
  revert fuel' chunk matched nrange.
  induction fuel as [|fuel IH]; intros [|fuel'] chunk matched nrange Hf Hf'; try lia.
  simpl. destruct (_ && _); [done|].
  destruct (getRange chunk) as [[[lo hi] chunk']|e] eqn:E; [|done].
  apply getRange_shorter in E. apply IH; lia.
Qed.

(** The chunk that follows the optional ['^'] of a class. *)
Lemma negated_chunk_length chunk1 :
  String.length (if bool_decide (stake 1 chunk1 = "^") then sdrop 1 chunk1 else chunk1)
  ≤ String.length chunk1.
Proof. case_bool_decide; [rewrite sdrop_length|]; lia. Qed.

(** The text compared literally after an optional backslash. *)
Lemma literal_chunk_length c chunk1 d chunk2 :
  (if bool_decide (c = "\"%char) then chunk1 else String c chunk1) = String d chunk2 →
  String.length chunk2 ≤ String.length chunk1.
Proof. case_bool_decide; [intros ->; simpl; lia | by intros [= _ ->]]. Qed.

Lemma matchChunk_loop_fuel_indep fuel fuel' chunk s failed :
  String.length chunk < fuel → String.length chunk < fuel' →
  matchChunk_loop fuel chunk s failed = matchChunk_loop fuel' chunk s failed.
Proof.
  revert fuel' chunk s failed.
  induction fuel as [|fuel IH]; intros [|fuel'] chunk s failed Hf Hf'; try lia.
  destruct chunk as [|c chunk1]; [done|]. simpl in Hf, Hf'.
  cbn [matchChunk_loop]. case_bool_decide as Hc1; [|case_bool_decide as Hc2].
  - pose proof (negated_chunk_length chunk1) as Hn.
    destruct (if failed || _ then _ else _) as [r s1].
    rewrite (classLoop_fuel_indep fuel fuel') by lia.
    destruct (classLoop_fuel fuel' r
      (if bool_decide (stake 1 chunk1 = "^") then sdrop 1 chunk1 else chunk1) false 0)
      as (res & -> & Hres); [lia|].
    destruct res as [[matched chunk3]|e]; [|done].
    specialize (Hres _ _ eq_refl). apply IH; lia.
  - destruct (failed || _); [apply IH; lia|]. destruct s; [done|]. apply IH; lia.
  - destruct (if bool_decide _ then chunk1 else _) as [|d chunk2] eqn:El; [done|].
    apply literal_chunk_length in El.
    destruct (failed || _); [apply IH; lia|]. destruct s; [done|]. apply IH; lia.
Qed.

(** With more fuel than there is chunk, [matchChunk_loop] finishes. *)
Lemma matchChunk_loop_Some fuel chunk s failed :
  String.length chunk < fuel → is_Some (matchChunk_loop fuel chunk s failed).
Proof.
  revert chunk s failed. induction fuel as [|fuel IH]; intros chunk s failed Hf; [lia|].
  destruct chunk as [|c chunk1]; [done|]. simpl in Hf.
  cbn [matchChunk_loop]. case_bool_decide as Hc1; [|case_bool_decide as Hc2].
  - pose proof (negated_chunk_length chunk1) as Hn.
    destruct (if failed || _ then _ else _) as [r s1].
    destruct (classLoop_fuel fuel r
      (if bool_decide (stake 1 chunk1 = "^") then sdrop 1 chunk1 else chunk1) false 0)
      as (res & -> & Hres); [lia|].
    destruct res as [[matched chunk3]|e]; [|done].
    specialize (Hres _ _ eq_refl). apply IH; lia.
  - destruct failed; simpl; [apply IH; lia|].
    case_bool_decide; [apply IH; lia|]. destruct s; [done|]. apply IH; lia.
  - destruct (if bool_decide _ then chunk1 else _) as [|d chunk2] eqn:El; [done|].
    apply literal_chunk_length in El. destruct failed; simpl; [apply IH; lia|].
    case_bool_decide; [apply IH; lia|]. destruct s; [done|]. apply IH; lia.
Qed.

(** [matchChunk] is its loop run to completion, with any sufficient fuel. *)
Lemma matchChunk_loop_matchChunk fuel chunk s :
  String.length chunk < fuel →
  matchChunk_loop fuel chunk s false = Some (matchChunk chunk s).
Proof.
  intros Hf. unfold matchChunk.
  rewrite (matchChunk_loop_fuel_indep (S (String.length chunk)) fuel) by lia.
  by destruct (matchChunk_loop_Some fuel chunk s false Hf) as [res ->].
Qed.

(** *** [scanChunk] *)

Lemma skipStars_length pattern star :
  String.length (snd (skipStars pattern star)) ≤ String.length pattern.
Proof.
  revert star. induction pattern as [|c p IH]; intros star; simpl; [done|].
  case_bool_decide; simpl; [|lia]. specialize (IH true). lia.
Qed.

Lemma skipStars_no_star pattern star :
  stake 1 (snd (skipStars pattern star)) ≠ "*".
Proof.
  revert star. induction pattern as [|c p IH]; intros star; simpl; [done|].
  case_bool_decide; [apply IH|]. simpl. destruct p; naive_solver.
Qed.

Lemma scanIndex_le pattern inrange : scanIndex pattern inrange ≤ String.length pattern.
Proof.
  remember (String.length pattern) as n eqn:Hn. revert pattern inrange Hn.
  induction n as [n IH] using lt_wf_ind. intros [|c p] inrange ->; simpl; [done|].
  assert (∀ b, scanIndex p b ≤ String.length p) as Hp
    by (intros b; by apply (IH (String.length p)); [simpl; lia|]).
  repeat case_bool_decide; try (by apply le_n_S).
  - destruct p as [|d p2]; simpl; [lia|].
    pose proof (IH (String.length p2) ltac:(simpl; lia) p2 inrange eq_refl). lia.
  - destruct inrange; [by apply le_n_S | lia].
Qed.

Lemma scanIndex_pos pattern :
  pattern ≠ EmptyString → stake 1 pattern ≠ "*" → 1 ≤ scanIndex pattern false.
Proof.
  destruct pattern as [|c p]; [done|]. intros _ Hc. simpl.
  repeat case_bool_decide; try lia.
  - destruct p; lia.
  - subst c. by destruct p.
Qed.

(** What [scanChunk] leaves is shorter than a non-empty pattern: each
    round of the loops of [Match] consumes some of it. *)
Lemma scanChunk_shorter pattern star chunk rest :
  pattern ≠ EmptyString → scanChunk pattern = (star, chunk, rest) →
  String.length rest < String.length pattern.
Proof.
  intros Hne. unfold scanChunk.
  pose proof (skipStars_length pattern false) as Hl.
  pose proof (skipStars_no_star pattern false) as Hs.
  destruct (skipStars pattern false) as [st p]; simpl in *. intros [= _ _ <-].
  rewrite sdrop_length. destruct (decide (p = EmptyString)) as [->|Hp].
  - simpl. destruct pattern; [done | simpl; lia].
  - pose proof (scanIndex_pos p Hp Hs). pose proof (scanIndex_le p false).
    assert (1 ≤ String.length p) by (destruct p; [done | simpl; lia]). lia.
Qed.

(** *** [checkRest] and [Match_loop] *)

Lemma checkRest_fuel_indep fuel fuel' pattern :
  String.length pattern < fuel → String.length pattern < fuel' →
  checkRest fuel pattern = checkRest fuel' pattern ∧ is_Some (checkRest fuel pattern).
Proof.
  revert fuel' pattern.
  induction fuel as [|fuel IH]; intros [|fuel'] pattern Hf Hf'; try lia.
  destruct pattern as [|c p]; [done|]. cbn [checkRest].
  destruct (scanChunk (String c p)) as [[star chunk] rest] eqn:E.
  apply scanChunk_shorter in E; [|done].
  destruct (matchChunk chunk EmptyString); [|done]. apply IH; lia.
Qed.

Lemma retry_fuel_indep found continue continue' check check' :
  (∀ t, continue t = continue' t ∧ is_Some (continue t)) →
  check = check' ∧ is_Some check →
  retry found continue check = retry found continue' check'
  ∧ is_Some (retry found continue check).
Proof.
  intros Hc [<- [[|] ->]]; destruct found as [[t|]|]; simpl; auto.
Qed.

Lemma Match_loop_fuel_indep fuel fuel' pattern name :
  String.length pattern < fuel → String.length pattern < fuel' →
  Match_loop fuel pattern name = Match_loop fuel' pattern name
  ∧ is_Some (Match_loop fuel pattern name).
Proof.
  revert fuel' pattern name.
  induction fuel as [|fuel IH]; intros [|fuel'] pattern name Hf Hf'; try lia.
  destruct pattern as [|c p]; [done|]. cbn [Match_loop].
  destruct (scanChunk (String c p)) as [[star chunk] rest] eqn:E.
  apply scanChunk_shorter in E; [|done].
  destruct (_ && _); [done|].
  assert (∀ t, Match_loop fuel rest t = Match_loop fuel' rest t
               ∧ is_Some (Match_loop fuel rest t)) as Hrec by (intros t; apply IH; lia).
  pose proof (checkRest_fuel_indep fuel fuel' rest ltac:(lia) ltac:(lia)) as Hcr.
  destruct (matchChunk chunk name) as [[t [|]]|e];
    [destruct (_ || _)|..]; auto using retry_fuel_indep.
Qed.

(** [Match] is its loop run to completion, with any sufficient fuel: the
    fuel that [Match] supplies is never exhausted. *)
Lemma Match_loop_Match fuel pattern name :
  String.length pattern < fuel → Match_loop fuel pattern name = Some (Match pattern name).
Proof.
  intros Hf. unfold Match.
  destruct (Match_loop_fuel_indep fuel (S (String.length pattern)) pattern name)
    as [<- [res ->]]; [lia..|done].
Qed.

End progress.
