(* ===== verification/MatchFacts.v ===== *)
(** * MatchFacts: what [filepath.Match] answers

    The lemmas of this file free the clients of [Match] from its loops.
    [Match_err] shows that whether [Match] reports [ErrBadPattern] depends
    on the pattern alone: it is the error of [pattern_error], the check of
    all chunks of the pattern against no name.  [Match_unfold] is one round
    of the loop of [Match] without fuel.  [Match_literal] and
    [Match_literal_star] give the answer for a pattern without special
    characters and for such a pattern followed by a star.  [Match_tests]
    runs the model on the test table of the package. *)

From S2P Require Import Prelude Utf8 GoString Match.
From stdpp Require Import strings.
From Stdlib Require Import ZArith Lia.

(** ** Errors and literal patterns *)

Definition err_of {A} (r : result match_error A) : option match_error :=
  match r with
  | Err e => Some e
  | Ok _ => None
  end.

(** The chunk checked without a name: what [matchChunk] does once the
    match has failed. *)
Definition chunk_check (chunk : string) : option match_error :=
  err_of (default (Err ErrBadPattern)
            (matchChunk_loop (S (String.length chunk)) chunk EmptyString true)).

(** The error of a pattern: what the check of all its chunks reports. *)
Definition pattern_error (pattern : string) : option match_error :=
  err_of (default (Err ErrBadPattern) (checkRest (S (String.length pattern)) pattern)).

(** The check of a whole pattern, with the fuel [Match] gives it. *)
Definition check (pattern : string) : result match_error () :=
  default (Err ErrBadPattern) (checkRest (S (String.length pattern)) pattern).

(** Patterns without a character that [Match] treats specially. *)
Definition special (c : ascii) : bool :=
  bool_decide (c = "*"%char) || bool_decide (c = "?"%char)
  || bool_decide (c = "["%char) || bool_decide (c = "\"%char).

Fixpoint literal (pattern : string) : bool :=
  match pattern with
  | EmptyString => true
  | String c pattern' => negb (special c) && literal pattern'
  end.

Definition rest_of (x : option (result match_error (bool * string)))
  : option (result match_error string) :=
  match x with
  | Some (Ok (_, chunk)) => Some (Ok chunk)
  | Some (Err e) => Some (Err e)
  | None => None
  end.

(** Cases of the test table of package [path/filepath] (match_test.go):
    pattern, name, and what [Match] answers. *)

Definition match_tests : list (string * string * result match_error bool) :=
  [ ("abc", "abc", Ok true);
    ("*", "abc", Ok true);
    ("*c", "abc", Ok true);
    ("a*", "a", Ok true);
    ("a*", "abc", Ok true);
    ("a*", "ab/c", Ok false);
    ("a*/b", "abc/b", Ok true);
    ("a*/b", "a/c/b", Ok false);
    ("a*b*c*d*e*/f", "axbxcxdxe/f", Ok true);
    ("a*b*c*d*e*/f", "axbxcxdxexxx/f", Ok true);
    ("a*b*c*d*e*/f", "axbxcxdxe/xxx/f", Ok false);
    ("a*b*c*d*e*/f", "axbxcxdxexxx/fff", Ok false);
    ("a*b?c*x", "abxbbxdbxebxczzx", Ok true);
    ("a*b?c*x", "abxbbxdbxebxczzy", Ok false);
    ("ab[c]", "abc", Ok true);
    ("ab[b-d]", "abc", Ok true);
    ("ab[e-g]", "abc", Ok false);
    ("ab[^c]", "abc", Ok false);
    ("ab[^b-d]", "abc", Ok false);
    ("ab[^e-g]", "abc", Ok true);
    ("a\*b", "a*b", Ok true);
    ("a\*b", "ab", Ok false);
    ("a?b", "a☺b", Ok true);
    ("a[^a]b", "a☺b", Ok true);
    ("a???b", "a☺b", Ok false);
    ("a[^a][^a][^a]b", "a☺b", Ok false);
    ("[a-ζ]*", "α", Ok true);
    ("*[a-ζ]", "A", Ok false);
    ("a?b", "a/b", Ok false);
    ("a*b", "a/b", Ok false);
    ("[\]a]", "]", Ok true);
    ("[\-]", "-", Ok true);
    ("[x\-]", "x", Ok true);
    ("[x\-]", "-", Ok true);
    ("[x\-]", "z", Ok false);
    ("[\-x]", "x", Ok true);
    ("[\-x]", "-", Ok true);
    ("[\-x]", "a", Ok false);
    ("[]a]", "]", Err ErrBadPattern);
    ("[-]", "-", Err ErrBadPattern);
    ("[x-]", "x", Err ErrBadPattern);
    ("[x-]", "-", Err ErrBadPattern);
    ("[x-]", "z", Err ErrBadPattern);
    ("[-x]", "x", Err ErrBadPattern);
    ("[-x]", "-", Err ErrBadPattern);
    ("[-x]", "a", Err ErrBadPattern);
    ("\", "a", Err ErrBadPattern);
    ("[a-b-c]", "a", Err ErrBadPattern);
    ("[", "a", Err ErrBadPattern);
    ("[^", "a", Err ErrBadPattern);
    ("[^bc", "a", Err ErrBadPattern);
    ("a[", "a", Err ErrBadPattern);
    ("a[", "ab", Err ErrBadPattern);
    ("a[", "x", Err ErrBadPattern);
    ("a/b[", "x", Err ErrBadPattern);
    ("*x", "xxx", Ok true) ].

(** ** The error depends on the pattern alone *)

Section errors.
Implicit Types (chunk pattern s name : string) (fuel : nat) (r lo hi : Z).
#[local] Open Scope nat_scope.

(** What the class loop leaves of the chunk does not depend on the rune
    it compares. *)
Lemma classLoop_rest fuel r r' chunk m m' k :
  rest_of (classLoop fuel r chunk m k) = rest_of (classLoop fuel r' chunk m' k).
Proof.
  revert chunk m m' k. induction fuel as [|fuel IH]; intros chunk m m' k; [done|].
  simpl. destruct (_ && _); [done|].
  destruct (getRange chunk) as [[[lo hi] chunk']|e]; [apply IH | done].
Qed.

Lemma classLoop_rest_cases fuel r r' chunk m m' k :
  String.length chunk < fuel →
  (∃ b b' chunk', classLoop fuel r chunk m k = Some (Ok (b, chunk'))
      ∧ classLoop fuel r' chunk m' k = Some (Ok (b', chunk'))
      ∧ String.length chunk' < String.length chunk)
  ∨ (∃ e, classLoop fuel r chunk m k = Some (Err e)
      ∧ classLoop fuel r' chunk m' k = Some (Err e)).
Proof.
  intros Hf. pose proof (classLoop_rest fuel r r' chunk m m' k) as H.
  destruct (classLoop_fuel fuel r chunk m k Hf) as (res & E & Hres).
  destruct (classLoop_fuel fuel r' chunk m' k Hf) as (res' & E' & _).
  rewrite E, E' in H. destruct res as [[b c]|e], res' as [[b' c']|e']; simplify_eq/=.
  - left. exists b, b', c'. split_and!; [done..|]. by eapply Hres.
  - right. by exists e'.
Qed.

(** The error of [matchChunk] is the error it reports once the match has
    failed, when it no longer reads the name. *)
Lemma matchChunk_loop_err fuel chunk s failed :
  String.length chunk < fuel →
  err_of <$> matchChunk_loop fuel chunk s failed
  = err_of <$> matchChunk_loop fuel chunk EmptyString true.
Proof.
  revert chunk s failed. induction fuel as [|fuel IH]; intros chunk s failed Hf; [lia|].
  destruct chunk as [|c chunk1]; [by destruct failed|]. simpl in Hf.
  cbn [matchChunk_loop orb]. case_bool_decide as Hc1; [|case_bool_decide as Hc2].
  - pose proof (negated_chunk_length chunk1) as Hn.
    set (chunk2 := if bool_decide (stake 1 chunk1 = "^") then sdrop 1 chunk1 else chunk1) in *.
    destruct (if failed || _ then _ else _) as [r s1].
    destruct (classLoop_rest_cases fuel r 0%Z chunk2 false false 0)
      as [(b & b' & chunk3 & -> & -> & Hlen)|(e & -> & ->)]; [lia| |done].
    by rewrite (IH chunk3 s1) by lia.
  - simpl. destruct failed; simpl; [apply IH; lia|].
    case_bool_decide; [apply IH; lia|]. destruct s; [done|].
    rewrite IH by lia. done.
  - destruct (if bool_decide _ then chunk1 else _) as [|d chunk2] eqn:El; [done|].
    apply literal_chunk_length in El. simpl. destruct failed; simpl; [apply IH; lia|].
    case_bool_decide; [apply IH; lia|]. destruct s; [done|]. rewrite IH by lia. done.
Qed.

Lemma matchChunk_err chunk s : err_of (matchChunk chunk s) = chunk_check chunk.
Proof.
  unfold matchChunk, chunk_check.
  assert (String.length chunk < S (String.length chunk)) as Hf by lia.
  pose proof (matchChunk_loop_err _ chunk s false Hf) as H.
  destruct (matchChunk_loop_Some _ chunk s false Hf) as [r E].
  destruct (matchChunk_loop_Some _ chunk EmptyString true Hf) as [r' E'].
  rewrite E, E' in *. by injection H.
Qed.

Lemma err_of_None {A} (x : result match_error A) : err_of x = None → ∃ a, x = Ok a.
Proof. destruct x; naive_solver. Qed.

Lemma err_of_Some {A} (x : result match_error A) e : err_of x = Some e ↔ x = Err e.
Proof. destruct x; naive_solver. Qed.

(** After a star, a well-formed chunk is tried without error. *)
Lemma starLoop_Ok chunk last name :
  chunk_check chunk = None → ∃ o, starLoop chunk last name = Ok o.
Proof.
  intros Hc. induction name as [|c name IH]; simpl; [by eexists|].
  case_bool_decide; [by eexists|].
  pose proof (matchChunk_err chunk name) as He. rewrite Hc in He.
  apply err_of_None in He as [[t []] ->]; [|done].
  destruct (_ && _); [done | by eexists].
Qed.

(** An empty chunk ends the pattern. *)
Lemma scanChunk_empty_chunk pattern star rest :
  scanChunk pattern = (star, EmptyString, rest) → rest = EmptyString.
Proof.
  unfold scanChunk. destruct (skipStars pattern false) as [st p] eqn:E.
  intros [= _ Hs <-]. destruct (decide (p = EmptyString)) as [->|Hne]; [done|].
  pose proof (skipStars_no_star pattern false) as Hstar. rewrite E in Hstar.
  pose proof (scanIndex_pos p Hne Hstar) as Hpos.
  destruct p; [done|]. destruct (scanIndex _ _); [lia | done].
Qed.

Lemma retry_err found continue check :
  (∃ o, found = Ok o) →
  (∀ t, err_of <$> continue t = err_of <$> check) →
  err_of <$> retry found continue check = err_of <$> check.
Proof.
  intros [[t|] ->] Hc; simpl; [done|]. by destruct check as [[|]|].
Qed.

Lemma Match_loop_err fuel pattern name :
  String.length pattern < fuel →
  err_of <$> Match_loop fuel pattern name = err_of <$> checkRest fuel pattern.
Proof.
  revert pattern name. induction fuel as [|fuel IH]; intros pattern name Hf; [lia|].
  destruct pattern as [|c p]; [done|]. cbn [Match_loop checkRest].
  destruct (scanChunk (String c p)) as [[star chunk] rest] eqn:E.
  assert (String.length rest < String.length (String c p)) as Hlen
    by (by eapply scanChunk_shorter).
  assert (String.length rest < fuel) as Hr by lia.
  destruct (star && bool_decide (chunk = EmptyString)) eqn:Hs.
  { apply andb_true_iff in Hs as [_ ->%bool_decide_eq_true].
    apply scanChunk_empty_chunk in E as ->. by destruct fuel; [lia|]. }
  pose proof (matchChunk_err chunk name) as He.
  rewrite <-(matchChunk_err chunk EmptyString) in He.
  destruct (matchChunk chunk EmptyString) as [?|e] eqn:E0; simpl in He.
  - apply err_of_None in He as [[t b] ->].
    assert (err_of <$> retry (if star then starLoop chunk (bool_decide (rest = EmptyString)) name
                               else Ok None) (Match_loop fuel rest) (checkRest fuel rest)
            = err_of <$> checkRest fuel rest) as Hretry.
    { apply retry_err; [|intros; by apply IH]. destruct star; [|by eexists].
      apply starLoop_Ok. by rewrite <-(matchChunk_err chunk EmptyString), E0. }
    destruct b; [|done]. destruct (_ || _); [by apply IH | done].
  - apply err_of_Some in He as ->. done.
Qed.

(** Whether [Match] reports an error, and which, depends on the pattern
    alone. *)
Lemma Match_err pattern name : err_of (Match pattern name) = pattern_error pattern.
Proof.
  unfold Match, pattern_error.
  assert (String.length pattern < S (String.length pattern)) as Hf by lia.
  pose proof (Match_loop_err _ pattern name Hf) as H.
  destruct (Match_loop_fuel_indep _ _ pattern name Hf Hf) as [_ [r E]].
  destruct (checkRest_fuel_indep _ _ pattern Hf Hf) as [_ [r' E']].
  rewrite E, E' in *. by injection H.
Qed.

End errors.

(** ** [Match], without fuel *)

Section unfold.
Implicit Types (chunk pattern s name : string) (fuel : nat).
#[local] Open Scope nat_scope.

Lemma checkRest_check fuel pattern :
  String.length pattern < fuel → checkRest fuel pattern = Some (check pattern).
Proof.
  intros Hf. unfold check.
  destruct (checkRest_fuel_indep fuel (S (String.length pattern)) pattern Hf) as [-> [r ->]];
    [lia | done].
Qed.

(** One round of the loop of [Match], for a pattern that is not empty. *)
Lemma Match_unfold pattern name :
  pattern ≠ EmptyString →
  Some (Match pattern name) =
    let '(star, chunk, rest) := scanChunk pattern in
    if star && bool_decide (chunk = EmptyString) then
      Some (Ok (negb (Contains name Separator)))
    else
      let found :=
        if star then starLoop chunk (bool_decide (rest = EmptyString)) name else Ok None in
      match matchChunk chunk name with
      | Err e => Some (Err e)
      | Ok (t, true) =>
          if bool_decide (t = EmptyString) || bool_decide (rest ≠ EmptyString)
          then Some (Match rest t)
          else retry found (λ t, Some (Match rest t)) (Some (check rest))
      | Ok (_, false) => retry found (λ t, Some (Match rest t)) (Some (check rest))
      end.
Proof.
  intros Hne. rewrite <-(Match_loop_Match (S (String.length pattern))) by lia.
  assert (∀ star chunk rest, scanChunk pattern = (star, chunk, rest) →
            String.length rest < String.length pattern) as Hlen
    by (intros; by eapply scanChunk_shorter).
  generalize dependent (String.length pattern). intros fuel Hlen.
  destruct pattern as [|c p]; [done|]. cbn [Match_loop].
  destruct (scanChunk (String c p)) as [[star chunk] rest] eqn:E.
  specialize (Hlen _ _ _ eq_refl). destruct (_ && _); [done|].
  assert (∀ found, retry found (Match_loop fuel rest) (checkRest fuel rest)
                   = retry found (λ t, Some (Match rest t)) (Some (check rest))) as Hretry.
  { intros [[t|]|e]; cbn [retry]; [by apply Match_loop_Match | |done].
    by rewrite checkRest_check. }
  destruct (matchChunk chunk name) as [[t []]|e]; [|done..].
  destruct (_ || _); [by apply Match_loop_Match | done].
Qed.

Lemma Match_empty name : Match EmptyString name = Ok (bool_decide (name = EmptyString)).
Proof. done. Qed.

End unfold.

(** ** Literal patterns *)

Section literals.
Implicit Types (chunk pattern p s name : string) (fuel : nat).
#[local] Open Scope nat_scope.

Lemma literal_cons c p :
  literal (String c p) ↔
  c ≠ "*"%char ∧ c ≠ "?"%char ∧ c ≠ "["%char ∧ c ≠ "\"%char ∧ literal p.
Proof.
  simpl. unfold special. rewrite andb_True, negb_True, !orb_True, !bool_decide_spec.
  naive_solver.
Qed.

Lemma literal_app p q : literal p → literal q → literal (p +:+ q).
Proof.
  induction p as [|c p IH]; [done|]. rewrite string_app_cons, !literal_cons. naive_solver.
Qed.

Lemma skipStars_literal p star : literal p → skipStars p star = (star, p).
Proof.
  destruct p as [|c p]; [done|]. intros (Hc & _)%literal_cons. simpl.
  by rewrite bool_decide_eq_false_2.
Qed.

Lemma scanIndex_literal p q :
  literal p → scanIndex (p +:+ q) false = String.length p + scanIndex q false.
Proof.
  induction p as [|c p IH]; [done|].
  intros (H1 & H2 & H3 & H4 & Hp)%literal_cons. rewrite string_app_cons.
  cbn [scanIndex String.length]. rewrite !bool_decide_eq_false_2 by done.
  rewrite (IH Hp), (bool_decide_eq_false_2 (c = "*"%char)) by done.
  case_bool_decide; lia.
Qed.

Lemma scanChunk_literal p : literal p → scanChunk p = (false, p, EmptyString).
Proof.
  intros Hp. unfold scanChunk. rewrite skipStars_literal by done.
  pose proof (scanIndex_literal p EmptyString Hp) as H. rewrite string_app_nil_r in H.
  rewrite H. simpl. rewrite Nat.add_0_r. by autorewrite with go.
Qed.

Lemma scanChunk_literal_star p :
  literal p → p ≠ EmptyString → scanChunk (p +:+ "*") = (false, p, "*").
Proof.
  intros Hp Hne. unfold scanChunk.
  assert (skipStars (p +:+ "*") false = (false, p +:+ "*")) as ->.
  { destruct p as [|c p]; [done|]. apply literal_cons in Hp as (Hc & _).
    rewrite string_app_cons. simpl. by rewrite bool_decide_eq_false_2. }
  rewrite scanIndex_literal by done. simpl. rewrite Nat.add_0_r.
  by autorewrite with go.
Qed.

(** A literal chunk matches the names it is a prefix of, and leaves what
    follows it. *)
Lemma matchChunk_loop_literal fuel chunk s failed :
  literal chunk → String.length chunk < fuel →
  matchChunk_loop fuel chunk s failed =
    Some (Ok (if negb failed && HasPrefix s chunk
              then (sdrop (String.length chunk) s, true) else (EmptyString, false))).
Proof.
  revert fuel s failed. induction chunk as [|d chunk IH]; intros [|fuel] s failed Hl Hf;
    try (simpl in Hf; lia).
  { cbn [matchChunk_loop String.length]. autorewrite with go. by destruct failed. }
  apply literal_cons in Hl as (H1 & H2 & H3 & H4 & Hl). simpl in Hf.
  cbn [matchChunk_loop]. rewrite !bool_decide_eq_false_2 by done.
  destruct failed; simpl; [by rewrite IH by (done || lia)|].
  destruct s as [|s0 s1]; simpl; [by rewrite IH by (done || lia)|].
  rewrite IH, HasPrefix_cons by (done || lia).
  rewrite (bool_decide_ext (s0 = d) (d = s0)) by naive_solver.
  by rewrite bool_decide_not, negb_involutive.
Qed.

Lemma matchChunk_literal chunk s :
  literal chunk →
  matchChunk chunk s =
    if HasPrefix s chunk then Ok (sdrop (String.length chunk) s, true)
    else Ok (EmptyString, false).
Proof.
  intros Hl. unfold matchChunk. rewrite matchChunk_loop_literal by (done || lia).
  simpl. by destruct (HasPrefix s chunk).
Qed.

Lemma Match_star name : Match "*" name = Ok (negb (Contains name Separator)).
Proof. reflexivity. Qed.

(** The fixed part of [Match_unfold] for a pattern that starts with a
    literal chunk [p] and goes on with [rest]. *)
Lemma Match_literal_chunk p rest name :
  scanChunk (p +:+ rest) = (false, p, rest) → literal p → p ≠ EmptyString →
  Match (p +:+ rest) name =
    if HasPrefix name p then
      if bool_decide (sdrop (String.length p) name = EmptyString)
         || bool_decide (rest ≠ EmptyString)
      then Match rest (sdrop (String.length p) name)
      else match check rest with Err e => Err e | Ok _ => Ok false end
    else match check rest with Err e => Err e | Ok _ => Ok false end.
Proof.
  intros Hs Hl Hne. assert (p +:+ rest ≠ EmptyString) as Hne' by (by destruct p).
  pose proof (Match_unfold (p +:+ rest) name Hne') as H. rewrite Hs in H.
  cbn [andb] in H. rewrite matchChunk_literal in H by done.
  destruct (HasPrefix name p); [destruct (_ || _)|]; cbn [retry] in H;
    first [by injection H | by destruct (check rest); injection H].
Qed.

(** A literal pattern matches itself and nothing else. *)
Lemma Match_literal p name : literal p → Match p name = Ok (bool_decide (p = name)).
Proof.
  intros Hl. destruct (decide (p = EmptyString)) as [->|Hne].
  { rewrite Match_empty. f_equal. apply bool_decide_ext. naive_solver. }
  pose proof (Match_literal_chunk p EmptyString name) as H.
  rewrite string_app_nil_r in H. rewrite H by (done || by apply scanChunk_literal).
  destruct (HasPrefix name p) eqn:Hp; simpl.
  - apply HasPrefix_true in Hp as [t ->]. rewrite sdrop_app_length, orb_false_r.
    rewrite Match_empty. f_equal. destruct (bool_decide (t = _)) eqn:Ht.
    + apply bool_decide_eq_true in Ht as ->. by rewrite string_app_nil_r, bool_decide_eq_true_2.
    + apply bool_decide_eq_false in Ht. rewrite bool_decide_eq_false_2; [done|].
      intros Heq. apply Ht. by apply (string_app_eq_l p).
  - rewrite bool_decide_eq_false_2; [done|]. intros <-. by rewrite HasPrefix_refl in Hp.
Qed.

(** A literal prefix followed by a star matches the names that start with
    the prefix and have no separator after it. *)
Lemma Match_literal_star p name :
  literal p →
  Match (p +:+ "*") name =
    Ok (HasPrefix name p && negb (Contains (sdrop (String.length p) name) Separator)).
Proof.
  intros Hl. destruct (decide (p = EmptyString)) as [->|Hne].
  { autorewrite with go. by rewrite Match_star. }
  rewrite Match_literal_chunk by (done || by apply scanChunk_literal_star).
  destruct (HasPrefix name p); [|done]. by rewrite orb_true_r, Match_star.
Qed.

End literals.

(** ** The test table *)

(** On the cases of the test table the model answers as [filepath.Match]
    does. *)
Example Match_tests : (λ '(p, s, _), Match p s) <$> match_tests = snd <$> match_tests.
Proof. by vm_compute. Qed.
