(* ===== verification/Glob.v ===== *)
(** * Glob: the patterns of [filepath.Match] as syntax, and what they match

    [Match] reads its pattern while it matches.  This file takes the two
    apart.  The parser ([segments]) cuts a pattern where [scanChunk]
    cuts it and turns each chunk into the elements that [matchChunk]
    reads off it: a literal byte, a question mark, a character class with
    its ranges.  The reference matcher ([glob]) says what a parsed pattern
    matches: an element matches one character, a star any text without
    separator, tried at every length.  The greedy matcher ([gmatch]) is
    the loop of [Match] on a parsed pattern: after a star it commits to
    the first position at which the chunk matches.

    The lemmas of this file show that [Match] is the parser followed by
    the greedy matcher: [matchChunk_parse] for a chunk, [starLoop_parse]
    for the star loop, [Match_segments] for the whole pattern, and
    [pattern_error_segments] for the error.  GlobMatch.v compares the
    greedy matcher with the reference. *)

From S2P Require Import Prelude Utf8 GoString Match MatchFacts.
From stdpp Require Import strings.
From Stdlib Require Import ZArith Lia.

(** ** Syntax *)

(** An element of a chunk: what [matchChunk] compares one character of
    the name with.  [ELit] is a byte of the pattern, also one that follows
    a backslash; [EAny] is [?]; [EClass] is [[...]] or [[^...]] with its
    ranges [lo-hi], a single character being the range from it to
    itself. *)

Inductive elem : Type :=
| ELit (c : ascii)
| EAny
| EClass (negated : bool) (ranges : list (Z * Z)).

#[export] Instance elem_eq_dec : EqDecision elem.
Proof. solve_decision. Defined.

Inductive item : Type :=
| IStar
| IElem (e : elem).

(** ** What a pattern matches *)

Definition in_ranges (r : Z) (rs : list (Z * Z)) : bool :=
  existsb (λ '(lo, hi), bool_decide (lo ≤ r)%Z && bool_decide (r ≤ hi)%Z) rs.

(** One element on the front of [s]: what is left of [s], if the element
    matches.  A literal is compared with one byte; [?] and a class read
    one rune, [?] refusing the separator. *)

Definition elem_match (e : elem) (s : string) : option string :=
  match s with
  | EmptyString => None
  | String s0 s1 =>
      match e with
      | ELit d => if bool_decide (d = s0) then Some s1 else None
      | EAny =>
          if bool_decide (s0 = Separator) then None
          else Some (sdrop (snd (DecodeRuneInString s)) s)
      | EClass negated rs =>
          let '(r, n) := DecodeRuneInString s in
          if bool_decide (in_ranges r rs = negated) then None else Some (sdrop n s)
      end
  end.

Fixpoint elems_match (es : list elem) (s : string) : option string :=
  match es with
  | [] => Some s
  | e :: es' => elem_match e s ≫= elems_match es'
  end.

(** [star_any k s]: [k] holds of [s] after some bytes of [s], none of
    which is the separator, have been taken off its front. *)

Fixpoint star_any (k : string → bool) (s : string) : bool :=
  k s
  || match s with
     | EmptyString => false
     | String c s' => negb (bool_decide (c = Separator)) && star_any k s'
     end.

(** The reference matcher: the items match all of [s]. *)

Fixpoint glob (items : list item) (s : string) : bool :=
  match items with
  | [] => bool_decide (s = EmptyString)
  | IElem e :: items' =>
      match elem_match e s with
      | Some t => glob items' t
      | None => false
      end
  | IStar :: items' => star_any (glob items') s
  end.

(** ** The parser *)

(** The ranges of a class, up to the closing bracket: the loop of
    [classLoop], which keeps the ranges instead of comparing a rune with
    them. *)

Fixpoint classRanges (fuel : nat) (chunk : string) (nrange : nat)
  : option (result match_error (list (Z * Z) * string)) :=
  match fuel with
  | 0 => None
  | S fuel' =>
      if bool_decide (stake 1 chunk = "]") && bool_decide (0 < nrange) then
        Some (Ok ([], sdrop 1 chunk))
      else
        match getRange chunk with
        | Err e => Some (Err e)
        | Ok (lo, hi, chunk') =>
            match classRanges fuel' chunk' (S nrange) with
            | Some (Ok (rs, rest)) => Some (Ok ((lo, hi) :: rs, rest))
            | x => x
            end
        end
  end.

Definition consR {A} (a : A) (x : option (result match_error (list A)))
  : option (result match_error (list A)) :=
  match x with
  | Some (Ok l) => Some (Ok (a :: l))
  | _ => x
  end.

(** The elements of a chunk: the loop of [matchChunk], without the name. *)

Fixpoint parseChunk (fuel : nat) (chunk : string) : option (result match_error (list elem)) :=
  match fuel with
  | 0 => None
  | S fuel' =>
      match chunk with
      | EmptyString => Some (Ok [])
      | String c chunk1 =>
          if bool_decide (c = "["%char) then
            let negated := bool_decide (stake 1 chunk1 = "^") in
            let chunk2 := if negated then sdrop 1 chunk1 else chunk1 in
            match classRanges fuel' chunk2 0 with
            | None => None
            | Some (Err e) => Some (Err e)
            | Some (Ok (rs, chunk3)) => consR (EClass negated rs) (parseChunk fuel' chunk3)
            end
          else if bool_decide (c = "?"%char) then consR EAny (parseChunk fuel' chunk1)
          else
            let lit := if bool_decide (c = "\"%char) then chunk1 else chunk in
            match lit with
            | EmptyString => Some (Err ErrBadPattern)
            | String d chunk2 => consR (ELit d) (parseChunk fuel' chunk2)
            end
      end
  end.

Definition parse_chunk (chunk : string) : result match_error (list elem) :=
  default (Err ErrBadPattern) (parseChunk (S (String.length chunk)) chunk).

(** The segments of a pattern: for each chunk that [scanChunk] cuts off,
    whether stars precede it, and its elements. *)

Fixpoint parsePattern (fuel : nat) (pattern : string)
  : option (result match_error (list (bool * list elem))) :=
  match fuel with
  | 0 => None
  | S fuel' =>
      match pattern with
      | EmptyString => Some (Ok [])
      | _ =>
          let '(star, chunk, rest) := scanChunk pattern in
          match parse_chunk chunk with
          | Err e => Some (Err e)
          | Ok es => consR (star, es) (parsePattern fuel' rest)
          end
      end
  end.

Definition segments (pattern : string) : result match_error (list (bool * list elem)) :=
  default (Err ErrBadPattern) (parsePattern (S (String.length pattern)) pattern).

Definition items_of (segs : list (bool * list elem)) : list item :=
  segs ≫= λ '(star, es), (if star : bool then [IStar] else []) ++ (IElem <$> es).

(** What a pattern matches: the reference matcher on its items, or the
    error of the parser. *)

Definition glob_pattern (pattern name : string) : result match_error bool :=
  segs ← segments pattern; Ok (glob (items_of segs) name).

(** ** The greedy matcher *)

(** What [matchChunk] returns for the elements of its chunk. *)

Definition chunk_result (o : option string) : string * bool :=
  match o with
  | Some t => (t, true)
  | None => (EmptyString, false)
  end.

Definition chunk_answer (failed : bool) (s : string) (r : result match_error (list elem))
  : result match_error (string * bool) :=
  es ← r; Ok (if failed then (EmptyString, false) else chunk_result (elems_match es s)).

(** The star loop of [Match] on the elements of the chunk: the chunk is
    tried after one more byte of the name, then after two, up to the next
    separator; a match of the last chunk counts only if it leaves
    nothing. *)

Fixpoint star_search (es : list elem) (last : bool) (name : string) : option string :=
  match name with
  | EmptyString => None
  | String c name' =>
      if bool_decide (c = Separator) then None
      else
        match elems_match es name' with
        | Some t =>
            if last && bool_decide (t ≠ EmptyString) then star_search es last name'
            else Some t
        | None => star_search es last name'
        end
  end.

(** The same search started at the name itself: the attempt that [Match]
    makes before the star loop, then the star loop. *)

Fixpoint search (es : list elem) (last : bool) (name : string) : option string :=
  let later :=
    match name with
    | EmptyString => None
    | String c name' => if bool_decide (c = Separator) then None else search es last name'
    end in
  match elems_match es name with
  | Some t => if bool_decide (t = EmptyString) || negb last then Some t else later
  | None => later
  end.

Definition continue_with (k : string → bool) (found : option string) : bool :=
  match found with
  | Some t => k t
  | None => false
  end.

(** The loop of [Match] on the segments of its pattern. *)

Fixpoint gmatch (segs : list (bool * list elem)) (name : string) : bool :=
  match segs with
  | [] => bool_decide (name = EmptyString)
  | (star, es) :: rest =>
      if star && bool_decide (es = []) then negb (Contains name Separator)
      else
        let found :=
          if star then star_search es (bool_decide (rest = [])) name else None in
        match elems_match es name with
        | Some t =>
            if bool_decide (t = EmptyString) || bool_decide (rest ≠ [])
            then gmatch rest t
            else continue_with (gmatch rest) found
        | None => continue_with (gmatch rest) found
        end
  end.

(** ** The names and patterns on which [Match] is complete *)

(** A name made of bytes below [RuneSelf], each of which is a rune. *)

Fixpoint is_ascii (s : string) : bool :=
  match s with
  | EmptyString => true
  | String c s' => bool_decide (byte_val c < RuneSelf)%Z && is_ascii s'
  end.

Definition no_sep (s : string) : bool := negb (Contains s Separator).

(** An element that does not match the separator, unless it is the
    separator itself. *)

Definition safe (e : elem) : bool :=
  match e with
  | EClass negated rs => bool_decide (in_ranges (byte_val Separator) rs = negated)
  | _ => true
  end.

Definition safe_segs (segs : list (bool * list elem)) : bool :=
  forallb (λ '(_, es), forallb safe es) segs.

(** The shape of what [scanChunk] cuts a pattern into: every chunk but
    the first follows a star, and only the last can be empty. *)

Fixpoint segs_wf (first : bool) (segs : list (bool * list elem)) : bool :=
  match segs with
  | [] => true
  | (star, es) :: rest =>
      (first || star)
      && (bool_decide (es ≠ []) || (star && bool_decide (rest = [])))
      && segs_wf false rest
  end.

(** ** A chunk is parsed, then matched *)

Section chunks.
Implicit Types (chunk s t : string) (fuel : nat) (r : Z) (es : list elem).
#[local] Open Scope nat_scope.

Lemma classLoop_ranges fuel r chunk m k :
  classLoop fuel r chunk m k =
    match classRanges fuel chunk k with
    | None => None
    | Some (Err e) => Some (Err e)
    | Some (Ok (rs, rest)) => Some (Ok (m || in_ranges r rs, rest))
    end.
Proof.
  revert chunk m k. induction fuel as [|fuel IH]; intros chunk m k; [done|].
  simpl. destruct (_ && _); [by rewrite orb_false_r|].
  destruct (getRange chunk) as [[[lo hi] chunk']|e]; [|done]. rewrite IH.
  destruct (classRanges fuel chunk' (S k)) as [[[rs rest]|e]|]; [|done..].
  simpl. by rewrite orb_assoc.
Qed.

Lemma elems_match_nil_string es : es ≠ [] → elems_match es EmptyString = None.
Proof. by destruct es. Qed.

(** What the loop of [matchChunk] answers once the next element is known:
    the element is tried on [s], unless the match has failed already. *)
Lemma chunk_answer_cons e (failed failed' : bool) s s' x :
  (if failed then failed' = true
   else if failed' then elem_match e s = None
   else elem_match e s = Some s') →
  chunk_answer failed' s' <$> x = chunk_answer failed s <$> consR e x.
Proof.
  intros H. destruct x as [[es|err]|]; [|done..]. simpl. do 2 f_equal.
  destruct failed; [by rewrite H|]. destruct failed'; by rewrite H.
Qed.

Lemma matchChunk_loop_parse fuel chunk s failed :
  matchChunk_loop fuel chunk s failed = chunk_answer failed s <$> parseChunk fuel chunk.
Proof.
  revert chunk s failed. induction fuel as [|fuel IH]; intros chunk s failed; [done|].
  destruct chunk as [|c chunk1]; [by destruct failed|].
  cbn [matchChunk_loop parseChunk]. case_bool_decide as Hc1; [|case_bool_decide as Hc2].
  - set (negated := bool_decide (stake 1 chunk1 = "^")).
    set (chunk2 := if negated then sdrop 1 chunk1 else chunk1).
    destruct (if failed || _ then _ else _) as [r s1] eqn:E.
    rewrite classLoop_ranges.
    destruct (classRanges fuel chunk2 0) as [[[rs chunk3]|e]|]; [|done..].
    rewrite IH. apply chunk_answer_cons.
    destruct failed; [done|]. destruct s as [|s0 s']; [done|].
    cbn [orb] in E. rewrite bool_decide_eq_false_2 in E by done.
    cbn [elem_match orb]. destruct (DecodeRuneInString (String s0 s')) as [r' n].
    injection E as <- <-. rewrite (bool_decide_eq_false_2 (String s0 s' = _)) by done.
    cbn [orb]. by case_bool_decide.
  - destruct failed; cbn [orb]; [rewrite IH; by apply chunk_answer_cons|].
    destruct s as [|s0 s']; [rewrite IH; by apply chunk_answer_cons|].
    rewrite bool_decide_eq_false_2 by done. rewrite IH. apply chunk_answer_cons.
    cbn [elem_match]. by case_bool_decide.
  - destruct (if bool_decide _ then chunk1 else _) as [|d chunk2]; [done|].
    destruct failed; cbn [orb]; [rewrite IH; by apply chunk_answer_cons|].
    destruct s as [|s0 s']; [rewrite IH; by apply chunk_answer_cons|].
    rewrite bool_decide_eq_false_2 by done. rewrite IH. apply chunk_answer_cons.
    cbn [elem_match]. by repeat case_bool_decide.
Qed.

(** [matchChunk] parses the chunk and tries its elements on [s] one after
    the other. *)
Lemma matchChunk_parse chunk s :
  matchChunk chunk s = chunk_answer false s (parse_chunk chunk).
Proof.
  unfold matchChunk, parse_chunk.
  destruct (matchChunk_loop_Some (S (String.length chunk)) chunk s false) as [r Hr]; [lia|].
  rewrite matchChunk_loop_parse in Hr. rewrite matchChunk_loop_parse.
  by destruct (parseChunk _ chunk) as [[es|e]|].
Qed.

Lemma parse_chunk_empty : parse_chunk EmptyString = Ok [].
Proof. done. Qed.

Lemma consR_not_nil {A} (a : A) x : consR a x ≠ Some (Ok []).
Proof. by destruct x as [[?|?]|]. Qed.

(** Only the empty chunk has no elements. *)
Lemma parse_chunk_nil chunk : parse_chunk chunk = Ok [] → chunk = EmptyString.
Proof.
  destruct chunk as [|c chunk1]; [done|]. unfold parse_chunk.
  generalize (String.length (String c chunk1)). intros fuel. cbn [parseChunk].
  intros H. exfalso. revert H.
  repeat case_match; simpl; try done;
    match goal with |- context [consR ?e ?x] =>
      pose proof (consR_not_nil e x); by destruct (consR e x) as [[[|??]|?]|] end.
Qed.

End chunks.

Section patterns.
Implicit Types (chunk pattern rest s t name : string) (fuel : nat) (es : list elem).
Implicit Types (segs : list (bool * list elem)) (star last : bool).
#[local] Open Scope nat_scope.

Lemma err_of_chunk_answer (failed : bool) s r : err_of (chunk_answer failed s r) = err_of r.
Proof. by destruct r. Qed.

Lemma err_of_consR {A} (a : A) x : err_of <$> consR a x = err_of <$> x.
Proof. by destruct x as [[?|?]|]. Qed.

Lemma parsePattern_fuel fuel fuel' pattern :
  String.length pattern < fuel → String.length pattern < fuel' →
  parsePattern fuel pattern = parsePattern fuel' pattern
  ∧ is_Some (parsePattern fuel pattern).
Proof.
  revert fuel' pattern.
  induction fuel as [|fuel IH]; intros [|fuel'] pattern Hf Hf'; try lia.
  destruct pattern as [|c p]; [done|]. cbn [parsePattern].
  destruct (scanChunk (String c p)) as [[star chunk] rest] eqn:E.
  apply scanChunk_shorter in E; [|done].
  destruct (parse_chunk chunk); [|done].
  destruct (IH fuel' rest) as [-> [[?|?] ->]]; [lia..| |]; done.
Qed.

Lemma parsePattern_segments fuel pattern :
  String.length pattern < fuel → parsePattern fuel pattern = Some (segments pattern).
Proof.
  intros Hf. unfold segments.
  destruct (parsePattern_fuel fuel (S (String.length pattern)) pattern) as [<- [r ->]];
    [lia..|done].
Qed.

(** One round of the parser, without fuel. *)
Lemma segments_unfold pattern :
  pattern ≠ EmptyString →
  segments pattern =
    let '(star, chunk, rest) := scanChunk pattern in
    es ← parse_chunk chunk; cons (star, es) <$> segments rest.
Proof.
  intros Hne. apply (inj Some).
  rewrite <-(parsePattern_segments (S (String.length pattern))) by lia.
  destruct pattern as [|c p]; [done|]. cbn [parsePattern].
  destruct (scanChunk (String c p)) as [[star chunk] rest] eqn:E.
  apply scanChunk_shorter in E; [|done]. rewrite (parsePattern_segments _ rest) by done.
  destruct (parse_chunk chunk) as [es|e]; [|done]. by destruct (segments rest).
Qed.

Lemma segments_empty : segments EmptyString = Ok [].
Proof. done. Qed.

(** The parts of a pattern that parses. *)
Lemma segments_cons pattern star es segs :
  segments pattern = Ok ((star, es) :: segs) →
  ∃ chunk rest, scanChunk pattern = (star, chunk, rest) ∧ pattern ≠ EmptyString
    ∧ parse_chunk chunk = Ok es ∧ segments rest = Ok segs.
Proof.
  destruct (decide (pattern = EmptyString)) as [->|Hne]; [done|].
  rewrite segments_unfold by done.
  destruct (scanChunk pattern) as [[star' chunk] rest].
  destruct (parse_chunk chunk) as [es'|] eqn:Hp; [|done]. simpl.
  destruct (segments rest) as [segs'|] eqn:Hs; [|done]. intros [= -> -> ->].
  by exists chunk, rest.
Qed.

Lemma segments_nil pattern : segments pattern = Ok [] → pattern = EmptyString.
Proof.
  destruct (decide (pattern = EmptyString)) as [->|Hne]; [done|].
  rewrite segments_unfold by done.
  destruct (scanChunk pattern) as [[star' chunk] rest].
  destruct (parse_chunk chunk) as [es'|]; [|done]. simpl. by destruct (segments rest).
Qed.

(** The check of a pattern against no name reports what the parser
    reports. *)
Lemma checkRest_parsePattern fuel pattern :
  err_of <$> checkRest fuel pattern = err_of <$> parsePattern fuel pattern.
Proof.
  revert pattern. induction fuel as [|fuel IH]; intros pattern; [done|].
  destruct pattern as [|c p]; [done|]. cbn [checkRest parsePattern].
  destruct (scanChunk (String c p)) as [[star chunk] rest].
  rewrite matchChunk_parse. destruct (parse_chunk chunk) as [es|e]; [|done].
  simpl. by rewrite IH, err_of_consR.
Qed.

Lemma pattern_error_segments pattern : pattern_error pattern = err_of (segments pattern).
Proof.
  unfold pattern_error, segments.
  pose proof (checkRest_parsePattern (S (String.length pattern)) pattern) as H.
  destruct (parsePattern_fuel (S (String.length pattern)) (S (String.length pattern)) pattern)
    as [_ [r E]]; [lia..|].
  rewrite E in *. destruct (checkRest _ pattern); by simplify_eq/=.
Qed.

Lemma check_segments pattern segs : segments pattern = Ok segs → check pattern = Ok ().
Proof.
  intros H. pose proof (pattern_error_segments pattern) as He. rewrite H in He.
  unfold pattern_error in He. fold (check pattern) in He.
  by destruct (check pattern) as [[]|].
Qed.

(** The star loop, on the elements of its chunk. *)
Lemma starLoop_parse chunk es last name :
  parse_chunk chunk = Ok es → starLoop chunk last name = Ok (star_search es last name).
Proof.
  intros Hp. induction name as [|c name IH]; [done|]. cbn [starLoop star_search].
  case_bool_decide; [done|]. rewrite matchChunk_parse, Hp. simpl.
  destruct (elems_match es name) as [t|]; simpl; [|done]. by destruct (_ && _).
Qed.

Lemma retry_parse star chunk es rest segs name :
  parse_chunk chunk = Ok es → segments rest = Ok segs →
  (∀ t, Match rest t = Ok (gmatch segs t)) →
  retry (if star then starLoop chunk (bool_decide (rest = EmptyString)) name else Ok None)
        (λ t, Some (Match rest t)) (Some (check rest))
  = Some (Ok (continue_with (gmatch segs)
                (if star then star_search es (bool_decide (segs = [])) name else None))).
Proof.
  intros Hp Hs IH. rewrite (check_segments _ _ Hs).
  rewrite (bool_decide_ext (rest = EmptyString) (segs = [])).
  2:{ split; [by intros ->; rewrite segments_empty in Hs; simplify_eq|].
      intros ->. by apply segments_nil. }
  destruct star; [|done]. rewrite (starLoop_parse _ _ _ _ Hp).
  destruct (star_search _ _ _) as [t|]; simpl; [by rewrite IH | done].
Qed.

(** [Match] on a pattern that parses is the greedy matcher on its
    segments. *)
Lemma Match_segments pattern segs name :
  segments pattern = Ok segs → Match pattern name = Ok (gmatch segs name).
Proof.
  revert pattern name. induction segs as [|[star es] segs IH]; intros pattern name Hs.
  { apply segments_nil in Hs as ->. by rewrite Match_empty. }
  apply segments_cons in Hs as (chunk & rest & Hsc & Hne & Hp & Hs).
  apply (inj Some). rewrite (Match_unfold _ _ Hne), Hsc. cbn [gmatch].
  rewrite (bool_decide_ext (chunk = EmptyString) (es = [])).
  2:{ split; [by intros ->; rewrite parse_chunk_empty in Hp; simplify_eq|].
      intros ->. by apply parse_chunk_nil. }
  destruct (star && _); [done|].
  rewrite matchChunk_parse, Hp. simpl.
  rewrite (retry_parse star chunk es rest segs name Hp Hs) by (intros; by apply IH).
  rewrite (bool_decide_ext (rest ≠ EmptyString) (segs ≠ [])).
  2:{ split; intros H ->; apply H; [by apply segments_nil|].
      rewrite segments_empty in Hs. by simplify_eq. }
  destruct (elems_match es name) as [t|]; simpl; [|done].
  destruct (_ || _); [|done]. by rewrite (IH rest).
Qed.

End patterns.
