(* ===== verification/GlobMatch.v ===== *)
(** * GlobMatch: the greedy loop of [filepath.Match] and what a pattern matches

    [Match] never goes back on a chunk: after a star it takes the first
    position at which the chunk matches.  This file compares that loop
    ([gmatch], which Glob.v shows to be [Match]) with the reference
    matcher [glob], which tries every length for every star.

    - Soundness ([gmatch_sound], [Match_sound]): what [Match] accepts, the
      pattern matches; this holds for every pattern and every name.
    - Completeness ([gmatch_complete], [Match_glob]): [Match] accepts what
      the pattern matches, when the name is made of bytes below [RuneSelf]
      and no class of the pattern matches the separator.  The first
      position is then as good as any later one ([elems_match_shift]):
      what the chunk leaves there is what it leaves later, after text that
      the following star can take.
    - [Match] reports an error exactly when the parser does ([Match_Err]).

    Both hypotheses of completeness are needed; Globbing.v has the
    examples. *)

From S2P Require Import Prelude Utf8 GoString Match MatchFacts Glob.
From stdpp Require Import strings.
From Stdlib Require Import ZArith Lia.

(** A chunk tried at [s], and what follows it on what the chunk leaves. *)
Definition tried (es : list elem) (k : string → bool) (s : string) : bool :=
  continue_with k (elems_match es s).

(** ** Names without separator, names of bytes below [RuneSelf] *)

Section strings.
Implicit Types (s t u w name : string) (c d : ascii).

Lemma Contains_cons d s c : Contains (String d s) c = bool_decide (d = c) || Contains s c.
Proof.
  unfold Contains. simpl. case_decide.
  - by rewrite !bool_decide_eq_true_2 by done.
  - rewrite (bool_decide_eq_false_2 (d = c)) by done. simpl.
    apply bool_decide_ext. by rewrite fmap_is_Some.
Qed.

Lemma no_sep_cons d s : no_sep (String d s) = negb (bool_decide (d = Separator)) && no_sep s.
Proof. unfold no_sep. by rewrite Contains_cons, negb_orb. Qed.

Lemma no_sep_app u s : no_sep (u +:+ s) = no_sep u && no_sep s.
Proof.
  induction u as [|d u IH]; [done|].
  by rewrite string_app_cons, !no_sep_cons, IH, andb_assoc.
Qed.

Lemma is_ascii_app u s : is_ascii (u +:+ s) = is_ascii u && is_ascii s.
Proof.
  induction u as [|d u IH]; [done|]. rewrite string_app_cons. simpl.
  by rewrite IH, andb_assoc.
Qed.

End strings.

(** ** The star of the reference matcher *)

Section star.
Implicit Types (s t u w name : string) (k : string → bool).

Lemma star_any_here k s : k s = true → star_any k s = true.
Proof. intros H. destruct s; simpl; by rewrite H. Qed.

Lemma star_any_cons k c s :
  c ≠ Separator → star_any k s = true → star_any k (String c s) = true.
Proof. intros Hc H. simpl. by rewrite bool_decide_eq_false_2, H, orb_true_r. Qed.

(** A star takes any text without separator. *)
Lemma star_any_app k w t : no_sep w = true → star_any k t = true → star_any k (w +:+ t) = true.
Proof.
  induction w as [|d w IH]; [done|]. rewrite no_sep_cons, string_app_cons.
  intros [Hd%negb_true_iff%bool_decide_eq_false Hw]%andb_true_iff Ht.
  apply star_any_cons; auto.
Qed.

Lemma star_any_inv k s :
  star_any k s = true → ∃ u v, s = u +:+ v ∧ no_sep u = true ∧ k v = true.
Proof.
  induction s as [|c s IH]; simpl.
  - rewrite orb_false_r. intros H. by exists EmptyString, EmptyString.
  - intros [H|[Hc%negb_true_iff H]%andb_true_iff]%orb_true_iff.
    + by exists EmptyString, (String c s).
    + destruct (IH H) as (u & v & -> & Hu & Hv). exists (String c u), v.
      by rewrite no_sep_cons, Hc, Hu.
Qed.

Lemma star_any_ext k k' s : (∀ t, k t = k' t) → star_any k s = star_any k' s.
Proof. intros H. induction s as [|c s IH]; simpl; by rewrite H, ?IH. Qed.

Lemma star_any_nil name : star_any (λ s, bool_decide (s = EmptyString)) name = no_sep name.
Proof.
  induction name as [|c name IH]; [done|]. simpl. by rewrite IH, no_sep_cons.
Qed.

End star.

(** ** Elements *)

Section elems.
Implicit Types (s t u w name : string) (c d : ascii) (e : elem) (es : list elem).
Implicit Types (items : list item) (k : string → bool).

(** What an element leaves is the end of what it was given. *)
Lemma elem_match_suffix e s t : elem_match e s = Some t → ∃ u, s = u +:+ t.
Proof.
  destruct s as [|s0 s1]; [done|]. destruct e as [d| |negated rs]; cbn [elem_match].
  - case_bool_decide; [|done]. intros [= <-]. by exists (String s0 "").
  - case_bool_decide; [done|]. intros [= <-]. eexists. symmetry. apply stake_sdrop.
  - destruct (DecodeRuneInString _) as [r n]. case_bool_decide; [done|].
    intros [= <-]. eexists. symmetry. apply stake_sdrop.
Qed.

Lemma elems_match_suffix es s t : elems_match es s = Some t → ∃ u, s = u +:+ t.
Proof.
  revert s. induction es as [|e es IH]; intros s; simpl.
  - intros [= <-]. by exists EmptyString.
  - intros (s1 & [u ->]%elem_match_suffix & [u' ->]%IH)%bind_Some.
    exists (u +:+ u'). by rewrite string_app_assoc.
Qed.

(** On a byte below [RuneSelf] every element consumes that byte. *)
Lemma elem_match_ascii e c s t :
  (byte_val c < RuneSelf)%Z → elem_match e (String c s) = Some t → t = s.
Proof.
  intros Hc. destruct e as [d| |negated rs]; cbn [elem_match];
    rewrite ?(DecodeRuneInString_ascii c s Hc); simpl;
    repeat case_bool_decide; naive_solver.
Qed.

(** Only the separator itself, among the safe elements, matches the
    separator. *)
Lemma elem_match_sep e s t :
  safe e = true → elem_match e (String Separator s) = Some t → e = ELit Separator.
Proof.
  destruct e as [d| |negated rs]; cbn [elem_match safe].
  - intros _. case_bool_decide; naive_solver.
  - by rewrite bool_decide_eq_true_2.
  - intros H. rewrite (DecodeRuneInString_ascii Separator s) by done. by rewrite H.
Qed.

Lemma glob_elems es items s :
  glob ((IElem <$> es) ++ items) s = continue_with (glob items) (elems_match es s).
Proof.
  revert s. induction es as [|e es IH]; intros s; [done|]. simpl.
  destruct (elem_match e s) as [t|]; [apply IH | done].
Qed.

(** The match of a chunk at a position and at a later one, with no
    separator in between: what the earlier match leaves is what the later
    one leaves, after text without separator. *)
Lemma elems_match_shift es u s t t' :
  Forall (λ e, safe e = true) es → is_ascii (u +:+ s) = true →
  no_sep u = true → u ≠ EmptyString →
  elems_match es s = Some t → elems_match es (u +:+ s) = Some t' →
  ∃ w, no_sep w = true ∧ t' = w +:+ t.
Proof.
  intros Hsafe. revert u s t'.
  induction Hsafe as [|e es He _ IH]; intros u s t' Ha Hu Hne; simpl.
  { intros [= <-] [= <-]. by exists u. }
  intros (s1 & H1 & Hs1)%bind_Some (x & Hx & Ht')%bind_Some.
  destruct u as [|d u1]; [done|]. rewrite string_app_cons in *.
  destruct s as [|c s']; [done|].
  apply andb_true_iff in Ha as [Hd%bool_decide_eq_true Ha].
  pose proof Ha as Ha'. rewrite is_ascii_app in Ha'.
  apply andb_true_iff in Ha' as [_ [Hc%bool_decide_eq_true _]%andb_true_iff].
  apply elem_match_ascii in Hx as Hx'; [subst x|done].
  apply elem_match_ascii in H1 as H1'; [subst s1|done].
  rewrite no_sep_cons in Hu. apply andb_true_iff in Hu as [Hd'%negb_true_iff Hu].
  assert (c ≠ Separator) as Hc'.
  { intros ->. apply elem_match_sep in H1 as ->; [|done]. simpl in Hx.
    rewrite bool_decide_eq_false in Hd'. by case_bool_decide. }
  apply (IH (u1 +:+ String c "") s'); [| |by destruct u1|done|].
  - by rewrite string_app_assoc.
  - rewrite no_sep_app, Hu, no_sep_cons. by rewrite bool_decide_eq_false_2.
  - by rewrite string_app_assoc.
Qed.

End elems.

(** ** The greedy matcher and the reference matcher *)

Section greedy.
Implicit Types (s t u w name : string) (c d : ascii) (e : elem) (es : list elem).
Implicit Types (items : list item) (k : string → bool) (last star first : bool).
Implicit Types (segs rest : list (bool * list elem)).

Lemma items_of_cons star es rest :
  items_of ((star, es) :: rest)
  = (if star then [IStar] else []) ++ (IElem <$> es) ++ items_of rest.
Proof. unfold items_of. simpl. by rewrite <-app_assoc. Qed.

Lemma glob_star es rest name :
  glob (items_of ((true, es) :: rest)) name = star_any (tried es (glob (items_of rest))) name.
Proof. rewrite items_of_cons. simpl. apply star_any_ext. intros t. apply glob_elems. Qed.

Lemma glob_no_star es rest name :
  glob (items_of ((false, es) :: rest)) name = tried es (glob (items_of rest)) name.
Proof. rewrite items_of_cons. apply glob_elems. Qed.

Lemma accepted_last last t :
  last && bool_decide (t ≠ EmptyString) = negb (bool_decide (t = EmptyString) || negb last).
Proof. rewrite bool_decide_not. by destruct last, (bool_decide _). Qed.

(** The star loop is the search from the next position on. *)
Lemma star_search_search es last c name :
  star_search es last (String c name) =
    if bool_decide (c = Separator) then None else search es last name.
Proof.
  revert c. induction name as [|c' name IH]; intros c; cbn [star_search search];
    case_bool_decide; try done.
  - destruct (elems_match es EmptyString) as [t|]; [|done].
    rewrite accepted_last. by destruct (_ || _).
  - rewrite <-(IH c'). destruct (elems_match es (String c' name)) as [t|]; [|done].
    rewrite accepted_last. by destruct (_ || _).
Qed.

Lemma star_search_empty es last : star_search es last EmptyString = None.
Proof. done. Qed.

(** [Match] after a star: the first position, before a separator, at
    which the chunk matches and leaves what the rest of the pattern can
    take. *)
Lemma gmatch_star es rest name :
  es ≠ [] →
  gmatch ((true, es) :: rest) name
  = continue_with (gmatch rest) (search es (bool_decide (rest = [])) name).
Proof.
  intros Hes. cbn [gmatch andb]. rewrite bool_decide_eq_false_2 by done.
  destruct name as [|c name].
  - cbn [search star_search]. by rewrite elems_match_nil_string.
  - rewrite star_search_search. cbn [search].
    destruct (elems_match es (String c name)) as [t|]; [|done].
    rewrite <-(bool_decide_not (rest = [])). by destruct (_ || _).
Qed.

(** What the search finds: a match of the chunk after text without
    separator, which leaves nothing when the chunk is the last. *)
Lemma search_Some es last name t :
  search es last name = Some t →
  ∃ u v, name = u +:+ v ∧ no_sep u = true ∧ elems_match es v = Some t
    ∧ (last = true → t = EmptyString).
Proof.
  assert (∀ s t', elems_match es s = Some t' →
            (if bool_decide (t' = EmptyString) || negb last then Some t' else None) = Some t →
            ∃ u v, s = u +:+ v ∧ no_sep u = true ∧ elems_match es v = Some t
              ∧ (last = true → t = EmptyString)) as Hhere.
  { intros s t' E. destruct (_ || _) eqn:Ha; [|done]. intros [= <-].
    exists EmptyString, s. split_and!; [done..|]. intros ->.
    rewrite orb_false_r in Ha. by apply bool_decide_eq_true in Ha. }
  induction name as [|c name IH]; cbn [search].
  - destruct (elems_match es EmptyString) as [t'|] eqn:E; [|done]. by apply Hhere.
  - assert ((if bool_decide (c = Separator) then None else search es last name) = Some t →
            ∃ u v, String c name = u +:+ v ∧ no_sep u = true ∧ elems_match es v = Some t
              ∧ (last = true → t = EmptyString)) as Hlater.
    { case_bool_decide as Hc; [done|]. intros (u & v & -> & Hu & Hv)%IH.
      exists (String c u), v. by rewrite no_sep_cons, Hu, bool_decide_eq_false_2. }
    destruct (elems_match es (String c name)) as [t'|] eqn:E; [|done].
    destruct (bool_decide (t' = EmptyString) || negb last) eqn:Ha; [|done].
    intros Ht. apply (Hhere _ _ E). by rewrite Ha.
Qed.

Lemma search_suffix es last name t : search es last name = Some t → ∃ u, name = u +:+ t.
Proof.
  intros (u & v & -> & _ & [u' ->]%elems_match_suffix & _)%search_Some.
  exists (u +:+ u'). by rewrite string_app_assoc.
Qed.

Lemma search_sound es last name t k :
  search es last name = Some t → k t = true → star_any (tried es k) name = true.
Proof.
  intros (u & v & -> & Hu & Hv & _)%search_Some Hk.
  apply star_any_app, star_any_here; [done|]. unfold tried. by rewrite Hv.
Qed.

(** The search finds a match whenever some position matches: the first
    position at which the chunk matches leaves what, after the star that
    follows the chunk, the rest of the pattern still matches. *)
Lemma search_complete es last name k :
  Forall (λ e, safe e = true) es → is_ascii name = true →
  (if last then ∀ t, k t = bool_decide (t = EmptyString)
   else ∀ w t, no_sep w = true → k t = true → k (w +:+ t) = true) →
  star_any (tried es k) name = true →
  ∃ t, search es last name = Some t ∧ k t = true.
Proof.
  intros Hsafe Ha Hk. induction name as [|c name IH]; cbn [star_any search].
  - rewrite orb_false_r. unfold tried.
    destruct (elems_match es EmptyString) as [t|] eqn:E; [|done]. simpl. intros Ht.
    exists t. split; [|done]. destruct last; [|by rewrite orb_true_r].
    by rewrite <-Hk, Ht.
  - simpl in Ha. apply andb_true_iff in Ha as [Hc Ha].
    intros Hany. unfold tried at 1 in Hany.
    destruct (elems_match es (String c name)) as [t0|] eqn:E; simpl in Hany.
    + destruct (bool_decide (t0 = EmptyString) || negb last) eqn:Hacc.
      * exists t0. split; [done|].
        apply orb_true_iff in Hany as [Ht0|[Hsep%negb_true_iff Hany]%andb_true_iff]; [done|].
        destruct last; [rewrite Hk; by rewrite orb_false_r in Hacc|].
        apply star_any_inv in Hany as (u & v & -> & Hu & Hv). unfold tried in Hv.
        destruct (elems_match es v) as [t|] eqn:Ev; [|done]. simpl in Hv.
        destruct (elems_match_shift es (String c u) v t t0) as (w & Hw & ->); try done.
        { simpl. by rewrite Hc, Ha. }
        { by rewrite no_sep_cons, Hsep, Hu. }
        by apply Hk.
      * assert (k t0 = false) as Hk0.
        { destruct last; [|by rewrite orb_true_r in Hacc].
          rewrite orb_false_r in Hacc. by rewrite Hk. }
        rewrite Hk0 in Hany. simpl in Hany.
        apply andb_true_iff in Hany as [->%negb_true_iff Hany]. by apply IH.
    + apply andb_true_iff in Hany as [->%negb_true_iff Hany]. by apply IH.
Qed.

Lemma segs_wf_cons first star es rest :
  segs_wf first ((star, es) :: rest) = true →
  (first = false → star = true)
  ∧ (es = [] → star = true ∧ rest = [])
  ∧ segs_wf false rest = true.
Proof.
  simpl. intros [[H1 H2]%andb_true_iff H3]%andb_true_iff. split_and!; [|intros ->|done].
  - intros ->. by destruct star.
  - rewrite bool_decide_eq_false_2 in H2 by naive_solver.
    apply andb_true_iff in H2 as [-> H2%bool_decide_eq_true]. done.
Qed.

Lemma glob_last_star name : glob (items_of [(true, [])]) name = no_sep name.
Proof. rewrite glob_star, <-star_any_nil. by apply star_any_ext. Qed.

Lemma gmatch_last_star name : gmatch [(true, [])] name = no_sep name.
Proof. done. Qed.

Lemma gmatch_no_star es rest name :
  gmatch ((false, es) :: rest) name = true →
  ∃ t, elems_match es name = Some t ∧ gmatch rest t = true.
Proof.
  cbn [gmatch andb]. destruct (elems_match es name) as [t|]; [|done].
  destruct (_ || _); [by exists t | done].
Qed.

Lemma tried_true es k s : tried es k s = true ↔ ∃ t, elems_match es s = Some t ∧ k t = true.
Proof. unfold tried. destruct (elems_match es s); naive_solver. Qed.

Lemma continue_with_true k (found : option string) :
  continue_with k found = true ↔ ∃ t, found = Some t ∧ k t = true.
Proof. destruct found; naive_solver. Qed.

(** Soundness: what the greedy matcher accepts, the pattern matches. *)
Lemma gmatch_sound first segs name :
  segs_wf first segs = true → gmatch segs name = true → glob (items_of segs) name = true.
Proof.
  revert first name. induction segs as [|[star es] rest IH]; intros first name Hwf; [done|].
  apply segs_wf_cons in Hwf as (_ & Hnil & Hwf). destruct star.
  - destruct (decide (es = [])) as [->|Hes].
    { destruct (Hnil eq_refl) as [_ ->]. by rewrite glob_last_star. }
    rewrite gmatch_star, glob_star by done.
    intros (t & Hs & Ht)%continue_with_true. eapply search_sound; eauto.
  - intros (t & Ht & Hg)%gmatch_no_star. rewrite glob_no_star. apply tried_true. eauto.
Qed.

(** After the first segment, what a pattern matches it still matches
    after more text without separator. *)
Lemma glob_absorbs seg rest w t :
  segs_wf false (seg :: rest) = true → no_sep w = true →
  glob (items_of (seg :: rest)) t = true → glob (items_of (seg :: rest)) (w +:+ t) = true.
Proof.
  destruct seg as [star es]. intros (Hs & _)%segs_wf_cons Hw. rewrite (Hs eq_refl), !glob_star.
  by apply star_any_app.
Qed.

Lemma forallb_Forall_true {A} (f : A → bool) l : forallb f l = true → Forall (λ x, f x = true) l.
Proof. induction l; simpl; [done|]. intros [??]%andb_true_iff. auto. Qed.

Lemma suffix_is_ascii u t : is_ascii (u +:+ t) = true → is_ascii t = true.
Proof. rewrite is_ascii_app. by intros [_ ?]%andb_true_iff. Qed.

(** Completeness: on a name of bytes below [RuneSelf], a pattern whose
    classes do not match the separator is accepted on every name it
    matches. *)
Lemma gmatch_complete first segs name :
  segs_wf first segs = true → safe_segs segs = true → is_ascii name = true →
  glob (items_of segs) name = true → gmatch segs name = true.
Proof.
  revert first name. induction segs as [|[star es] rest IH]; intros first name Hwf Hsafe Ha;
    [done|].
  pose proof Hwf as (_ & Hnil & Hwf')%segs_wf_cons.
  simpl in Hsafe. apply andb_true_iff in Hsafe as [Hes%forallb_Forall_true Hsafe].
  destruct star.
  - destruct (decide (es = [])) as [->|Hne].
    { destruct (Hnil eq_refl) as [_ ->]. by rewrite glob_last_star. }
    rewrite gmatch_star, glob_star by done. intros Hany.
    destruct (search_complete es (bool_decide (rest = [])) name (glob (items_of rest)))
      as (t & Hs & Ht); [done..| |done|].
    { case_bool_decide as Hr; [by subst|]. destruct rest as [|seg rest']; [done|].
      intros w t. by apply glob_absorbs. }
    apply continue_with_true. exists t. split; [done|].
    apply search_suffix in Hs as [u ->]. eapply IH; eauto using suffix_is_ascii.
  - rewrite glob_no_star. intros (t & Ht & Hg)%tried_true. cbn [gmatch andb]. rewrite Ht.
    apply elems_match_suffix in Ht as Hu. destruct Hu as [u ->].
    assert (gmatch rest t = true) as -> by (eapply IH; eauto using suffix_is_ascii).
    destruct (decide (t = EmptyString)) as [->|Hne]; [done|].
    destruct rest as [|seg rest]; [|by rewrite orb_true_r].
    simpl in Hg. by apply bool_decide_eq_true in Hg.
Qed.

Lemma gmatch_glob first segs name :
  segs_wf first segs = true → safe_segs segs = true → is_ascii name = true →
  gmatch segs name = glob (items_of segs) name.
Proof.
  intros Hwf Hsafe Ha. apply eq_true_iff_eq.
  split; [by apply gmatch_sound with first | by apply gmatch_complete with first].
Qed.

End greedy.

(** ** The shape of the segments of a pattern *)

Section shape.
Implicit Types (pattern p r rest chunk name : string) (star first inrange : bool).
Implicit Types (segs : list (bool * list elem)) (es : list elem).
#[local] Open Scope nat_scope.

Lemma skipStars_true p : fst (skipStars p true) = true.
Proof. induction p as [|c p IH]; simpl; [done|]. by case_bool_decide. Qed.

Lemma skipStars_star r star : fst (skipStars (String "*" r) star) = true.
Proof. simpl. apply skipStars_true. Qed.

(** Without a star in front, nothing is skipped. *)
Lemma skipStars_false p p' :
  skipStars p false = (false, p') → p' = p.
Proof.
  destruct p as [|c p]; simpl; [by intros [= <-]|]. case_bool_decide; [|by intros [= <-]].
  intros Hs. pose proof (skipStars_true p) as Ht. by rewrite Hs in Ht.
Qed.

(** The scan of a chunk stops at a star or at the end of the pattern. *)
Lemma scanIndex_stop p inrange :
  sdrop (scanIndex p inrange) p = EmptyString
  ∨ ∃ r, sdrop (scanIndex p inrange) p = String "*" r.
Proof.
  remember (String.length p) as n eqn:Hn. revert p inrange Hn.
  induction n as [n IH] using lt_wf_ind. intros [|c p] inrange ->; simpl; [by left|].
  assert (∀ b, sdrop (scanIndex p b) p = EmptyString
               ∨ ∃ r, sdrop (scanIndex p b) p = String "*" r) as Hp
    by (intros b; by apply (IH (String.length p)); [simpl; lia|]).
  repeat case_bool_decide; simpl; try apply Hp.
  - destruct p as [|d p2]; simpl; [by left|].
    by apply (IH (String.length p2)); [simpl; lia|].
  - destruct inrange; simpl; [apply Hp|]. subst c. right. by eexists.
Qed.

Lemma scanChunk_rest pattern star chunk rest :
  scanChunk pattern = (star, chunk, rest) → rest = EmptyString ∨ ∃ r, rest = String "*" r.
Proof.
  unfold scanChunk. destruct (skipStars pattern false) as [st p]. intros [= _ _ <-].
  apply scanIndex_stop.
Qed.

Lemma scanChunk_star r star chunk rest :
  scanChunk (String "*" r) = (star, chunk, rest) → star = true.
Proof.
  unfold scanChunk. pose proof (skipStars_star r false) as H.
  destruct (skipStars (String "*" r) false) as [st p]. simpl in H. by intros [= <- _ _].
Qed.

(** A chunk is empty only after a star. *)
Lemma scanChunk_empty_star pattern star rest :
  pattern ≠ EmptyString → scanChunk pattern = (star, EmptyString, rest) → star = true.
Proof.
  intros Hne. unfold scanChunk. pose proof (skipStars_no_star pattern false) as Hstar.
  destruct (skipStars pattern false) as [[|] p] eqn:E; [by intros [= <- _ _]|].
  apply skipStars_false in E as ->. simpl in Hstar. intros [= _ Hs _].
  pose proof (scanIndex_pos pattern Hne Hstar).
  destruct pattern; [done|]. destruct (scanIndex _ _); [lia | done].
Qed.

Lemma segments_wf_from first pattern segs :
  segments pattern = Ok segs →
  first = true ∨ pattern = EmptyString ∨ (∃ r, pattern = String "*" r) →
  segs_wf first segs = true.
Proof.
  revert first pattern. induction segs as [|[star es] segs IH]; intros first pattern Hs Hfirst;
    [done|].
  apply segments_cons in Hs as (chunk & rest & Hsc & Hne & Hp & Hs).
  cbn [segs_wf]. rewrite (IH false rest Hs), andb_true_r.
  2:{ right. by eapply scanChunk_rest. }
  apply andb_true_iff. split.
  - destruct Hfirst as [->|[->|[r ->]]]; [done..|].
    apply scanChunk_star in Hsc as ->. by rewrite orb_true_r.
  - destruct es as [|e es]; [|done]. apply parse_chunk_nil in Hp as ->.
    pose proof (scanChunk_empty_chunk _ _ _ Hsc) as ->.
    rewrite (scanChunk_empty_star _ _ _ Hne Hsc). rewrite segments_empty in Hs.
    by simplify_eq.
Qed.

Lemma segments_wf pattern segs : segments pattern = Ok segs → segs_wf true segs = true.
Proof. intros Hs. eapply segments_wf_from; eauto. Qed.

End shape.

(** ** [Match] and the reference matcher *)

Section reference.
Implicit Types (pattern name : string) (segs : list (bool * list elem)).

(** [Match] reports an error exactly on the patterns that do not parse. *)
Lemma Match_Err pattern name e : Match pattern name = Err e ↔ segments pattern = Err e.
Proof. by rewrite <-!err_of_Some, Match_err, pattern_error_segments. Qed.

(** Soundness, for every name: what [Match] accepts, the pattern matches. *)
Lemma Match_sound pattern name :
  Match pattern name = Ok true → glob_pattern pattern name = Ok true.
Proof.
  intros Hm. unfold glob_pattern. destruct (segments pattern) as [segs|e] eqn:Hs.
  - rewrite (Match_segments _ _ _ Hs) in Hm. injection Hm as Hm. simpl.
    by rewrite (gmatch_sound true) by eauto using segments_wf.
  - apply (Match_Err _ name) in Hs. congruence.
Qed.

(** On a name of bytes below [RuneSelf], with a pattern whose classes do
    not match the separator, [Match] is the reference matcher. *)
Lemma Match_glob pattern segs name :
  segments pattern = Ok segs → safe_segs segs = true → is_ascii name = true →
  Match pattern name = Ok (glob (items_of segs) name).
Proof.
  intros Hs Hsafe Ha. rewrite (Match_segments _ _ _ Hs).
  by rewrite (gmatch_glob true) by eauto using segments_wf.
Qed.

End reference.

(** On the cases of the test table of [path/filepath] the reference
    matcher answers as [Match] does: none of them has a class that
    matches a separator of the name, or a star before a character of
    several bytes on which the chunk fails. *)
Example glob_tests :
  (λ '(p, s, _), glob_pattern p s) <$> match_tests = snd <$> match_tests.
Proof. by vm_compute. Qed.
