(* ===== verification/Memkv.v ===== *)
(** * Memkv: the store of src/store.go

    [Store] holds the contents of the Go map [m]; the operations are the
    methods of src/store.go in the order of the file, each translated
    statement by statement.  A method that returns [(T, error)] returns a
    pair whose second component is [None] for Go's [nil] error; a slice
    result is [None] for Go's [nil] slice and [Some l] for a slice with the
    elements [l].  [List] and [ListDir] evaluate the slice expression
    [strippedKey[1:]], which panics on the empty string: they return a
    [result panic].

    Go visits the entries of a map in an unspecified order.  The loops over
    [s.m] are functions of the list of entries visited ([GetAll_loop],
    [List_loop], [ListDir_loop]); [range] is the order the model picks, and
    [GetAll_order_independent] and [List_order_independent] show that no
    other order of the same entries changes a result.  The second loop of
    [List] and [ListDir], over the segments found, feeds [sort.Strings],
    whose result is the same for every order ([sort_Strings_perm]).

    The calls of [Lock], [RLock] and their unlocks bracket each method and
    do not change what a method computes when it runs alone; this file
    gives that sequential meaning. *)

From S2P Require Import Prelude GoString Sorting Match.
From stdpp Require Import gmap strings sorting.

(** ** Errors and state *)

(** [ErrNotExist] and [ErrNoMatch] are the two error values of the
    package; [ErrFilepath] is an error of [filepath.Match] that [GetAll]
    returns unchanged. *)

Inductive error : Set :=
| ErrNotExist
| ErrNoMatch
| ErrFilepath (e : match_error).

#[export] Instance error_eq_dec : EqDecision error.
Proof. solve_decision. Defined.

Record Store : Type := mkStore { m : gmap string KVPair }.

(** The entries of the map in the order a [range] loop visits them. *)

Definition range (s : Store) : list KVPair := (map_to_list (m s)).*2.

(** ** Operations *)

Definition New : Store := {| m := ∅ |}.

Definition Del (s : Store) (key : string) : Store :=
  {| m := delete key (m s) |}.

Definition Get (s : Store) (key : string) : KVPair * option error :=
  match m s !! key with
  | Some kv => (kv, None)
  | None => (mkKVPair "" "", Some ErrNotExist)
  end.

Definition GetValue (s : Store) (key : string) : string * option error :=
  let '(kv, err) := Get s key in
  match err with
  | Some e => ("", Some e)
  | None => (Value kv, None)
  end.

(** The loop of [GetAll] over the entries [kvs], with the slice [ks]
    collected so far; [Err] is the early return on a malformed pattern. *)

Fixpoint GetAll_loop (pattern : string) (kvs : list KVPair) (ks : KVPairs)
  : result match_error KVPairs :=
  match kvs with
  | [] => Ok ks
  | kv :: kvs' =>
      match Match pattern (Key kv) with
      | Err e => Err e
      | Ok matched => GetAll_loop pattern kvs' (if matched then ks ++ [kv] else ks)
      end
  end.

Definition GetAll_from (kvs : list KVPair) (pattern : string) : option KVPairs * option error :=
  match GetAll_loop pattern kvs [] with
  | Err e => (None, Some (ErrFilepath e))
  | Ok ks =>
      if bool_decide (length ks = 0) then (None, Some ErrNoMatch)
      else (Some (sort_Sort ks), None)
  end.

Definition GetAll (s : Store) (pattern : string) : option KVPairs * option error :=
  GetAll_from (range s) pattern.

(** The loop of [GetAllValues] over the pairs found. *)

Fixpoint GetAllValues_loop (ks : KVPairs) (vs : list string) : list string :=
  match ks with
  | [] => vs
  | kv :: ks' => GetAllValues_loop ks' (vs ++ [Value kv])
  end.

Definition GetAllValues (s : Store) (pattern : string) : option (list string) * option error :=
  let vs := [] in
  let '(ks, err) := GetAll s pattern in
  match err with
  | Some e => (Some vs, Some e)
  | None => (Some (GetAllValues_loop (default [] ks) vs), None)
  end.

(** The body of the first loop of [List] for one entry: the set [seen] is
    the Go map [m] of type [map[string]bool], whose values are all [true]. *)

Definition List_step (path : string) (kv : KVPair) (seen : gmap string bool)
  : result panic (gmap string bool) :=
  if HasPrefix (Key kv) path then
    let strippedKey := TrimPrefix (Key kv) path in
    tail ← slice_from strippedKey 1;
    item ← index_at (SplitN tail "/" 2) 0;
    Ok (<[item := true]> seen)
  else Ok seen.

Fixpoint List_loop (path : string) (kvs : list KVPair) (seen : gmap string bool)
  : result panic (gmap string bool) :=
  match kvs with
  | [] => Ok seen
  | kv :: kvs' => seen' ← List_step path kv seen; List_loop path kvs' seen'
  end.

(** The second loop of [List] and [ListDir]: the keys of [seen], appended
    to [vs] in the order the map is visited. *)

Definition keys_loop (seen : gmap string bool) (vs : list string) : list string :=
  vs ++ (map_to_list seen).*1.

Definition List_from (kvs : list KVPair) (path : string) : result panic (list string) :=
  seen ← List_loop path kvs ∅;
  Ok (sort_Strings (keys_loop seen [])).

Definition List (s : Store) (path : string) : result panic (list string) :=
  List_from (range s) path.

Definition ListDir_step (path : string) (kv : KVPair) (seen : gmap string bool)
  : result panic (gmap string bool) :=
  if HasPrefix (Key kv) path then
    let strippedKey := TrimPrefix (Key kv) path in
    tail ← slice_from strippedKey 1;
    let items := SplitN tail "/" 2 in
    if bool_decide (length items < 2) then Ok seen
    else item ← index_at items 0; Ok (<[item := true]> seen)
  else Ok seen.

Fixpoint ListDir_loop (path : string) (kvs : list KVPair) (seen : gmap string bool)
  : result panic (gmap string bool) :=
  match kvs with
  | [] => Ok seen
  | kv :: kvs' => seen' ← ListDir_step path kv seen; ListDir_loop path kvs' seen'
  end.

Definition ListDir_from (kvs : list KVPair) (path : string) : result panic (list string) :=
  seen ← ListDir_loop path kvs ∅;
  Ok (sort_Strings (keys_loop seen [])).

Definition ListDir (s : Store) (path : string) : result panic (list string) :=
  ListDir_from (range s) path.

Definition Set' (s : Store) (key value : string) : Store :=
  {| m := <[key := mkKVPair key value]> (m s) |}.

(** ** Stores used in the examples

    The keys of the listing example of the specification, and the same
    store with a key that has nothing nested beneath it. *)

Definition example_store : Store :=
  Set' (Set' (Set' New "/app/db/host" "db1") "/app/db/port" "5432") "/app/cache/ttl" "60".

Definition example_store' : Store := Set' example_store "/app/standalone" "yes".

(** ** Predicates used in the statements *)

(** The pattern matches the key of [kv]; the pattern is rejected on it. *)

Definition matches (pattern : string) (kv : KVPair) : Prop :=
  Match pattern (Key kv) = Ok true.

Definition rejects (pattern : string) (kv : KVPair) : Prop :=
  is_Err (Match pattern (Key kv)).

#[export] Instance matches_dec pattern kv : Decision (matches pattern kv).
Proof. unfold matches. apply _. Defined.

#[export] Instance rejects_dec pattern kv : Decision (rejects pattern kv).
Proof. unfold rejects. apply _. Defined.

(** The first path segment of [t]: everything before the first
    separator, or all of [t] when it has none. *)

Fixpoint first_segment (t : string) : string :=
  match t with
  | EmptyString => EmptyString
  | String c t' => if decide (c = "/"%char) then EmptyString else String c (first_segment t')
  end.

(** What one entry contributes to a listing of [path]: a panic when its
    key is [path] itself, nothing when [path] is not a prefix of its key,
    and otherwise the first segment of what follows the prefix and one more
    byte.  [ListDir] moreover drops the entry when nothing follows that
    first segment. *)

Definition List_entry (path : string) (kv : KVPair) : result panic (option string) :=
  if HasPrefix (Key kv) path then
    if decide (Key kv = path) then Err SliceBoundsOutOfRange
    else Ok (Some (first_segment (sdrop 1 (TrimPrefix (Key kv) path))))
  else Ok None.

Definition ListDir_entry (path : string) (kv : KVPair) : result panic (option string) :=
  if HasPrefix (Key kv) path then
    if decide (Key kv = path) then Err SliceBoundsOutOfRange
    else
      let rest := sdrop 1 (TrimPrefix (Key kv) path) in
      if Contains rest "/" then Ok (Some (first_segment rest)) else Ok None
  else Ok None.

(** [x] is the contribution of some entry of [kvs]. *)

Definition contributes (entry : KVPair → result panic (option string))
  (kvs : list KVPair) (x : string) : Prop :=
  ∃ kv, kv ∈ kvs ∧ entry kv = Ok (Some x).

(** A listing by an arbitrary [entry] function: the reference for [List]
    and [ListDir]. *)

Definition listing (entry : KVPair → result panic (option string)) (kvs : list KVPair)
  : result panic (list string) :=
  if decide (Exists (λ kv, is_Err (entry kv)) kvs) then Err SliceBoundsOutOfRange
  else
    Ok (sort_Strings (remove_dups
      (omap (λ kv, match entry kv with Ok o => o | Err _ => None end) kvs))).

(** ** The invariant of the store

    Every entry is filed under its own key. *)

Definition store_wf (s : Store) : Prop :=
  ∀ k kv, m s !! k = Some kv → Key kv = k.

(** Stores built from [New] by [Set'] and [Del]. *)

Inductive reachable : Store → Prop :=
| reachable_New : reachable New
| reachable_Set s key value : reachable s → reachable (Set' s key value)
| reachable_Del s key : reachable s → reachable (Del s key).

(** ** Point operations *)

Section point_operations.
Implicit Types (s : Store) (key k value : string) (kv : KVPair).

(** The map after each operation that writes it. *)

Lemma lookup_New k : m New !! k = None.
Proof. apply lookup_empty. Qed.

Lemma lookup_Set s key value k :
  m (Set' s key value) !! k =
    if decide (key = k) then Some (mkKVPair key value) else m s !! k.
Proof. apply lookup_insert. Qed.

Lemma lookup_Del s key k :
  m (Del s key) !! k = if decide (key = k) then None else m s !! k.
Proof. apply lookup_delete. Qed.

Lemma Store_eq s1 s2 : m s1 = m s2 → s1 = s2.
Proof. destruct s1, s2; simpl; by intros ->. Qed.

Lemma Del_id s key : m s !! key = None → Del s key = s.
Proof. intros H. apply Store_eq; simpl. by apply delete_id. Qed.

(** [Get] in terms of the map: the stored pair without error, or the zero
    pair with [ErrNotExist]. *)

Lemma Get_lookup s key kv : Get s key = (kv, None) ↔ m s !! key = Some kv.
Proof. unfold Get. destruct (m s !! key); naive_solver. Qed.

Lemma Get_ErrNotExist s key :
  Get s key = (mkKVPair "" "", Some ErrNotExist) ↔ m s !! key = None.
Proof. unfold Get. destruct (m s !! key); naive_solver. Qed.

Lemma Get_cases s key :
  (∃ kv, m s !! key = Some kv ∧ Get s key = (kv, None))
  ∨ (m s !! key = None ∧ Get s key = (mkKVPair "" "", Some ErrNotExist)).
Proof. unfold Get. destruct (m s !! key); naive_solver. Qed.

(** C1: after [Set(key, value)], [Get(key)] returns the pair
    [{key, value}] and no error, whatever the store held before, and
    [Get] of every other key answers as it did. *)
Theorem Get_Set s key value k :
  Get (Set' s key value) k =
    if decide (key = k) then (mkKVPair key value, None) else Get s k.
Proof. unfold Get. rewrite lookup_Set. by case_decide. Qed.

(** The two cases on their own. *)
Lemma Get_Set_eq s key value :
  Get (Set' s key value) key = (mkKVPair key value, None).
Proof. apply Get_lookup. by rewrite lookup_Set, decide_True. Qed.

Lemma Get_Set_ne s key value k :
  key ≠ k → Get (Set' s key value) k = Get s k.
Proof. intros Hne. unfold Get. by rewrite lookup_Set, decide_False. Qed.

(** C2: after [Del(key)], [Get(key)] fails with [ErrNotExist] and returns
    the zero pair; for every other key its answer is unchanged. *)
Theorem Get_Del s key k :
  Get (Del s key) k =
    if decide (key = k) then (mkKVPair "" "", Some ErrNotExist) else Get s k.
Proof. unfold Get. rewrite lookup_Del. by case_decide. Qed.

(** [Del] of a key for which [Get] reports [ErrNotExist] leaves the
    store as it is (so a second [Del] of the same key is a no-op). *)
Theorem Del_absent s key :
  snd (Get s key) = Some ErrNotExist → Del s key = s.
Proof.
  intros H. apply Del_id.
  destruct (Get_cases s key) as [(kv & _ & Hg)|[? _]]; [by rewrite Hg in H | done].
Qed.

Lemma Del_absent_witness : Del (Del (Set' New "/b" "2") "/b") "/b" = Del (Set' New "/b" "2") "/b".
Proof. by apply Del_absent. Defined.

(** [Get] on the store that [New] returns fails with [ErrNotExist] for
    every key. *)
Theorem Get_New key : Get New key = (mkKVPair "" "", Some ErrNotExist).
Proof. apply Get_ErrNotExist, lookup_New. Qed.

(** A later [Set] of the same key overwrites the earlier one. *)
Lemma Set_Set s key v1 v2 : Set' (Set' s key v1) key v2 = Set' s key v2.
Proof. apply Store_eq; simpl. by rewrite insert_insert_eq. Qed.

(** [GetValue] in terms of the map. *)
Lemma GetValue_lookup s key :
  GetValue s key =
    match m s !! key with
    | Some kv => (Value kv, None)
    | None => ("", Some ErrNotExist)
    end.
Proof. unfold GetValue, Get. by destruct (m s !! key). Qed.

(** [GetValue] returns the value last [Set] for the key, and the empty
    string with [ErrNotExist] once the key is deleted. *)
Theorem GetValue_Set_Del s key value :
  GetValue (Set' s key value) key = (value, None)
  ∧ GetValue (Del (Set' s key value) key) key = ("", Some ErrNotExist).
Proof.
  rewrite !GetValue_lookup, lookup_Del, lookup_Set. by rewrite !decide_True.
Qed.

End point_operations.

(** ** The invariant *)

Section invariant.
Implicit Types (s : Store) (key k value : string) (kv : KVPair).

Lemma store_wf_New : store_wf New.
Proof. intros k kv. by rewrite lookup_New. Qed.

Lemma store_wf_Set s key value : store_wf s → store_wf (Set' s key value).
Proof.
  intros Hwf k kv H. apply (lookup_insert_Some (m s)) in H as [[<- <-]|[_ H]];
    [done | by apply Hwf].
Qed.

Lemma store_wf_Del s key : store_wf s → store_wf (Del s key).
Proof. intros Hwf k kv H. apply (lookup_delete_Some (m s)) in H as [_ H]. by apply Hwf. Qed.

End invariant.

#[export] Hint Resolve store_wf_New store_wf_Set store_wf_Del : go.

Section reachable_stores.
Implicit Types (s : Store) (key k value : string) (kv : KVPair).

(** C9: every store built from [New] by [Set] and [Del] files each pair
    under the pair's own key: [Get(key)] never returns a pair with another
    key. *)
Theorem reachable_Get_Key s key kv :
  reachable s → Get s key = (kv, None) → Key kv = key.
Proof.
  intros Hr H%Get_lookup. revert key kv H. change (store_wf s).
  induction Hr; auto with go.
Qed.

Lemma reachable_Get_Key_witness : Key (mkKVPair "/a" "1") = "/a".
Proof.
  apply (reachable_Get_Key (Del (Set' New "/a" "1") "/b") "/a").
  - repeat constructor.
  - reflexivity.
Defined.

End reachable_stores.

(** ** The entries a loop visits *)

Section range_facts.
Implicit Types (s : Store) (key k : string) (kv : KVPair).

Lemma range_New : range New = [].
Proof. unfold range, New; simpl. by rewrite map_to_list_empty. Qed.

Lemma elem_of_range s kv : kv ∈ range s ↔ ∃ k, m s !! k = Some kv.
Proof.
  unfold range. rewrite list_elem_of_fmap. split.
  - intros ([k kv'] & -> & H%elem_of_map_to_list). eauto.
  - intros [k H%elem_of_map_to_list]. by exists (k, kv).
Qed.

Lemma elem_of_range_wf s kv :
  store_wf s → kv ∈ range s ↔ m s !! Key kv = Some kv.
Proof.
  intros Hwf. rewrite elem_of_range. split; [|eauto].
  intros [k Hk]. by rewrite (Hwf _ _ Hk).
Qed.

Lemma range_keys s : store_wf s → Key <$> range s = (map_to_list (m s)).*1.
Proof.
  intros Hwf. unfold range. rewrite <-list_fmap_compose.
  apply Forall_fmap_ext_1, Forall_forall.
  intros [k kv] H%elem_of_map_to_list. simpl. by apply Hwf.
Qed.

Lemma NoDup_range_keys s : store_wf s → NoDup (Key <$> range s).
Proof. intros Hwf. rewrite range_keys by done. apply NoDup_fst_map_to_list. Qed.

Lemma range_nil s : range s = [] ↔ m s = ∅.
Proof.
  unfold range. rewrite <-map_to_list_empty_iff.
  destruct (map_to_list (m s)); naive_solver.
Qed.

End range_facts.

(** ** [GetAll] and [GetAllValues] *)

Section GetAll_facts.
Implicit Types (s : Store) (pattern : string) (kv : KVPair) (kvs ks : KVPairs).

Lemma rejects_Err pattern kv : rejects pattern kv ↔ Match pattern (Key kv) = Err ErrBadPattern.
Proof. unfold rejects. destruct (Match pattern (Key kv)) as [|[]]; naive_solver. Qed.

Lemma not_rejects pattern kv :
  ¬ rejects pattern kv ↔ matches pattern kv ∨ Match pattern (Key kv) = Ok false.
Proof.
  unfold rejects, matches. destruct (Match pattern (Key kv)) as [[]|]; naive_solver.
Qed.

(** The loop returns at the first entry on which the pattern is rejected,
    and otherwise appends the entries that match, in the order visited. *)

Lemma GetAll_loop_Ok pattern kvs ks :
  Forall (λ kv, ¬ rejects pattern kv) kvs →
  GetAll_loop pattern kvs ks = Ok (ks ++ filter (matches pattern) kvs).
Proof.
  intros Hall. revert ks. induction Hall as [|kv kvs Hkv _ IH]; intros ks; simpl.
  - by rewrite app_nil_r.
  - apply not_rejects in Hkv as [Hm|Hn].
    + rewrite filter_cons_True by done. rewrite Hm, IH. by rewrite <-app_assoc.
    + rewrite filter_cons_False by (unfold matches; congruence). by rewrite Hn, IH.
Qed.

Lemma GetAll_loop_Err pattern kvs ks :
  Exists (rejects pattern) kvs → GetAll_loop pattern kvs ks = Err ErrBadPattern.
Proof.
  intros Hex. revert ks. induction Hex as [kv kvs Hkv|kv kvs _ IH]; intros ks; simpl.
  - apply rejects_Err in Hkv. by rewrite Hkv.
  - destruct (Match pattern (Key kv)) as [b|[]]; [apply IH | done].
Qed.

(** The three outcomes of [GetAll] over the entries [kvs]. *)

Lemma GetAll_from_rejected kvs pattern :
  Exists (rejects pattern) kvs →
  GetAll_from kvs pattern = (None, Some (ErrFilepath ErrBadPattern)).
Proof. intros H. unfold GetAll_from. by rewrite GetAll_loop_Err. Qed.

Lemma GetAll_from_accepted kvs pattern :
  Forall (λ kv, ¬ rejects pattern kv) kvs →
  GetAll_from kvs pattern =
    match filter (matches pattern) kvs with
    | [] => (None, Some ErrNoMatch)
    | ks => (Some (sort_Sort ks), None)
    end.
Proof.
  intros H. unfold GetAll_from. rewrite GetAll_loop_Ok by done. simpl.
  by destruct (filter _ kvs).
Qed.

Lemma rejects_cases kvs pattern :
  Exists (rejects pattern) kvs ∨ Forall (λ kv, ¬ rejects pattern kv) kvs.
Proof.
  destruct (decide (Exists (rejects pattern) kvs)) as [?|Hn]; [by left|right].
  by apply Forall_Exists_neg.
Qed.

(** A permutation of the entries visited, with distinct keys, gives the
    same outcome. *)
Lemma GetAll_from_perm kvs kvs' pattern :
  NoDup (Key <$> kvs) → kvs ≡ₚ kvs' →
  GetAll_from kvs pattern = GetAll_from kvs' pattern.
Proof.
  intros Hnd Hp. destruct (rejects_cases kvs pattern) as [Hex|Hall].
  - rewrite !GetAll_from_rejected; [done| by rewrite <-Hp | done].
  - rewrite !GetAll_from_accepted; [| by rewrite <-Hp | done].
    assert (filter (matches pattern) kvs ≡ₚ filter (matches pattern) kvs') as Hf
      by by rewrite Hp.
    pose proof (NoDup_fmap_filter Key (matches pattern) kvs Hnd) as Hndf.
    destruct (filter _ kvs) as [|a l] eqn:E, (filter _ kvs') as [|a' l'] eqn:E'.
    + done.
    + by apply Permutation_nil_cons in Hf.
    + symmetry in Hf. by apply Permutation_nil_cons in Hf.
    + by rewrite (sort_Sort_perm _ _ Hndf Hf).
Qed.

(** The keys of the store on which the pattern is rejected or matches. *)

Lemma Exists_range_rejects s pattern :
  store_wf s →
  Exists (rejects pattern) (range s) ↔
  ∃ k, is_Some (m s !! k) ∧ Match pattern k = Err ErrBadPattern.
Proof.
  intros Hwf. rewrite Exists_exists. split.
  - intros (kv & Hin & Hr%rejects_Err). apply elem_of_range_wf in Hin; eauto.
  - intros (k & [kv Hk] & Hr). exists kv. rewrite elem_of_range, rejects_Err.
    rewrite (Hwf _ _ Hk). eauto.
Qed.

Lemma elem_of_filter_range s pattern kv :
  store_wf s →
  kv ∈ filter (matches pattern) (range s) ↔
  m s !! Key kv = Some kv ∧ Match pattern (Key kv) = Ok true.
Proof. intros Hwf. rewrite list_elem_of_filter, elem_of_range_wf by done. naive_solver. Qed.

(** C30: the result of [GetAll] does not depend on the order in which Go
    visits the map: over any rearrangement [kvs] of the entries the method
    returns what it returns over [range s]. *)
Theorem GetAll_order_independent s kvs pattern :
  store_wf s → kvs ≡ₚ range s → GetAll_from kvs pattern = GetAll s pattern.
Proof.
  intros Hwf Hp. symmetry. apply GetAll_from_perm; [by apply NoDup_range_keys | done].
Qed.

(** C4: when [GetAll] succeeds, the slice it returns is not empty, is
    strictly increasing by key, and holds exactly the pairs of the store
    whose key the pattern matches. *)
Theorem GetAll_Some s pattern ks :
  store_wf s → GetAll s pattern = (Some ks, None) →
  StronglySorted Less ks ∧ ks ≠ [] ∧
  ∀ kv, kv ∈ ks ↔ m s !! Key kv = Some kv ∧ Match pattern (Key kv) = Ok true.
Proof.
  intros Hwf. unfold GetAll.
  destruct (rejects_cases (range s) pattern) as [Hex|Hall].
  { by rewrite GetAll_from_rejected. }
  rewrite GetAll_from_accepted by done.
  destruct (filter _ (range s)) as [|a l] eqn:E; [done|]. intros [= <-].
  rewrite <-E. split_and!.
  - by apply sort_Sort_strict, NoDup_fmap_filter, NoDup_range_keys.
  - intros Hnil%sort_Sort_nil_inv. by rewrite E in Hnil.
  - intros kv. by rewrite sort_Sort_elem_of, elem_of_filter_range.
Qed.

(** C10: [GetAll] succeeds exactly when the pattern is rejected on no key
    of the store and matches at least one. *)
Theorem GetAll_succeeds_iff s pattern :
  store_wf s →
  (∃ ks, GetAll s pattern = (Some ks, None)) ↔
  (∀ k, is_Some (m s !! k) → Match pattern k ≠ Err ErrBadPattern)
  ∧ (∃ k, is_Some (m s !! k) ∧ Match pattern k = Ok true).
Proof.
  intros Hwf. unfold GetAll.
  destruct (rejects_cases (range s) pattern) as [Hex|Hall].
  - rewrite GetAll_from_rejected by done.
    apply Exists_range_rejects in Hex as (k & Hk & Hr); [|done].
    split; [by intros [? ?] | intros [H _]; by destruct (H k Hk)].
  - rewrite GetAll_from_accepted by done.
    assert (∀ k, is_Some (m s !! k) → Match pattern k ≠ Err ErrBadPattern) as Hok.
    { intros k Hk Hr. apply Forall_Exists_neg in Hall. apply Hall.
      apply Exists_range_rejects; eauto. }
    destruct (filter _ (range s)) as [|a l] eqn:E.
    + split; [naive_solver|]. intros (_ & k & [kv Hk] & Hm).
      assert (kv ∈ filter (matches pattern) (range s)) as Hin;
        [|rewrite E in Hin; by apply elem_of_nil in Hin].
      apply elem_of_filter_range; [done|]. by rewrite (Hwf _ _ Hk).
    + split; [|eauto]. intros _. split; [done|].
      assert (a ∈ filter (matches pattern) (range s)) as Hin by (rewrite E; left).
      apply elem_of_filter_range in Hin as [? ?]; eauto.
Qed.

(** [GetAll] fails with the error of [filepath.Match] exactly when the
    pattern is rejected on the key of some pair of the store. *)
Theorem GetAll_ErrBadPattern_iff s pattern :
  store_wf s →
  GetAll s pattern = (None, Some (ErrFilepath ErrBadPattern)) ↔
  ∃ k, is_Some (m s !! k) ∧ Match pattern k = Err ErrBadPattern.
Proof.
  intros Hwf. rewrite <-Exists_range_rejects by done. unfold GetAll.
  destruct (rejects_cases (range s) pattern) as [Hex|Hall].
  - by rewrite GetAll_from_rejected.
  - rewrite GetAll_from_accepted by done. apply Forall_Exists_neg in Hall.
    by destruct (filter _ (range s)).
Qed.

(** C33: [GetAll] fails with [ErrNoMatch] exactly when [filepath.Match]
    answers [false], without error, on every key of the store. *)
Theorem GetAll_ErrNoMatch_iff s pattern :
  store_wf s →
  GetAll s pattern = (None, Some ErrNoMatch) ↔
  ∀ k, is_Some (m s !! k) → Match pattern k = Ok false.
Proof.
  intros Hwf. unfold GetAll.
  destruct (rejects_cases (range s) pattern) as [Hex|Hall].
  - rewrite GetAll_from_rejected by done.
    apply Exists_range_rejects in Hex as (k & Hk & Hr); [|done].
    split; [done|]. intros H. by rewrite (H k Hk) in Hr.
  - rewrite GetAll_from_accepted by done. rewrite Forall_forall in Hall.
    destruct (filter _ (range s)) as [|a l] eqn:E.
    + split; [|done]. intros _ k [kv Hk].
      assert (kv ∈ range s) as Hin by (apply elem_of_range; eauto).
      apply filter_nil_iff in E. rewrite Forall_forall in E.
      specialize (Hall _ Hin). specialize (E _ Hin).
      apply not_rejects in Hall as [?|Hf]; [done|]. by rewrite <-(Hwf _ _ Hk).
    + split; [done|]. intros H.
      assert (a ∈ filter (matches pattern) (range s)) as Hin by (rewrite E; left).
      apply elem_of_filter_range in Hin as [Ha Hm]; [|done].
      by rewrite (H (Key a)) in Hm.
Qed.

(** On a store without entries [GetAll] fails with [ErrNoMatch] for
    every pattern, a malformed one included: [filepath.Match] is never
    called, so its error cannot be reported. *)
Theorem GetAll_New pattern : GetAll New pattern = (None, Some ErrNoMatch).
Proof. unfold GetAll. by rewrite range_New. Qed.

(** The loop of [GetAllValues] appends the values in order. *)
Lemma GetAllValues_loop_fmap ks vs : GetAllValues_loop ks vs = vs ++ (Value <$> ks).
Proof.
  revert vs. induction ks as [|kv ks IH]; intros vs; simpl; [by rewrite app_nil_r|].
  by rewrite IH, <-app_assoc.
Qed.

(** [GetAll] never returns both a slice and an error, nor neither. *)
Lemma GetAll_shape s pattern :
  (∃ ks, GetAll s pattern = (Some ks, None)) ∨ (∃ e, GetAll s pattern = (None, Some e)).
Proof.
  unfold GetAll, GetAll_from. destruct (GetAll_loop _ _ _); [case_bool_decide|]; eauto.
Qed.

(** C32: [GetAllValues] returns the values of the pairs [GetAll] returns,
    in the same order; when [GetAll] fails it returns the same error
    together with an empty slice that is not nil. *)
Theorem GetAllValues_GetAll s pattern :
  GetAllValues s pattern =
    match GetAll s pattern with
    | (Some ks, None) => (Some (Value <$> ks), None)
    | (_, Some e) => (Some [], Some e)
    | (None, None) => (Some [], None)
    end.
Proof.
  unfold GetAllValues. destruct (GetAll s pattern) as [[ks|] [e|]]; try done.
  by rewrite GetAllValues_loop_fmap.
Qed.

End GetAll_facts.

(** ** Listings by an arbitrary entry function

    [List] and [ListDir] differ only in what one entry contributes.  This
    section proves, once for both, that a loop whose body inserts that
    contribution into [seen], followed by the key loop and the sort,
    computes [listing]. *)

Section listing_facts.
Context (entry : KVPair → result panic (option string)).
Context (step : KVPair → gmap string bool → result panic (gmap string bool)).
Context (loop : list KVPair → gmap string bool → result panic (gmap string bool)).
Hypothesis entry_Err : ∀ kv e, entry kv = Err e → e = SliceBoundsOutOfRange.
Hypothesis step_entry : ∀ kv seen,
  step kv seen =
    match entry kv with
    | Err e => Err e
    | Ok None => Ok seen
    | Ok (Some x) => Ok (<[x := true]> seen)
    end.
Hypothesis loop_nil : ∀ seen, loop [] seen = Ok seen.
Hypothesis loop_cons : ∀ kv kvs seen, loop (kv :: kvs) seen = step kv seen ≫= loop kvs.
Implicit Types (kv : KVPair) (kvs : list KVPair) (seen : gmap string bool) (x : string).

Local Notation contributes := (contributes entry).

Lemma loop_Err kvs seen :
  Exists (λ kv, is_Err (entry kv)) kvs → loop kvs seen = Err SliceBoundsOutOfRange.
Proof.
  intros Hex. revert seen. induction Hex as [kv kvs Hkv|kv kvs _ IH]; intros seen;
    rewrite loop_cons, step_entry.
  - destruct (entry kv) as [|e] eqn:E; [done|]. by rewrite (entry_Err _ _ E).
  - destruct (entry kv) as [[x|]|e] eqn:E; simplify_result; [apply IH..|].
    by rewrite (entry_Err _ _ E).
Qed.

Lemma contributes_nil x : ¬ contributes [] x.
Proof. intros (kv & []%elem_of_nil & _). Qed.

Lemma contributes_cons kv kvs x :
  contributes (kv :: kvs) x ↔ entry kv = Ok (Some x) ∨ contributes kvs x.
Proof.
  unfold Memkv.contributes. split.
  - intros (kv' & [->|?]%elem_of_cons & ?); eauto.
  - intros [?|(kv' & ? & ?)]; [exists kv | exists kv']; split; auto using elem_of_cons.
    + by left.
    + by right.
Qed.

Lemma loop_Ok kvs seen :
  Forall (λ kv, ¬ is_Err (entry kv)) kvs →
  ∃ seen', loop kvs seen = Ok seen' ∧
    ∀ x, is_Some (seen' !! x) ↔ is_Some (seen !! x) ∨ contributes kvs x.
Proof.
  intros Hall. revert seen. induction Hall as [|kv kvs Hkv _ IH]; intros seen.
  - exists seen. rewrite loop_nil. split; [done|]. intros x.
    pose proof (contributes_nil x). tauto.
  - rewrite loop_cons, step_entry.
    destruct (entry kv) as [[y|]|e] eqn:E; [| |by destruct Hkv]; simpl.
    + destruct (IH (<[y:=true]> seen)) as (seen' & -> & Hs). exists seen'.
      split; [done|]. intros x. rewrite Hs, lookup_insert_is_Some', contributes_cons, E.
      split; [intros [[->|?]|?]; auto | intros [?|[[= ->]|?]]; auto].
    + destruct (IH seen) as (seen' & -> & Hs). exists seen'.
      split; [done|]. intros x. rewrite Hs, contributes_cons, E.
      split; [intros [?|?]; auto | intros [?|[[=]|?]]; auto].
Qed.

Lemma elem_of_contributions kvs x :
  x ∈ omap (λ kv, match entry kv with Ok o => o | Err _ => None end) kvs ↔ contributes kvs x.
Proof.
  unfold Memkv.contributes. rewrite list_elem_of_omap. split.
  - intros (kv & Hin & Hx). exists kv. by destruct (entry kv); simplify_eq.
  - intros (kv & Hin & Hx). exists kv. by rewrite Hx.
Qed.

Lemma elem_of_keys_loop seen x : x ∈ keys_loop seen [] ↔ is_Some (seen !! x).
Proof.
  unfold keys_loop; simpl. rewrite list_elem_of_fmap. split.
  - intros ([k b] & -> & H%elem_of_map_to_list). by exists b.
  - intros [b H%elem_of_map_to_list]. by exists (x, b).
Qed.

Lemma NoDup_keys_loop seen : NoDup (keys_loop seen []).
Proof. apply NoDup_fst_map_to_list. Qed.

(** The loop, the key loop and the sort together compute [listing]. *)
Lemma loop_listing kvs :
  (loop kvs ∅ ≫= λ seen, Ok (sort_Strings (keys_loop seen []))) = listing entry kvs.
Proof.
  unfold listing. case_decide as Hex.
  - by rewrite loop_Err.
  - apply Forall_Exists_neg in Hex. destruct (loop_Ok kvs ∅ Hex) as (seen' & -> & Hs).
    simplify_result. f_equal. apply sort_Strings_perm.
    apply NoDup_Permutation; [apply NoDup_keys_loop | apply NoDup_remove_dups |].
    intros x. rewrite elem_of_keys_loop, elem_of_remove_dups, elem_of_contributions, Hs.
    rewrite lookup_empty. split; [intros [[]%is_Some_None|]; done | eauto].
Qed.

(** [listing] panics exactly when some entry does. *)
Lemma listing_Err kvs e :
  listing entry kvs = Err e ↔
  e = SliceBoundsOutOfRange ∧ ∃ kv, kv ∈ kvs ∧ is_Err (entry kv).
Proof. unfold listing. rewrite <-Exists_exists. case_decide; naive_solver. Qed.

(** What [listing] returns is strictly increasing and holds exactly the
    contributions of the entries. *)
Lemma listing_Ok kvs vs :
  listing entry kvs = Ok vs →
  StronglySorted str_lt vs ∧ ∀ x, x ∈ vs ↔ contributes kvs x.
Proof.
  unfold listing. case_decide; [done|]. intros [= <-]. split.
  - apply sort_Strings_strict, NoDup_remove_dups.
  - intros x. by rewrite sort_Strings_elem_of, elem_of_remove_dups, elem_of_contributions.
Qed.

(** [listing] does not depend on the order of the entries. *)
Lemma listing_perm kvs kvs' : kvs ≡ₚ kvs' → listing entry kvs = listing entry kvs'.
Proof.
  intros Hp. unfold listing.
  destruct (decide (Exists _ kvs)) as [H|H], (decide (Exists _ kvs')) as [H'|H'];
    [done | by rewrite Hp in H | by rewrite <-Hp in H' |].
  f_equal. apply sort_Strings_perm.
  apply NoDup_Permutation; [apply NoDup_remove_dups..|].
  intros x. rewrite !elem_of_remove_dups, !elem_of_contributions.
  unfold Memkv.contributes. by setoid_rewrite Hp.
Qed.

End listing_facts.

(** ** [List] and [ListDir] *)

Section List_facts.
Implicit Types (s : Store) (path key k t rest x : string) (kv : KVPair)
  (kvs : list KVPair) (seen : gmap string bool).

(** The piece [SplitN(t, "/", 2)[0]] is the first segment of [t], and the
    split has a second piece exactly when [t] holds a separator. *)

Lemma first_segment_IndexByte t :
  match IndexByte t "/" with
  | None => first_segment t = t
  | Some i => first_segment t = stake i t
  end.
Proof.
  induction t as [|c t IH]; simpl; [done|]. case_decide; [done|].
  destruct (IndexByte t "/"); simpl; by rewrite IH.
Qed.

Lemma SplitN_first_segment t : index_at (SplitN t "/" 2) 0 = Ok (first_segment t).
Proof.
  pose proof (first_segment_IndexByte t) as H.
  destruct (IndexByte t "/") as [i|] eqn:E.
  - by rewrite (SplitN_2_Some _ _ _ E), H.
  - by rewrite (SplitN_2_None _ _ E), H.
Qed.

Lemma SplitN_short t : length (SplitN t "/" 2) < 2 ↔ Contains t "/" = false.
Proof.
  unfold Contains. destruct (IndexByte t "/") as [i|] eqn:E.
  - rewrite (SplitN_2_Some _ _ _ E), bool_decide_eq_false. simpl. split; [lia|].
    intros []. eauto.
  - rewrite (SplitN_2_None _ _ E), bool_decide_eq_false. simpl. split; [|lia].
    intros _ []. done.
Qed.

(** The slice expression [strippedKey[1:]] panics exactly when the key is
    the path itself. *)
Lemma slice_from_TrimPrefix path key :
  HasPrefix key path = true →
  slice_from (TrimPrefix key path) 1 =
    if decide (key = path) then Err SliceBoundsOutOfRange
    else Ok (sdrop 1 (TrimPrefix key path)).
Proof.
  intros [rest ->]%HasPrefix_true. rewrite TrimPrefix_app. unfold slice_from.
  destruct (decide (path +:+ rest = path)) as [->%string_app_eq_l|Hne]; [done|].
  rewrite decide_True; [done|]. destruct rest; simpl; [|lia].
  by rewrite string_app_nil_r in Hne.
Qed.

Lemma List_step_entry path kv seen :
  List_step path kv seen =
    match List_entry path kv with
    | Err e => Err e
    | Ok None => Ok seen
    | Ok (Some x) => Ok (<[x := true]> seen)
    end.
Proof.
  unfold List_step, List_entry. destruct (HasPrefix (Key kv) path) eqn:E; [|done].
  rewrite slice_from_TrimPrefix by done. case_decide; [done|].
  simplify_result. by rewrite SplitN_first_segment.
Qed.

Lemma ListDir_step_entry path kv seen :
  ListDir_step path kv seen =
    match ListDir_entry path kv with
    | Err e => Err e
    | Ok None => Ok seen
    | Ok (Some x) => Ok (<[x := true]> seen)
    end.
Proof.
  unfold ListDir_step, ListDir_entry. destruct (HasPrefix (Key kv) path) eqn:E; [|done].
  rewrite slice_from_TrimPrefix by done. case_decide; [done|]. simplify_result.
  case_bool_decide as Hlen.
  - apply SplitN_short in Hlen. by rewrite Hlen.
  - rewrite SplitN_first_segment. simpl.
    destruct (Contains _ _) eqn:Hc; [done|]. by apply SplitN_short in Hc.
Qed.

Lemma List_entry_Err path kv e :
  List_entry path kv = Err e ↔ e = SliceBoundsOutOfRange ∧ Key kv = path.
Proof.
  unfold List_entry. destruct (HasPrefix (Key kv) path) eqn:E.
  - case_decide; naive_solver.
  - split; [done|]. intros [_ <-]. by rewrite HasPrefix_refl in E.
Qed.

Lemma ListDir_entry_Err path kv e :
  ListDir_entry path kv = Err e ↔ e = SliceBoundsOutOfRange ∧ Key kv = path.
Proof.
  unfold ListDir_entry. destruct (HasPrefix (Key kv) path) eqn:E.
  - case_decide; [naive_solver|]. destruct (Contains _ _); naive_solver.
  - split; [done|]. intros [_ <-]. by rewrite HasPrefix_refl in E.
Qed.

(** [List] and [ListDir] over the entries [kvs] compute the reference
    listing of their entry function. *)

Lemma List_from_listing kvs path : List_from kvs path = listing (List_entry path) kvs.
Proof.
  apply (loop_listing _ (List_step path) (List_loop path)); try done.
  - by intros kv e [-> _]%List_entry_Err.
  - apply List_step_entry.
Qed.

Lemma ListDir_from_listing kvs path :
  ListDir_from kvs path = listing (ListDir_entry path) kvs.
Proof.
  apply (loop_listing _ (ListDir_step path) (ListDir_loop path)); try done.
  - by intros kv e [-> _]%ListDir_entry_Err.
  - apply ListDir_step_entry.
Qed.

(** What an entry contributes, in terms of its key. *)

Lemma List_entry_Some path kv x :
  List_entry path kv = Ok (Some x) ↔
  ∃ rest, Key kv = path +:+ rest ∧ rest ≠ "" ∧ x = first_segment (sdrop 1 rest).
Proof.
  unfold List_entry. destruct (HasPrefix (Key kv) path) eqn:E.
  - apply HasPrefix_true in E as [rest E]. rewrite E, TrimPrefix_app.
    case_decide as Hp.
    + split; [done|]. intros (r & Hr%(inj _) & Hne & _). subst r.
      rewrite <-(string_app_nil_r path) in Hp at 2. by apply (inj _) in Hp.
    + split.
      * intros [= <-]. exists rest. split_and!; [done| |done]. intros ->.
        by rewrite string_app_nil_r in Hp.
      * intros (r & Hr%(inj _) & _ & ->). by subst r.
  - split; [done|]. intros (r & Hr & _). rewrite HasPrefix_false in E. by destruct (E r).
Qed.

Lemma ListDir_entry_Some path kv x :
  ListDir_entry path kv = Ok (Some x) ↔
  List_entry path kv = Ok (Some x)
  ∧ Contains (sdrop 1 (TrimPrefix (Key kv) path)) "/" = true.
Proof.
  unfold ListDir_entry, List_entry. destruct (HasPrefix (Key kv) path); [|naive_solver].
  case_decide; [naive_solver|]. destruct (Contains _ _); naive_solver.
Qed.

End List_facts.

Section List_theorems.
Implicit Types (s : Store) (path key k t rest x : string) (kv : KVPair)
  (kvs : list KVPair) (vs ws : list string).

Lemma range_has_key s path :
  store_wf s → (∃ kv, kv ∈ range s ∧ Key kv = path) ↔ is_Some (m s !! path).
Proof.
  intros Hwf. split.
  - intros (kv & Hin%elem_of_range_wf & <-); eauto.
  - intros [kv Hkv]. exists kv. rewrite elem_of_range. split; [eauto | exact (Hwf _ _ Hkv)].
Qed.

Lemma listing_nil entry kvs :
  Forall (λ kv, entry kv = Ok None) kvs → listing entry kvs = Ok [].
Proof.
  intros Hall. unfold listing. rewrite decide_False.
  - f_equal. replace (omap _ kvs) with (@nil string); [done|].
    induction Hall as [|kv kvs Hkv _ IH]; simpl; [done|]. by rewrite Hkv.
  - apply Forall_Exists_neg. eapply Forall_impl; [done|]. by intros kv -> [].
Qed.

(** A listing either returns or panics with the slice-bounds error. *)
Lemma listing_cases entry kvs :
  (∃ vs, listing entry kvs = Ok vs) ∨ listing entry kvs = Err SliceBoundsOutOfRange.
Proof. unfold listing. case_decide; eauto. Qed.

Lemma List_panics s path :
  store_wf s → List s path = Err SliceBoundsOutOfRange ↔ is_Some (m s !! path).
Proof.
  intros Hwf. unfold List. rewrite List_from_listing, listing_Err, <-range_has_key by done.
  setoid_rewrite is_Err_alt. setoid_rewrite List_entry_Err. naive_solver.
Qed.

Lemma ListDir_panics s path :
  store_wf s → ListDir s path = Err SliceBoundsOutOfRange ↔ is_Some (m s !! path).
Proof.
  intros Hwf. unfold ListDir.
  rewrite ListDir_from_listing, listing_Err, <-range_has_key by done.
  setoid_rewrite is_Err_alt. setoid_rewrite ListDir_entry_Err. naive_solver.
Qed.

(** The contributions of the entries of a store, by key. *)
Lemma contributes_List s path x :
  store_wf s →
  contributes (List_entry path) (range s) x ↔
  ∃ k rest, is_Some (m s !! k) ∧ k = path +:+ rest ∧ rest ≠ ""
            ∧ x = first_segment (sdrop 1 rest).
Proof.
  intros Hwf. unfold contributes. setoid_rewrite List_entry_Some. split.
  - intros (kv & Hin%elem_of_range_wf & rest & ? & ? & ?); [|done]. exists (Key kv), rest. eauto.
  - intros (k & rest & [kv Hk] & -> & ? & ->). exists kv.
    rewrite elem_of_range, (Hwf _ _ Hk). eauto 6.
Qed.

(** [List] and [ListDir] compute the reference listing of the entries
    of the store: the contributions of the entries, without duplicates,
    sorted; a panic when some entry panics. *)
Theorem List_listing s path :
  List s path = listing (List_entry path) (range s)
  ∧ ListDir s path = listing (ListDir_entry path) (range s).
Proof. split; [apply List_from_listing | apply ListDir_from_listing]. Qed.

(** C5: [List(path)] panics with a slice-bounds error when [path] is itself
    a key of the store, and returns normally otherwise. *)
Theorem List_panics_iff s path :
  store_wf s →
  (List s path = Err SliceBoundsOutOfRange ↔ is_Some (m s !! path))
  ∧ (is_Ok (List s path) ↔ m s !! path = None).
Proof.
  intros Hwf. split; [by apply List_panics|].
  rewrite eq_None_not_Some, <-List_panics by done. unfold List.
  rewrite List_from_listing.
  destruct (listing_cases (List_entry path) (range s)) as [[vs ->]| ->]; simpl; naive_solver.
Qed.

(** C29: [ListDir(path)] panics with a slice-bounds error when [path] is
    itself a key of the store, and returns normally otherwise. *)
Theorem ListDir_panics_iff s path :
  store_wf s →
  (ListDir s path = Err SliceBoundsOutOfRange ↔ is_Some (m s !! path))
  ∧ (is_Ok (ListDir s path) ↔ m s !! path = None).
Proof.
  intros Hwf. split; [by apply ListDir_panics|].
  rewrite eq_None_not_Some, <-ListDir_panics by done. unfold ListDir.
  rewrite ListDir_from_listing.
  destruct (listing_cases (ListDir_entry path) (range s)) as [[vs ->]| ->]; simpl; naive_solver.
Qed.

(** C6: when [List(path)] returns, the slice is strictly increasing (so
    sorted and without duplicates) and holds exactly the first segments,
    after the prefix [path] and one more byte, of the keys that start with
    [path]. *)
Theorem List_Ok s path vs :
  store_wf s → List s path = Ok vs →
  StronglySorted str_lt vs ∧
  ∀ x, x ∈ vs ↔
    ∃ k rest, is_Some (m s !! k) ∧ k = path +:+ rest ∧ x = first_segment (sdrop 1 rest).
Proof.
  intros Hwf Hok. pose proof Hok as Hl. unfold List in Hl. rewrite List_from_listing in Hl.
  apply listing_Ok in Hl as [Hs Hx]. split; [done|]. intros x.
  rewrite Hx, contributes_List by done. split; [naive_solver|].
  intros (k & rest & Hk & -> & ->). exists (path +:+ rest), rest. split_and!; try done.
  intros ->. rewrite string_app_nil_r in Hk. apply List_panics in Hk; [|done]. congruence.
Qed.

(** C28: when [ListDir(path)] returns, the slice is strictly increasing and
    holds exactly the first segments of those keys under [path] that go on
    after that segment. *)
Theorem ListDir_Ok s path vs :
  store_wf s → ListDir s path = Ok vs →
  StronglySorted str_lt vs ∧
  ∀ x, x ∈ vs ↔
    ∃ k rest, is_Some (m s !! k) ∧ k = path +:+ rest ∧ rest ≠ ""
      ∧ x = first_segment (sdrop 1 rest) ∧ Contains (sdrop 1 rest) "/" = true.
Proof.
  intros Hwf Hl. unfold ListDir in Hl. rewrite ListDir_from_listing in Hl.
  apply listing_Ok in Hl as [Hs Hx]. split; [done|]. intros x. rewrite Hx.
  unfold contributes. setoid_rewrite ListDir_entry_Some. split.
  - intros (kv & Hin & He & Hc). pose proof He as (rest & Hk & Hne & ->)%List_entry_Some.
    apply elem_of_range_wf in Hin; [|done].
    exists (Key kv), rest. rewrite Hk, TrimPrefix_app in Hc. rewrite <-Hk. eauto 8.
  - intros (k & rest & [kv Hk] & -> & Hne & -> & Hc). exists kv.
    pose proof (Hwf _ _ Hk) as Hkey. rewrite elem_of_range, List_entry_Some, Hkey, TrimPrefix_app.
    eauto 8.
Qed.

(** Every name [ListDir] returns is also returned by [List] for the
    same path. *)
Theorem ListDir_subset_List s path vs ws :
  List s path = Ok vs → ListDir s path = Ok ws → ws ⊆ vs.
Proof.
  unfold List, ListDir. rewrite List_from_listing, ListDir_from_listing.
  intros [_ Hv]%listing_Ok [_ Hw]%listing_Ok x. rewrite Hv, Hw.
  intros (kv & Hin & [He _]%ListDir_entry_Some). by exists kv.
Qed.

(** C31: the results of [List] and [ListDir] do not depend on the order in
    which Go visits the map. *)
Theorem List_order_independent s kvs path :
  kvs ≡ₚ range s →
  List_from kvs path = List s path ∧ ListDir_from kvs path = ListDir s path.
Proof.
  intros Hp. unfold List, ListDir.
  rewrite !List_from_listing, !ListDir_from_listing. split; by apply listing_perm.
Qed.

(** C34: when no key of the store starts with [path], [List] and [ListDir]
    return an empty slice and no panic. *)
Theorem List_no_prefix s path :
  store_wf s →
  (∀ k, is_Some (m s !! k) → HasPrefix k path = false) →
  List s path = Ok [] ∧ ListDir s path = Ok [].
Proof.
  intros Hwf Hno. unfold List, ListDir. rewrite List_from_listing, ListDir_from_listing.
  split; apply listing_nil, Forall_forall; intros kv Hin%elem_of_range_wf; try done.
  - unfold List_entry. rewrite Hno; eauto.
  - unfold ListDir_entry. rewrite Hno; eauto.
Qed.

End List_theorems.

(** ** The examples of the specification, and witnesses *)

Section memkv_examples.

(** The listing example of the specification: with the keys
    [/app/db/host], [/app/db/port] and [/app/cache/ttl], both [List("/app")]
    and [ListDir("/app")] return [cache, db]; a further key
    [/app/standalone] appears in [List] and not in [ListDir]; a path that
    ends inside a segment, [/a] for the key [/ab/c], drops the byte after
    the prefix whatever it is and lists what is left up to the next
    separator, here the empty name. *)
Example List_example :
  List example_store "/app" = Ok ["cache"; "db"]
  ∧ ListDir example_store "/app" = Ok ["cache"; "db"]
  ∧ List example_store' "/app" = Ok ["cache"; "db"; "standalone"]
  ∧ ListDir example_store' "/app" = Ok ["cache"; "db"]
  ∧ List (Set' New "/ab/c" "1") "/a" = Ok [""]
  ∧ List (Set' New "/abc/d" "1") "/a" = Ok ["c"].
Proof. by vm_compute. Qed.

(** The pattern example of the specification: with the keys [/a/2],
    [/a/1] and [/a/3] set in that order, [GetAllValues("/a/*")] returns the
    values in the order of the keys [/a/1], [/a/2], [/a/3], and
    [GetAll("[")] fails with the error of the matcher. *)
Example GetAll_example :
  let s := Set' (Set' (Set' New "/a/2" "two") "/a/1" "one") "/a/3" "three" in
  GetAllValues s "/a/*" = (Some ["one"; "two"; "three"], None)
  ∧ GetAll s "/b/*" = (None, Some ErrNoMatch)
  ∧ GetAll s "[" = (None, Some (ErrFilepath ErrBadPattern)).
Proof. by vm_compute. Qed.

Lemma example_store_wf : store_wf example_store'.
Proof. unfold example_store', example_store. auto 10 with go. Defined.

Lemma GetAll_order_independent_witness :
  GetAll_from (reverse (range example_store')) "/app/*/*" = GetAll example_store' "/app/*/*".
Proof.
  apply GetAll_order_independent; [apply example_store_wf | apply reverse_Permutation].
Defined.

Lemma GetAll_Some_witness :
  StronglySorted Less [mkKVPair "/app/db/host" "db1"; mkKVPair "/app/db/port" "5432"]
  ∧ [mkKVPair "/app/db/host" "db1"; mkKVPair "/app/db/port" "5432"] ≠ []
  ∧ ∀ kv, kv ∈ [mkKVPair "/app/db/host" "db1"; mkKVPair "/app/db/port" "5432"] ↔
      m example_store' !! Key kv = Some kv ∧ Match "/app/db/*" (Key kv) = Ok true.
Proof.
  apply (GetAll_Some example_store' "/app/db/*"); [apply example_store_wf | by vm_compute].
Defined.

Lemma GetAll_succeeds_iff_witness :
  (∀ k, is_Some (m example_store' !! k) → Match "/app/*" k ≠ Err ErrBadPattern)
  ∧ (∃ k, is_Some (m example_store' !! k) ∧ Match "/app/*" k = Ok true).
Proof.
  apply (GetAll_succeeds_iff example_store' "/app/*"); [apply example_store_wf|].
  eexists. by vm_compute.
Defined.

Lemma GetAll_ErrBadPattern_iff_witness :
  GetAll example_store' "/app/[" = (None, Some (ErrFilepath ErrBadPattern)).
Proof.
  apply GetAll_ErrBadPattern_iff; [apply example_store_wf|].
  exists "/app/db/host". split; [by eexists | by vm_compute].
Defined.

Lemma GetAll_ErrNoMatch_iff_witness :
  GetAll example_store' "/app/db" = (None, Some ErrNoMatch)
  ∧ ∀ k, is_Some (m example_store' !! k) → Match "/app/db" k = Ok false.
Proof.
  assert (GetAll example_store' "/app/db" = (None, Some ErrNoMatch)) as H by (by vm_compute).
  split; [done|].
  by apply (GetAll_ErrNoMatch_iff example_store' "/app/db"); [apply example_store_wf|].
Defined.

Lemma List_panics_iff_witness :
  (List example_store' "/app/standalone" = Err SliceBoundsOutOfRange
     ↔ is_Some (m example_store' !! "/app/standalone"))
  ∧ (is_Ok (List example_store' "/app/standalone")
     ↔ m example_store' !! "/app/standalone" = None).
Proof. apply List_panics_iff, example_store_wf. Defined.

Lemma ListDir_panics_iff_witness :
  (ListDir example_store' "/app/db/port" = Err SliceBoundsOutOfRange
     ↔ is_Some (m example_store' !! "/app/db/port"))
  ∧ (is_Ok (ListDir example_store' "/app/db/port")
     ↔ m example_store' !! "/app/db/port" = None).
Proof. apply ListDir_panics_iff, example_store_wf. Defined.

Lemma List_Ok_witness :
  StronglySorted str_lt ["cache"; "db"; "standalone"]
  ∧ ∀ x, x ∈ ["cache"; "db"; "standalone"] ↔
      ∃ k rest, is_Some (m example_store' !! k) ∧ k = "/app" +:+ rest
                ∧ x = first_segment (sdrop 1 rest).
Proof.
  apply (List_Ok example_store' "/app"); [apply example_store_wf | by vm_compute].
Defined.

Lemma ListDir_Ok_witness :
  StronglySorted str_lt ["cache"; "db"]
  ∧ ∀ x, x ∈ ["cache"; "db"] ↔
      ∃ k rest, is_Some (m example_store' !! k) ∧ k = "/app" +:+ rest ∧ rest ≠ ""
        ∧ x = first_segment (sdrop 1 rest) ∧ Contains (sdrop 1 rest) "/" = true.
Proof.
  apply (ListDir_Ok example_store' "/app"); [apply example_store_wf | by vm_compute].
Defined.

Lemma ListDir_subset_List_witness : ["cache"; "db"] ⊆ ["cache"; "db"; "standalone"].
Proof. apply (ListDir_subset_List example_store' "/app"); by vm_compute. Defined.

Lemma List_order_independent_witness :
  List_from (reverse (range example_store')) "/app" = List example_store' "/app"
  ∧ ListDir_from (reverse (range example_store')) "/app" = ListDir example_store' "/app".
Proof. apply List_order_independent, reverse_Permutation. Defined.

Lemma List_no_prefix_witness :
  List (Set' New "/app/db/host" "db1") "/etc" = Ok []
  ∧ ListDir (Set' New "/app/db/host" "db1") "/etc" = Ok [].
Proof.
  apply List_no_prefix; [apply store_wf_Set, store_wf_New|].
  intros k [kv Hk]. rewrite lookup_Set in Hk. case_decide; [by subst|].
  by rewrite lookup_New in Hk.
Defined.

End memkv_examples.
