(* ===== verification/Strings.v ===== *)
(** * Strings: [strings.SplitN] for every separator

    GoString.v gives [strings.SplitN] for a separator of one byte, which
    is how the store calls it.  This file gives the function as package
    [strings] defines it, for a separator that is any string: [Index],
    [Count] with its special cases, [explode] for the empty separator, and
    the loop of [genSplit].  The lemmas show that on a separator of one
    byte it is the function of GoString.v, that the general loop of
    [Count] agrees with the count of bytes that Go uses as a fast path,
    that the pieces put together with the separator give the string
    back, and that the index expression of [List] and [ListDir] has the
    same value with this [SplitN] as with the one of GoString.v.

    [explode] is the one of Go 1.17 and later, which slices the bytes of
    an invalid encoding one by one. *)

From S2P Require Import Prelude Utf8 GoString Sorting Match Memkv.
From stdpp Require Import strings.
From Stdlib Require Import ZArith Lia.

(** ** [strings.Index] *)

Fixpoint Index (s substr : string) : option nat :=
  if HasPrefix s substr then Some 0
  else
    match s with
    | EmptyString => None
    | String _ s' => S <$> Index s' substr
    end.

(** ** [utf8.RuneCountInString]: the runes a decoder reads off [s] *)

Fixpoint RuneCount_loop (fuel : nat) (s : string) : nat :=
  match fuel, s with
  | S fuel', String _ _ =>
      S (RuneCount_loop fuel' (sdrop (snd (DecodeRuneInString s)) s))
  | _, _ => 0
  end.

Definition RuneCountInString (s : string) : nat := RuneCount_loop (String.length s) s.

(** ** [strings.Count] *)

(** The general loop: occurrences that do not overlap. *)

Fixpoint Count_loop (fuel : nat) (s substr : string) : nat :=
  match fuel with
  | 0 => 0
  | S fuel' =>
      match Index s substr with
      | None => 0
      | Some i => S (Count_loop fuel' (sdrop (i + String.length substr) s) substr)
      end
  end.

Definition CountString (s substr : string) : nat :=
  match substr with
  | EmptyString => RuneCountInString s + 1
  | String c EmptyString => Count s c
  | _ => Count_loop (String.length s) s substr
  end.

(** ** [strings.explode]: the runes of [s], at most [n] pieces *)

Fixpoint explode_loop (k : nat) (s : string) : list string :=
  match k with
  | 0 => [s]
  | S k' =>
      let size := snd (DecodeRuneInString s) in
      stake size s :: explode_loop k' (sdrop size s)
  end.

Definition explode (s : string) (n : Z) : list string :=
  let l := Z.of_nat (RuneCountInString s) in
  let n := if decide (n < 0 ∨ l < n)%Z then l else n in
  if decide (0 < n)%Z then explode_loop (Z.to_nat (n - 1)) s else [].

(** ** [strings.genSplit], [strings.SplitN] *)

Fixpoint genSplit_loop (k : nat) (s sep : string) (sepSave : nat) : list string :=
  match k with
  | 0 => [s]
  | S k' =>
      match Index s sep with
      | None => [s]
      | Some m =>
          stake (m + sepSave) s
            :: genSplit_loop k' (sdrop (m + String.length sep) s) sep sepSave
      end
  end.

Definition genSplit_string (s sep : string) (sepSave : nat) (n : Z) : list string :=
  if decide (n = 0)%Z then []
  else if decide (sep = EmptyString) then explode s n
  else
    let n1 := if decide (n < 0)%Z then (Z.of_nat (CountString s sep) + 1)%Z else n in
    let n2 := Z.min n1 (Z.of_nat (String.length s) + 1) in
    genSplit_loop (Z.to_nat (n2 - 1)) s sep sepSave.

Definition SplitN_string (s sep : string) (n : Z) : list string := genSplit_string s sep 0 n.

(** [strings.Join] of pieces with a separator. *)

Definition Join (a : list string) (sep : string) : string := String.concat sep a.

(** ** A separator of one byte *)

Section one_byte.
Implicit Types (s t : string) (c : ascii) (n m k : nat).

Lemma HasPrefix_byte d s c : HasPrefix (String d s) (String c "") = bool_decide (d = c).
Proof.
  unfold HasPrefix. cbn [String.length stake].
  rewrite bool_decide_eq_true_2 by lia. simpl.
  destruct s; simpl; repeat case_bool_decide; naive_solver.
Qed.

Lemma Index_byte s c : Index s (String c "") = IndexByte s c.
Proof.
  induction s as [|d s IH]; [done|]. cbn [Index IndexByte]. rewrite HasPrefix_byte, IH.
  by case_bool_decide; case_decide.
Qed.

Lemma genSplit_loop_byte k s c : genSplit_loop k s (String c "") 0 = genSplit k s c.
Proof.
  revert s. induction k as [|k IH]; intros s; [done|]. cbn [genSplit_loop genSplit].
  rewrite Index_byte. destruct (IndexByte s c) as [m|]; [|done].
  by rewrite IH, Nat.add_0_r.
Qed.

(** On a separator of one byte, [SplitN] is the function of GoString.v. *)
Lemma SplitN_string_byte s c (z : Z) : SplitN_string s (String c "") z = SplitN s c z.
Proof.
  unfold SplitN_string, genSplit_string, SplitN. case_decide; [done|].
  rewrite decide_False by done. apply genSplit_loop_byte.
Qed.

(** The first occurrence of a byte, and the occurrences after it. *)
Lemma Count_IndexByte s c m :
  IndexByte s c = Some m → Count s c = S (Count (sdrop (m + 1) s) c).
Proof.
  revert m. induction s as [|d s IH]; intros m; simpl; [done|].
  case_decide; [by intros [= <-]|].
  intros (m' & Hm & ->)%fmap_Some. by rewrite (IH m' Hm).
Qed.

(** The general loop of [Count] counts the bytes, as the fast path does. *)
Lemma Count_loop_byte fuel s c :
  String.length s ≤ fuel → Count_loop fuel s (String c "") = Count s c.
Proof.
  revert s. induction fuel as [|fuel IH]; intros s Hlen.
  - destruct s; [done|simpl in Hlen; lia].
  - cbn [Count_loop]. rewrite Index_byte. destruct (IndexByte s c) as [m|] eqn:Hm.
    + rewrite (Count_IndexByte _ _ _ Hm). f_equal. apply IH.
      pose proof (IndexByte_Some_lt _ _ _ Hm). rewrite sdrop_length. simpl. lia.
    + symmetry. by apply IndexByte_None.
Qed.

End one_byte.

(** ** The pieces give the string back *)

Section join.
Implicit Types (s t sep : string) (n m k : nat).

(** [Index] finds an occurrence: the string is what is before it, the
    separator, and what is after it. *)
Lemma Index_Some s sep m :
  Index s sep = Some m → s = stake m s +:+ sep +:+ sdrop (m + String.length sep) s.
Proof.
  revert m. induction s as [|d s IH]; intros m; cbn [Index].
  - destruct sep; [by intros [= <-]|done].
  - destruct (HasPrefix (String d s) sep) eqn:Hp.
    + intros [= <-]. apply HasPrefix_true in Hp as [t Ht]. rewrite Ht. simpl.
      by rewrite sdrop_app_length.
    + intros (m' & Hm & ->)%fmap_Some. simpl. rewrite string_app_cons. f_equal. by apply IH.
Qed.

Lemma genSplit_loop_cons k s sep sepSave :
  ∃ x xs, genSplit_loop k s sep sepSave = x :: xs.
Proof. destruct k; simpl; [by eexists _, _|]. destruct (Index s sep); by eexists _, _. Qed.

Lemma Join_cons x y ys sep : Join (x :: y :: ys) sep = x +:+ sep +:+ Join (y :: ys) sep.
Proof. done. Qed.

(** [strings.Join(strings.SplitN(s, sep, n), sep)] is [s]. *)
Lemma Join_genSplit_loop k s sep : Join (genSplit_loop k s sep 0) sep = s.
Proof.
  revert s. induction k as [|k IH]; intros s; cbn [genSplit_loop]; [done|].
  destruct (Index s sep) as [m|] eqn:Hm; [|done].
  specialize (IH (sdrop (m + String.length sep) s)).
  destruct (genSplit_loop_cons k (sdrop (m + String.length sep) s) sep 0) as (x & xs & E).
  rewrite E in *. rewrite Join_cons, IH, Nat.add_0_r. symmetry. by apply Index_Some.
Qed.

Lemma explode_loop_cons k s : ∃ x xs, explode_loop k s = x :: xs.
Proof. destruct k; by eexists _, _. Qed.

Lemma Join_explode_loop k s : Join (explode_loop k s) "" = s.
Proof.
  revert s. induction k as [|k IH]; intros s; cbn [explode_loop]; [done|].
  specialize (IH (sdrop (snd (DecodeRuneInString s)) s)).
  destruct (explode_loop_cons k (sdrop (snd (DecodeRuneInString s)) s)) as (x & xs & E).
  rewrite E in *. rewrite Join_cons, IH, string_app_nil_l. apply stake_sdrop.
Qed.

(** The runes counted are those a decoder reads: none exactly in the
    empty string. *)
Lemma RuneCountInString_0 s : RuneCountInString s = 0 ↔ s = "".
Proof. unfold RuneCountInString. destruct s; simpl; naive_solver. Qed.

Lemma SplitN_string_Join s sep (z : Z) : z ≠ 0%Z → Join (SplitN_string s sep z) sep = s.
Proof.
  intros Hz. unfold SplitN_string, genSplit_string. rewrite decide_False by done.
  case_decide as Hsep; [|apply Join_genSplit_loop]. subst sep. unfold explode.
  case_decide; [apply Join_explode_loop|].
  assert (RuneCountInString s = 0) as ->%RuneCountInString_0 by (case_decide; lia). done.
Qed.

(** [SplitN] returns at most [n] pieces, when [n] is positive. *)
Lemma genSplit_loop_length k s sep sepSave :
  1 ≤ length (genSplit_loop k s sep sepSave) ≤ S k.
Proof.
  revert s. induction k as [|k IH]; intros s; simpl; [lia|].
  destruct (Index s sep) as [m|]; simpl; [|lia].
  specialize (IH (sdrop (m + String.length sep) s)). lia.
Qed.

Lemma explode_loop_length k s : length (explode_loop k s) = S k.
Proof. revert s. induction k as [|k IH]; intros s; simpl; [done|]. by rewrite IH. Qed.

Lemma SplitN_string_length s sep (z : Z) :
  (0 < z)%Z → (Z.of_nat (length (SplitN_string s sep z)) ≤ z)%Z.
Proof.
  intros Hz. unfold SplitN_string, genSplit_string. rewrite decide_False by lia.
  case_decide.
  - unfold explode. repeat case_decide; simpl; rewrite ?explode_loop_length; lia.
  - rewrite (decide_False (P := (z < 0)%Z)) by lia.
    pose proof (genSplit_loop_length
      (Z.to_nat (Z.min z (Z.of_nat (String.length s) + 1) - 1)) s sep 0). lia.
Qed.

End join.

(** ** Examples from the documentation of [strings.SplitN] *)

Example SplitN_string_example :
  SplitN_string "a,b,c,d" "," 2 = ["a"; "b,c,d"]
  ∧ SplitN_string "a,b,c,d" "," 0 = []
  ∧ SplitN_string "a,b,c,d" "," (-1) = ["a"; "b"; "c"; "d"]
  ∧ SplitN_string "a--b--c" "--" (-1) = ["a"; "b"; "c"]
  ∧ SplitN_string "abc" "" (-1) = ["a"; "b"; "c"]
  ∧ SplitN_string "abc" "" 2 = ["a"; "bc"]
  ∧ SplitN_string "" "," (-1) = [""]
  ∧ SplitN_string "" "" (-1) = [].
Proof. by vm_compute. Qed.

(** ** The call of the store *)

(** [strings.SplitN(t, "/", 2)[0]], the index expression of [List] and
    [ListDir], is the first segment of [t] when [SplitN] is the general
    function. *)
Lemma SplitN_string_first_segment t :
  index_at (SplitN_string t "/" 2) 0 = Ok (first_segment t).
Proof. rewrite (SplitN_string_byte t "/"). apply SplitN_first_segment. Qed.
