(* ===== verification/Patterns.v ===== *)
(** * Patterns: [GetAll] on the patterns that clients write

    [GetAll] hands its pattern to [filepath.Match] once per key.  With the
    lemmas of [MatchFacts] the results of [Memkv] on [GetAll] become
    statements about the pattern itself: [GetAll] reports a malformed
    pattern exactly when the store is not empty; with a pattern without
    special characters it is [Get]; with such a pattern followed by a star
    it returns the keys that extend the pattern without a further
    separator. *)

From S2P Require Import Prelude GoString Sorting Match MatchFacts Memkv.
From stdpp Require Import gmap strings.

(** ** Shared lemmas *)

Section shared.
Implicit Types (s : Store) (key k pattern p : string) (kv : KVPair) (ks : KVPairs).

(** The two ways [GetAll] goes: the pattern is rejected on some entry, or it
    is rejected on none and the matching entries are sorted. *)
Lemma GetAll_cases s pattern :
  (Exists (rejects pattern) (range s)
     ∧ GetAll s pattern = (None, Some (ErrFilepath ErrBadPattern)))
  ∨ (Forall (λ kv, ¬ rejects pattern kv) (range s)
     ∧ GetAll s pattern =
         match filter (matches pattern) (range s) with
         | [] => (None, Some ErrNoMatch)
         | ks => (Some (sort_Sort ks), None)
         end).
Proof.
  unfold GetAll. destruct (rejects_cases (range s) pattern) as [Hex|Hall]; [left | right].
  - by rewrite GetAll_from_rejected.
  - by rewrite GetAll_from_accepted.
Qed.

Lemma rejects_pattern_error pattern kv :
  rejects pattern kv ↔ pattern_error pattern = Some ErrBadPattern.
Proof. by rewrite rejects_Err, <-(Match_err pattern (Key kv)), err_of_Some. Qed.

(** The entries a literal pattern matches: the one filed under it. *)
Lemma filter_matches_literal s key :
  store_wf s → literal key →
  filter (matches key) (range s) = option_list (m s !! key).
Proof.
  intros Hwf Hl. apply NoDup_option_list.
  - by apply (NoDup_fmap_1 Key), NoDup_fmap_filter, NoDup_range_keys.
  - intros kv. rewrite elem_of_filter_range, Match_literal by done. split.
    + intros [Hkv [= Hk%bool_decide_eq_true]]. by rewrite Hk.
    + intros Hkv. pose proof (Hwf _ _ Hkv) as <-. by rewrite bool_decide_eq_true_2.
Qed.

Lemma Contains_false t c : Contains t c = false ↔ IndexByte t c = None.
Proof. unfold Contains. by rewrite bool_decide_eq_false, <-eq_None_not_Some. Qed.

(** A name without separator is its own first segment. *)
Lemma first_segment_no_separator t : Contains t Separator = false → first_segment t = t.
Proof.
  intros Hc%Contains_false. pose proof (first_segment_IndexByte t) as H.
  unfold Separator in Hc. by rewrite Hc in H.
Qed.

End shared.

(** ** Theorems *)

Section patterns.
Implicit Types (s : Store) (key k pattern p : string) (kv : KVPair) (ks : KVPairs).

(** C15: [GetAll] fails with the error of [filepath.Match] exactly when the
    store holds at least one key and the pattern is malformed; which keys
    the store holds plays no role. *)
Theorem GetAll_ErrBadPattern_pattern s pattern :
  GetAll s pattern = (None, Some (ErrFilepath ErrBadPattern)) ↔
  m s ≠ ∅ ∧ pattern_error pattern = Some ErrBadPattern.
Proof.
  rewrite <-range_nil.
  destruct (GetAll_cases s pattern) as [[Hex ->]|[Hall ->]].
  - apply Exists_exists in Hex as (kv & Hin & Hr%rejects_pattern_error).
    split; [|done]. intros _. split; [|done]. intros Hnil. rewrite Hnil in Hin.
    by apply elem_of_nil in Hin.
  - split; [by destruct (filter _ _)|]. intros [Hne Hbad].
    destruct (range s) as [|kv l]; [done|]. apply Forall_cons in Hall as [Hkv _].
    by apply (rejects_pattern_error pattern kv) in Hbad.
Qed.

(** C16: with a pattern that has no special character, [GetAll] is [Get]:
    it returns the one pair filed under the pattern, or [ErrNoMatch] where
    [Get] returns [ErrNotExist]. *)
Theorem GetAll_literal s key :
  store_wf s → literal key →
  GetAll s key =
    match Get s key with
    | (kv, None) => (Some [kv], None)
    | (_, Some _) => (None, Some ErrNoMatch)
    end.
Proof.
  intros Hwf Hl. destruct (GetAll_cases s key) as [[Hex _]|[_ ->]].
  { apply Exists_exists in Hex as (kv & _ & Hr%rejects_Err).
    by rewrite Match_literal in Hr. }
  rewrite filter_matches_literal by done. unfold Get. by destruct (m s !! key).
Qed.

(** C17: with a pattern [p*] whose [p] has no special character, [GetAll]
    returns exactly the pairs whose key extends [p] by a part without
    separator: the star does not cross a ['/']. *)
Theorem GetAll_literal_star s p ks :
  store_wf s → literal p → GetAll s (p +:+ "*") = (Some ks, None) →
  ∀ kv, kv ∈ ks ↔
    m s !! Key kv = Some kv ∧ ∃ t, Key kv = p +:+ t ∧ Contains t Separator = false.
Proof.
  intros Hwf Hl. destruct (GetAll_cases s (p +:+ "*")) as [[_ ->]|[_ ->]]; [done|].
  destruct (filter _ (range s)) as [|a l] eqn:E; [done|]. intros [= <-] kv.
  rewrite sort_Sort_elem_of, <-E, elem_of_filter_range, Match_literal_star by done.
  apply and_iff_compat_l. split.
  - intros [= [[t Ht]%HasPrefix_true Hc%negb_true_iff]%andb_true_iff].
    exists t. by rewrite Ht, sdrop_app_length in Hc.
  - intros (t & -> & Hc). autorewrite with go. by rewrite Hc.
Qed.

(** C18: [GetAll] and [List] agree on the children of a path: every pair
    that [GetAll] returns for the pattern [p/*] has a key [p/x] whose last
    part [x] has no separator and is among the names that [List(p)]
    returns. *)
Theorem GetAll_children_listed s p ks vs :
  store_wf s → literal p →
  GetAll s (p +:+ "/*") = (Some ks, None) → List s p = Ok vs →
  ∀ kv, kv ∈ ks → ∃ x, x ∈ vs ∧ Key kv = p +:+ "/" +:+ x ∧ Contains x Separator = false.
Proof.
  intros Hwf Hl Hall Hlist kv Hkv. unfold List in Hlist. rewrite List_from_listing in Hlist.
  apply listing_Ok in Hlist as [_ Hvs].
  destruct (GetAll_cases s (p +:+ "/*")) as [[_ E]|[_ E]]; rewrite E in Hall; [done|].
  destruct (filter _ (range s)) as [|a l] eqn:Ef; [done|]. injection Hall as <-.
  rewrite sort_Sort_elem_of, <-Ef, elem_of_filter_range in Hkv by done.
  destruct Hkv as [Hm Hmatch]. change (p +:+ "/*") with (p +:+ ("/" +:+ "*")) in Hmatch.
  rewrite <-string_app_assoc, Match_literal_star in Hmatch by (by apply literal_app).
  injection Hmatch as [[x Hx]%HasPrefix_true Hc%negb_true_iff]%andb_true_iff.
  rewrite Hx, sdrop_app_length in Hc. rewrite string_app_assoc in Hx.
  exists x. split_and!; [|done..]. apply Hvs, contributes_List; [done|].
  exists (Key kv), ("/" +:+ x). split_and!; [by eexists | done | done |].
  by rewrite first_segment_no_separator.
Qed.

Lemma GetAll_literal_witness :
  GetAll example_store' "/app/standalone" =
    match Get example_store' "/app/standalone" with
    | (kv, None) => (Some [kv], None)
    | (_, Some _) => (None, Some ErrNoMatch)
    end.
Proof. apply GetAll_literal; [apply example_store_wf | done]. Defined.

Lemma GetAll_literal_star_witness :
  GetAll example_store' "/app/db/*"
  = (Some [mkKVPair "/app/db/host" "db1"; mkKVPair "/app/db/port" "5432"], None)
  ∧ ∀ kv, kv ∈ [mkKVPair "/app/db/host" "db1"; mkKVPair "/app/db/port" "5432"] ↔
      m example_store' !! Key kv = Some kv
      ∧ ∃ t, Key kv = "/app/db/" +:+ t ∧ Contains t Separator = false.
Proof.
  assert (GetAll example_store' "/app/db/*"
          = (Some [mkKVPair "/app/db/host" "db1"; mkKVPair "/app/db/port" "5432"], None)) as H
    by (by vm_compute).
  split; [done|].
  by apply (GetAll_literal_star example_store' "/app/db/"); [apply example_store_wf | |].
Defined.

Lemma GetAll_children_listed_witness :
  ∃ x, x ∈ ["host"; "port"]
       ∧ Key (mkKVPair "/app/db/port" "5432") = "/app/db" +:+ "/" +:+ x
       ∧ Contains x Separator = false.
Proof.
  apply (GetAll_children_listed example_store' "/app/db"
           [mkKVPair "/app/db/host" "db1"; mkKVPair "/app/db/port" "5432"]);
    [apply example_store_wf | done | by vm_compute | by vm_compute | set_solver].
Defined.

(** The patterns of the listing example: [/app/*] matches no key of the
    example store, because every key has a further separator; [/app/*/*]
    matches them all; a malformed pattern is reported on the example store
    and not on the empty one; a character class, unlike [*] and [?],
    matches a separator. *)
Example GetAll_patterns_example :
  GetAll example_store "/app/*" = (None, Some ErrNoMatch)
  ∧ fst (GetAll example_store "/app/*/*")
    = Some [mkKVPair "/app/cache/ttl" "60"; mkKVPair "/app/db/host" "db1";
            mkKVPair "/app/db/port" "5432"]
  ∧ GetAll example_store "/app/[" = (None, Some (ErrFilepath ErrBadPattern))
  ∧ GetAll New "/app/[" = (None, Some ErrNoMatch)
  ∧ GetAll (Set' New "/a/b" "1") "/a?b" = (None, Some ErrNoMatch)
  ∧ GetAll (Set' New "/a/b" "1") "/a[^x]b" = (Some [mkKVPair "/a/b" "1"], None).
Proof. by vm_compute. Qed.

End patterns.
