(* ===== verification/Globbing.v ===== *)
(** * Globbing: what [GetAll] returns, by the syntax of its pattern

    [GetAll] returns the pairs whose key [filepath.Match] accepts.  With
    GlobMatch.v this becomes a statement about the pattern: on keys made
    of bytes below [RuneSelf], and with a pattern whose classes do not
    match the separator, [GetAll] returns the pairs whose key the pattern
    matches, a star standing for any text without separator
    ([GetAll_glob]).  Without these hypotheses every pair returned still
    has a key that the pattern matches ([GetAll_glob_sound]), but a key
    that the pattern matches can be missing ([GetAll_greedy_example]). *)

From S2P Require Import Prelude Utf8 GoString Sorting Match MatchFacts Memkv Patterns.
From S2P Require Import Glob GlobMatch.
From stdpp Require Import gmap strings.

(** The keys of the store are made of bytes below [RuneSelf]. *)
Definition ascii_keys (s : Store) : Prop := ∀ k, is_Some (m s !! k) → is_ascii k = true.

(** The pairs of the store whose key the pattern matches, by the
    reference matcher. *)
Definition globbed (segs : list (bool * list elem)) (kv : KVPair) : Prop :=
  glob (items_of segs) (Key kv) = true.

#[export] Instance globbed_dec segs kv : Decision (globbed segs kv).
Proof. unfold globbed. apply _. Defined.

Section globbing.
Implicit Types (s : Store) (key k pattern p : string) (kv : KVPair) (ks : KVPairs).
Implicit Types (segs : list (bool * list elem)).

Lemma ascii_keys_range s kv : ascii_keys s → kv ∈ range s → store_wf s → is_ascii (Key kv) = true.
Proof.
  intros Ha Hkv Hwf. apply elem_of_range_wf in Hkv; [|done]. apply Ha. by eexists.
Qed.

Lemma segments_not_rejected pattern segs kv : segments pattern = Ok segs → ¬ rejects pattern kv.
Proof. intros Hs Hr%rejects_Err%Match_Err. congruence. Qed.

(** A pattern that parses is rejected on no key, so [GetAll] sorts what
    [Match] accepts. *)
Lemma GetAll_segments s pattern segs :
  segments pattern = Ok segs →
  GetAll s pattern =
    match filter (matches pattern) (range s) with
    | [] => (None, Some ErrNoMatch)
    | ks => (Some (sort_Sort ks), None)
    end.
Proof.
  intros Hs. destruct (GetAll_cases s pattern) as [[Hex _]|[_ ->]]; [|done].
  apply Exists_exists in Hex as (kv & _ & Hr). by apply (segments_not_rejected _ _ _ Hs) in Hr.
Qed.

(** C19: on a store whose keys are made of bytes below [RuneSelf], and
    with a pattern that parses and whose character classes do not match
    the separator, [GetAll] returns the pairs whose key the pattern matches
    (a star standing for any text without separator, a question mark and a
    class for one character), sorted by key, and [ErrNoMatch] when there is
    none. *)
Theorem GetAll_glob s pattern segs :
  store_wf s → ascii_keys s → segments pattern = Ok segs → safe_segs segs = true →
  GetAll s pattern =
    match filter (globbed segs) (range s) with
    | [] => (None, Some ErrNoMatch)
    | ks => (Some (sort_Sort ks), None)
    end.
Proof.
  intros Hwf Ha Hs Hsafe. rewrite (GetAll_segments _ _ _ Hs).
  rewrite (list_filter_iff_in (matches pattern) (globbed segs)); [done|].
  intros kv Hkv. unfold matches, globbed.
  rewrite (Match_glob _ _ _ Hs Hsafe) by eauto using ascii_keys_range.
  split; [by intros [= ->] | by intros ->].
Qed.

(** C20: whatever the keys and the pattern, every pair that [GetAll]
    returns has a key that the pattern matches. *)
Theorem GetAll_glob_sound s pattern ks kv :
  store_wf s → GetAll s pattern = (Some ks, None) → kv ∈ ks →
  m s !! Key kv = Some kv ∧ glob_pattern pattern (Key kv) = Ok true.
Proof.
  intros Hwf Hall Hkv.
  destruct (GetAll_cases s pattern) as [[_ E]|[_ E]]; rewrite E in Hall; [done|].
  destruct (filter _ (range s)) as [|a l] eqn:Ef; [done|]. injection Hall as <-.
  rewrite sort_Sort_elem_of, <-Ef, elem_of_filter_range in Hkv by done.
  destruct Hkv as [Hm Hmatch]. split; [done|]. by apply Match_sound.
Qed.

End globbing.

Section globbing_examples.

Lemma GetAll_glob_witness :
  GetAll example_store' "/app/*/[a-p]*" =
    (Some [mkKVPair "/app/db/host" "db1"; mkKVPair "/app/db/port" "5432"], None).
Proof.
  rewrite (GetAll_glob example_store' "/app/*/[a-p]*"
             [(false, [ELit "/"; ELit "a"; ELit "p"; ELit "p"; ELit "/"]);
              (true, [ELit "/"; EClass false [(97, 112)%Z]]); (true, [])]).
  - by vm_compute.
  - apply example_store_wf.
  - intros k [kv Hk]. unfold example_store', example_store, Set', New in Hk. cbn [m] in Hk.
    repeat (apply lookup_insert_Some in Hk as [[<- _]|[_ Hk]]; [by vm_compute|]).
    by rewrite lookup_empty in Hk.
  - by vm_compute.
  - done.
Defined.

Lemma GetAll_glob_sound_witness :
  m example_store' !! "/app/db/port" = Some (mkKVPair "/app/db/port" "5432")
  ∧ glob_pattern "/app/*/[^h]*" "/app/db/port" = Ok true.
Proof.
  apply (GetAll_glob_sound example_store' "/app/*/[^h]*"
           [mkKVPair "/app/cache/ttl" "60"; mkKVPair "/app/db/port" "5432"]
           (mkKVPair "/app/db/port" "5432"));
    [apply example_store_wf | by vm_compute | set_solver].
Defined.

(** [Match] commits to the first position at which a chunk matches.
    When a class of the chunk matches the separator, a later position can
    be the only one from which the rest of the pattern matches, and
    [GetAll] misses a key that the pattern matches.  On a key with a
    character of several bytes the star loop advances by bytes while a
    class reads a rune: the key [é] is returned for the pattern [*[^é]],
    whose class excludes [é], because the class is tried on the second
    byte of the character. *)
Example GetAll_greedy_example :
  glob_pattern "*[^x]*b" "a/b" = Ok true
  ∧ GetAll (Set' New "a/b" "1") "*[^x]*b" = (None, Some ErrNoMatch)
  ∧ GetAll (Set' New "é" "1") "[^é]" = (None, Some ErrNoMatch)
  ∧ GetAll (Set' New "é" "1") "*[^é]" = (Some [mkKVPair "é" "1"], None).
Proof. by vm_compute. Qed.

End globbing_examples.
