(* ===== verification/Bounds.v ===== *)
(** * Bounds: the sizes of results, and the index expressions in range

    [GetAll], [GetAllValues], [List] and [ListDir] build their results in
    loops over the map.  This file bounds what they return by the number
    of entries of the map, and shows that the index expression
    [strings.SplitN(...)[0]] of [List] and [ListDir] is always in range:
    the only run-time panic of the two methods is the slice expression
    [strippedKey[1:]]. *)

From S2P Require Import Prelude GoString Sorting Match Memkv.
From stdpp Require Import gmap strings.

Section bounds.
Implicit Types (s : Store) (pattern path : string) (kv : KVPair) (kvs ks : list KVPair)
  (vs : list string) (seen : gmap string bool).

Lemma length_range s : length (range s) = size (m s).
Proof. unfold range. by rewrite length_fmap, length_map_to_list. Qed.

(** The loop of [GetAll] appends at most one pair per entry visited. *)
Lemma GetAll_loop_length pattern kvs ks ks' :
  GetAll_loop pattern kvs ks = Ok ks' → length ks ≤ length ks' ≤ length ks + length kvs.
Proof.
  revert ks. induction kvs as [|kv kvs IH]; intros ks H; simplify_eq/=; [lia|].
  destruct (Match pattern (Key kv)) as [[]|]; simplify_eq/=;
    apply IH in H; rewrite ?length_app in H; simpl in H; lia.
Qed.

Lemma GetAllValues_loop_length ks vs :
  length (GetAllValues_loop ks vs) = length vs + length ks.
Proof.
  revert vs. induction ks as [|kv ks IH]; intros vs; simpl; [lia|].
  rewrite IH, length_app. simpl. lia.
Qed.

(** A listing holds one name per entry at most. *)
Lemma listing_length entry kvs vs : listing entry kvs = Ok vs → length vs ≤ length kvs.
Proof.
  unfold listing. case_decide; [done|]. intros [= <-].
  rewrite sort_Strings_length.
  etrans; [apply length_remove_dups | apply length_omap].
Qed.

(** Without an error [GetAll] returns a slice, of at least one pair and
    at most one for every entry. *)
Lemma GetAll_no_error s pattern o :
  GetAll s pattern = (o, None) → ∃ ks, o = Some ks ∧ 1 ≤ length ks ≤ size (m s).
Proof.
  unfold GetAll, GetAll_from. destruct (GetAll_loop _ _ _) as [ks'|] eqn:E; [|done].
  apply GetAll_loop_length in E. rewrite length_range in E. simpl in E.
  case_bool_decide; [done|]. intros [= <-]. eexists. split; [done|].
  rewrite sort_Sort_length. lia.
Qed.

(** When [GetAll] succeeds it returns at least one pair and at most
    one for every entry of the map, and [GetAllValues] succeeds with as
    many values. *)
Theorem GetAll_length s pattern ks :
  GetAll s pattern = (Some ks, None) →
  1 ≤ length ks ≤ size (m s)
  ∧ ∃ vs, GetAllValues s pattern = (Some vs, None) ∧ length vs = length ks.
Proof.
  intros H. pose proof H as (? & [= <-] & ?)%GetAll_no_error. split; [done|].
  unfold GetAllValues. rewrite H. eexists. split; [done|].
  by rewrite GetAllValues_loop_length.
Qed.

(** [List] and [ListDir] return at most one name for every entry of
    the map. *)
Lemma List_length s path vs :
  List s path = Ok vs ∨ ListDir s path = Ok vs → length vs ≤ size (m s).
Proof.
  rewrite <-length_range. unfold List, ListDir.
  rewrite List_from_listing, ListDir_from_listing. intros [H|H]; by eapply listing_length.
Qed.

(** C27: the index expression [strings.SplitN(strippedKey[1:], "/", 2)[0]]
    of [List] and [ListDir] is in range for every entry of every map: the
    two methods never panic with an index out of range. *)
Theorem List_index_in_range s path :
  List s path ≠ Err IndexOutOfRange ∧ ListDir s path ≠ Err IndexOutOfRange.
Proof.
  unfold List, ListDir. rewrite List_from_listing, ListDir_from_listing.
    split; [destruct (listing_cases (List_entry path) (range s)) as [[vs ->]| ->]
        |destruct (listing_cases (ListDir_entry path) (range s)) as [[vs ->]| ->]]; done.
Qed.

End bounds.

(** ** The example store *)

Section bounds_examples.

Lemma GetAll_length_witness :
  ∃ ks, GetAll example_store "/app/db/*" = (Some ks, None)
    ∧ 1 ≤ length ks ≤ size (m example_store)
    ∧ ∃ vs, GetAllValues example_store "/app/db/*" = (Some vs, None)
            ∧ length vs = length ks.
Proof.
  eexists. split; [vm_compute; reflexivity|].
  apply (GetAll_length example_store "/app/db/*"). vm_compute. reflexivity.
Defined.

Lemma List_length_witness :
  List example_store "/app" = Ok ["cache"; "db"]
  ∧ length ["cache"; "db"] ≤ size (m example_store).
Proof.
  split; [by vm_compute|].
  apply (List_length example_store "/app"). left. by vm_compute.
Defined.

End bounds_examples.
