(* ===== verification/Sync.v ===== *)
(** * Sync: the reader/writer lock of package [sync]

    [Store] embeds a [sync.RWMutex].  The lock is modelled by its abstract
    state: whether a writer holds it and how many readers do.  [Lock] and
    [RLock] return [None] when the caller has to wait; [Unlock] and
    [RUnlock] return [None] when the lock is not held that way, which makes
    the Go runtime stop the program with a fatal error.  Go's preference for
    waiting writers over new readers restricts which waiting caller goes
    first; it is added to the shared mutex in Readers.v. *)

From S2P Require Import Prelude.

Record RWMutex : Set := mkRWMutex { writer : bool; readers : nat }.

#[export] Instance RWMutex_eq_dec : EqDecision RWMutex.
Proof. solve_decision. Defined.

(** The zero value: an unlocked mutex. *)
Definition unlocked : RWMutex := {| writer := false; readers := 0 |}.

Definition Lock (mu : RWMutex) : option RWMutex :=
  if writer mu || bool_decide (0 < readers mu) then None
  else Some {| writer := true; readers := readers mu |}.

Definition Unlock (mu : RWMutex) : option RWMutex :=
  if writer mu then Some {| writer := false; readers := readers mu |} else None.

Definition RLock (mu : RWMutex) : option RWMutex :=
  if writer mu then None else Some {| writer := false; readers := S (readers mu) |}.

Definition RUnlock (mu : RWMutex) : option RWMutex :=
  match readers mu with
  | 0 => None
  | S n => Some {| writer := writer mu; readers := n |}
  end.

(** [TryLock] and [TryRLock] do not wait: they report whether they took
    the lock, and leave it as it is when they did not. *)

Definition TryLock (mu : RWMutex) : bool * RWMutex :=
  match Lock mu with
  | Some mu' => (true, mu')
  | None => (false, mu)
  end.

Definition TryRLock (mu : RWMutex) : bool * RWMutex :=
  match RLock mu with
  | Some mu' => (true, mu')
  | None => (false, mu)
  end.

(** ** The lock on its own *)

Section RWMutex_facts.
Implicit Types (mu : RWMutex).

Lemma Lock_Some mu mu' :
  Lock mu = Some mu' ↔ writer mu = false ∧ readers mu = 0 ∧ mu' = mkRWMutex true 0.
Proof.
  unfold Lock. destruct mu as [[] [|n]]; simpl; try case_bool_decide; naive_solver lia.
Qed.

Lemma Unlock_Some mu mu' :
  Unlock mu = Some mu' ↔ writer mu = true ∧ mu' = mkRWMutex false (readers mu).
Proof. unfold Unlock. destruct mu as [[] n]; simpl; naive_solver. Qed.

Lemma RLock_Some mu mu' :
  RLock mu = Some mu' ↔ writer mu = false ∧ mu' = mkRWMutex false (S (readers mu)).
Proof. unfold RLock. destruct mu as [[] n]; simpl; naive_solver. Qed.

Lemma RUnlock_Some mu mu' :
  RUnlock mu = Some mu' ↔ ∃ n, readers mu = S n ∧ mu' = mkRWMutex (writer mu) n.
Proof. unfold RUnlock. destruct mu as [w [|n]]; simpl; naive_solver. Qed.

(** An unlocked mutex can be taken either way, and released afterwards. *)
Lemma Lock_Unlock_unlocked : Lock unlocked ≫= Unlock = Some unlocked.
Proof. reflexivity. Qed.

Lemma RLock_RUnlock_unlocked : RLock unlocked ≫= RUnlock = Some unlocked.
Proof. reflexivity. Qed.

(** A try succeeds exactly when the call would not wait. *)
Lemma TryLock_true mu mu' : TryLock mu = (true, mu') ↔ Lock mu = Some mu'.
Proof. unfold TryLock. destruct (Lock mu); naive_solver. Qed.

Lemma TryRLock_true mu mu' : TryRLock mu = (true, mu') ↔ RLock mu = Some mu'.
Proof. unfold TryRLock. destruct (RLock mu); naive_solver. Qed.

Lemma TryLock_false mu : (TryLock mu).1 = false ↔ writer mu = true ∨ 0 < readers mu.
Proof.
  unfold TryLock, Lock. destruct mu as [[] [|n]]; simpl; try case_bool_decide; naive_solver lia.
Qed.

Lemma TryRLock_false mu : (TryRLock mu).1 = false ↔ writer mu = true.
Proof. unfold TryRLock, RLock. destruct mu as [[] n]; simpl; naive_solver. Qed.

End RWMutex_facts.
