(* ===== verification/Concurrent.v ===== *)
(** * Concurrent: the methods of the store run by several goroutines

    Every method of src/store.go brackets its access to the map [s.m] with
    [s.Lock()] / [s.Unlock()] or [s.RLock()] / [s.RUnlock()].  This file
    gives each method as the sequence of those steps ([Del_code],
    [Get_code], [GetAll_code], [List_code], [ListDir_code], [Set_code];
    [code] for a call), runs several
    calls as threads that interleave step by step ([step_thread], [step]),
    and asks whether two threads can be at their map access at the same
    time, one of them writing ([race]).

    The methods are declared with a value receiver, [func (s Store) ...],
    and [Store] embeds the mutex by value, so each call locks the copy of
    the mutex that belongs to its own receiver; the map, a reference, is
    shared.  [ByValue] is that semantics.  [ByPointer] is the semantics the
    same method bodies would have with one mutex shared by all calls, which
    is what the documentation of [Store] promises.  The theorems show that
    under [ByValue] a race is reachable for every pair of calls of which
    one writes, and that under [ByPointer] no race is reachable.

    A thread is a call, the index of its next step, the mutex of its
    receiver, and the map it read, if it has read it.  The copy of the
    mutex a call is made with is unlocked ([enter]): the methods never
    lock the original, and clients are taken not to call the [Lock] that
    [Store] promotes.

    An access to the map is one step, the whole [range] loop of [GetAll],
    [List] and [ListDir] included, and it always succeeds ([exec_instr]).
    That is the semantics Go gives to programs whose accesses do not
    overlap; a run that goes through a [race] is a run Go does not
    define.  Accesses.v runs an access as an interval and ends the run
    with a fault where two overlap; it is there that the results of this
    file become results about a program. *)

From S2P Require Import Prelude GoString Sorting Match Memkv Sync.
From stdpp Require Import gmap strings relations.

(** ** Calls and their code *)

Inductive call : Set :=
| CDel (key : string)
| CGet (key : string)
| CGetValue (key : string)
| CGetAll (pattern : string)
| CGetAllValues (pattern : string)
| CList (path : string)
| CListDir (path : string)
| CSet (key value : string).

(** The steps of a method that touch the mutex or the map. *)

Inductive instr : Set :=
| ILock
| IUnlock
| IRLock
| IRUnlock
| IMapDelete (key : string)
| IMapAssign (key value : string)
| IMapIndex (key : string)
| IMapRange.

#[export] Instance instr_eq_dec : EqDecision instr.
Proof. solve_decision. Defined.

(** The statements of each method that touch the mutex or the map, in the
    order in which the method executes them.  In [GetAll], [List] and
    [ListDir] the unlock is deferred: it runs when the method returns,
    after the loop over the map and everything that follows it. *)

Definition Del_code (key : string) : list instr := [ILock; IMapDelete key; IUnlock].

Definition Get_code (key : string) : list instr := [IRLock; IMapIndex key; IRUnlock].

Definition GetAll_code : list instr := [IRLock; IMapRange; IRUnlock].

Definition List_code : list instr := [IRLock; IMapRange; IRUnlock].

Definition ListDir_code : list instr := [IRLock; IMapRange; IRUnlock].

Definition Set_code (key value : string) : list instr :=
  [ILock; IMapAssign key value; IUnlock].

(** [GetValue] and [GetAllValues] do not lock: they call [Get] and
    [GetAll], which do. *)

Definition code (c : call) : list instr :=
  match c with
  | CDel key => Del_code key
  | CGet key => Get_code key
  | CGetValue key => Get_code key
  | CGetAll _ => GetAll_code
  | CGetAllValues _ => GetAll_code
  | CList _ => List_code
  | CListDir _ => ListDir_code
  | CSet key value => Set_code key value
  end.

(** What a call returns, given the map it read. *)

Inductive retval : Type :=
| RUnit
| RGet (r : KVPair * option error)
| RGetValue (r : string * option error)
| RGetAll (r : option KVPairs * option error)
| RGetAllValues (r : option (list string) * option error)
| RList (r : result panic (list string)).

Definition ret_of (c : call) (view : Store) : retval :=
  match c with
  | CDel _ | CSet _ _ => RUnit
  | CGet key => RGet (Get view key)
  | CGetValue key => RGetValue (GetValue view key)
  | CGetAll pattern => RGetAll (GetAll view pattern)
  | CGetAllValues pattern => RGetAllValues (GetAllValues view pattern)
  | CList path => RList (List view path)
  | CListDir path => RList (ListDir view path)
  end.

(** What a call does to the map. *)

Definition effect (c : call) (s : Store) : Store :=
  match c with
  | CDel key => Del s key
  | CSet key value => Set' s key value
  | _ => s
  end.

(** ** Threads and configurations *)

(** How the receiver of a method is passed: by value, as the source
    declares it, or by pointer. *)

Inductive receiver : Set := ByValue | ByPointer.

(** Every method of the source is declared [func (s Store) ...]. *)

Definition declared : receiver := ByValue.

Record thread : Type := mkThread {
  th_call : call;
  th_pc : nat;
  th_mu : RWMutex;
  th_view : option Store;
}.

Record config : Type := mkConfig {
  cfg_mu : RWMutex;
  cfg_map : Store;
  cfg_threads : list thread;
}.

(** A call is entered with a copy of the mutex of the store it is called
    on. *)

Definition enter (mu : RWMutex) (c : call) : thread :=
  {| th_call := c; th_pc := 0; th_mu := mu; th_view := None |}.

Definition init (s : Store) (calls : list call) : config :=
  {| cfg_mu := unlocked; cfg_map := s; cfg_threads := enter unlocked <$> calls |}.

Definition next_instr (t : thread) : option instr := code (th_call t) !! th_pc t.

Definition finished (t : thread) : Prop := next_instr t = None.

#[export] Instance finished_dec t : Decision (finished t).
Proof. unfold finished. apply _. Defined.

(** ** Steps *)

(** One instruction, on the mutex it addresses, the map, and the view of
    the thread.  [None] when the thread has to wait. *)

Definition exec_instr (i : instr) (mu : RWMutex) (s : Store) (view : option Store)
  : option (RWMutex * Store * option Store) :=
  match i with
  | ILock => mu' ← Lock mu; Some (mu', s, view)
  | IUnlock => mu' ← Unlock mu; Some (mu', s, view)
  | IRLock => mu' ← RLock mu; Some (mu', s, view)
  | IRUnlock => mu' ← RUnlock mu; Some (mu', s, view)
  | IMapDelete key => Some (mu, Del s key, view)
  | IMapAssign key value => Some (mu, Set' s key value, view)
  | IMapIndex _ | IMapRange => Some (mu, s, Some s)
  end.

(** The mutex a thread addresses. *)

Definition mutex_of (r : receiver) (cfg : config) (t : thread) : RWMutex :=
  match r with ByValue => th_mu t | ByPointer => cfg_mu cfg end.

(** The thread after one step. *)

Definition advance (t : thread) (mu : RWMutex) (view : option Store) : thread :=
  {| th_call := th_call t; th_pc := S (th_pc t); th_mu := mu; th_view := view |}.

Definition step_thread (r : receiver) (cfg : config) (tid : nat) : option config :=
  t ← cfg_threads cfg !! tid;
  i ← next_instr t;
  '(mu', s', view') ← exec_instr i (mutex_of r cfg t) (cfg_map cfg) (th_view t);
  let t' := advance t (match r with ByValue => mu' | ByPointer => th_mu t end) view' in
  Some {| cfg_mu := match r with ByValue => cfg_mu cfg | ByPointer => mu' end;
          cfg_map := s';
          cfg_threads := <[tid := t']> (cfg_threads cfg) |}.

Definition step (r : receiver) (cfg cfg' : config) : Prop :=
  ∃ tid, step_thread r cfg tid = Some cfg'.

(** The threads run in the order of a schedule; [None] when the schedule
    names a thread that cannot take its step. *)

Fixpoint run (r : receiver) (cfg : config) (sched : list nat) : option config :=
  match sched with
  | [] => Some cfg
  | tid :: sched => cfg' ← step_thread r cfg tid; run r cfg' sched
  end.

(** ** Races *)

Inductive access : Set := Read | Write.

#[export] Instance access_eq_dec : EqDecision access.
Proof. solve_decision. Defined.

Definition access_of (i : instr) : option access :=
  match i with
  | IMapDelete _ | IMapAssign _ _ => Some Write
  | IMapIndex _ | IMapRange => Some Read
  | _ => None
  end.

Definition next_access (t : thread) : option access := next_instr t ≫= access_of.

(** Two different threads are about to access the map, and one of the
    accesses is a write. *)

Definition race (cfg : config) : Prop :=
  ∃ i j ti tj ai aj,
    i ≠ j ∧ cfg_threads cfg !! i = Some ti ∧ cfg_threads cfg !! j = Some tj
    ∧ next_access ti = Some ai ∧ next_access tj = Some aj
    ∧ (ai = Write ∨ aj = Write).

(** Whether a call writes the map, and what a thread holds. *)

Definition kind (c : call) : access :=
  match c with
  | CDel _ | CSet _ _ => Write
  | _ => Read
  end.

(** A thread is in its critical section after its first step and before
    its last. *)

Definition holds (a : access) (t : thread) : nat :=
  if bool_decide (kind (th_call t) = a) && bool_decide (1 ≤ th_pc t ≤ 2) then 1 else 0.

(** The mutex of a receiver under [ByValue], as the position of its thread
    determines it. *)

Definition own_mutex (c : call) (pc : nat) : RWMutex :=
  if bool_decide (1 ≤ pc ≤ 2) then
    match kind c with
    | Write => {| writer := true; readers := 0 |}
    | Read => {| writer := false; readers := 1 |}
    end
  else unlocked.

Definition value_inv (cfg : config) : Prop :=
  Forall (λ t, th_mu t = own_mutex (th_call t) (th_pc t)) (cfg_threads cfg).

(** What a call has returned, once it has finished. *)

Definition returned (t : thread) : option retval :=
  if decide (finished t) then
    match kind (th_call t) with
    | Write => Some RUnit
    | Read => ret_of (th_call t) <$> th_view t
    end
  else None.

(** The state of the one mutex under [ByPointer], as the threads determine
    it. *)

Definition lock_inv (cfg : config) : Prop :=
  let nw := sum_list_with (holds Write) (cfg_threads cfg) in
  let nr := sum_list_with (holds Read) (cfg_threads cfg) in
  cfg_mu cfg = {| writer := bool_decide (nw = 1); readers := nr |}
  ∧ nw ≤ 1 ∧ (nw = 1 → nr = 0).

(** ** Code and positions *)

Section code_facts.
Implicit Types (c : call) (t : thread) (a : access) (i : instr).

(** Every method is: take the lock, access the map once, release. *)
Lemma code_shape c :
  ∃ i, code c =
    [match kind c with Write => ILock | Read => IRLock end; i;
     match kind c with Write => IUnlock | Read => IRUnlock end]
    ∧ access_of i = Some (kind c).
Proof. destruct c; simpl; eauto. Qed.

Lemma next_instr_cases t i :
  next_instr t = Some i →
  (th_pc t = 0 ∧ i = match kind (th_call t) with Write => ILock | Read => IRLock end)
  ∨ (th_pc t = 1 ∧ access_of i = Some (kind (th_call t)))
  ∨ (th_pc t = 2 ∧ i = match kind (th_call t) with Write => IUnlock | Read => IRUnlock end).
Proof.
  unfold next_instr. destruct (code_shape (th_call t)) as (j & -> & Hj).
  destruct (th_pc t) as [|[|[|n]]]; simpl; naive_solver.
Qed.

Lemma next_instr_is_Some t : is_Some (next_instr t) ↔ th_pc t < 3.
Proof.
  unfold next_instr. rewrite lookup_lt_is_Some.
  by destruct (code_shape (th_call t)) as (j & -> & _).
Qed.

Lemma next_access_Some t a :
  next_access t = Some a ↔
  th_pc t = 1 ∧ kind (th_call t) = a.
Proof.
  unfold next_access, next_instr. destruct (code_shape (th_call t)) as (j & -> & Hj).
  destruct (th_pc t) as [|[|[|n]]], (kind (th_call t)); simpl; naive_solver.
Qed.

(** What a thread holds is decided by its call and its position. *)
Lemma holds_cases a t :
  holds a t = if bool_decide (kind (th_call t) = a ∧ 1 ≤ th_pc t ≤ 2) then 1 else 0.
Proof. unfold holds. repeat case_bool_decide; naive_solver. Qed.

Lemma holds_at a t :
  holds a t =
    if bool_decide (kind (th_call t) = a) then match th_pc t with 1 | 2 => 1 | _ => 0 end
    else 0.
Proof.
  unfold holds. case_bool_decide; simpl; [|done].
  by destruct (th_pc t) as [|[|[|n]]].
Qed.

Lemma holds_next_access t a : next_access t = Some a → holds a t = 1.
Proof.
  intros [Hpc Hk]%next_access_Some.
  rewrite holds_cases, bool_decide_eq_true_2; [done | split; [done | lia]].
Qed.

End code_facts.

(** ** Steps, unfolded *)

Section steps.
Implicit Types (r : receiver) (cfg : config) (t : thread) (tid : nat).

Lemma step_thread_Some r cfg tid cfg' :
  step_thread r cfg tid = Some cfg' ↔
  ∃ t i mu' s' view',
    cfg_threads cfg !! tid = Some t ∧ next_instr t = Some i
    ∧ exec_instr i (mutex_of r cfg t) (cfg_map cfg) (th_view t) = Some (mu', s', view')
    ∧ cfg' =
        {| cfg_mu := match r with ByValue => cfg_mu cfg | ByPointer => mu' end;
           cfg_map := s';
           cfg_threads :=
             <[tid := advance t (match r with ByValue => mu' | ByPointer => th_mu t end)
                        view']> (cfg_threads cfg) |}.
Proof.
  unfold step_thread. split.
  - intros H. destruct (cfg_threads cfg !! tid) as [t|]; [|done]. simpl in H.
    destruct (next_instr t) as [i|] eqn:Hi; [|done]. simpl in H.
    destruct (exec_instr _ _ _ _) as [[[mu' s'] view']|] eqn:He; [|done]. simpl in H.
    injection H as <-. by exists t, i, mu', s', view'.
  - intros (t & i & mu' & s' & view' & -> & Hi & He & ->). simpl.
    rewrite Hi. simpl. by rewrite He.
Qed.

(** An access to the map never waits and leaves the mutex as it is. *)
Lemma exec_instr_access i a mu s view :
  access_of i = Some a →
  ∃ s' view', exec_instr i mu s view = Some (mu, s', view').
Proof. destruct i; simpl; intros; simplify_eq; eauto. Qed.

(** A step on the mutex leaves the map and the view as they are. *)
Lemma exec_instr_lock i mu s view mu' s' view' :
  access_of i = None →
  exec_instr i mu s view = Some (mu', s', view') →
  s' = s ∧ view' = view ∧
  match i with
  | ILock => Lock mu = Some mu'
  | IUnlock => Unlock mu = Some mu'
  | IRLock => RLock mu = Some mu'
  | IRUnlock => RUnlock mu = Some mu'
  | _ => False
  end.
Proof.
  destruct i; simpl; try done; intros _ H;
    match type of H with context [?f mu] => destruct (f mu) eqn:E end; by simplify_eq/=.
Qed.

(** How one step of a thread changes the number of threads that hold the
    lock for writing and for reading. *)
Lemma step_counts ts tid t i mu view :
  ts !! tid = Some t → next_instr t = Some i →
  let nw := sum_list_with (holds Write) ts in
  let nr := sum_list_with (holds Read) ts in
  let nw' := sum_list_with (holds Write) (<[tid := advance t mu view]> ts) in
  let nr' := sum_list_with (holds Read) (<[tid := advance t mu view]> ts) in
  match i with
  | ILock => nw' = S nw ∧ nr' = nr
  | IUnlock => nw = S nw' ∧ nr' = nr
  | IRLock => nr' = S nr ∧ nw' = nw
  | IRUnlock => nr = S nr' ∧ nw' = nw
  | IMapDelete _ | IMapAssign _ _ => nw' = nw ∧ nr' = nr ∧ 1 ≤ nw
  | IMapIndex _ | IMapRange => nw' = nw ∧ nr' = nr ∧ 1 ≤ nr
  end.
Proof.
  intros Ht Hi.
  pose proof (sum_list_with_insert (holds Write) _ tid t (advance t mu view) Ht) as HW.
  pose proof (sum_list_with_insert (holds Read) _ tid t (advance t mu view) Ht) as HR.
  pose proof (sum_list_with_lookup (holds Write) _ _ _ Ht) as HW'.
  pose proof (sum_list_with_lookup (holds Read) _ _ _ Ht) as HR'.
  rewrite !holds_at in HW. rewrite !holds_at in HR.
  rewrite holds_at in HW'. rewrite holds_at in HR'. simpl in HW, HR.
  apply next_instr_cases in Hi as [[Hpc ->]|[[Hpc Ha]|[Hpc ->]]]; rewrite Hpc in *;
    [|destruct i; simplify_eq/=; rewrite <-Ha in *|];
    try destruct (kind (th_call t)); simpl in *;
    repeat case_bool_decide; simplify_eq; lia.
Qed.

End steps.

(** ** One mutex for all calls: no race *)

Section by_pointer.
Implicit Types (cfg : config) (t : thread) (tid : nat) (s : Store) (calls : list call).

Lemma lock_inv_init s calls : lock_inv (init s calls).
Proof.
  unfold lock_inv, init; simpl.
  assert (∀ a, sum_list_with (holds a) (enter unlocked <$> calls) = 0) as H0.
  { intros a. apply sum_list_with_0, Forall_fmap, Forall_true. intros c.
    unfold holds; simpl. by rewrite andb_false_r. }
  rewrite !H0. split_and!; [done | lia | done].
Qed.

Lemma lock_inv_step cfg cfg' : lock_inv cfg → step ByPointer cfg cfg' → lock_inv cfg'.
Proof.
  intros (Hmu & Hw & Hwr)
    [tid (t & i & mu' & s' & view' & Ht & Hi & He & ->)%step_thread_Some].
  unfold lock_inv; simpl.
  pose proof (step_counts _ _ _ _ (th_mu t) view' Ht Hi) as Hc. simpl in Hc.
  unfold mutex_of in He. destruct (access_of i) as [a|] eqn:Ha.
  - destruct (exec_instr_access i a (cfg_mu cfg) (cfg_map cfg) (th_view t) Ha)
      as (s'' & v'' & He'). rewrite He' in He. simplify_eq.
    destruct i; simplify_eq/=; destruct Hc as (-> & -> & _); done.
  - apply exec_instr_lock in He as (-> & -> & He); [|done]. rewrite Hmu in He.
    destruct i; try done.
    + apply Lock_Some in He as (Hf%bool_decide_eq_false & Hr & ->); simpl in *.
      destruct Hc as [-> ->]. rewrite Hr, bool_decide_eq_true_2 by lia.
      split_and!; [done | lia | done].
    + apply Unlock_Some in He as (Hf%bool_decide_eq_true & ->); simpl in *.
      destruct Hc as [Hc ->]. rewrite bool_decide_eq_false_2 by lia.
      split_and!; [done | lia | lia].
    + apply RLock_Some in He as (Hf%bool_decide_eq_false & ->); simpl in *.
      destruct Hc as [-> ->]. rewrite bool_decide_eq_false_2 by lia.
      split_and!; [done | lia | lia].
    + apply RUnlock_Some in He as (n & Hn & ->); simpl in *.
      destruct Hc as [Hc ->]. split_and!; [f_equal; lia | lia | lia].
Qed.

Lemma lock_inv_reachable s calls cfg :
  rtc (step ByPointer) (init s calls) cfg → lock_inv cfg.
Proof.
  revert cfg. apply rtc_ind_r; [apply lock_inv_init | eauto using lock_inv_step].
Qed.

(** The invariant excludes a race. *)
Lemma lock_inv_no_race cfg : lock_inv cfg → ¬ race cfg.
Proof.
  intros (_ & Hw & Hwr) (i & j & ti & tj & ai & aj & Hne & Hi & Hj & Hai & Haj & Hor).
  apply holds_next_access in Hai, Haj.
  destruct ai, aj; try (by destruct Hor).
  - pose proof (sum_list_with_lookup (holds Read) _ _ _ Hi).
    pose proof (sum_list_with_lookup (holds Write) _ _ _ Hj). lia.
  - pose proof (sum_list_with_lookup (holds Write) _ _ _ Hi).
    pose proof (sum_list_with_lookup (holds Read) _ _ _ Hj). lia.
  - pose proof (sum_list_with_lookup2 (holds Write) _ _ _ _ _ Hne Hi Hj). lia.
Qed.

(** C7: with one mutex shared by all calls (a pointer receiver), no
    interleaving of any number of calls reaches a state in which two
    threads are at their map access and one of them writes. *)
Theorem race_free_by_pointer s calls cfg :
  rtc (step ByPointer) (init s calls) cfg → ¬ race cfg.
Proof. intros H%lock_inv_reachable. by apply lock_inv_no_race. Qed.

End by_pointer.

(** ** A mutex per call: the lock excludes nobody *)

Section by_value.
Implicit Types (cfg : config) (t : thread) (tid : nat) (s : Store) (calls : list call).

Lemma value_inv_init s calls : value_inv (init s calls).
Proof. apply Forall_fmap, Forall_true. by intros c. Qed.

(** On the mutex of its own receiver a call never waits. *)
Lemma exec_instr_own_mutex t i s :
  next_instr t = Some i →
  ∃ s' view',
    exec_instr i (own_mutex (th_call t) (th_pc t)) s (th_view t)
    = Some (own_mutex (th_call t) (S (th_pc t)), s', view').
Proof.
  intros [[Hpc ->]|[[Hpc Ha]|[Hpc ->]]]%next_instr_cases; unfold own_mutex; rewrite Hpc.
  - destruct (kind (th_call t)); simpl; eauto.
  - destruct (exec_instr_access i _ (own_mutex (th_call t) 1) s (th_view t) Ha)
      as (s' & view' & He). eauto.
  - destruct (kind (th_call t)); simpl; eauto.
Qed.

Lemma step_thread_by_value cfg tid t :
  value_inv cfg → cfg_threads cfg !! tid = Some t → ¬ finished t →
  ∃ s' view',
    step_thread ByValue cfg tid = Some
      {| cfg_mu := cfg_mu cfg; cfg_map := s';
         cfg_threads :=
           <[tid := advance t (own_mutex (th_call t) (S (th_pc t))) view']>
             (cfg_threads cfg) |}.
Proof.
  intros Hinv Ht Hf. destruct (next_instr t) as [i|] eqn:Hi; [|done].
  destruct (exec_instr_own_mutex t i (cfg_map cfg) Hi) as (s' & view' & He).
  exists s', view'. apply step_thread_Some.
  exists t, i, (own_mutex (th_call t) (S (th_pc t))), s', view'.
  split_and!; try done. simpl.
  by rewrite (proj1 (Forall_lookup _ _) Hinv _ _ Ht).
Qed.

Lemma value_inv_step cfg cfg' : value_inv cfg → step ByValue cfg cfg' → value_inv cfg'.
Proof.
  intros Hinv [tid Hstep].
  pose proof Hstep as (t & i & _ & _ & _ & Ht & Hi & _ & _)%step_thread_Some.
  destruct (step_thread_by_value cfg tid t Hinv Ht) as (s' & view' & Hs).
  { unfold finished. by rewrite Hi. }
  rewrite Hs in Hstep. injection Hstep as <-. by apply Forall_insert.
Qed.

Lemma value_inv_reachable s calls cfg :
  rtc (step ByValue) (init s calls) cfg → value_inv cfg.
Proof.
  revert cfg. apply rtc_ind_r; [apply value_inv_init | eauto using value_inv_step].
Qed.

(** C35: as the source declares the methods (value receivers), every call
    that has not finished can take its next step in every reachable state,
    whatever the other calls hold: [Lock] and [RLock] never make a call
    wait. *)
Theorem by_value_never_waits s calls cfg tid t :
  rtc (step declared) (init s calls) cfg →
  cfg_threads cfg !! tid = Some t → ¬ finished t →
  ∃ cfg', step_thread declared cfg tid = Some cfg'.
Proof.
  unfold declared. intros Hinv%value_inv_reachable Ht Hf.
  destruct (step_thread_by_value cfg tid t Hinv Ht Hf) as (s' & view' & Hs). eauto.
Qed.

End by_value.

Section value_race.
Implicit Types (cfg : config) (t : thread) (tid : nat) (s : Store) (calls : list call).

(** The first step of a call under [ByValue]: it takes its own lock and is
    at its access to the map. *)
Lemma step_thread_enter cfg tid c :
  value_inv cfg → cfg_threads cfg !! tid = Some (enter unlocked c) →
  ∃ cfg' t',
    step_thread ByValue cfg tid = Some cfg' ∧ value_inv cfg'
    ∧ cfg_threads cfg' = <[tid := t']> (cfg_threads cfg)
    ∧ next_access t' = Some (kind c).
Proof.
  intros Hinv Ht.
  destruct (step_thread_by_value cfg tid _ Hinv Ht) as (s' & view' & Hs).
  { unfold finished, next_instr. by destruct c. }
  assert (step ByValue cfg _) as Hstep by (by exists tid).
  eexists _, _. split_and!; [done | by eapply value_inv_step | done |].
  by apply next_access_Some.
Qed.

Lemma step_enter cfg tid c :
  value_inv cfg → cfg_threads cfg !! tid = Some (enter unlocked c) →
  ∃ cfg' t',
    step ByValue cfg cfg' ∧ value_inv cfg'
    ∧ cfg_threads cfg' = <[tid := t']> (cfg_threads cfg)
    ∧ next_access t' = Some (kind c).
Proof.
  intros Hinv Ht.
  destruct (step_thread_enter cfg tid c Hinv Ht) as (cfg' & t' & Hs & H).
  exists cfg', t'. split; [by exists tid | done].
Qed.

(** C3: as the source declares the methods, any two calls of which one
    writes the map ([Set] or [Del]) can both be at their access to the map
    at the same time: a data race on the map is reachable. *)
Theorem race_by_value s calls i j ci cj :
  i ≠ j → calls !! i = Some ci → calls !! j = Some cj → kind ci = Write →
  ∃ cfg, rtc (step declared) (init s calls) cfg ∧ race cfg.
Proof.
  unfold declared. intros Hne Hi Hj Hw.
  assert (cfg_threads (init s calls) !! i = Some (enter unlocked ci)) as Hti.
  { simpl. by rewrite list_lookup_fmap, Hi. }
  assert (cfg_threads (init s calls) !! j = Some (enter unlocked cj)) as Htj.
  { simpl. by rewrite list_lookup_fmap, Hj. }
  destruct (step_enter (init s calls) i ci) as (cfg1 & ti & Hs1 & Hinv1 & Hts1 & Hai);
    [apply value_inv_init | done |].
  rewrite <-(list_lookup_insert_ne _ i j ti), <-Hts1 in Htj by done.
  destruct (step_enter cfg1 j cj) as (cfg2 & tj & Hs2 & Hinv2 & Hts2 & Haj); [done..|].
  exists cfg2. split; [by eapply rtc_l, rtc_once|].
  exists i, j, ti, tj, (kind ci), (kind cj). rewrite Hts2.
  split_and!; [done | | | done | done | by left].
  - rewrite list_lookup_insert_ne, Hts1 by done.
    by eapply list_lookup_insert_eq, lookup_lt_Some.
  - by eapply list_lookup_insert_eq, lookup_lt_Some.
Qed.
End value_race.

(** ** One mutex for all calls: no deadlock *)

Section deadlock_freedom.
Implicit Types (r : receiver) (cfg : config) (t : thread) (tid : nat) (s : Store) (calls : list call).

Lemma step_thread_is_Some r cfg tid t i :
  cfg_threads cfg !! tid = Some t → next_instr t = Some i →
  is_Some (exec_instr i (mutex_of r cfg t) (cfg_map cfg) (th_view t)) →
  is_Some (step_thread r cfg tid).
Proof.
  intros Ht Hi [[[mu' s'] view'] He]. eexists.
  apply step_thread_Some. by exists t, i, mu', s', view'.
Qed.

Lemma step_thread_step r cfg tid : is_Some (step_thread r cfg tid) → ∃ cfg', step r cfg cfg'.
Proof. intros [cfg' H]. exists cfg'. by exists tid. Qed.

(** A thread that holds the lock can go on: its access does not wait, and
    the lock is in the state its release needs. *)
Lemma holder_steps cfg tid t a :
  lock_inv cfg → cfg_threads cfg !! tid = Some t → 0 < holds a t →
  is_Some (step_thread ByPointer cfg tid).
Proof.
  intros (Hmu & Hw & Hwr) Ht Hh.
  pose proof (sum_list_with_lookup (holds a) _ _ _ Ht) as Hsum.
  rewrite holds_cases in Hh. case_bool_decide as Hc; [|lia]. destruct Hc as [Hk Hpc].
  destruct (next_instr t) as [i|] eqn:Hi; [|apply eq_None_not_Some in Hi;
    rewrite next_instr_is_Some in Hi; lia].
  eapply step_thread_is_Some; [done..|]. simpl. rewrite Hmu.
  rewrite holds_cases, bool_decide_eq_true_2 in Hsum by done.
  apply next_instr_cases in Hi as [[? _]|[[_ Ha]|[_ ->]]]; [lia| |].
  - destruct (exec_instr_access i _ (cfg_mu cfg) (cfg_map cfg) (th_view t) Ha)
      as (s' & v' & He). rewrite <-Hmu, He. eauto.
  - rewrite Hk. destruct a; simpl.
    + destruct (sum_list_with (holds Read) _) as [|n]; [lia|]. by eexists.
    + rewrite bool_decide_eq_true_2 by lia. by eexists.
Qed.

(** When nobody holds the lock, a call that has not started can take it. *)
Lemma free_steps cfg tid t :
  lock_inv cfg → cfg_threads cfg !! tid = Some t → ¬ finished t →
  sum_list_with (holds Write) (cfg_threads cfg) = 0 →
  sum_list_with (holds Read) (cfg_threads cfg) = 0 →
  is_Some (step_thread ByPointer cfg tid).
Proof.
  intros (Hmu & _) Ht Hf Hw Hr. rewrite Hw, Hr in Hmu.
  destruct (next_instr t) as [i|] eqn:Hi; [|done].
  eapply step_thread_is_Some; [done..|]. simpl. rewrite Hmu.
  pose proof (sum_list_with_0_inv _ _ _ _ Hw Ht) as Hw0.
  pose proof (sum_list_with_0_inv _ _ _ _ Hr Ht) as Hr0.
  rewrite holds_cases in Hw0, Hr0.
  apply next_instr_cases in Hi as [[_ ->]|[[Hpc _]|[Hpc _]]];
    [by destruct (kind (th_call t))|..];
    destruct (kind (th_call t)); repeat case_bool_decide; naive_solver lia.
Qed.

(** Either somebody holds the lock and can go on, or nobody does and any
    call that has not finished can take it. *)
Lemma lock_inv_progress cfg tid t :
  lock_inv cfg → cfg_threads cfg !! tid = Some t → ¬ finished t →
  ∃ cfg', step ByPointer cfg cfg'.
Proof.
  intros Hinv Ht Hf.
  destruct (decide (0 < sum_list_with (holds Write) (cfg_threads cfg))) as [Hw|Hw].
  { apply sum_list_with_pos in Hw as (i & x & Hi & Hx).
    by eapply step_thread_step, holder_steps. }
  destruct (decide (0 < sum_list_with (holds Read) (cfg_threads cfg))) as [Hr|Hr].
  { apply sum_list_with_pos in Hr as (i & x & Hi & Hx).
    by eapply step_thread_step, holder_steps. }
  eapply step_thread_step, free_steps; [done..|lia|lia].
Qed.

(** C11: with one mutex shared by all calls, a reachable state in which
    some call has not finished has a next step: the locking discipline of
    the methods cannot deadlock. *)
Theorem by_pointer_progress s calls cfg tid t :
  rtc (step ByPointer) (init s calls) cfg →
  cfg_threads cfg !! tid = Some t → ¬ finished t →
  ∃ cfg', step ByPointer cfg cfg'.
Proof. intros Hinv%lock_inv_reachable. by apply lock_inv_progress. Qed.
End deadlock_freedom.

(** ** Schedules, and a call on its own *)

Section schedules.
Implicit Types (r : receiver) (cfg : config) (sched : list nat).

Lemma run_steps r cfg sched cfg' : run r cfg sched = Some cfg' → rtc (step r) cfg cfg'.
Proof.
  revert cfg. induction sched as [|tid sched IH]; intros cfg H; simplify_eq/=; [done|].
  destruct (step_thread r cfg tid) as [c1|] eqn:H1; [|done].
  eapply rtc_l; [by exists tid | by apply IH].
Qed.

Lemma steps_run r cfg cfg' : rtc (step r) cfg cfg' → ∃ sched, run r cfg sched = Some cfg'.
Proof.
  induction 1 as [cfg|cfg c1 cfg' [tid Hs] _ [sched IH]]; [by exists []|].
  exists (tid :: sched). simpl. by rewrite Hs.
Qed.

(** A call that runs alone, under either semantics, finishes in three
    steps, leaves the map as the sequential method does, returns what the
    sequential method returns, and leaves the mutex unlocked. *)
Theorem run_alone r s c :
  ∃ cfg t,
    rtc (step r) (init s [c]) cfg ∧ cfg_threads cfg = [t] ∧ finished t
    ∧ cfg_map cfg = effect c s ∧ returned t = Some (ret_of c s)
    ∧ mutex_of r cfg t = unlocked.
Proof.
  destruct (run r (init s [c]) [0; 0; 0]) as [cfg|] eqn:H; [|by destruct r, c].
  exists cfg. pose proof (run_steps _ _ _ _ H) as Hsteps.
  destruct r, c; injection H as <-; eexists; split_and!; done.
Qed.

End schedules.

(** ** A writer and a reader of one key *)

Section concurrent_examples.

(** [Set] and [Get] of one key, started together on the example store:
    as declared, the schedule in which each takes its lock leads to a race;
    with one shared mutex the second call cannot take the lock while the
    first holds it, and the schedule is refused. *)
Example set_get_example :
  (∃ cfg, run declared (init example_store [CSet "/k" "v"; CGet "/k"]) [0; 1] = Some cfg
          ∧ race cfg)
  ∧ run ByPointer (init example_store [CSet "/k" "v"; CGet "/k"]) [0; 1] = None.
Proof.
  split; [|reflexivity]. eexists. split; [reflexivity|].
  eexists 0, 1, _, _, Write, Read. split_and!; [done | reflexivity.. | by left].
Qed.

Lemma race_free_by_pointer_witness :
  ∃ cfg, run ByPointer (init example_store [CSet "/k" "v"; CGet "/k"]) [0; 0] = Some cfg
         ∧ ¬ race cfg.
Proof.
  eexists. split; [reflexivity|].
  apply (race_free_by_pointer example_store [CSet "/k" "v"; CGet "/k"]).
  by apply (run_steps _ _ [0; 0]).
Defined.

Lemma by_value_never_waits_witness :
  ∃ cfg', step_thread declared (init example_store [CSet "/k" "v"; CGet "/k"]) 1 = Some cfg'.
Proof.
  apply (by_value_never_waits example_store [CSet "/k" "v"; CGet "/k"] _ 1
           (enter unlocked (CGet "/k"))); [apply rtc_refl | reflexivity | by vm_compute].
Defined.

Lemma race_by_value_witness :
  ∃ cfg, rtc (step declared) (init New [CGetAll "/*"; CDel "/k"]) cfg ∧ race cfg.
Proof. by apply (race_by_value New [CGetAll "/*"; CDel "/k"] 1 0 (CDel "/k") (CGetAll "/*")). Defined.

Lemma by_pointer_progress_witness :
  ∃ cfg', step ByPointer (init New [CList "/"; CSet "/k" "v"]) cfg'.
Proof.
  apply (by_pointer_progress New [CList "/"; CSet "/k" "v"] _ 0 (enter unlocked (CList "/")));
    [apply rtc_refl | reflexivity | by vm_compute].
Defined.

End concurrent_examples.
