(* ===== verification/Methods.v ===== *)
(** * Methods: the method bodies of the store as programs

    Concurrent.v gives each method of src/store.go as the list of its lock
    steps and map accesses ([code]), the function of the map it returns
    ([ret_of]) and its effect on the map ([effect]).  This file gives the
    method bodies themselves, statement by statement: the calls to
    [s.Lock()], [s.RLock()] and their counterparts, [defer s.RUnlock()],
    the access to [s.m], the tests and returns, and the call of [Get] by
    [GetValue] and of [GetAll] by [GetAllValues].

    A body is a program ([prog]): a tree of the actions it asks of the
    mutex and the map, each continued by a function of the answer, that
    ends by returning a value or by panicking.  [run_prog] runs a program
    alone on a mutex and a map and records the actions it performed.
    Programs are compared up to their continuations ([prog_equiv]); the
    monad laws hold up to that equivalence, and running and typing
    respect it.

    The theorems show that a body run alone from an unlocked mutex performs
    the actions [code] lists, returns what the function of Memkv.v
    returns, changes the map as [effect] says and leaves the mutex
    unlocked, also when it panics; and that the bodies follow the locking
    discipline ([lock_typed]): a map access is made while the lock of the
    right kind is held, a lock is released only when held, and every path
    to a return or a panic releases it. *)

From S2P Require Import Prelude GoString Sorting Match Memkv Sync Concurrent.
From stdpp Require Import gmap strings.

(** ** Programs *)

(** What an action answers: the two-value index expression
    [kv, ok := s.m[key]] answers the pair, or the zero value, and whether
    the key is present; a [range] loop is answered by the entries it
    visits. *)

Definition response (a : instr) : Type :=
  match a with
  | IMapIndex _ => (KVPair * bool)%type
  | IMapRange => list KVPair
  | _ => ()
  end.

Inductive prog (A : Type) : Type :=
| Ret (a : A)
| Panic (p : panic)
| Act (a : instr) (k : response a → prog A).

Arguments Ret {A} a.
Arguments Panic {A} p.
Arguments Act {A} a k.

Fixpoint prog_bind {A B} (f : A → prog B) (p : prog A) : prog B :=
  match p with
  | Ret a => f a
  | Panic e => Panic e
  | Act a k => Act a (λ r, prog_bind f (k r))
  end.

#[export] Instance prog_ret : MRet prog := @Ret.
#[export] Instance prog_mbind : MBind prog := @prog_bind.
#[export] Instance prog_fmap : FMap prog := λ A B f, prog_bind (λ a, Ret (f a)).

Definition trigger (a : instr) : prog (response a) := Act a Ret.

(** [defer d; body]: the deferred call [d] runs when [body] returns and
    when it panics; the panic goes on after it. *)

Fixpoint defer {A} (d : prog ()) (body : prog A) : prog A :=
  match body with
  | Ret a => d ;; Ret a
  | Panic e => d ;; Panic e
  | Act a k => Act a (λ r, defer d (k r))
  end.

(** A computation that may panic, as the end of a program. *)

Definition lift_result {A} (r : result panic A) : prog A :=
  match r with
  | Ok a => Ret a
  | Err e => Panic e
  end.

(** Two programs are equivalent when they make the same actions and
    end alike, whatever the actions answer: equality of the trees up to
    the extension of their continuations. *)

Fixpoint prog_equiv {A} (p q : prog A) : Prop :=
  match p with
  | Ret a => q = Ret a
  | Panic e => q = Panic e
  | Act a k => ∃ k', q = Act a k' ∧ ∀ r, prog_equiv (k r) (k' r)
  end.

#[export] Instance prog_equiv_inst {A} : Equiv (prog A) := prog_equiv.

(** ** The methods *)

Definition Del_method (key : string) : prog () :=
  trigger ILock ;;
  trigger (IMapDelete key) ;;
  trigger IUnlock.

Definition Get_method (key : string) : prog (KVPair * option error) :=
  trigger IRLock ;;
  '(kv, ok) ← trigger (IMapIndex key);
  trigger IRUnlock ;;
  if negb ok then mret (kv, Some ErrNotExist)
  else mret (kv, None).

Definition GetValue_method (key : string) : prog (string * option error) :=
  '(kv, err) ← Get_method key;
  match err with
  | Some e => mret ("", Some e)
  | None => mret (Value kv, None)
  end.

Definition GetAll_method (pattern : string) : prog (option KVPairs * option error) :=
  trigger IRLock ;;
  defer (trigger IRUnlock) (
    kvs ← trigger IMapRange;
    mret (GetAll_from kvs pattern)).

Definition GetAllValues_method (pattern : string)
  : prog (option (list string) * option error) :=
  let vs := [] in
  '(ks, err) ← GetAll_method pattern;
  match err with
  | Some e => mret (Some vs, Some e)
  | None => mret (Some (GetAllValues_loop (default [] ks) vs), None)
  end.

Definition List_method (path : string) : prog (list string) :=
  trigger IRLock ;;
  defer (trigger IRUnlock) (
    kvs ← trigger IMapRange;
    lift_result (List_from kvs path)).

Definition ListDir_method (path : string) : prog (list string) :=
  trigger IRLock ;;
  defer (trigger IRUnlock) (
    kvs ← trigger IMapRange;
    lift_result (ListDir_from kvs path)).

Definition Set_method (key value : string) : prog () :=
  trigger ILock ;;
  trigger (IMapAssign key value) ;;
  trigger IUnlock.

(** The body of a call, returning the value of the call. *)

Definition method (c : call) : prog retval :=
  match c with
  | CDel key => Del_method key ;; mret RUnit
  | CGet key => RGet <$> Get_method key
  | CGetValue key => RGetValue <$> GetValue_method key
  | CGetAll pattern => RGetAll <$> GetAll_method pattern
  | CGetAllValues pattern => RGetAllValues <$> GetAllValues_method pattern
  | CList path => (RList ∘ Ok) <$> List_method path
  | CListDir path => (RList ∘ Ok) <$> ListDir_method path
  | CSet key value => Set_method key value ;; mret RUnit
  end.

(** ** Running a program alone *)

(** What the map answers to an action. *)

Definition answer (a : instr) (s : Store) : response a :=
  match a return response a with
  | IMapIndex key =>
      match m s !! key with
      | Some kv => (kv, true)
      | None => (mkKVPair "" "", false)
      end
  | IMapRange => range s
  | _ => ()
  end.

(** An action on the mutex and the map, with its answer; [None] when the
    action cannot be taken: a lock that is held, an unlock of a lock that
    is not. *)

Definition respond (a : instr) (mu : RWMutex) (s : Store)
  : option (response a * RWMutex * Store) :=
  '(mu', s', _) ← exec_instr a mu s None;
  Some (answer a s, mu', s').

(** The actions performed, the value returned or the panic, and the mutex
    and the map at the end. *)

Definition final (A : Type) : Type := list instr * result panic A * RWMutex * Store.

Fixpoint run_prog {A} (p : prog A) (mu : RWMutex) (s : Store) : option (final A) :=
  match p with
  | Ret a => Some ([], Ok a, mu, s)
  | Panic e => Some ([], Err e, mu, s)
  | Act a k =>
      '(r, mu', s') ← respond a mu s;
      '(tr, o, mu'', s'') ← run_prog (k r) mu' s';
      Some (a :: tr, o, mu'', s'')
  end.

Definition final_map {A B} (g : A → B) (r : final A) : final B :=
  let '(tr, o, mu, s) := r in (tr, g <$> o, mu, s).

(** What follows a program in a bind, and in a deferred call. *)

Definition then_run {A B} (f : A → prog B) (r : final A) : option (final B) :=
  let '(tr, o, mu, s) := r in
  match o with
  | Ok a => '(tr', o', mu', s') ← run_prog (f a) mu s; Some (tr ++ tr', o', mu', s')
  | Err e => Some (tr, Err e, mu, s)
  end.

Definition then_deferred {A} (d : prog ()) (r : final A) : option (final A) :=
  let '(tr, o, mu, s) := r in
  '(tr', o', mu', s') ← run_prog d mu s;
  Some (tr ++ tr', o' ≫= λ _, o, mu', s').

(** The value of a call that panicked is the panic: only [List] and
    [ListDir] can. *)

Definition observe (o : result panic retval) : retval :=
  match o with
  | Ok v => v
  | Err p => RList (Err p)
  end.

(** ** The locking discipline *)

(** The lock a body holds: none, the read lock or the write lock; and
    what an action makes of it.  [None] is an action that the discipline
    forbids. *)

Definition lock_step (h : option access) (a : instr) : option (option access) :=
  match a, h with
  | ILock, None => Some (Some Write)
  | IUnlock, Some Write => Some None
  | IRLock, None => Some (Some Read)
  | IRUnlock, Some Read => Some None
  | (IMapDelete _ | IMapAssign _ _), Some Write => Some h
  | (IMapIndex _ | IMapRange), Some _ => Some h
  | _, _ => None
  end.

(** [lock_typed h hr hp p]: entered holding [h], the program [p] makes
    only actions that the discipline allows, whatever they answer; every
    return of it holds [hr] and every panic of it holds [hp]. *)

Fixpoint lock_typed {A} (h hr hp : option access) (p : prog A) : Prop :=
  match p with
  | Ret _ => h = hr
  | Panic _ => h = hp
  | Act a k => ∃ h1, lock_step h a = Some h1 ∧ ∀ r, lock_typed h1 hr hp (k r)
  end.

(** What a program holds at its end. *)

Definition held_at_end {A} (hr hp : option access) (o : result panic A) : option access :=
  match o with
  | Ok _ => hr
  | Err _ => hp
  end.

(** The mutex of a body that holds [h], no other call being active. *)

Definition mutex_in (h : option access) : RWMutex :=
  match h with
  | None => unlocked
  | Some Read => {| writer := false; readers := 1 |}
  | Some Write => {| writer := true; readers := 0 |}
  end.

(** The actions of a trace, from [h]. *)

Fixpoint lock_trace (h : option access) (tr : list instr) : option (option access) :=
  match tr with
  | [] => Some h
  | a :: tr => h1 ← lock_step h a; lock_trace h1 tr
  end.

(** ** Running binds and deferred calls *)

Section run_facts.
Context {A B : Type}.
Implicit Types (p : prog A) (f : A → prog B) (mu : RWMutex) (s : Store).

Lemma run_prog_bind p f mu s :
  run_prog (p ≫= f) mu s = run_prog p mu s ≫= then_run f.
Proof.
  revert mu s. induction p as [a|e|a k IH]; intros mu s; simpl.
  - by destruct (run_prog (f a) mu s) as [[[[??]?]?]|].
  - done.
  - destruct (respond a mu s) as [[[r mu'] s']|]; [simpl|done].
    change (prog_bind f (k r)) with (k r ≫= f). rewrite IH.
    by destruct (run_prog (k r) mu' s') as [[[[? []] ?] ?]|]; simpl;
      [destruct (run_prog _ _ _) as [[[[??]?]?]|]|..].
Qed.

Lemma run_prog_fmap p (g : A → B) mu s :
  run_prog (g <$> p) mu s = final_map g <$> run_prog p mu s.
Proof.
  change (g <$> p) with (p ≫= λ a, Ret (g a)). rewrite run_prog_bind.
  destruct (run_prog p mu s) as [[[[tr []] ?] ?]|]; simpl; by rewrite ?app_nil_r.
Qed.

End run_facts.

Lemma run_prog_defer {A} (d : prog ()) (p : prog A) mu s :
  run_prog (defer d p) mu s = run_prog p mu s ≫= then_deferred d.
Proof.
  revert mu s. induction p as [a|e|a k IH]; intros mu s; cbn [defer].
  1,2: rewrite run_prog_bind; simpl;
    destruct (run_prog d mu s) as [[[[tr [[]|]] ?] ?]|]; simpl; by rewrite ?app_nil_r.
  simpl. destruct (respond a mu s) as [[[r mu'] s']|]; [simpl|done]. rewrite IH.
  by destruct (run_prog (k r) mu' s') as [[[[??]?]?]|]; simpl;
    [destruct (run_prog d _ _) as [[[[??]?]?]|]|].
Qed.


(** ** Programs up to their continuations *)

Lemma equiv_Ret_inv {A} (a : A) (q : prog A) : Ret a ≡ q → q = Ret a.
Proof. done. Qed.

Lemma equiv_Panic_inv {A} e (q : prog A) : Panic e ≡ q → q = Panic e.
Proof. done. Qed.

Lemma equiv_Act {A} a k (q : prog A) :
  Act a k ≡ q ↔ ∃ k', q = Act a k' ∧ ∀ r, k r ≡ k' r.
Proof. done. Qed.

Section equivalence.
Context {A : Type}.
Implicit Types (p q : prog A).

Lemma prog_equiv_refl p : p ≡ p.
Proof. induction p as [a|e|a k IH]; simpl; [done..|]. exists k. by split. Qed.

Lemma prog_equiv_sym p q : p ≡ q → q ≡ p.
Proof.
  revert q. induction p as [a|e|a k IH]; intros q;
    [by intros ->%equiv_Ret_inv | by intros ->%equiv_Panic_inv |].
  intros (k' & -> & Hk). exists k. split; [done|]. intros r. by apply IH, Hk.
Qed.

Lemma prog_equiv_trans p q1 q2 : p ≡ q1 → q1 ≡ q2 → p ≡ q2.
Proof.
  revert q1 q2. induction p as [a|e|a k IH]; intros q1 q2;
    [by intros ->%equiv_Ret_inv | by intros ->%equiv_Panic_inv |].
  intros (k1 & -> & H1) (k2 & -> & H2). exists k2. split; [done|].
  intros r. eapply IH; [apply H1 | apply H2].
Qed.

#[export] Instance prog_equiv_equivalence : Equivalence (≡@{prog A}).
Proof. split; [exact prog_equiv_refl | exact prog_equiv_sym | exact prog_equiv_trans]. Qed.

(** Equivalent programs run alike and have the same types. *)
#[export] Instance run_prog_proper : Proper ((≡) ==> (=) ==> (=) ==> (=)) (@run_prog A).
Proof.
  intros p q Hpq mu ? <- s ? <-. revert q Hpq mu s.
  induction p as [a|e|a k IH]; intros q Hq mu s;
    [by apply equiv_Ret_inv in Hq as -> | by apply equiv_Panic_inv in Hq as -> |].
  apply equiv_Act in Hq as (k' & -> & Hk). simpl.
  destruct (respond a mu s) as [[[r mu'] s']|]; [simpl|done]. by rewrite (IH r (k' r) (Hk r)).
Qed.

#[export] Instance lock_typed_proper :
  Proper ((=) ==> (=) ==> (=) ==> (≡) ==> iff) (@lock_typed A).
Proof.
  intros h ? <- hr ? <- hp ? <- p q Hpq. revert q Hpq h.
  induction p as [a|e|a k IH]; intros q Hq h;
    [by apply equiv_Ret_inv in Hq as -> | by apply equiv_Panic_inv in Hq as -> |].
  apply equiv_Act in Hq as (k' & -> & Hk). simpl. f_equiv. intros h1. f_equiv.
  split; intros H r; by apply (IH r (k' r) (Hk r)).
Qed.

#[export] Instance defer_proper : Proper ((=) ==> (≡) ==> (≡)) (@defer A).
Proof.
  intros d ? <- p. induction p as [a|e|a k IH]; intros q Hq;
    [apply equiv_Ret_inv in Hq as ->; reflexivity
    |apply equiv_Panic_inv in Hq as ->; reflexivity|].
  apply equiv_Act in Hq as (k' & -> & Hk). eexists. split; [reflexivity|]. intros r.
  apply (IH r (k' r) (Hk r)).
Qed.

(** The laws of the monad. *)
Lemma bind_ret_r p : p ≫= mret ≡ p.
Proof. induction p as [a|e|a k IH]; [reflexivity..|]. by eexists. Qed.

Lemma bind_assoc {B C} (q : prog B) (f : B → prog C) (g : C → prog A) :
  (q ≫= f) ≫= g ≡ q ≫= (λ x, f x ≫= g).
Proof. induction q as [a|e|a k IH]; [reflexivity..|]. by eexists. Qed.

#[export] Instance prog_bind_proper {B} :
  Proper (pointwise_relation B (≡) ==> (≡) ==> (≡)) (@prog_bind B A).
Proof.
  intros f g Hfg q. induction q as [a|e|a k IH]; intros q' Hq.
  - apply equiv_Ret_inv in Hq as ->. apply Hfg.
  - apply equiv_Panic_inv in Hq as ->. reflexivity.
  - apply equiv_Act in Hq as (k' & -> & Hk). eexists. split; [reflexivity|]. intros r.
    apply (IH r (k' r) (Hk r)).
Qed.

End equivalence.

(** [GetValue] and [GetAllValues] with their calls of [Get] and [GetAll]
    written out: the test of the caller on the error follows the unlock
    of the callee. *)

Section inlined.
Implicit Types (key pattern : string).

Lemma GetValue_method_inline key :
  GetValue_method key ≡
    (trigger IRLock ;;
     '(kv, ok) ← trigger (IMapIndex key);
     trigger IRUnlock ;;
     if negb ok then mret ("", Some ErrNotExist) else mret (Value kv, None)).
Proof.
  apply equiv_Act. eexists. split; [reflexivity|]. intros [].
  apply equiv_Act. eexists. split; [reflexivity|]. intros [kv ok].
  apply equiv_Act. eexists. split; [reflexivity|]. intros []. by destruct ok.
Qed.

Lemma GetAllValues_method_inline pattern :
  GetAllValues_method pattern ≡
    (trigger IRLock ;;
     kvs ← trigger IMapRange;
     trigger IRUnlock ;;
     mret (let '(ks, err) := GetAll_from kvs pattern in
           match err with
           | Some e => (Some [], Some e)
           | None => (Some (GetAllValues_loop (default [] ks) []), None)
           end)).
Proof.
  apply equiv_Act. eexists. split; [reflexivity|]. intros [].
  apply equiv_Act. eexists. split; [reflexivity|]. intros kvs.
  apply equiv_Act. eexists. split; [reflexivity|]. intros [].
  by destruct (GetAll_from kvs pattern) as [ks [e|]].
Qed.

End inlined.

(** ** The bodies run alone *)

Section bodies.
Implicit Types (key value pattern path : string) (s : Store) (c : call).

Lemma run_Del_method key s :
  run_prog (Del_method key) unlocked s =
    Some ([ILock; IMapDelete key; IUnlock], Ok (), unlocked, Del s key).
Proof. reflexivity. Qed.

Lemma run_Set_method key value s :
  run_prog (Set_method key value) unlocked s =
    Some ([ILock; IMapAssign key value; IUnlock], Ok (), unlocked, Set' s key value).
Proof. reflexivity. Qed.

Lemma run_Get_method key s :
  run_prog (Get_method key) unlocked s =
    Some ([IRLock; IMapIndex key; IRUnlock], Ok (Get s key), unlocked, s).
Proof. unfold Get. simpl. by destruct (m s !! key). Qed.

Lemma run_GetValue_method key s :
  run_prog (GetValue_method key) unlocked s =
    Some ([IRLock; IMapIndex key; IRUnlock], Ok (GetValue s key), unlocked, s).
Proof.
  rewrite GetValue_method_inline. unfold GetValue, Get. simpl.
  by destruct (m s !! key).
Qed.

Lemma run_GetAll_method pattern s :
  run_prog (GetAll_method pattern) unlocked s =
    Some ([IRLock; IMapRange; IRUnlock], Ok (GetAll s pattern), unlocked, s).
Proof. reflexivity. Qed.

Lemma run_GetAllValues_method pattern s :
  run_prog (GetAllValues_method pattern) unlocked s =
    Some ([IRLock; IMapRange; IRUnlock], Ok (GetAllValues s pattern), unlocked, s).
Proof.
  unfold GetAllValues_method, GetAllValues. rewrite run_prog_bind, run_GetAll_method.
  simpl. by destruct (GetAll s pattern) as [ks [e|]].
Qed.

Lemma run_List_method path s :
  run_prog (List_method path) unlocked s =
    Some ([IRLock; IMapRange; IRUnlock], List s path, unlocked, s).
Proof. unfold List. simpl. by destruct (List_from (range s) path). Qed.

Lemma run_ListDir_method path s :
  run_prog (ListDir_method path) unlocked s =
    Some ([IRLock; IMapRange; IRUnlock], ListDir s path, unlocked, s).
Proof. unfold ListDir. simpl. by destruct (ListDir_from (range s) path). Qed.

(** C8: every method body, run alone on a store whose mutex is unlocked,
    performs the lock, access and unlock steps that [code] lists for it,
    returns what the function of the sequential model returns on the map,
    changes the map as [effect] says and leaves the mutex unlocked; when
    [List] or [ListDir] panics the deferred [RUnlock] has run. *)
Theorem method_run c s :
  run_prog (method c) unlocked s ≫= (λ '(tr, o, mu, s'), Some (tr, observe o, mu, s'))
  = Some (code c, ret_of c s, unlocked, effect c s).
Proof.
  destruct c; unfold method; rewrite ?run_prog_bind, ?run_prog_fmap.
  - by rewrite run_Del_method.
  - by rewrite run_Get_method.
  - by rewrite run_GetValue_method.
  - by rewrite run_GetAll_method.
  - by rewrite run_GetAllValues_method.
  - rewrite run_List_method. simpl. by destruct (List s path).
  - rewrite run_ListDir_method. simpl. by destruct (ListDir s path).
  - by rewrite run_Set_method.
Qed.

(** When [List] is called with a path that is itself a key, the body
    panics inside the loop, and the deferred [s.RUnlock()] still runs: the
    panic leaves the mutex unlocked and the map unchanged. *)
Corollary List_method_panic_unlocks path s :
  store_wf s → is_Some (m s !! path) →
  run_prog (List_method path) unlocked s =
    Some ([IRLock; IMapRange; IRUnlock], Err SliceBoundsOutOfRange, unlocked, s).
Proof. intros Hwf Hk. rewrite run_List_method. by rewrite (proj2 (List_panics s path Hwf)). Qed.

End bodies.

(** ** The locking discipline *)

(** The rules of the discipline for the ways programs are built.  A
    panic skips what follows a bind, and runs what was deferred. *)

Section typing_rules.
Context {A : Type}.
Implicit Types (h hr hp : option access) (p : prog A) (a : instr).

Lemma lock_typed_ret h hp (x : A) : lock_typed h h hp (mret x).
Proof. done. Qed.

Lemma lock_typed_lift_result h (r : result panic A) : lock_typed h h h (lift_result r).
Proof. by destruct r. Qed.

Lemma lock_typed_trigger h h1 hp a :
  lock_step h a = Some h1 → lock_typed h h1 hp (trigger a).
Proof. intros H. exists h1. by split. Qed.

Lemma lock_typed_seq h h1 hr hp a p :
  lock_step h a = Some h1 → lock_typed h1 hr hp p → lock_typed h hr hp (trigger a ;; p).
Proof. intros H Hp. exists h1. by split. Qed.

Lemma lock_typed_bind {B} h h1 hr hp (q : prog B) (f : B → prog A) :
  lock_typed h h1 hp q → (∀ x, lock_typed h1 hr hp (f x)) → lock_typed h hr hp (q ≫= f).
Proof.
  intros Hq Hf. revert h Hq. induction q as [x|e|a k IH]; intros h; simpl.
  - intros ->. apply Hf.
  - done.
  - intros (h' & ? & Hk). exists h'. split; [done|]. intros r. by apply IH.
Qed.

Lemma lock_typed_fmap {B} h hr hp (q : prog B) (g : B → A) :
  lock_typed h hr hp q → lock_typed h hr hp (g <$> q).
Proof. intros Hq. by apply (lock_typed_bind h hr hr hp q). Qed.

Lemma lock_typed_defer h h1 h2 (d : prog ()) p :
  lock_typed h h1 h1 p → lock_typed h1 h2 h2 d → lock_typed h h2 h2 (defer d p).
Proof.
  intros Hp Hd. revert h Hp. induction p as [x|e|a k IH]; intros h; cbn [defer].
  1,2: intros ->; by apply (lock_typed_bind h1 h2 h2 h2 d).
  intros (h' & ? & Hk). exists h'. split; [done|]. intros r. by apply IH.
Qed.

End typing_rules.

(** What the discipline allows, the mutex of the body grants. *)

Lemma lock_step_respond h a h1 s :
  lock_step h a = Some h1 →
  ∃ r s', respond a (mutex_in h) s = Some (r, mutex_in h1, s').
Proof. destruct a, h as [[]|]; intros; simplify_eq/=; eauto. Qed.

Section bodies_typed.
Implicit Types (key value pattern path : string) (c : call) (h hr hp : option access).

Lemma Del_method_typed key hp : lock_typed None None hp (Del_method key).
Proof. repeat (eapply lock_typed_seq; [done|]). by apply lock_typed_trigger. Qed.

Lemma Set_method_typed key value hp : lock_typed None None hp (Set_method key value).
Proof. repeat (eapply lock_typed_seq; [done|]). by apply lock_typed_trigger. Qed.

Lemma Get_method_typed key hp : lock_typed None None hp (Get_method key).
Proof.
  eapply lock_typed_seq; [done|].
  eapply lock_typed_bind; [by apply lock_typed_trigger|]. intros [kv ok].
  eapply lock_typed_seq; [done|]. by destruct ok.
Qed.

Lemma GetValue_method_typed key hp : lock_typed None None hp (GetValue_method key).
Proof. eapply lock_typed_bind; [apply Get_method_typed|]. by intros [kv [e|]]. Qed.

(** A body that is a [range] loop that may panic, under a deferred
    [RUnlock]. *)
Lemma range_method_typed {A} (f : list KVPair → result panic A) :
  lock_typed None None None
    (trigger IRLock ;; defer (trigger IRUnlock) (kvs ← trigger IMapRange; lift_result (f kvs))).
Proof.
  eapply lock_typed_seq; [done|].
  apply (lock_typed_defer _ (Some Read)); [|by apply lock_typed_trigger].
  eapply lock_typed_bind; [by apply lock_typed_trigger|]. intros kvs.
  apply lock_typed_lift_result.
Qed.

Lemma GetAll_method_typed pattern : lock_typed None None None (GetAll_method pattern).
Proof. apply (range_method_typed (λ kvs, Ok (GetAll_from kvs pattern))). Qed.

Lemma GetAllValues_method_typed pattern :
  lock_typed None None None (GetAllValues_method pattern).
Proof. eapply lock_typed_bind; [apply GetAll_method_typed|]. by intros [ks [e|]]. Qed.

Lemma List_method_typed path : lock_typed None None None (List_method path).
Proof. apply range_method_typed. Qed.

Lemma ListDir_method_typed path : lock_typed None None None (ListDir_method path).
Proof. apply range_method_typed. Qed.

(** C13: every method body follows the locking discipline: it reads the
    map only while it holds the read or the write lock, writes it only
    while it holds the write lock, releases only a lock it holds, and
    holds no lock on any path to a return or to a panic, whatever the map
    answers. *)
Theorem methods_lock_typed c : lock_typed None None None (method c).
Proof.
  destruct c; unfold method;
    first [apply lock_typed_fmap | eapply lock_typed_bind; [|done]];
    eauto using Del_method_typed, Set_method_typed, Get_method_typed,
      GetValue_method_typed, GetAll_method_typed, GetAllValues_method_typed,
      List_method_typed, ListDir_method_typed.
Qed.

(** What the discipline is for: a program that follows it never waits
    for a lock it holds itself and never releases a lock that is not held.
    Run alone from the mutex of what it holds, it runs to its end, its
    actions are those the discipline allows, and the mutex at the end is
    that of what it holds then, after a return and after a panic. *)
Lemma lock_typed_sound {A} (p : prog A) h hr hp s :
  lock_typed h hr hp p →
  ∃ tr o s', run_prog p (mutex_in h) s = Some (tr, o, mutex_in (held_at_end hr hp o), s')
    ∧ lock_trace h tr = Some (held_at_end hr hp o).
Proof.
  revert h s. induction p as [x|e|a k IH]; intros h s; simpl.
  - intros ->. by exists [], (Ok x), s.
  - intros ->. by exists [], (Err e), s.
  - intros (h1 & Hs & Hk).
    destruct (lock_step_respond h a h1 s Hs) as (r & s1 & ->). simpl.
    destruct (IH r h1 s1 (Hk r)) as (tr & o & s' & -> & Htr). simpl.
    exists (a :: tr), o, s'. simpl. by rewrite Hs.
Qed.

End bodies_typed.

(** ** The bodies on the example store *)

Section methods_examples.

Example lock_typed_sound_example :
  ∃ tr o s',
    run_prog (List_method "/app/db/host") (mutex_in None) example_store
      = Some (tr, o, mutex_in (held_at_end None None o), s')
    ∧ lock_trace None tr = Some (held_at_end None None o).
Proof. apply lock_typed_sound, List_method_typed. Qed.

(** [List] of a path that is a key panics after its three actions, with
    the mutex unlocked; [GetValue] locks and unlocks inside its call of
    [Get]. *)
Example methods_example :
  run_prog (List_method "/app/db/host") unlocked example_store
    = Some ([IRLock; IMapRange; IRUnlock], Err SliceBoundsOutOfRange, unlocked, example_store)
  ∧ run_prog (GetValue_method "/app/db/port") unlocked example_store
    = Some ([IRLock; IMapIndex "/app/db/port"; IRUnlock], Ok ("5432", None), unlocked,
            example_store).
Proof. by vm_compute. Qed.

End methods_examples.
