(* ===== verification/Termination.v ===== *)
(** * Termination: every run of the calls ends, and every call returns

    A call takes three steps.  [remaining] counts the steps the calls of a
    configuration have still to take; every step of Concurrent.v takes one
    off, under either receiver semantics.  So a schedule that runs has
    three steps per call at most ([run_length]), and, since a
    state in which some call has not finished always has a next step, every
    run can be continued to a state in which all calls have returned. *)

From S2P Require Import Prelude GoString Sorting Match Memkv Sync Concurrent.
From stdpp Require Import gmap strings relations.

(** The steps a thread has still to take, and those of a configuration. *)

Definition steps_left (t : thread) : nat := length (code (th_call t)) - th_pc t.

Definition remaining (cfg : config) : nat := sum_list_with steps_left (cfg_threads cfg).

Section measure.
Implicit Types (r : receiver) (cfg : config) (t : thread) (s : Store) (calls : list call)
  (sched : list nat).

Lemma steps_left_finished t : steps_left t = 0 ↔ finished t.
Proof.
  unfold steps_left, finished. rewrite eq_None_not_Some, next_instr_is_Some.
  destruct (code_shape (th_call t)) as (i & -> & _). simpl. lia.
Qed.

Lemma remaining_init s calls : remaining (init s calls) = 3 * length calls.
Proof.
  unfold remaining, init. cbn [cfg_threads].
  induction calls as [|c calls IH]; [done|]. rewrite fmap_cons. cbn [sum_list_with length].
  rewrite IH. unfold steps_left. simpl. destruct (code_shape c) as (i & -> & _). simpl. lia.
Qed.

Lemma remaining_0 cfg : remaining cfg = 0 ↔ Forall finished (cfg_threads cfg).
Proof.
  unfold remaining. split.
  - intros H. apply Forall_lookup. intros i t Ht.
    by apply steps_left_finished, (sum_list_with_0_inv _ _ i t H).
  - intros H. apply sum_list_with_0. eapply Forall_impl; [done|].
    intros t. by rewrite steps_left_finished.
Qed.

(** Every step takes one step off. *)
Lemma step_remaining r cfg cfg' : step r cfg cfg' → remaining cfg = S (remaining cfg').
Proof.
  intros [tid (t & i & mu' & s' & view' & Ht & Hi & _ & ->)%step_thread_Some].
  unfold remaining. simpl.
  pose proof (sum_list_with_insert steps_left _ _ _
    (advance t (match r with ByValue => mu' | ByPointer => th_mu t end) view') Ht) as Hsum.
  assert (th_pc t < 3) as Hpc by (apply next_instr_is_Some; eauto).
  unfold steps_left in Hsum at 2 4. simpl in Hsum.
  destruct (code_shape (th_call t)) as (j & Hc & _). rewrite Hc in Hsum. simpl in Hsum. lia.
Qed.

Lemma nsteps_remaining r n cfg cfg' :
  nsteps (step r) n cfg cfg' → remaining cfg = n + remaining cfg'.
Proof.
  induction 1 as [|n cfg c1 cfg' Hs _ IH]; [done|].
  rewrite (step_remaining _ _ _ Hs), IH. lia.
Qed.

Lemma run_nsteps r cfg sched cfg' :
  run r cfg sched = Some cfg' → nsteps (step r) (length sched) cfg cfg'.
Proof.
  revert cfg. induction sched as [|tid sched IH]; intros cfg H; simplify_eq/=.
  - constructor.
  - destruct (step_thread r cfg tid) as [c1|] eqn:H1; [|done].
    eapply nsteps_l; [by exists tid | by apply IH].
Qed.

(** A schedule that runs from the start of [calls] has as many steps
    as the calls have taken: three per call at most, and exactly three per
    call when all calls have finished. *)
Theorem run_length r s calls sched cfg :
  run r (init s calls) sched = Some cfg →
  length sched + remaining cfg = 3 * length calls
  ∧ (Forall finished (cfg_threads cfg) ↔ length sched = 3 * length calls).
Proof.
  intros Hn%run_nsteps%nsteps_remaining. rewrite remaining_init in Hn.
  rewrite <-remaining_0. lia.
Qed.

End measure.

(** ** Every call returns *)

Section completion.
Implicit Types (r : receiver) (cfg : config) (t : thread) (s : Store) (calls : list call).

(** A reachable state in which some call has not finished has a next
    step, under either receiver semantics. *)
Lemma reachable_progress r s calls cfg :
  rtc (step r) (init s calls) cfg → ¬ Forall finished (cfg_threads cfg) →
  ∃ cfg', step r cfg cfg'.
Proof.
  intros Hr (t & Ht & Hf)%not_Forall_Exists%Exists_exists; [|apply _].
  apply list_elem_of_lookup in Ht as [tid Ht]. destruct r.
  - apply value_inv_reachable in Hr.
    destruct (step_thread_by_value cfg tid t Hr Ht Hf) as (s' & view' & Hs).
    eexists. by exists tid.
  - apply lock_inv_reachable in Hr. by eapply lock_inv_progress.
Qed.

(** C23: every run of the calls can be continued until all calls have
    returned, under either receiver semantics: no reachable state is a
    deadlock, and the calls cannot go on for ever. *)
Theorem every_call_returns r s calls cfg :
  rtc (step r) (init s calls) cfg →
  ∃ cfg', rtc (step r) cfg cfg' ∧ Forall finished (cfg_threads cfg').
Proof.
  induction (Nat.lt_wf_0_projected remaining cfg) as [cfg _ IH]. intros Hr.
  destruct (decide (Forall finished (cfg_threads cfg))) as [Hf|Hf]; [by exists cfg|].
  destruct (reachable_progress r s calls cfg Hr Hf) as [c1 Hs].
  destruct (IH c1) as (cfg' & Hr' & Hf');
    [rewrite (step_remaining _ _ _ Hs); lia | by eapply rtc_r |].
  exists cfg'. split; [by eapply rtc_l|done].
Qed.

End completion.

(** ** Two calls *)

Section termination_examples.

Lemma run_length_witness :
  ∃ cfg, run ByPointer (init New [CSet "/k" "v"; CGet "/k"]) [0; 0; 0; 1] = Some cfg
    ∧ length [0; 0; 0; 1] + remaining cfg = 3 * length [CSet "/k" "v"; CGet "/k"]
    ∧ (Forall finished (cfg_threads cfg)
       ↔ length [0; 0; 0; 1] = 3 * length [CSet "/k" "v"; CGet "/k"]).
Proof.
  eexists. split; [vm_compute; reflexivity|].
  apply (run_length ByPointer New [CSet "/k" "v"; CGet "/k"] [0; 0; 0; 1]).
  vm_compute. reflexivity.
Defined.

Lemma every_call_returns_witness :
  ∃ cfg', rtc (step declared) (init example_store [CDel "/app/db/host"; CList "/app"]) cfg'
    ∧ Forall finished (cfg_threads cfg').
Proof.
  apply (every_call_returns declared example_store [CDel "/app/db/host"; CList "/app"]).
  apply rtc_refl.
Defined.

End termination_examples.
