(* ===== verification/Readers.v ===== *)
(** * Readers: readers share the mutex, and a waiting writer is preferred

    Two properties of [sync.RWMutex] beyond mutual exclusion, for the
    methods run with one shared mutex.

    Readers share: any number of calls that only read the map can be at
    their access at the same time ([readers_share]).

    Writers are preferred: a call of [Lock] that has to wait for active
    readers announces itself, and from then on [RLock] makes new readers
    wait until that writer has called [Unlock]; a second writer is
    announced only after the first has unlocked.  [wp_config] adds the
    announcement to the configurations of Concurrent.v and [wp_step]
    restricts the steps accordingly.  The preference only removes
    interleavings ([wp_steps_steps]), so what holds of every run of
    Concurrent.v holds of the runs with the preference.  The theorems
    show that the calls still cannot deadlock, because no method takes
    the read lock while it holds it ([wp_progress]); and that an
    announced writer waits for two steps of every active reader at most
    ([announced_writer_waits]). *)

From S2P Require Import Prelude GoString Sorting Match Memkv Sync Concurrent.
From stdpp Require Import gmap strings relations.

(** ** Configurations with an announced writer *)

Record wp_config : Type := mkWpConfig {
  wp_cfg : config;
  wp_pending : option nat;
}.

Definition wp_init (s : Store) (calls : list call) : wp_config :=
  {| wp_cfg := init s calls; wp_pending := None |}.

(** The first half of [Lock]: thread [tid], whose next step is [Lock],
    announces itself when no writer is announced. *)

Definition announce (w : wp_config) (tid : nat) : option wp_config :=
  t ← cfg_threads (wp_cfg w) !! tid;
  i ← next_instr t;
  if decide (i = ILock ∧ wp_pending w = None)
  then Some {| wp_cfg := wp_cfg w; wp_pending := Some tid |}
  else None.

(** Whether the preference lets thread [tid] try its step [i]: [Lock] is
    completed by the announced writer only, and [RLock] waits while a
    writer is announced. *)

Definition admitted (w : wp_config) (tid : nat) (i : instr) : bool :=
  match i with
  | ILock => bool_decide (wp_pending w = Some tid)
  | IRLock => bool_decide (wp_pending w = None)
  | _ => true
  end.

(** A step of thread [tid] on the shared mutex; [Unlock] ends the
    announcement. *)

Definition wp_thread (w : wp_config) (tid : nat) : option wp_config :=
  t ← cfg_threads (wp_cfg w) !! tid;
  i ← next_instr t;
  if admitted w tid i then
    cfg' ← step_thread ByPointer (wp_cfg w) tid;
    Some {| wp_cfg := cfg';
            wp_pending := if decide (i = IUnlock) then None else wp_pending w |}
  else None.

Definition wp_step_by (tid : nat) (w w' : wp_config) : Prop :=
  announce w tid = Some w' ∨ wp_thread w tid = Some w'.

Definition wp_step (w w' : wp_config) : Prop := ∃ tid, wp_step_by tid w w'.

(** A step of a thread other than [p]. *)

Definition wp_step_other (p : nat) (w w' : wp_config) : Prop :=
  ∃ tid, tid ≠ p ∧ wp_step_by tid w w'.

(** ** The invariant *)

(** The one mutex is as the positions of the threads say, and the only
    thread that can hold it for writing is the announced one. *)

Definition wp_inv (w : wp_config) : Prop :=
  lock_inv (wp_cfg w)
  ∧ match wp_pending w with
    | Some p => ∃ t, cfg_threads (wp_cfg w) !! p = Some t
        ∧ kind (th_call t) = Write ∧ th_pc t ≤ 2
        ∧ sum_list_with (holds Write) (cfg_threads (wp_cfg w)) = holds Write t
    | None => sum_list_with (holds Write) (cfg_threads (wp_cfg w)) = 0
    end.

(** The steps the active readers have still to take before they have all
    released the lock. *)

Definition readers_left (cfg : config) : nat :=
  sum_list_with (λ t, holds Read t * (3 - th_pc t)) (cfg_threads cfg).

(** ** Schedules with announcements *)

Inductive wp_move : Set :=
| Announce (tid : nat)
| Take (tid : nat).

Definition wp_move_step (w : wp_config) (mv : wp_move) : option wp_config :=
  match mv with
  | Announce tid => announce w tid
  | Take tid => wp_thread w tid
  end.

Fixpoint wp_run (w : wp_config) (moves : list wp_move) : option wp_config :=
  match moves with
  | [] => Some w
  | mv :: moves => w' ← wp_move_step w mv; wp_run w' moves
  end.

(** ** Readers at their access *)

(** The first [k] threads are readers at their access to the map, the
    others have not started, and nobody writes. *)

Definition reading (k : nat) (cfg : config) : Prop :=
  lock_inv cfg
  ∧ sum_list_with (holds Write) (cfg_threads cfg) = 0
  ∧ ∀ i t, cfg_threads cfg !! i = Some t →
      kind (th_call t) = Read ∧ th_pc t = if decide (i < k) then 1 else 0.

(** ** Readers share the lock *)

Section shared_reads.
Implicit Types (cfg : config) (t : thread) (tid k : nat) (s : Store) (calls : list call).

Lemma holds_init s calls a : sum_list_with (holds a) (cfg_threads (init s calls)) = 0.
Proof.
  apply sum_list_with_0, Forall_fmap, Forall_true. intros c.
  unfold holds; simpl. by rewrite andb_false_r.
Qed.

Lemma reading_init s calls :
  Forall (λ c, kind c = Read) calls → reading 0 (init s calls).
Proof.
  intros Hall. split_and!; [apply lock_inv_init | apply holds_init |].
  intros i t [c [-> Hc]]%list_lookup_fmap_Some. simpl.
  split; [|done]. by apply (proj1 (Forall_lookup _ _) Hall i).
Qed.

(** The next reader takes the read lock without waiting. *)
Lemma reading_step k cfg :
  reading k cfg → k < length (cfg_threads cfg) →
  ∃ cfg', step ByPointer cfg cfg' ∧ reading (S k) cfg'
    ∧ length (cfg_threads cfg') = length (cfg_threads cfg).
Proof.
  intros (Hl & Hw & Hth) [t Ht]%lookup_lt_is_Some.
  destruct (Hth k t Ht) as [Hk Hpc]. rewrite decide_False in Hpc by lia.
  assert (next_instr t = Some IRLock) as Hi.
  { unfold next_instr. rewrite Hpc. destruct (code_shape (th_call t)) as (j & -> & _).
    by rewrite Hk. }
  destruct Hl as (Hmu & Hl).
  destruct (step_thread ByPointer cfg k) as [cfg'|] eqn:Hs.
  2:{ exfalso. apply eq_None_not_Some in Hs. apply Hs.
      eapply step_thread_is_Some; [done..|]. simpl. rewrite Hmu, Hw. by eexists. }
  exists cfg'. assert (step ByPointer cfg cfg') as Hstep by (by exists k).
  pose proof (lock_inv_step _ _ (conj Hmu Hl) Hstep) as Hl'.
  apply step_thread_Some in Hs as (t1 & i & mu' & s' & view' & Ht1 & Hi1 & _ & ->).
  simplify_eq. pose proof (step_counts _ _ _ _ (th_mu t) view' Ht Hi) as [_ Hnw].
  simpl in *. split_and!; [done | | by rewrite length_insert].
  split_and!; [done | simpl; lia |]. simpl.
  intros i t' Hi'. destruct (decide (i = k)) as [->|Hne].
  - rewrite list_lookup_insert_eq in Hi' by by eapply lookup_lt_Some.
    simplify_eq. simpl. rewrite decide_True by lia. split; [done|lia].
  - rewrite list_lookup_insert_ne in Hi' by done. destruct (Hth i t' Hi') as [? ->].
    split; [done|]. repeat case_decide; lia.
Qed.

Lemma reading_steps k cfg :
  reading 0 cfg → k ≤ length (cfg_threads cfg) →
  ∃ cfg', rtc (step ByPointer) cfg cfg' ∧ reading k cfg'
    ∧ length (cfg_threads cfg') = length (cfg_threads cfg).
Proof.
  intros H0. induction k as [|k IH]; intros Hk; [by exists cfg|].
  destruct IH as (c1 & Hr & Hk1 & Hlen); [lia|].
  destruct (reading_step k c1 Hk1) as (cfg' & Hs & Hk' & Hlen'); [lia|].
  exists cfg'. split_and!; [by eapply rtc_r | done | congruence].
Qed.

(** C24: with one shared mutex, any number of calls that only read the map
    can be at their access to the map at the same time: the read lock
    excludes writers only. *)
Theorem readers_share s calls :
  Forall (λ c, kind c = Read) calls →
  ∃ cfg, rtc (step ByPointer) (init s calls) cfg
    ∧ Forall (λ t, next_access t = Some Read) (cfg_threads cfg).
Proof.
  intros H0%(reading_init s).
  destruct (reading_steps (length calls) _ H0) as (cfg & Hr & (_ & _ & Hth) & Hlen).
  { simpl. by rewrite length_fmap. }
  exists cfg. split; [done|]. apply Forall_lookup. intros i t Ht.
  destruct (Hth i t Ht) as [Hk Hpc]. apply next_access_Some.
  rewrite decide_True in Hpc; [done|].
  apply lookup_lt_Some in Ht. rewrite Hlen in Ht. simpl in Ht. by rewrite length_fmap in Ht.
Qed.

End shared_reads.

(** ** The announced writer *)

Section preference.
Implicit Types (w : wp_config) (cfg : config) (t : thread) (tid p : nat) (i : instr)
  (s : Store) (calls : list call).

Lemma announce_Some w tid w' :
  announce w tid = Some w' ↔
  ∃ t, cfg_threads (wp_cfg w) !! tid = Some t ∧ next_instr t = Some ILock
    ∧ wp_pending w = None ∧ w' = {| wp_cfg := wp_cfg w; wp_pending := Some tid |}.
Proof.
  unfold announce. split.
  - intros H. destruct (cfg_threads _ !! tid) as [t|] eqn:Ht; [simpl in H|done].
    destruct (next_instr t) as [i|] eqn:Hi; [simpl in H|done].
    case_decide as Hd; [|done]. destruct Hd as [-> ?]. injection H as <-. by exists t.
  - intros (t & Ht & Hi & Hp & ->). rewrite Ht. simpl. rewrite Hi. simpl.
    by rewrite decide_True.
Qed.

Lemma wp_thread_Some w tid w' :
  wp_thread w tid = Some w' ↔
  ∃ t i cfg', cfg_threads (wp_cfg w) !! tid = Some t ∧ next_instr t = Some i
    ∧ admitted w tid i = true ∧ step_thread ByPointer (wp_cfg w) tid = Some cfg'
    ∧ w' = {| wp_cfg := cfg';
              wp_pending := if decide (i = IUnlock) then None else wp_pending w |}.
Proof.
  unfold wp_thread. split.
  - intros H. destruct (cfg_threads _ !! tid) as [t|] eqn:Ht; [simpl in H|done].
    destruct (next_instr t) as [i|] eqn:Hi; [simpl in H|done].
    destruct (admitted w tid i) eqn:Ha; [|done].
    destruct (step_thread _ _ _) as [cfg'|] eqn:Hs; [|done]. injection H as <-.
    by exists t, i, cfg'.
  - intros (t & i & cfg' & Ht & Hi & Ha & Hs & ->). rewrite Ht. simpl. rewrite Hi. simpl.
    by rewrite Ha, Hs.
Qed.

(** ** The preference removes interleavings and adds none *)

Lemma wp_step_step w w' :
  wp_step w w' → wp_cfg w' = wp_cfg w ∨ step ByPointer (wp_cfg w) (wp_cfg w').
Proof.
  intros [tid [(t & _ & _ & _ & ->)%announce_Some
              |(t & i & cfg' & _ & _ & _ & Hs & ->)%wp_thread_Some]]; [by left|].
  right. by exists tid.
Qed.

Lemma wp_steps_steps w w' :
  rtc wp_step w w' → rtc (step ByPointer) (wp_cfg w) (wp_cfg w').
Proof.
  induction 1 as [|w w1 w' Hs _ IH]; [done|].
  destruct (wp_step_step _ _ Hs) as [<-|Hs']; [done | by eapply rtc_l].
Qed.

(** ** The invariant holds in every reachable configuration *)

Lemma wp_inv_init s calls : wp_inv (wp_init s calls).
Proof. split; [apply lock_inv_init | apply holds_init]. Qed.

(** A thread whose next step is [Lock] is a writer that holds nothing. *)
Lemma next_instr_ILock t :
  next_instr t = Some ILock → kind (th_call t) = Write ∧ th_pc t = 0 ∧ holds Write t = 0.
Proof.
  intros [[Hpc Hi]|[[_ Hi]|[_ Hi]]]%next_instr_cases; [|done|by destruct (kind _)].
  rewrite holds_at, Hpc. by destruct (kind _); case_bool_decide.
Qed.

Lemma wp_inv_announce w tid w' : wp_inv w → announce w tid = Some w' → wp_inv w'.
Proof.
  intros [Hl Hp] (t & Ht & (Hk & Hpc & Hh)%next_instr_ILock & Hn & ->)%announce_Some.
  rewrite Hn in Hp. split; [done|]. simpl. exists t. rewrite Hp, Hh. split_and!; [done..|lia|done].
Qed.

(** While a writer is announced, no other thread holds the lock for
    writing. *)
Lemma other_holds_Write w p tid t :
  wp_inv w → wp_pending w = Some p → tid ≠ p →
  cfg_threads (wp_cfg w) !! tid = Some t → holds Write t = 0.
Proof.
  intros [_ Hp] Hpen Hne Ht. rewrite Hpen in Hp. destruct Hp as (tp & Htp & _ & _ & Hnw).
  pose proof (sum_list_with_lookup2 (holds Write) _ _ _ _ _ Hne Ht Htp). lia.
Qed.

(** What a thread holds for writing before and after a step that the
    preference admits: a thread that is not announced holds nothing after
    its step, and only [Unlock] takes the announced thread past its
    critical section. *)
Lemma admitted_holds_Write w tid t i mu view :
  next_instr t = Some i → admitted w tid i = true →
  let t' := advance t mu view in
  (wp_pending w ≠ Some tid → holds Write t = 0 → holds Write t' = 0 ∧ i ≠ IUnlock)
  ∧ (kind (th_call t) = Write → if decide (i = IUnlock) then holds Write t' = 0
                                   else th_pc t' ≤ 2).
Proof.
  intros Hi Ha. simpl. rewrite !holds_at. simpl.
  apply next_instr_cases in Hi as [[Hpc ->]|[[Hpc Hi]|[Hpc ->]]]; rewrite Hpc;
    destruct (kind (th_call t)) eqn:Hk; simpl in *;
    repeat case_bool_decide; repeat case_decide; try done; try lia; try naive_solver.
  all: destruct i; naive_solver.
Qed.

Lemma wp_inv_thread w tid w' : wp_inv w → wp_thread w tid = Some w' → wp_inv w'.
Proof.
  intros Hinv (t & i & cfg' & Ht & Hi & Ha & Hs & ->)%wp_thread_Some.
  pose proof Hinv as [Hl Hp].
  split; [apply (lock_inv_step _ _ Hl); by exists tid|]. simpl.
  apply step_thread_Some in Hs as (t1 & i1 & mu' & s' & view' & Ht1 & Hi1 & _ & ->).
  simplify_eq. simpl. set (t' := advance t (th_mu t) view').
  pose proof (sum_list_with_insert (holds Write) _ _ _ t' Ht) as Hsum.
  destruct (admitted_holds_Write w tid t i (th_mu t) view' Hi Ha) as [Hother Hself].
  fold t' in Hother, Hself.
  destruct (wp_pending w) as [p|] eqn:Hpen.
  - destruct Hp as (tp & Htp & Hk & Hpc & Hnw). destruct (decide (tid = p)) as [->|Hne].
    + simplify_eq. specialize (Hself Hk). case_decide.
      * lia.
      * exists t'. rewrite list_lookup_insert_eq by by eapply lookup_lt_Some.
        split_and!; [done..|lia].
    + pose proof (other_holds_Write w p tid t Hinv Hpen Hne Ht) as Hh.
      destruct (Hother ltac:(congruence) Hh) as [Ht' Hi'].
      rewrite decide_False by done. exists tp.
      rewrite list_lookup_insert_ne by done. split_and!; [done..|lia].
  - pose proof (sum_list_with_lookup (holds Write) _ _ _ Ht) as Hh.
    destruct Hother as [Ht' Hi']; [done | lia|]. rewrite decide_False by done. lia.
Qed.

Lemma wp_inv_step w w' : wp_inv w → wp_step w w' → wp_inv w'.
Proof. intros Hinv [tid [?|?]]; eauto using wp_inv_announce, wp_inv_thread. Qed.

Lemma wp_inv_reachable s calls w : rtc wp_step (wp_init s calls) w → wp_inv w.
Proof.
  revert w. apply rtc_ind_r; [apply wp_inv_init | eauto using wp_inv_step].
Qed.

(** ** No deadlock *)

Lemma wp_thread_steps w tid t i :
  cfg_threads (wp_cfg w) !! tid = Some t → next_instr t = Some i →
  admitted w tid i = true → is_Some (step_thread ByPointer (wp_cfg w) tid) →
  ∃ w', wp_step w w'.
Proof.
  intros Ht Hi Ha [cfg' Hs]. eexists. exists tid. right.
  apply wp_thread_Some. by exists t, i, cfg'.
Qed.

(** A thread that holds the lock is past [Lock] and [RLock], which are
    the only steps the preference holds back. *)
Lemma holder_admitted w tid t a i :
  0 < holds a t → next_instr t = Some i → admitted w tid i = true.
Proof.
  rewrite holds_at. intros Hh Hi. case_bool_decide; [|lia].
  apply next_instr_cases in Hi as [[Hpc _]|[[_ Hi]|[_ ->]]].
  - rewrite Hpc in Hh. lia.
  - by destruct i.
  - by destruct (kind _).
Qed.

Lemma wp_holder_steps w tid t a :
  wp_inv w → cfg_threads (wp_cfg w) !! tid = Some t → 0 < holds a t → ∃ w', wp_step w w'.
Proof.
  intros [Hl _] Ht Hh.
  pose proof (holder_steps _ _ _ _ Hl Ht Hh) as Hs.
  pose proof Hs as [cfg' (t1 & i & _ & _ & _ & Ht1 & Hi & _)%step_thread_Some].
  simplify_eq. eapply wp_thread_steps; [done.. | by eapply holder_admitted | done].
Qed.

(** A thread that has not finished and holds nothing is at its first
    step. *)
Lemma idle_first_step t :
  ¬ finished t → holds Write t = 0 → holds Read t = 0 →
  next_instr t = Some (match kind (th_call t) with Write => ILock | Read => IRLock end).
Proof.
  intros Hf Hw Hr. destruct (next_instr t) as [i|] eqn:Hi; [|done].
  rewrite !holds_at in Hw, Hr.
  apply next_instr_cases in Hi as [[_ ->]|[[Hpc _]|[Hpc _]]]; [done|..];
    rewrite Hpc in Hw, Hr; destruct (kind _); by repeat case_bool_decide.
Qed.

Lemma wp_inv_progress w tid t :
  wp_inv w → cfg_threads (wp_cfg w) !! tid = Some t → ¬ finished t →
  ∃ w', wp_step w w'.
Proof.
  intros Hinv Ht Hf. pose proof Hinv as [Hl Hp].
  destruct (decide (0 < sum_list_with (holds Write) (cfg_threads (wp_cfg w)))) as [Hw|Hw].
  { apply sum_list_with_pos in Hw as (j & x & Hj & Hx). by eapply wp_holder_steps. }
  destruct (decide (0 < sum_list_with (holds Read) (cfg_threads (wp_cfg w)))) as [Hr|Hr].
  { apply sum_list_with_pos in Hr as (j & x & Hj & Hx). by eapply wp_holder_steps. }
  assert (∀ j x, cfg_threads (wp_cfg w) !! j = Some x → ¬ finished x →
    is_Some (step_thread ByPointer (wp_cfg w) j)
    ∧ next_instr x = Some (match kind (th_call x) with Write => ILock | Read => IRLock end))
    as Hidle.
  { intros j x Hj Hx. split; [eapply free_steps; [done..|lia|lia]|].
    apply idle_first_step; [done|..]; eapply sum_list_with_0_inv; [|done| |done]; lia. }
  destruct (wp_pending w) as [p|] eqn:Hpen.
  - destruct Hp as (tp & Htp & Hk & Hpc & _).
    destruct (Hidle p tp Htp) as [Hs Hi].
    { intros Hfin%eq_None_not_Some. apply Hfin, next_instr_is_Some. lia. }
    rewrite Hk in Hi. eapply wp_thread_steps; [done..| |done]. simpl.
    by rewrite Hpen, bool_decide_eq_true_2.
  - destruct (Hidle tid t Ht Hf) as [Hs Hi]. destruct (kind (th_call t)).
    + eapply wp_thread_steps; [done..| |done]. simpl. by rewrite Hpen, bool_decide_eq_true_2.
    + eexists. exists tid. left. apply announce_Some. by exists t.
Qed.

(** ** An announced writer waits for the active readers only *)

Lemma readers_left_le cfg :
  lock_inv cfg → readers_left cfg ≤ 2 * readers (cfg_mu cfg).
Proof.
  intros (-> & _). simpl. unfold readers_left.
  induction (cfg_threads cfg) as [|t ts IH]; simpl; [lia|].
  enough (holds Read t * (3 - th_pc t) ≤ 2 * holds Read t) by lia.
  rewrite holds_at. case_bool_decide; [|lia]. destruct (th_pc t) as [|[|[|n]]]; simpl; lia.
Qed.

(** While [p] is announced, a step of another thread is a step of an
    active reader, and leaves the announcement as it is. *)
Lemma wp_step_other_reader w p w' :
  wp_inv w → wp_pending w = Some p → wp_step_other p w w' →
  readers_left (wp_cfg w) = S (readers_left (wp_cfg w')) ∧ wp_pending w' = Some p.
Proof.
  intros Hinv Hpen (tid & Hne & [(t & _ & _ & Hn & _)%announce_Some|Hs]); [congruence|].
  apply wp_thread_Some in Hs as (t & i & cfg' & Ht & Hi & Ha & Hs & ->).
  pose proof (other_holds_Write w p tid t Hinv Hpen Hne Ht) as Hh.
  apply step_thread_Some in Hs as (t1 & i1 & mu' & s' & view' & Ht1 & Hi1 & _ & ->).
  simplify_eq. unfold readers_left. simpl.
  pose proof (sum_list_with_insert (λ t, holds Read t * (3 - th_pc t)) _ _ _
    (advance t (th_mu t) view') Ht) as Hsum. simpl in Hsum.
  rewrite !holds_at in Hsum, Hh. simpl in Hsum.
  apply next_instr_cases in Hi as [[Hpc ->]|[[Hpc Hi]|[Hpc ->]]]; rewrite Hpc in *;
    destruct (kind (th_call t)) eqn:Hk; simpl in *; rewrite ?Hpen in *;
    rewrite ?holds_at in Hsum; simpl in Hsum; rewrite ?Hk, ?Hpc in Hsum; simpl in Hsum;
    repeat case_bool_decide; simplify_eq; try lia.
  all: split; [lia|]. all: by rewrite ?decide_False by (by destruct i).
Qed.

Lemma wp_steps_other_reader w p n w' :
  wp_inv w → wp_pending w = Some p → nsteps (wp_step_other p) n w w' →
  readers_left (wp_cfg w) = n + readers_left (wp_cfg w')
  ∧ wp_pending w' = Some p ∧ wp_inv w'.
Proof.
  intros Hinv Hpen Hn. induction Hn as [|n w w1 w' Hs _ IH]; [done|].
  destruct (wp_step_other_reader _ _ _ Hinv Hpen Hs) as [Hr Hp1].
  destruct IH as (? & ? & ?); [|done|split_and!; [lia|done..]].
  destruct Hs as (tid & _ & Hs). eapply wp_inv_step; [done | by exists tid].
Qed.

(** The announced writer can take its step as soon as no reader is
    active. *)
Lemma announced_steps w p :
  wp_inv w → wp_pending w = Some p → readers (cfg_mu (wp_cfg w)) = 0 →
  is_Some (wp_thread w p).
Proof.
  intros Hinv Hpen Hr. pose proof Hinv as [Hl Hp]. rewrite Hpen in Hp.
  destruct Hp as (tp & Htp & Hk & Hpc & Hnw).
  assert (sum_list_with (holds Read) (cfg_threads (wp_cfg w)) = 0) as Hnr.
  { destruct Hl as (Hmu & _). by rewrite Hmu in Hr. }
  assert (is_Some (next_instr tp)) as [i Hi] by (apply next_instr_is_Some; lia).
  assert (is_Some (step_thread ByPointer (wp_cfg w) p) ∧ admitted w p i = true)
    as [[cfg' Hs] Ha].
  { destruct (decide (0 < holds Write tp)) as [Hh|Hh].
    - split; [by eapply holder_steps | by eapply holder_admitted].
    - split.
      + eapply free_steps; [done.. | | lia | done]. intros Hf. unfold finished in Hf. congruence.
      + rewrite (idle_first_step tp) in Hi.
        * rewrite Hk in Hi. simplify_eq. simpl. by rewrite Hpen, bool_decide_eq_true_2.
        * intros Hf. unfold finished in Hf. congruence.
        * lia.
        * eapply sum_list_with_0_inv; done. }
  eexists. apply wp_thread_Some. by exists tp, i, cfg'.
Qed.

(** ** The results *)

Lemma wp_run_steps w moves w' : wp_run w moves = Some w' → rtc wp_step w w'.
Proof.
  revert w. induction moves as [|mv moves IH]; intros w H; simplify_eq/=; [done|].
  destruct (wp_move_step w mv) as [w1|] eqn:H1; [|done].
  eapply rtc_l; [|by apply IH]. destruct mv as [tid|tid]; exists tid; [by left|by right].
Qed.

(** C25: with the preference for waiting writers the calls still cannot
    deadlock: a reachable state in which some call has not finished has a
    next step.  A reader that took the read lock again while a writer is
    announced would wait for ever; no method does. *)
Theorem wp_progress s calls w tid t :
  rtc wp_step (wp_init s calls) w →
  cfg_threads (wp_cfg w) !! tid = Some t → ¬ finished t →
  ∃ w', wp_step w w'.
Proof. intros Hinv%wp_inv_reachable. by apply wp_inv_progress. Qed.

(** C26: an announced writer waits for the active readers only: while it
    is announced the other threads take two steps per active reader at
    most, the announcement stands, and as soon as no reader is active the
    writer can take its step. *)
Theorem announced_writer_waits s calls w p n w' :
  rtc wp_step (wp_init s calls) w → wp_pending w = Some p →
  nsteps (wp_step_other p) n w w' →
  n ≤ 2 * readers (cfg_mu (wp_cfg w))
  ∧ wp_pending w' = Some p
  ∧ (readers (cfg_mu (wp_cfg w')) = 0 → is_Some (wp_thread w' p)).
Proof.
  intros Hinv%wp_inv_reachable Hpen Hn. pose proof Hinv as [Hl _].
  destruct (wp_steps_other_reader _ _ _ _ Hinv Hpen Hn) as (Hleft & Hpen' & Hinv').
  pose proof (readers_left_le _ Hl). split_and!; [lia | done |].
  by apply announced_steps.
Qed.

End preference.

(** ** Two readers and a writer *)

Section readers_examples.

Lemma readers_share_witness :
  ∃ cfg, rtc (step ByPointer)
           (init example_store [CGet "/app/db/host"; CList "/app"; CGetAll "/app/*/*"]) cfg
    ∧ Forall (λ t, next_access t = Some Read) (cfg_threads cfg).
Proof. apply readers_share. by repeat constructor. Defined.

Lemma wp_progress_witness :
  ∃ w', wp_step (wp_init New [CSet "/k" "v"; CGet "/k"]) w'.
Proof.
  apply (wp_progress New [CSet "/k" "v"; CGet "/k"] _ 0 (enter unlocked (CSet "/k" "v")));
    [apply rtc_refl | reflexivity | by vm_compute].
Defined.

(** A reader holds the lock and the writer is announced: the other reader
    waits, the first reader takes its two steps, and the writer locks. *)
Lemma announced_writer_waits_witness :
  ∃ w w',
    wp_run (wp_init New [CGet "/k"; CSet "/k" "v"; CGet "/j"]) [Take 0; Announce 1] = Some w
    ∧ wp_thread w 2 = None
    ∧ wp_run w [Take 0; Take 0] = Some w'
    ∧ 2 ≤ 2 * readers (cfg_mu (wp_cfg w))
    ∧ wp_pending w' = Some 1
    ∧ (readers (cfg_mu (wp_cfg w')) = 0 → is_Some (wp_thread w' 1)).
Proof.
  eexists _, _. split; [vm_compute; reflexivity|].
  split; [vm_compute; reflexivity|]. split; [vm_compute; reflexivity|].
  apply (announced_writer_waits New [CGet "/k"; CSet "/k" "v"; CGet "/j"] _ 1 2).
  - apply (wp_run_steps _ [Take 0; Announce 1]). vm_compute. reflexivity.
  - reflexivity.
  - eapply nsteps_l; [exists 0; split; [done|right; vm_compute; reflexivity]|].
    eapply nsteps_l; [exists 0; split; [done|right; vm_compute; reflexivity]|].
    apply nsteps_O.
Defined.

End readers_examples.

