(* ===== verification/Abstract.v ===== *)
(** * Abstract: what the store promises, and that the code delivers it

    The specification of the store is a finite map from keys to values:
    [Set] inserts, [Del] deletes, and every query is a function of that map
    ([spec_ret]).  The store of the source keeps more, a [KVPair] under each
    key; [abs] forgets the redundant key.

    [KVStore] is the interface between the store and its clients: the
    operations, an invariant, an abstraction to the finite map, and the laws
    that every operation commutes with the abstraction.  [exec] is a client,
    a sequential program of calls; its theorems are proved against the
    interface.  The instance [Memkv_KVStore] discharges the laws for the
    functions of [Memkv]. *)

From S2P Require Import Prelude GoString Sorting Match Memkv Sync Concurrent.
From stdpp Require Import gmap strings.

(** ** The specification *)

Definition pair_of (e : string * string) : KVPair := mkKVPair e.1 e.2.

Definition pairs (a : gmap string string) : list KVPair := pair_of <$> map_to_list a.

Definition abs (s : Store) : gmap string string := Value <$> m s.

Definition spec_Get (a : gmap string string) (key : string) : KVPair * option error :=
  match a !! key with
  | Some v => (mkKVPair key v, None)
  | None => (mkKVPair "" "", Some ErrNotExist)
  end.

Definition spec_GetValue (a : gmap string string) (key : string) : string * option error :=
  match a !! key with
  | Some v => (v, None)
  | None => ("", Some ErrNotExist)
  end.

Definition spec_GetAll (a : gmap string string) (pattern : string)
  : option KVPairs * option error :=
  if decide (Exists (rejects pattern) (pairs a)) then (None, Some (ErrFilepath ErrBadPattern))
  else
    match filter (matches pattern) (pairs a) with
    | [] => (None, Some ErrNoMatch)
    | ks => (Some (sort_Sort ks), None)
    end.

Definition spec_GetAllValues (a : gmap string string) (pattern : string)
  : option (list string) * option error :=
  match spec_GetAll a pattern with
  | (_, Some e) => (Some [], Some e)
  | (ks, None) => (Some (Value <$> default [] ks), None)
  end.

Definition spec_effect (c : call) (a : gmap string string) : gmap string string :=
  match c with
  | CDel key => delete key a
  | CSet key value => <[key := value]> a
  | _ => a
  end.

Definition spec_ret (c : call) (a : gmap string string) : retval :=
  match c with
  | CDel _ | CSet _ _ => RUnit
  | CGet key => RGet (spec_Get a key)
  | CGetValue key => RGetValue (spec_GetValue a key)
  | CGetAll pattern => RGetAll (spec_GetAll a pattern)
  | CGetAllValues pattern => RGetAllValues (spec_GetAllValues a pattern)
  | CList path => RList (listing (List_entry path) (pairs a))
  | CListDir path => RList (listing (ListDir_entry path) (pairs a))
  end.

(** ** The interface *)

Class KVStore (St : Type) := {
  kv_inv : St → Prop;
  kv_abs : St → gmap string string;
  kv_new : St;
  kv_effect : call → St → St;
  kv_ret : call → St → retval;
  kv_new_inv : kv_inv kv_new;
  kv_new_abs : kv_abs kv_new = ∅;
  kv_effect_inv c s : kv_inv s → kv_inv (kv_effect c s);
  kv_effect_abs c s : kv_inv s → kv_abs (kv_effect c s) = spec_effect c (kv_abs s);
  kv_ret_abs c s : kv_inv s → kv_ret c s = spec_ret c (kv_abs s);
}.

(** A client: calls made one after the other, with what each returns. *)

Fixpoint exec {St} `{!KVStore St} (s : St) (calls : list call) : St * list retval :=
  match calls with
  | [] => (s, [])
  | c :: calls =>
      let '(s', rs) := exec (kv_effect c s) calls in
      (s', kv_ret c s :: rs)
  end.

(** The specification is an implementation of its own interface. *)

#[export, refine] Instance spec_KVStore : KVStore (gmap string string) := {|
  kv_inv a := True;
  kv_abs a := a;
  kv_new := ∅;
  kv_effect := spec_effect;
  kv_ret := spec_ret;
|}.
Proof. all: done. Defined.

(** ** Clients, against the interface *)

Section client.
Context {S1 S2 : Type} `{!KVStore S1, !KVStore S2}.
Implicit Types (calls : list call).

(** Two implementations that start from states with the same abstraction
    return the same values to every sequential client and end in states
    with the same abstraction. *)
Lemma exec_abs (s1 : S1) (s2 : S2) calls :
  kv_inv s1 → kv_inv s2 → kv_abs s1 = kv_abs s2 →
  (exec s1 calls).2 = (exec s2 calls).2
  ∧ kv_abs (exec s1 calls).1 = kv_abs (exec s2 calls).1
  ∧ kv_inv (exec s1 calls).1.
Proof.
  revert s1 s2. induction calls as [|c calls IH]; intros s1 s2 H1 H2 Habs; simpl; [done|].
  destruct (IH (kv_effect c s1) (kv_effect c s2)) as (Hr & Ha & Hi);
    [by apply kv_effect_inv.. | by rewrite !kv_effect_abs, Habs |].
  destruct (exec (kv_effect c s1) calls), (exec (kv_effect c s2) calls); simpl in *.
  by rewrite !kv_ret_abs, Habs, Hr.
Qed.

End client.

(** ** The store of the source implements the interface *)

Section refinement.
Implicit Types (s : Store) (a : gmap string string) (c : call) (key pattern path : string).

Lemma abs_lookup s key : abs s !! key = Value <$> m s !! key.
Proof. apply lookup_fmap. Qed.

(** Under the invariant, the pairs of the abstraction are the entries of
    the map, in some order. *)
Lemma pairs_abs s : store_wf s → pairs (abs s) ≡ₚ range s.
Proof.
  intros Hwf. unfold pairs, abs, range. rewrite map_to_list_fmap, <-list_fmap_compose.
  apply reflexive_eq, Forall_fmap_ext_1, Forall_forall. intros [k kv] Hin%elem_of_map_to_list.
  apply Hwf in Hin. destruct kv as [k' v]; simpl in *. by subst.
Qed.

Lemma Get_abs s key : store_wf s → Get s key = spec_Get (abs s) key.
Proof.
  intros Hwf. unfold Get, spec_Get. rewrite abs_lookup.
  destruct (m s !! key) as [[k v]|] eqn:E; simpl; [|done].
  apply Hwf in E. simpl in E. by subst.
Qed.

Lemma GetValue_abs s key : GetValue s key = spec_GetValue (abs s) key.
Proof.
  rewrite GetValue_lookup. unfold spec_GetValue. rewrite abs_lookup.
  by destruct (m s !! key).
Qed.

Lemma GetAll_abs s pattern : store_wf s → GetAll s pattern = spec_GetAll (abs s) pattern.
Proof.
  intros Hwf. unfold GetAll, spec_GetAll.
  rewrite (GetAll_from_perm (range s) (pairs (abs s)));
    [|by apply NoDup_range_keys|by rewrite pairs_abs].
  case_decide as Hr; [by apply GetAll_from_rejected|].
  apply GetAll_from_accepted. by destruct (rejects_cases (pairs (abs s)) pattern).
Qed.

Lemma GetAllValues_abs s pattern :
  store_wf s → GetAllValues s pattern = spec_GetAllValues (abs s) pattern.
Proof.
  intros Hwf. unfold GetAllValues, spec_GetAllValues. rewrite GetAll_abs by done.
  destruct (spec_GetAll (abs s) pattern) as [ks [e|]]; [done|].
  by rewrite GetAllValues_loop_fmap.
Qed.

Lemma ret_of_abs c s : store_wf s → ret_of c s = spec_ret c (abs s).
Proof.
  intros Hwf. destruct c; simpl; try done; f_equal.
  - by apply Get_abs.
  - apply GetValue_abs.
  - by apply GetAll_abs.
  - by apply GetAllValues_abs.
  - unfold List. rewrite List_from_listing. apply listing_perm. by rewrite pairs_abs.
  - unfold ListDir. rewrite ListDir_from_listing. apply listing_perm. by rewrite pairs_abs.
Qed.

Lemma effect_abs c s : abs (effect c s) = spec_effect c (abs s).
Proof. destruct c; simpl; try done; unfold abs; simpl; [apply fmap_delete | apply fmap_insert]. Qed.

Lemma effect_wf c s : store_wf s → store_wf (effect c s).
Proof. destruct c; simpl; auto with go. Qed.

#[export, refine] Instance Memkv_KVStore : KVStore Store := {|
  kv_inv := store_wf;
  kv_abs := abs;
  kv_new := New;
  kv_effect := effect;
  kv_ret := ret_of;
|}.
Proof.
  - apply store_wf_New.
  - apply fmap_empty.
  - apply effect_wf.
  - intros c s _. apply effect_abs.
  - apply ret_of_abs.
Defined.

(** C21: the store of the source refines the finite map from keys to
    values: from a store that satisfies the invariant, every sequence of
    calls returns, call by call, what the specification returns from the
    abstraction of that store, and ends in a store whose abstraction is the
    specification's final map. *)
Theorem Memkv_refines_spec s calls :
  store_wf s →
  (exec s calls).2 = (exec (abs s) calls).2
  ∧ abs (exec s calls).1 = (exec (abs s) calls).1.
Proof.
  intros Hwf. by destruct (exec_abs s (abs s) calls) as (Hr & Ha & _).
Qed.

(** A store that satisfies the invariant holds nothing beyond its
    abstraction: two such stores with the same keys and values are the same
    store, so no sequence of [Set] and [Del] leaves a trace that a later
    call could observe. *)
Theorem abs_inj s1 s2 : store_wf s1 → store_wf s2 → abs s1 = abs s2 → s1 = s2.
Proof.
  intros H1 H2 Habs. apply Store_eq, map_eq. intros k.
  pose proof (f_equal (.!! k) Habs) as Hk. simpl in Hk. rewrite !abs_lookup in Hk.
  destruct (m s1 !! k) as [[k1 v1]|] eqn:E1, (m s2 !! k) as [[k2 v2]|] eqn:E2;
    simplify_eq/=; [|done].
  apply H1 in E1. apply H2 in E2. simpl in *. by subst.
Qed.

Lemma Memkv_refines_spec_witness :
  (exec example_store [CList "/app"; CDel "/app/db/host"; CGetAll "/app/*/*"]).2
  = (exec (abs example_store) [CList "/app"; CDel "/app/db/host"; CGetAll "/app/*/*"]).2
  ∧ abs (exec example_store [CList "/app"; CDel "/app/db/host"; CGetAll "/app/*/*"]).1
    = (exec (abs example_store) [CList "/app"; CDel "/app/db/host"; CGetAll "/app/*/*"]).1.
Proof. apply Memkv_refines_spec. unfold example_store. auto 10 with go. Defined.

Lemma abs_inj_witness :
  Del (Set' (Set' New "/a" "1") "/b" "2") "/a" = Set' New "/b" "2".
Proof. apply abs_inj; [auto 10 with go.. | by apply map_eq; intros k; vm_compute]. Defined.

End refinement.
