(* ===== verification/Zero.v ===== *)
(** * Zero: a [Store] that [New] did not make

    [Store] is an exported struct, so a caller can declare one without
    calling [New]: [var s memkv.Store].  The field [m] of that value is a
    nil map.  Go reads a nil map as an empty one and [delete] leaves it
    alone, but an assignment to an entry of a nil map panics.

    Memkv.v models the map of a store that [New] made.  This file models
    the map as Go has it, nil or made, gives the statements of the
    methods on it, and shows that from [New] the two models agree and no
    assignment panics, while on the zero value every [Set] panics and
    every other call answers as on an empty store. *)

From S2P Require Import Prelude GoString Sorting Match Memkv Sync Concurrent Abstract.
From stdpp Require Import gmap strings.

(** ** Go maps *)

Inductive gomap : Type :=
| NilMap
| Made (entries : gmap string KVPair).

(** The run-time panic of [m[key] = kv] on a nil map. *)

Inductive map_panic : Set := AssignToNilMap.

(** [make(map[string]KVPair)] *)

Definition make : gomap := Made ∅.

(** What a read of the map sees: a nil map reads as an empty one. *)

Definition view (g : gomap) : Store :=
  match g with
  | NilMap => New
  | Made entries => {| m := entries |}
  end.

(** [kv, ok := m[key]] *)

Definition map_index (g : gomap) (key : string) : KVPair * bool :=
  match m (view g) !! key with
  | Some kv => (kv, true)
  | None => (mkKVPair "" "", false)
  end.

(** [delete(m, key)]: no effect on a nil map. *)

Definition map_delete (g : gomap) (key : string) : gomap :=
  match g with
  | NilMap => NilMap
  | Made entries => Made (delete key entries)
  end.

(** [m[key] = kv] *)

Definition map_assign (g : gomap) (key : string) (kv : KVPair) : result map_panic gomap :=
  match g with
  | NilMap => Err AssignToNilMap
  | Made entries => Ok (Made (<[key := kv]> entries))
  end.

(** ** The methods on a map that may be nil *)

(** The zero value of [Store], and the store [New] returns. *)

Definition zero : gomap := NilMap.

Definition New_go : gomap := make.

Definition Set_go (g : gomap) (key value : string) : result map_panic gomap :=
  map_assign g key (mkKVPair key value).

Definition Del_go (g : gomap) (key : string) : gomap := map_delete g key.

Definition Get_go (g : gomap) (key : string) : KVPair * option error :=
  let '(kv, ok) := map_index g key in
  if negb ok then (kv, Some ErrNotExist) else (kv, None).

(** A call: the map after it and what it returns.  The methods that
    only read behave as the functions of Memkv.v on what they see. *)

Definition call_go (c : call) (g : gomap) : result map_panic (gomap * retval) :=
  match c with
  | CSet key value => g' ← Set_go g key value; Ok (g', RUnit)
  | CDel key => Ok (Del_go g key, RUnit)
  | CGet key => Ok (g, RGet (Get_go g key))
  | _ => Ok (g, ret_of c (view g))
  end.

Fixpoint exec_go (g : gomap) (calls : list call) : result map_panic (gomap * list retval) :=
  match calls with
  | [] => Ok (g, [])
  | c :: calls =>
      '(g', r) ← call_go c g;
      '(g'', rs) ← exec_go g' calls;
      Ok (g'', r :: rs)
  end.

Definition is_Set (c : call) : bool :=
  match c with
  | CSet _ _ => true
  | _ => false
  end.

Section zero_value.
Implicit Types (g : gomap) (c : call) (calls : list call) (key value : string).

Lemma Get_go_view g key : Get_go g key = Get (view g) key.
Proof. unfold Get_go, map_index, Get. by destruct (m (view g) !! key). Qed.

(** On a made map a call is the call of Memkv.v. *)
Lemma call_go_Made entries c :
  ∃ entries', call_go c (Made entries) = Ok (Made entries', ret_of c {| m := entries |})
    ∧ effect c {| m := entries |} = {| m := entries' |}.
Proof. destruct c; simpl; rewrite ?Get_go_view; by eexists. Qed.

Lemma exec_go_Made entries calls :
  ∃ entries', exec_go (Made entries) calls
      = Ok (Made entries', (exec {| m := entries |} calls).2)
    ∧ (exec {| m := entries |} calls).1 = {| m := entries' |}.
Proof.
  revert entries. induction calls as [|c calls IH]; intros entries; simpl; [by eexists|].
  destruct (call_go_Made entries c) as (e1 & -> & He). simpl.
  change (kv_effect c {| m := entries |}) with (effect c {| m := entries |}). rewrite He.
  destruct (IH e1) as (e2 & -> & He2). simpl.
  destruct (exec {| m := e1 |} calls) as [s' rs]. simpl in *. by exists e2.
Qed.

(** On the zero value a call that is not [Set] leaves the map nil and
    answers as on the store that [New] returns. *)
Lemma call_go_zero c :
  call_go c zero = if is_Set c then Err AssignToNilMap else Ok (zero, ret_of c New).
Proof. destruct c; simpl; rewrite ?Get_go_view; done. Qed.

Lemma effect_New c : is_Set c = false → effect c New = New.
Proof. by destruct c. Qed.

(** C14: a store that [New] made never panics in [Set], and every sequence
    of calls on it returns what the model of Memkv.v returns; on the zero
    value of [Store], whose map is nil, a sequence of calls panics at its
    first [Set], and without one it leaves the map nil and returns what
    the calls return on an empty store. *)
Theorem exec_go_cases calls :
  (∃ entries, exec_go New_go calls = Ok (Made entries, (exec New calls).2)
     ∧ (exec New calls).1 = {| m := entries |})
  ∧ exec_go zero calls =
      if existsb is_Set calls then Err AssignToNilMap
      else Ok (zero, (exec New calls).2).
Proof.
  split; [apply exec_go_Made|].
  induction calls as [|c calls IH]; simpl; [done|]. rewrite call_go_zero.
  destruct (is_Set c) eqn:Hc; simpl; [done|]. rewrite IH.
  change (kv_effect c New) with (effect c New). rewrite effect_New by done.
  destruct (existsb is_Set calls); simpl; [done|]. by destruct (exec New calls).
Qed.

(** [Set] on the zero value, and the same calls after [New]. *)
Example zero_example :
  exec_go zero [CGet "/k"; CDel "/k"; CList "/"]
    = Ok (zero, [RGet (mkKVPair "" "", Some ErrNotExist); RUnit; RList (Ok [])])
  ∧ exec_go zero [CGet "/k"; CSet "/k" "v"] = Err AssignToNilMap
  ∧ exec_go New_go [CSet "/k" "v"; CGetValue "/k"]
    = Ok (Made {[ "/k" := mkKVPair "/k" "v" ]}, [RUnit; RGetValue ("v", None)]).
Proof. split_and!; by vm_compute. Qed.

End zero_value.
