(* ===== verification/Serial.v ===== *)
(** * Serial: the calls of a run, in the order of their accesses

    A run of [Concurrent] interleaves the steps of its calls.  This file
    keeps, along a run, the order in which the calls have accessed the
    map, and shows that the map and the value each call has read are
    those of [exec], the sequential client of [Abstract], on the calls in
    that order ([serial_inv], kept by every step; [serial_inv_order] and
    [serial_inv_returned] for a finished run).

    The invariant is a fact about the steps of [Concurrent], in which an
    access to the map is one step.  That is no claim about the program
    until the accesses are known not to overlap: Accesses.v runs an
    access as an interval, shows that with one mutex no two overlap, and
    draws linearizability from the invariant of this file there. *)

From S2P Require Import Prelude GoString Sorting Match Memkv Sync Concurrent Abstract.
From stdpp Require Import gmap strings relations.

#[export] Instance call_inhabited : Inhabited call := populate (CGet "").

(** The calls of the threads [order], in that order. *)
Definition calls_in (calls : list call) (order : list nat) : list call :=
  (calls !!!.) <$> order.

(** What a thread that has made its access will return. *)
Definition committed (t : thread) (ret : retval) : Prop :=
  2 ≤ th_pc t ∧
  match kind (th_call t) with
  | Write => ret = RUnit
  | Read => ret_of (th_call t) <$> th_view t = Some ret
  end.

(** The history of a run: the threads that have made their access, in the
    order of the accesses.  The map is the result of their calls in that
    order, and each of them is committed to what its call returns there. *)
Definition serial_inv (s : Store) (calls : list call) (cfg : config) (order : list nat) : Prop :=
  NoDup order
  ∧ length (cfg_threads cfg) = length calls
  ∧ (∀ tid t, cfg_threads cfg !! tid = Some t →
       calls !! tid = Some (th_call t) ∧ (2 ≤ th_pc t ↔ tid ∈ order))
  ∧ cfg_map cfg = (exec s (calls_in calls order)).1
  ∧ Forall2 (λ tid ret, ∃ t, cfg_threads cfg !! tid = Some t ∧ committed t ret)
      order (exec s (calls_in calls order)).2.

Section exec_facts.
Context {St : Type} `{!KVStore St}.

Lemma exec_snoc (s : St) cs c :
  exec s (cs ++ [c]) =
    (kv_effect c (exec s cs).1, (exec s cs).2 ++ [kv_ret c (exec s cs).1]).
Proof.
  revert s. induction cs as [|c' cs IH]; intros s; simpl; [done|].
  rewrite IH. by destruct (exec (kv_effect c' s) cs).
Qed.

End exec_facts.

Section serial.
Implicit Types (r : receiver) (cfg : config) (t : thread) (tid : nat) (s : Store)
  (calls : list call) (order : list nat).

Lemma serial_inv_init s calls : serial_inv s calls (init s calls) [].
Proof.
  split_and!; simpl; [constructor | by rewrite length_fmap | | done | constructor].
  intros tid t. rewrite list_lookup_fmap. destruct (calls !! tid) as [c|]; [|done].
  intros [= <-]. simpl. split; [done|]. rewrite elem_of_nil. lia.
Qed.

(** The access of a call does to the map what [effect] says, and shows the
    call the map as it is. *)
Lemma exec_instr_effect t i a mu s :
  next_instr t = Some i → access_of i = Some a →
  exec_instr i mu s (th_view t) =
    Some (mu, effect (th_call t) s,
          match kind (th_call t) with Read => Some s | Write => th_view t end).
Proof.
  unfold next_instr. destruct (th_call t), (th_pc t) as [|[|[|n]]]; simpl;
    intros [= <-]; by intros [= <-].
Qed.

(** A thread that steps keeps its call, and keeps what it has committed to
    unless the step is its access. *)
Lemma serial_inv_access s calls cfg order tid t mu :
  serial_inv s calls cfg order → cfg_threads cfg !! tid = Some t → th_pc t = 1 →
  serial_inv s calls
    {| cfg_mu := cfg_mu cfg; cfg_map := effect (th_call t) (cfg_map cfg);
       cfg_threads :=
         <[tid := advance t mu (match kind (th_call t) with
                                | Read => Some (cfg_map cfg) | Write => th_view t end)]>
           (cfg_threads cfg) |}
    (order ++ [tid]).
Proof.
  unfold serial_inv, calls_in.
  intros (Hnd & Hlen & Hth & Hmap & Hret) Ht Hpc. destruct (Hth _ _ Ht) as [Hc Hin].
  assert (tid ∉ order) as Hnin by (rewrite <-Hin; lia).
  rewrite fmap_app. cbn [fmap list_fmap].
  rewrite exec_snoc, (list_lookup_total_correct _ _ _ Hc). cbn [fst snd cfg_threads cfg_map].
  split_and!.
  - apply NoDup_app. split_and!; [done | set_solver | apply NoDup_singleton].
  - by rewrite length_insert.
  - intros tid' t'. destruct (decide (tid' = tid)) as [->|Hne].
    + rewrite list_lookup_insert_eq by (by eapply lookup_lt_Some). intros [= <-]. simpl.
      split; [done|]. rewrite Hpc. set_solver.
    + rewrite list_lookup_insert_ne by done. intros Ht'.
      destruct (Hth _ _ Ht') as [? Hin']. split; [done|]. set_solver.
  - by rewrite Hmap.
  - apply Forall2_app.
    + eapply Forall2_impl; [done|]. simpl. intros tid' ret (t' & Ht' & Hcm).
      exists t'. split; [|done]. rewrite list_lookup_insert_ne; [done|].
      intros <-. destruct Hcm as [Hpc' _]. simplify_eq. lia.
    + constructor; [|constructor]. eexists. split.
      { apply list_lookup_insert_eq. by eapply lookup_lt_Some. }
      unfold committed. simpl. rewrite <-Hmap, Hpc. split; [lia|]. by destruct (th_call t).
Qed.

Lemma serial_inv_lock s calls cfg order tid t mu mu0 :
  serial_inv s calls cfg order → cfg_threads cfg !! tid = Some t → th_pc t ≠ 1 →
  serial_inv s calls
    {| cfg_mu := mu0; cfg_map := cfg_map cfg;
       cfg_threads := <[tid := advance t mu (th_view t)]> (cfg_threads cfg) |}
    order.
Proof.
  intros (Hnd & Hlen & Hth & Hmap & Hret) Ht Hpc. destruct (Hth _ _ Ht) as [Hc Hin].
  pose proof (lookup_lt_Some _ _ _ Ht) as Hlt.
  split_and!; simpl; [done | by rewrite length_insert | | done |].
  - intros tid' t' [(<- & <- & _)|[_ Ht']]%list_lookup_insert_Some; [|by apply Hth].
    simpl. split; [done|]. rewrite <-Hin. lia.
  - eapply Forall2_impl; [done|]. simpl. intros tid' ret (t' & Ht' & Hpc' & Hcm).
    destruct (decide (tid' = tid)) as [->|Hne].
    + exists (advance t mu (th_view t)). rewrite list_lookup_insert_eq by done.
      simplify_eq. split; [done|]. split; [simpl; lia | done].
    + exists t'. by rewrite list_lookup_insert_ne.
Qed.

(** A step of thread [tid] extends the history by [tid] exactly if the
    step is its access. *)
Lemma serial_inv_step_thread r s calls cfg cfg' order tid :
  serial_inv s calls cfg order → step_thread r cfg tid = Some cfg' →
  ∃ t, cfg_threads cfg !! tid = Some t
    ∧ serial_inv s calls cfg' (order ++ if decide (th_pc t = 1) then [tid] else []).
Proof.
  intros Hinv (t & i & mu' & s' & view' & Ht & Hi & He & ->)%step_thread_Some.
  exists t. split; [done|]. destruct (access_of i) as [a|] eqn:Ha.
  - rewrite (exec_instr_effect t i a _ _ Hi Ha) in He. injection He as <- <- <-.
    assert (th_pc t = 1) as Hpc
      by (apply (next_access_Some t a); unfold next_access; by rewrite Hi).
    rewrite decide_True by done. by destruct r; apply serial_inv_access.
  - apply exec_instr_lock in He as (-> & -> & _); [|done].
    assert (th_pc t ≠ 1) as Hpc.
    { intros Hpc. apply next_instr_cases in Hi as [[? _]|[[_ Hi]|[? _]]]; [lia| |lia].
      by rewrite Ha in Hi. }
    rewrite decide_False, app_nil_r by done. by apply serial_inv_lock.
Qed.

Lemma serial_inv_step r s calls cfg cfg' order :
  serial_inv s calls cfg order → step r cfg cfg' →
  ∃ order', serial_inv s calls cfg' order'.
Proof.
  intros Hinv [tid Hs]. destruct (serial_inv_step_thread _ _ _ _ _ _ _ Hinv Hs) as (t & _ & ?).
  by eexists.
Qed.

Lemma serial_inv_reachable r s calls cfg :
  rtc (step r) (init s calls) cfg → ∃ order, serial_inv s calls cfg order.
Proof.
  revert cfg. apply rtc_ind_r; [eexists; apply serial_inv_init|].
  intros cfg cfg' _ Hstep [order Hinv]. by eapply serial_inv_step.
Qed.

Lemma committed_returned t ret : committed t ret → finished t → returned t = Some ret.
Proof.
  intros [_ Hc] Hf. unfold returned. rewrite decide_True by done.
  destruct (kind (th_call t)); by subst.
Qed.

(** When all calls have finished, the history holds every thread once. *)
Lemma serial_inv_order s calls cfg order :
  serial_inv s calls cfg order → Forall finished (cfg_threads cfg) →
  order ≡ₚ seq 0 (length calls).
Proof.
  intros (Hnd & Hlen & Hth & Hmap & Hret) Hfin.
  apply NoDup_Permutation; [done | apply NoDup_seq|]. intros tid.
  rewrite elem_of_seq, Nat.add_0_l, <-Hlen, <-lookup_lt_is_Some. split.
  - intros (k & Hk)%list_elem_of_lookup.
    destruct (Forall2_lookup_l _ _ _ _ _ Hret Hk) as (ret & _ & t & Ht & _).
    split; [lia | by eexists].
  - intros [_ [t Ht]]. apply (Hth _ _ Ht).
    pose proof (proj1 (Forall_lookup _ _) Hfin _ _ Ht) as Hf.
    apply eq_None_not_Some in Hf. rewrite next_instr_is_Some in Hf. lia.
Qed.

(** And every call has returned what the history committed it to. *)
Lemma serial_inv_returned s calls cfg order :
  serial_inv s calls cfg order → Forall finished (cfg_threads cfg) →
  Forall2 (λ tid ret, ∃ t, cfg_threads cfg !! tid = Some t ∧ returned t = Some ret)
    order (exec s (calls_in calls order)).2.
Proof.
  intros (Hnd & Hlen & Hth & Hmap & Hret) Hfin.
  eapply Forall2_impl; [done|]. simpl. intros tid ret (t & Ht & Hc).
  exists t. split; [done|]. apply committed_returned; [done|].
  by apply (proj1 (Forall_lookup _ _) Hfin _ _ Ht).
Qed.

End serial.
