(* ===== verification/Linear.v ===== *)
(** * Linear: the order of the accesses, read off the schedule

    Serial.v keeps the order in which the calls of a run accessed the
    map.  This file reads that order off the schedule ([history]: a
    thread enters it at its second step, its access), shows that it is
    the order of the invariant of Serial.v ([run_history]), and that it
    respects the order of the calls in time: a call that had returned
    before another took its first step comes before it ([precedes],
    [before], [precedes_before]).  Accesses.v draws the linearizability
    of the store under one mutex from these lemmas. *)

From S2P Require Import Prelude GoString Sorting Match Memkv Sync Concurrent Abstract Serial.
From stdpp Require Import gmap strings relations.

(** The steps thread [tid] takes in a schedule. *)

Definition steps_of (sched : list nat) (tid : nat) : nat :=
  length (filter (λ x, x = tid) sched).

(** The threads in the order of their accesses: a thread enters the
    history at its second step.  [past] is the schedule run before. *)

Fixpoint history_from (past sched : list nat) : list nat :=
  match sched with
  | [] => []
  | tid :: sched =>
      (if decide (steps_of past tid = 1) then [tid] else [])
        ++ history_from (past ++ [tid]) sched
  end.

Definition history (sched : list nat) : list nat := history_from [] sched.

(** Call [i] had returned when call [j] had not taken a step. *)

Definition precedes (sched : list nat) (i j : nat) : Prop :=
  ∃ s1 s2, sched = s1 ++ s2 ∧ steps_of s1 i = 3 ∧ steps_of s1 j = 0.

(** [i] comes before [j] in an order. *)

Definition before (order : list nat) (i j : nat) : Prop :=
  ∃ l1 l2, order = l1 ++ l2 ∧ i ∈ l1 ∧ j ∈ l2.

Section histories.
Implicit Types (past sched order : list nat) (tid i j : nat).

Lemma steps_of_app s1 s2 tid : steps_of (s1 ++ s2) tid = steps_of s1 tid + steps_of s2 tid.
Proof. unfold steps_of. by rewrite filter_app, length_app. Qed.

Lemma steps_of_cons x sched tid :
  steps_of (x :: sched) tid = (if decide (x = tid) then 1 else 0) + steps_of sched tid.
Proof. unfold steps_of. rewrite filter_cons. by case_decide. Qed.

Lemma history_from_app past s1 s2 :
  history_from past (s1 ++ s2) = history_from past s1 ++ history_from (past ++ s1) s2.
Proof.
  revert past. induction s1 as [|x s1 IH]; intros past; simpl.
  - by rewrite app_nil_r.
  - by rewrite IH, <-!(assoc_L (++)).
Qed.

Lemma history_snoc sched tid :
  history (sched ++ [tid]) =
    history sched ++ if decide (steps_of sched tid = 1) then [tid] else [].
Proof. unfold history. rewrite history_from_app. simpl. by rewrite app_nil_r. Qed.

(** A thread is in the history exactly if its second step is in the
    schedule. *)
Lemma elem_of_history_from past sched tid :
  tid ∈ history_from past sched ↔
  steps_of past tid ≤ 1 ∧ 2 ≤ steps_of (past ++ sched) tid.
Proof.
  revert past. induction sched as [|x sched IH]; intros past; simpl.
  - rewrite app_nil_r, elem_of_nil. lia.
  - rewrite elem_of_app, IH, <-(assoc_L (++)). simpl.
    rewrite !steps_of_app, !steps_of_cons. unfold steps_of at 2 4. simpl.
    destruct (decide (steps_of past x = 1));
      [rewrite list_elem_of_singleton|rewrite elem_of_nil];
      destruct (decide (x = tid)); subst; change (steps_of [] tid) with 0.
    + split; [lia | by left].
    + split; [intros [?|?]; [congruence|lia] | right; lia].
    + split; [intros [[]|?]; lia | right; lia].
    + split; [intros [[]|?]; lia | right; lia].
Qed.

(** The order in time is kept by the history. *)
Lemma precedes_before sched i j :
  precedes sched i j → j ∈ history sched → before (history sched) i j.
Proof.
  intros (s1 & s2 & -> & Hi & Hj) Hin. unfold history in *.
  rewrite history_from_app in *. simpl in *.
  exists (history_from [] s1), (history_from s1 s2). split; [done|]. split.
  - apply elem_of_history_from. simpl. unfold steps_of at 1. simpl. lia.
  - apply elem_of_app in Hin as [Hin|Hin]; [|done].
    apply elem_of_history_from in Hin. simpl in Hin. lia.
Qed.

End histories.

(** ** The history of a run *)

Section run_histories.
Implicit Types (r : receiver) (cfg : config) (t : thread) (tid i j : nat) (s : Store)
  (calls : list call) (sched : list nat).

Lemma run_snoc r cfg sched tid :
  run r cfg (sched ++ [tid]) = run r cfg sched ≫= λ c, step_thread r c tid.
Proof.
  revert cfg. induction sched as [|x sched IH]; intros cfg; simpl.
  - by destruct (step_thread r cfg tid).
  - destruct (step_thread r cfg x) as [c1|]; [simpl|done]. apply IH.
Qed.

(** Along a run the history of the schedule is the history of the
    invariant of Serial.v, and every thread is as far as the schedule
    has taken it. *)
Lemma run_history r s calls sched cfg :
  run r (init s calls) sched = Some cfg →
  serial_inv s calls cfg (history sched)
  ∧ ∀ tid t, cfg_threads cfg !! tid = Some t → th_pc t = steps_of sched tid.
Proof.
  revert cfg. induction sched as [|tid sched IH] using rev_ind; intros cfg Hrun.
  { injection Hrun as <-. split; [apply serial_inv_init|].
    by intros tid t [c [-> _]]%list_lookup_fmap_Some. }
  rewrite run_snoc in Hrun. destruct (run r (init s calls) sched) as [c1|]; [|done].
  simpl in Hrun. destruct (IH c1 eq_refl) as [Hinv Hpc].
  destruct (serial_inv_step_thread _ _ _ _ _ _ _ Hinv Hrun) as (t & Ht & Hinv').
  rewrite history_snoc, <-(Hpc _ _ Ht). split; [done|].
  pose proof (Hpc _ _ Ht) as Hpct. pose proof (lookup_lt_Some _ _ _ Ht) as Hlt.
  apply step_thread_Some in Hrun as (t1 & i1 & mu' & s' & view' & Ht1 & _ & _ & ->).
  simplify_eq. simpl. intros j t' Hj. rewrite steps_of_app, steps_of_cons.
  change (steps_of [] j) with 0. destruct (decide (tid = j)) as [->|Hne].
  - rewrite list_lookup_insert_eq in Hj by done. injection Hj as <-. simpl. lia.
  - rewrite list_lookup_insert_ne in Hj by done. rewrite (Hpc _ _ Hj). lia.
Qed.

End run_histories.
