(* ===== verification/Accesses.v ===== *)
(** * Accesses: an access to the map takes time, and two that overlap fault

    Concurrent.v runs an access to the map ([delete(s.m, key)],
    [s.m[key]], [s.m[key] = value], the [range] loops of [GetAll], [List]
    and [ListDir]) as one step.  Go promises that only while no write of
    the map overlaps another access: the language leaves such a program
    undefined, and the runtime stops it with "fatal error: concurrent map
    read and map write" (or "concurrent map writes", "concurrent map
    iteration and map write") where it sees the overlap.  This file gives
    the semantics in which that promise is an obligation: an access is two
    steps, its beginning and its end ([begin_access], [end_access]), the
    accesses that have begun and not ended are part of the state
    ([a_open]), and an access that begins while an access in conflict with
    it is open is a [fault], at which the run ends ([astep], [arun]).  A
    [range] loop is one access: what it reads, matches and collects lies
    between its beginning and its end, and a write of the map in between
    is a fault.

    The theorems: some run faults exactly if some run of Concurrent.v
    reaches a race ([fault_race], [fault_iff_race]); with one mutex for
    all calls no run faults, and every finished run is linearizable, in
    the order in which the calls ended their accesses
    ([by_pointer_linearizable]); as the source declares the methods, two
    calls of which one writes fault ([declared_faults]).  The single step of Concurrent.v is what the
    locks earn: it is faithful for the programs that do not fault, and
    with the receivers of the source the store is not one of them. *)

From S2P Require Import Prelude Memkv Sync Concurrent Abstract Serial Linear.
From stdpp Require Import gmap strings relations.

(** ** Faults

    What the Go runtime reports when it sees two accesses to a map
    overlap, one of them a write. *)

Inductive fault : Set := ConcurrentMapAccess.

#[export] Instance fault_eq_dec : EqDecision fault.
Proof. solve_decision. Defined.

(** Two accesses conflict unless both read. *)

Definition conflict (a b : access) : bool := bool_decide (a = Write ∨ b = Write).

(** ** States and steps

    The state of Concurrent.v, and the accesses that are open: which
    thread, and whether it reads or writes. *)

Record aconfig : Type := mkAconfig {
  a_cfg : config;
  a_open : list (nat * access);
}.

Definition ainit (s : Store) (calls : list call) : aconfig :=
  {| a_cfg := init s calls; a_open := [] |}.

Definition is_open (ac : aconfig) (tid : nat) : bool :=
  bool_decide (tid ∈ (a_open ac).*1).

(** An access begins: a fault if an open access conflicts with it. *)

Definition begin_access (ac : aconfig) (tid : nat) (a : access) : result fault aconfig :=
  if existsb (λ p, conflict a p.2) (a_open ac) then Err ConcurrentMapAccess
  else Ok {| a_cfg := a_cfg ac; a_open := (tid, a) :: a_open ac |}.

(** An access ends: it has its effect on the map, [cfg'] is the state
    after it. *)

Definition end_access (ac : aconfig) (tid : nat) (cfg' : config) : aconfig :=
  {| a_cfg := cfg'; a_open := filter (λ p, p.1 ≠ tid) (a_open ac) |}.

(** A step of thread [tid]: nothing if the thread has finished or waits
    for the mutex, a fault, or the next state.  A statement on the mutex
    is the step of Concurrent.v; an access takes a step to begin and a
    step to end. *)

Definition astep (r : receiver) (ac : aconfig) (tid : nat) : option (result fault aconfig) :=
  t ← cfg_threads (a_cfg ac) !! tid;
  i ← next_instr t;
  match access_of i with
  | Some a =>
      if is_open ac tid then
        cfg' ← step_thread r (a_cfg ac) tid; Some (Ok (end_access ac tid cfg'))
      else Some (begin_access ac tid a)
  | None =>
      cfg' ← step_thread r (a_cfg ac) tid;
      Some (Ok {| a_cfg := cfg'; a_open := a_open ac |})
  end.

(** A run under a schedule ends at the first fault. *)

Fixpoint arun (r : receiver) (ac : aconfig) (sched : list nat)
  : option (result fault aconfig) :=
  match sched with
  | [] => Some (Ok ac)
  | tid :: sched =>
      match astep r ac tid with
      | Some (Ok ac') => arun r ac' sched
      | x => x
      end
  end.

(** ** Schedules

    The schedule of Concurrent.v that a schedule of this file stands for:
    every step of a thread but its second, the beginning of its access. *)

Fixpoint coarse_from (past sched : list nat) : list nat :=
  match sched with
  | [] => []
  | tid :: sched =>
      (if decide (steps_of past tid = 1) then [] else [tid])
        ++ coarse_from (past ++ [tid]) sched
  end.

Definition coarse (sched : list nat) : list nat := coarse_from [] sched.

(** The schedule of this file that runs a schedule of Concurrent.v with
    every access begun and ended at once. *)

Fixpoint fine_from (past sched : list nat) : list nat :=
  match sched with
  | [] => []
  | tid :: sched =>
      (if decide (steps_of past tid = 1) then [tid; tid] else [tid])
        ++ fine_from (past ++ [tid]) sched
  end.

Definition fine (sched : list nat) : list nat := fine_from [] sched.

(** The calls in the order in which their accesses ended. *)

Definition ahistory (sched : list nat) : list nat := history (coarse sched).

(** Call [i] had returned (four steps) when call [j] had not taken a
    step. *)

Definition aprecedes (sched : list nat) (i j : nat) : Prop :=
  ∃ s1 s2, sched = s1 ++ s2 ∧ steps_of s1 i = 4 ∧ steps_of s1 j = 0.

(** ** The invariant

    Every open access is the access its thread is at. *)

Definition open_inv (ac : aconfig) : Prop :=
  ∀ j b, (j, b) ∈ a_open ac →
    ∃ t, cfg_threads (a_cfg ac) !! j = Some t ∧ next_access t = Some b.

(** A state of a run: the state of Concurrent.v after the coarse
    schedule, with the accesses open of the threads that have taken two
    steps. *)

Definition ainv (r : receiver) (s : Store) (calls : list call) (sched : list nat)
    (ac : aconfig) : Prop :=
  run r (init s calls) (coarse sched) = Some (a_cfg ac)
  ∧ open_inv ac
  ∧ ∀ tid, tid ∈ (a_open ac).*1 ↔ steps_of sched tid = 2.

(** ** Schedules, counted *)

Section schedules.
Implicit Types (past sched : list nat) (tid i j : nat).

Lemma steps_of_snoc sched x tid :
  steps_of (sched ++ [x]) tid = steps_of sched tid + if decide (x = tid) then 1 else 0.
Proof. rewrite steps_of_app, steps_of_cons. change (steps_of [] tid) with 0. lia. Qed.

Lemma coarse_from_app past s1 s2 :
  coarse_from past (s1 ++ s2) = coarse_from past s1 ++ coarse_from (past ++ s1) s2.
Proof.
  revert past. induction s1 as [|x s1 IH]; intros past; simpl.
  - by rewrite app_nil_r.
  - by rewrite IH, <-!(assoc_L (++)).
Qed.

Lemma coarse_snoc sched tid :
  coarse (sched ++ [tid]) = coarse sched ++ if decide (steps_of sched tid = 1) then [] else [tid].
Proof. unfold coarse. rewrite coarse_from_app. simpl. by rewrite app_nil_r. Qed.

(** The coarse schedule has every step of a thread but its second. *)
Lemma steps_of_coarse sched tid :
  steps_of (coarse sched) tid
  = steps_of sched tid - if decide (2 ≤ steps_of sched tid) then 1 else 0.
Proof.
  induction sched as [|x sched IH] using rev_ind; [done|].
  rewrite coarse_snoc, steps_of_app, steps_of_snoc, IH.
  destruct (decide (x = tid)) as [->|Hne].
  - destruct (decide (steps_of sched tid = 1)) as [->|?].
    { change (steps_of [] tid) with 0. simpl. lia. }
    rewrite steps_of_cons. change (steps_of [] tid) with 0.
    repeat case_decide; lia.
  - assert (steps_of (if decide (steps_of sched x = 1) then [] else [x]) tid = 0) as ->.
    { destruct (decide (steps_of sched x = 1)); [reflexivity|].
      rewrite steps_of_cons. by rewrite decide_False. }
    repeat case_decide; lia.
Qed.

Lemma fine_from_app past s1 s2 :
  fine_from past (s1 ++ s2) = fine_from past s1 ++ fine_from (past ++ s1) s2.
Proof.
  revert past. induction s1 as [|x s1 IH]; intros past; simpl.
  - by rewrite app_nil_r.
  - by rewrite IH, <-!(assoc_L (++)).
Qed.

Lemma fine_snoc sched tid :
  fine (sched ++ [tid]) =
    fine sched ++ if decide (steps_of sched tid = 1) then [tid; tid] else [tid].
Proof. unfold fine. rewrite fine_from_app. simpl. by rewrite app_nil_r. Qed.

Lemma aprecedes_precedes sched i j : aprecedes sched i j → precedes (coarse sched) i j.
Proof.
  intros (s1 & s2 & -> & Hi & Hj). exists (coarse s1), (coarse_from s1 s2).
  split; [apply coarse_from_app|]. rewrite !steps_of_coarse, Hi, Hj. done.
Qed.

End schedules.

(** ** Steps, unfolded *)

Section steps.
Implicit Types (r : receiver) (ac : aconfig) (cfg : config) (t : thread) (tid j : nat)
  (a b : access) (s : Store) (calls : list call) (sched : list nat).

Lemma arun_snoc r ac sched tid :
  arun r ac (sched ++ [tid]) =
    match arun r ac sched with
    | Some (Ok ac') => astep r ac' tid
    | x => x
    end.
Proof.
  revert ac. induction sched as [|x sched IH]; intros ac; simpl.
  - by destruct (astep r ac tid) as [[?|?]|].
  - destruct (astep r ac x) as [[ac1|?]|]; [apply IH | done..].
Qed.

(** A step of one thread leaves the other threads as they are. *)
Lemma step_thread_others r cfg tid cfg' j :
  step_thread r cfg tid = Some cfg' → j ≠ tid →
  cfg_threads cfg' !! j = cfg_threads cfg !! j.
Proof.
  intros (t & i & mu' & s' & view' & _ & _ & _ & ->)%step_thread_Some Hne. simpl.
  by rewrite list_lookup_insert_ne.
Qed.

Lemma is_open_true ac tid : is_open ac tid = true ↔ tid ∈ (a_open ac).*1.
Proof. unfold is_open. by rewrite bool_decide_eq_true. Qed.

Lemma is_open_false ac tid : is_open ac tid = false ↔ tid ∉ (a_open ac).*1.
Proof. unfold is_open. by rewrite bool_decide_eq_false. Qed.

Lemma arun_app r ac (sched1 sched2 : list nat) :
  arun r ac (sched1 ++ sched2) =
    match arun r ac sched1 with
    | Some (Ok ac') => arun r ac' sched2
    | x => x
    end.
Proof.
  revert ac. induction sched1 as [|x sched1 IH]; intros ac; simpl; [done|].
  destruct (astep r ac x) as [[ac1|?]|]; [apply IH | done..].
Qed.

(** The three steps: on the mutex, into an access, out of it. *)
Lemma astep_lock r ac tid t :
  cfg_threads (a_cfg ac) !! tid = Some t → next_access t = None →
  astep r ac tid =
    cfg' ← step_thread r (a_cfg ac) tid; Some (Ok {| a_cfg := cfg'; a_open := a_open ac |}).
Proof.
  intros Ht Ha. unfold astep, step_thread. rewrite Ht. simpl.
  unfold next_access in Ha. destruct (next_instr t) as [i|]; [simpl in *|done].
  by rewrite Ha.
Qed.

Lemma astep_begin r ac tid t a :
  cfg_threads (a_cfg ac) !! tid = Some t → next_access t = Some a →
  tid ∉ (a_open ac).*1 → astep r ac tid = Some (begin_access ac tid a).
Proof.
  intros Ht Ha Hno%is_open_false. unfold astep. rewrite Ht. simpl.
  unfold next_access in Ha. destruct (next_instr t) as [i|]; [simpl in *|done].
  by rewrite Ha, Hno.
Qed.

Lemma astep_end r ac tid t a :
  cfg_threads (a_cfg ac) !! tid = Some t → next_access t = Some a →
  tid ∈ (a_open ac).*1 →
  astep r ac tid = cfg' ← step_thread r (a_cfg ac) tid; Some (Ok (end_access ac tid cfg')).
Proof.
  intros Ht Ha Hio%is_open_true. unfold astep. rewrite Ht. simpl.
  unfold next_access in Ha. destruct (next_instr t) as [i|]; [simpl in *|done].
  by rewrite Ha, Hio.
Qed.

Lemma astep_Ok r ac tid ac' :
  astep r ac tid = Some (Ok ac') →
  ∃ t i, cfg_threads (a_cfg ac) !! tid = Some t ∧ next_instr t = Some i ∧
    match access_of i with
    | None => step_thread r (a_cfg ac) tid = Some (a_cfg ac') ∧ a_open ac' = a_open ac
    | Some a =>
        if is_open ac tid then
          step_thread r (a_cfg ac) tid = Some (a_cfg ac')
          ∧ a_open ac' = filter (λ p, p.1 ≠ tid) (a_open ac)
        else begin_access ac tid a = Ok ac'
    end.
Proof.
  unfold astep. destruct (cfg_threads (a_cfg ac) !! tid) as [t|] eqn:Ht; [|done]. simpl.
  destruct (next_instr t) as [i|] eqn:Hi; [|done]. simpl. intros H. exists t, i.
  do 2 (split; [done|]). destruct (access_of i) as [a|]; [destruct (is_open ac tid)|].
  - destruct (step_thread r (a_cfg ac) tid) as [cfg'|]; [|done]. by simplify_eq/=.
  - by simplify_eq.
  - destruct (step_thread r (a_cfg ac) tid) as [cfg'|]; [|done]. by simplify_eq/=.
Qed.

Lemma begin_access_Ok ac tid a ac' :
  begin_access ac tid a = Ok ac' →
  a_cfg ac' = a_cfg ac ∧ a_open ac' = (tid, a) :: a_open ac.
Proof. unfold begin_access. destruct (existsb _ _); [done|]. by intros [= <-]. Qed.

(** An access that cannot begin overlaps an access that conflicts with
    it. *)
Lemma begin_access_Err ac tid a e :
  begin_access ac tid a = Err e → ∃ j b, (j, b) ∈ a_open ac ∧ (a = Write ∨ b = Write).
Proof.
  unfold begin_access. destruct (existsb _ _) eqn:E; [|done]. intros _.
  apply existsb_exists in E as ([j b] & Hin%list_elem_of_In & Hc%bool_decide_eq_true).
  eauto.
Qed.

Lemma elem_of_fst_filter_ne (l : list (nat * access)) tid j :
  j ∈ (filter (λ p, p.1 ≠ tid) l).*1 ↔ j ∈ l.*1 ∧ j ≠ tid.
Proof.
  rewrite !list_elem_of_fmap. setoid_rewrite list_elem_of_filter. naive_solver.
Qed.

(** Where a thread is, by the number of steps it has taken. *)
Lemma ainv_position r s calls sched ac tid t :
  ainv r s calls sched ac → cfg_threads (a_cfg ac) !! tid = Some t →
  th_pc t = steps_of sched tid - if decide (2 ≤ steps_of sched tid) then 1 else 0.
Proof.
  intros (Hrun & _ & _) Ht. apply run_history in Hrun as [_ Hpc].
  by rewrite (Hpc _ _ Ht), steps_of_coarse.
Qed.

Lemma ainv_init r s calls : ainv r s calls [] (ainit s calls).
Proof.
  split_and!; [done | by intros j b ?%elem_of_nil |].
  intros tid. simpl. rewrite elem_of_nil. by unfold steps_of.
Qed.

(** A step that is a step of the coarse semantics: on the mutex, or out
    of an access. *)
Lemma ainv_advance r s calls sched ac tid ac' :
  ainv r s calls sched ac → steps_of sched tid ≠ 1 →
  step_thread r (a_cfg ac) tid = Some (a_cfg ac') →
  a_open ac' = filter (λ p, p.1 ≠ tid) (a_open ac) →
  ainv r s calls (sched ++ [tid]) ac'.
Proof.
  intros (Hrun & Hopen & Hsteps) Hn Hstep Ho. split_and!.
  - by rewrite coarse_snoc, decide_False, run_snoc, Hrun by done.
  - intros j b. rewrite Ho. intros [Hne Hin]%list_elem_of_filter. simpl in Hne.
    by rewrite (step_thread_others _ _ _ _ _ Hstep Hne); apply Hopen.
  - intros j. rewrite Ho, elem_of_fst_filter_ne, Hsteps, steps_of_snoc.
    case_decide; subst; lia.
Qed.

(** The step into an access: the coarse semantics stays where it is. *)
Lemma ainv_begin r s calls sched ac tid t a :
  ainv r s calls sched ac → steps_of sched tid = 1 →
  cfg_threads (a_cfg ac) !! tid = Some t → next_access t = Some a →
  ainv r s calls (sched ++ [tid]) {| a_cfg := a_cfg ac; a_open := (tid, a) :: a_open ac |}.
Proof.
  intros (Hrun & Hopen & Hsteps) Hn Ht Ha. split_and!.
  - by rewrite coarse_snoc, decide_True, app_nil_r by done.
  - intros j b [[= -> ->]|Hin]%elem_of_cons; [by exists t | by apply Hopen].
  - intros j. simpl. rewrite elem_of_cons, Hsteps, steps_of_snoc.
    case_decide; subst; lia.
Qed.

Lemma filter_ne_id (l : list (nat * access)) tid :
  tid ∉ l.*1 → l = filter (λ p, p.1 ≠ tid) l.
Proof.
  induction l as [|[j b] l IH]; [done|]. rewrite fmap_cons, not_elem_of_cons.
  simpl. intros [Hne Hl]. rewrite filter_cons_True by (simpl; intros ->; by apply Hne).
  f_equal. by apply IH.
Qed.

(** Every step keeps the invariant. *)
Lemma ainv_step r s calls sched ac tid ac' :
  ainv r s calls sched ac → astep r ac tid = Some (Ok ac') →
  ainv r s calls (sched ++ [tid]) ac'.
Proof.
  intros Hinv (t & i & Ht & Hi & Hcase)%astep_Ok.
  pose proof (ainv_position _ _ _ _ _ _ _ Hinv Ht) as Hpc.
  pose proof (proj2 (proj2 Hinv) tid) as Hopen.
  destruct (access_of i) as [a|] eqn:Ha.
  - assert (next_access t = Some a) as Hna by (unfold next_access; by rewrite Hi).
    pose proof (proj1 (next_access_Some _ _) Hna) as [Hpc1 _].
    destruct (is_open ac tid) eqn:Hio.
    + apply is_open_true in Hio. destruct Hcase as [Hstep Ho].
      apply ainv_advance with ac; [done | apply Hopen in Hio; lia | done..].
    + apply is_open_false in Hio. apply begin_access_Ok in Hcase as [Hc Ho].
      destruct ac' as [cfg' open']. simpl in *. subst.
      apply ainv_begin with t; [done | | done..].
      rewrite Hopen in Hio. revert Hpc. case_decide; lia.
  - destruct Hcase as [Hstep Ho].
    assert (steps_of sched tid ≠ 1 ∧ steps_of sched tid ≠ 2) as [H1 H2].
    { apply next_instr_cases in Hi as [[? ->]|[[? ?]|[? ->]]];
        [| congruence |]; revert Hpc; case_decide; lia. }
    apply ainv_advance with ac; [done..|]. rewrite Ho. apply filter_ne_id. by rewrite Hopen.
Qed.

(** Every run keeps the invariant. *)
Lemma arun_inv r s calls sched ac :
  arun r (ainit s calls) sched = Some (Ok ac) → ainv r s calls sched ac.
Proof.
  revert ac. induction sched as [|tid sched IH] using rev_ind; intros ac.
  { intros [= <-]. apply ainv_init. }
  rewrite arun_snoc. destruct (arun r (ainit s calls) sched) as [[ac1|?]|]; [|done..].
  by apply ainv_step, IH.
Qed.

(** A step that faults begins an access while an access that conflicts
    with it is open. *)
Lemma astep_Err r ac tid e :
  astep r ac tid = Some (Err e) →
  ∃ t a j b, cfg_threads (a_cfg ac) !! tid = Some t ∧ next_access t = Some a
    ∧ tid ∉ (a_open ac).*1 ∧ (j, b) ∈ a_open ac ∧ (a = Write ∨ b = Write).
Proof.
  unfold astep. destruct (cfg_threads (a_cfg ac) !! tid) as [t|] eqn:Ht; [|done]. simpl.
  destruct (next_instr t) as [i|] eqn:Hi; [|done]. simpl.
  destruct (access_of i) as [a|] eqn:Ha; [destruct (is_open ac tid) eqn:Hio|].
  - by destruct (step_thread r (a_cfg ac) tid).
  - intros [= (j & b & Hin & Hc)%begin_access_Err]. exists t, a, j, b.
    split_and!; [done | | by apply is_open_false | done..].
    unfold next_access. by rewrite Hi.
  - by destruct (step_thread r (a_cfg ac) tid).
Qed.

(** A fault is a data race: the state of the coarse semantics in which
    it happens has two threads at their accesses, one of them a write. *)
Lemma fault_race r s calls sched ac tid e :
  ainv r s calls sched ac → astep r ac tid = Some (Err e) → race (a_cfg ac).
Proof.
  intros (_ & Hopen & _) (t & a & j & b & Ht & Ha & Hno & Hin & Hc)%astep_Err.
  destruct (Hopen j b Hin) as (tj & Htj & Hb).
  exists tid, j, t, tj, a, b. split_and!; try done.
  intros ->. apply Hno, list_elem_of_fmap. by exists (j, b).
Qed.

End steps.

(** ** Faults and races

    The runs of this file fault exactly where the runs of Concurrent.v
    race. *)

Section faults_and_races.
Implicit Types (r : receiver) (ac : aconfig) (cfg : config) (t : thread) (tid : nat)
  (s : Store) (calls : list call) (sched : list nat).

(** A run of Concurrent.v is a run of this file, every access begun and
    ended at once. *)
Lemma arun_fine r s calls sched cfg :
  run r (init s calls) sched = Some cfg →
  arun r (ainit s calls) (fine sched) = Some (Ok {| a_cfg := cfg; a_open := [] |}).
Proof.
  revert cfg. induction sched as [|tid sched IH] using rev_ind; intros cfg.
  { by intros [= <-]. }
  rewrite run_snoc, fine_snoc, arun_app.
  destruct (run r (init s calls) sched) as [c1|] eqn:Hrun; [simpl|done]. intros Hstep.
  rewrite (IH c1 eq_refl).
  pose proof Hstep as (t & i & _ & _ & _ & Ht & Hi & _)%step_thread_Some.
  destruct (run_history _ _ _ _ _ Hrun) as [_ Hpc]. rewrite <-(Hpc _ _ Ht).
  destruct (next_access t) as [a|] eqn:Ha.
  - rewrite decide_True by (by apply next_access_Some in Ha as [? _]). cbn [arun].
    rewrite (astep_begin _ _ _ t a) by (done || apply not_elem_of_nil).
    cbn [begin_access a_open a_cfg existsb].
    rewrite (astep_end _ _ _ t a) by (done || (simpl; by left)). cbn [a_cfg].
    rewrite Hstep. simpl. unfold end_access. simpl.
    by rewrite filter_cons_False, filter_nil by (simpl; by intros []).
  - rewrite decide_False
      by (intros Hp; by rewrite (proj2 (next_access_Some t (kind (th_call t)))) in Ha).
    cbn [arun]. rewrite (astep_lock _ _ _ t) by done. cbn [a_cfg]. by rewrite Hstep.
Qed.

(** A run that ends in a fault ran to the step that faults. *)
Lemma arun_Err r ac sched e :
  arun r ac sched = Some (Err e) →
  ∃ sched1 tid ac1, arun r ac sched1 = Some (Ok ac1) ∧ astep r ac1 tid = Some (Err e).
Proof.
  revert ac. induction sched as [|tid sched IH]; intros ac; [done|]. simpl.
  destruct (astep r ac tid) as [[ac1|e1]|] eqn:Hs; [|intros [= ->]; by exists [], tid, ac|done].
  intros (sched1 & j & ac2 & Hrun & Hf)%IH. exists (tid :: sched1), j, ac2. simpl.
  by rewrite Hs.
Qed.

(** Some run faults exactly if some run of Concurrent.v reaches a race:
    the races of the one-step semantics are the faults of the runtime. *)
Lemma fault_iff_race r s calls :
  (∃ sched, arun r (ainit s calls) sched = Some (Err ConcurrentMapAccess))
  ↔ ∃ cfg, rtc (step r) (init s calls) cfg ∧ race cfg.
Proof.
  split.
  - intros (sched & (sched1 & tid & ac & Hrun%arun_inv & Hf)%arun_Err).
    exists (a_cfg ac). split; [eapply run_steps, Hrun | by eapply fault_race].
  - intros (cfg & [sched Hrun%arun_fine]%steps_run
              & i & j & ti & tj & ai & aj & Hne & Hi & Hj & Hai & Haj & Hw).
    exists (fine sched ++ [i; j]). rewrite arun_app, Hrun. cbn [arun].
    rewrite (astep_begin _ _ i ti ai) by (done || apply not_elem_of_nil).
    cbn [begin_access a_open a_cfg existsb].
    rewrite (astep_begin _ _ j tj aj);
      [|done..|simpl; rewrite list_elem_of_singleton; congruence].
    unfold begin_access, conflict. simpl.
    rewrite bool_decide_eq_true_2; [done | destruct Hw; auto].
Qed.

End faults_and_races.

(** ** One mutex: no fault, and every run linearizable *)

Section by_pointer_accesses.
Implicit Types (ac : aconfig) (s : Store) (calls : list call) (sched : list nat).

(** With one mutex for all calls no run faults. *)
Lemma by_pointer_no_fault s calls sched e :
  arun ByPointer (ainit s calls) sched ≠ Some (Err e).
Proof.
  induction sched as [|tid sched IH] using rev_ind; [done|].
  rewrite arun_snoc. destruct (arun ByPointer (ainit s calls) sched) as [[ac|?]|] eqn:E;
    [|done..].
  intros Hf. pose proof (arun_inv _ _ _ _ _ E) as Hinv.
  apply (lock_inv_no_race (a_cfg ac)); [|by eapply fault_race].
  eapply lock_inv_reachable, run_steps, Hinv.
Qed.

(** A finished run that did not fault is linearizable, in the order in
    which the calls ended their accesses. *)
Lemma arun_linearizable r s calls sched ac :
  arun r (ainit s calls) sched = Some (Ok ac) →
  Forall finished (cfg_threads (a_cfg ac)) →
  ahistory sched ≡ₚ seq 0 (length calls)
  ∧ cfg_map (a_cfg ac) = (exec s (calls_in calls (ahistory sched))).1
  ∧ Forall2 (λ tid ret, ∃ t, cfg_threads (a_cfg ac) !! tid = Some t ∧ returned t = Some ret)
      (ahistory sched) (exec s (calls_in calls (ahistory sched))).2
  ∧ ∀ i j, j < length calls → aprecedes sched i j → before (ahistory sched) i j.
Proof.
  intros [[Hinv _]%run_history _]%arun_inv Hfin. unfold ahistory.
  pose proof (serial_inv_order _ _ _ _ Hinv Hfin) as Hperm.
  split_and!; [done | apply Hinv | by eapply serial_inv_returned |].
  intros i j Hj Hp%aprecedes_precedes. apply precedes_before; [done|].
  rewrite Hperm, elem_of_seq. lia.
Qed.

(** C12: with one mutex for all calls (pointer receivers) no run faults,
    however the steps of the calls interleave and although an access to
    the map takes time; and every finished run is linearizable: in the
    order in which the calls ended their accesses, which holds every call
    once, the calls made one after the other end in the same map and
    return the same values, and a call that had returned before another
    took its first step comes before it. *)
Theorem by_pointer_linearizable s calls sched out :
  arun ByPointer (ainit s calls) sched = Some out →
  ∃ ac, out = Ok ac
    ∧ (Forall finished (cfg_threads (a_cfg ac)) →
       ahistory sched ≡ₚ seq 0 (length calls)
       ∧ cfg_map (a_cfg ac) = (exec s (calls_in calls (ahistory sched))).1
       ∧ Forall2
           (λ tid ret, ∃ t, cfg_threads (a_cfg ac) !! tid = Some t ∧ returned t = Some ret)
           (ahistory sched) (exec s (calls_in calls (ahistory sched))).2
       ∧ ∀ i j, j < length calls → aprecedes sched i j → before (ahistory sched) i j).
Proof.
  destruct out as [ac|e]; intros Hrun; [|by apply by_pointer_no_fault in Hrun].
  exists ac. split; [done|]. by apply (arun_linearizable ByPointer).
Qed.

End by_pointer_accesses.

(** ** A mutex for every call: the runtime faults *)

Section by_value_accesses.
Implicit Types (r : receiver) (ac : aconfig) (t : thread) (tid i j : nat) (s : Store)
  (calls : list call).

(** The first step of a call as the source declares it. *)
Lemma astep_enter ac tid c :
  value_inv (a_cfg ac) → cfg_threads (a_cfg ac) !! tid = Some (enter unlocked c) →
  ∃ cfg' t',
    astep ByValue ac tid = Some (Ok {| a_cfg := cfg'; a_open := a_open ac |})
    ∧ value_inv cfg' ∧ cfg_threads cfg' = <[tid := t']> (cfg_threads (a_cfg ac))
    ∧ next_access t' = Some (kind c).
Proof.
  intros Hinv Ht.
  destruct (step_thread_enter _ _ _ Hinv Ht) as (cfg' & t' & Hs & Hinv' & Hts & Ha).
  exists cfg', t'. rewrite (astep_lock _ _ _ _ Ht) by (by destruct c). by rewrite Hs.
Qed.

(** C22: as the source declares the methods (value receivers, a mutex
    for every call), any two calls of which one writes the map ([Set] or
    [Del]) fault when each takes its lock and then begins its access: the
    Go runtime stops the program with a concurrent map access. *)
Theorem declared_faults s calls i j ci cj :
  i ≠ j → calls !! i = Some ci → calls !! j = Some cj →
  kind ci = Write ∨ kind cj = Write →
  arun declared (ainit s calls) [i; j; i; j] = Some (Err ConcurrentMapAccess).
Proof.
  unfold declared. intros Hne Hi Hj Hw.
  assert (cfg_threads (a_cfg (ainit s calls)) !! i = Some (enter unlocked ci)) as Hti.
  { simpl. by rewrite list_lookup_fmap, Hi. }
  assert (cfg_threads (a_cfg (ainit s calls)) !! j = Some (enter unlocked cj)) as Htj.
  { simpl. by rewrite list_lookup_fmap, Hj. }
  destruct (astep_enter (ainit s calls) i ci) as (cfg1 & ti & Hs1 & Hinv1 & Hts1 & Hai);
    [apply value_inv_init | done |].
  rewrite <-(list_lookup_insert_ne _ i j ti), <-Hts1 in Htj by done.
  destruct (astep_enter {| a_cfg := cfg1; a_open := [] |} j cj)
    as (cfg2 & tj & Hs2 & Hinv2 & Hts2 & Haj); [done..|]. simpl in Hts1, Hts2.
  assert (cfg_threads cfg2 !! i = Some ti) as Hi2.
  { rewrite Hts2, list_lookup_insert_ne, Hts1 by done.
    by eapply list_lookup_insert_eq, lookup_lt_Some. }
  assert (cfg_threads cfg2 !! j = Some tj) as Hj2.
  { rewrite Hts2. by eapply list_lookup_insert_eq, lookup_lt_Some. }
  cbn [arun]. rewrite Hs1. cbn [ainit a_open]. rewrite Hs2. cbn [a_open].
  rewrite (astep_begin _ _ i ti (kind ci)) by (done || apply not_elem_of_nil).
  cbn [begin_access a_open existsb]. 
  rewrite (astep_begin _ _ j tj (kind cj));
    [|done..|simpl; by rewrite list_elem_of_singleton].
  unfold begin_access. simpl. unfold conflict. rewrite bool_decide_eq_true_2; [done|tauto].
Qed.

End by_value_accesses.

(** ** Two readers and a writer *)

Section access_examples.

(** Under one mutex the writer waits at its lock while a reader is in. *)
Example by_pointer_writer_waits :
  arun ByPointer (ainit New [CSet "/k" "v"; CGet "/k"]) [1; 0] = None.
Proof. reflexivity. Qed.

(** The accesses of two readers overlap, and that is no fault, with the
    receivers of the source too. *)
Example readers_overlap :
  (∃ ac, arun ByPointer (ainit New [CGet "/k"; CList "/"]) [0; 1; 0; 1] = Some (Ok ac)
     ∧ a_open ac = [(1, Read); (0, Read)])
  ∧ ∃ ac, arun declared (ainit New [CGet "/k"; CList "/"]) [0; 1; 0; 1] = Some (Ok ac)
     ∧ a_open ac = [(1, Read); (0, Read)].
Proof. split; eexists; split; vm_compute; reflexivity. Qed.

Lemma by_pointer_linearizable_witness :
  ∃ out,
    arun ByPointer (ainit New [CGet "/k"; CSet "/k" "v"; CGetValue "/k"])
      [0; 2; 0; 2; 0; 2; 0; 2; 1; 1; 1; 1] = Some out
    ∧ ahistory [0; 2; 0; 2; 0; 2; 0; 2; 1; 1; 1; 1] = [0; 2; 1]
    ∧ ∃ ac, out = Ok ac
      ∧ (Forall finished (cfg_threads (a_cfg ac)) →
         ahistory [0; 2; 0; 2; 0; 2; 0; 2; 1; 1; 1; 1]
           ≡ₚ seq 0 (length [CGet "/k"; CSet "/k" "v"; CGetValue "/k"])
         ∧ cfg_map (a_cfg ac)
           = (exec New (calls_in [CGet "/k"; CSet "/k" "v"; CGetValue "/k"]
                          (ahistory [0; 2; 0; 2; 0; 2; 0; 2; 1; 1; 1; 1]))).1
         ∧ Forall2
             (λ tid ret,
                ∃ t, cfg_threads (a_cfg ac) !! tid = Some t ∧ returned t = Some ret)
             (ahistory [0; 2; 0; 2; 0; 2; 0; 2; 1; 1; 1; 1])
             (exec New (calls_in [CGet "/k"; CSet "/k" "v"; CGetValue "/k"]
                          (ahistory [0; 2; 0; 2; 0; 2; 0; 2; 1; 1; 1; 1]))).2
         ∧ ∀ i j, j < length [CGet "/k"; CSet "/k" "v"; CGetValue "/k"] →
             aprecedes [0; 2; 0; 2; 0; 2; 0; 2; 1; 1; 1; 1] i j →
             before (ahistory [0; 2; 0; 2; 0; 2; 0; 2; 1; 1; 1; 1]) i j).
Proof.
  eexists. split; [vm_compute; reflexivity|]. split; [by vm_compute|].
  apply (by_pointer_linearizable New [CGet "/k"; CSet "/k" "v"; CGetValue "/k"]).
  vm_compute. reflexivity.
Defined.

Lemma declared_faults_witness :
  arun declared (ainit New [CGet "/k"; CSet "/k" "v"]) [0; 1; 0; 1]
  = Some (Err ConcurrentMapAccess).
Proof.
  apply (declared_faults New [CGet "/k"; CSet "/k" "v"] 0 1 (CGet "/k") (CSet "/k" "v"));
    [lia | done | done | by right].
Defined.

End access_examples.
