(* ===== verification/Threads.v ===== *)
(** * Threads: the method bodies run by several goroutines

    Concurrent.v runs calls as threads that step through the list of lock
    steps and map accesses of their method ([code]) and return a function
    of the map they read ([ret_of]).  This file runs the method bodies of
    Methods.v themselves: a goroutine is what is left of the body of its
    call, and a step of it is the next action of that body, answered by
    the mutex and the map as they are at that moment.

    [world_of] maps a configuration of Concurrent.v to the goroutines it
    stands for.  The lemmas show that it commutes with every step, so the
    two semantics have the same runs ([go_run_init]), and that a
    finished thread stands for a body that has returned the same value
    ([result_of_returned]).  The file carries no result about the store
    of its own: it is the check that the lists of [code] are the actions
    the method bodies of Methods.v take, in their order. *)

From S2P Require Import Prelude GoString Sorting Match Memkv Sync Concurrent Methods.
From stdpp Require Import gmap strings relations.

(** ** Goroutines *)

Record goroutine : Type := mkGoroutine {
  g_body : prog retval;
  g_mu : RWMutex;
}.

Record world : Type := mkWorld {
  w_mu : RWMutex;
  w_map : Store;
  w_goroutines : list goroutine;
}.

(** [go s.Method(...)]: the body of the call, with the copy of the mutex
    made for its receiver. *)

Definition go (mu : RWMutex) (c : call) : goroutine :=
  {| g_body := method c; g_mu := mu |}.

Definition world_init (s : Store) (calls : list call) : world :=
  {| w_mu := unlocked; w_map := s; w_goroutines := go unlocked <$> calls |}.

(** One action of goroutine [tid]; [None] when it has ended or has to
    wait. *)

Definition go_step (r : receiver) (w : world) (tid : nat) : option world :=
  g ← w_goroutines w !! tid;
  match g_body g with
  | Act a k =>
      '(x, mu', s') ← respond a (match r with ByValue => g_mu g | ByPointer => w_mu w end)
                        (w_map w);
      let g' := {| g_body := k x;
                   g_mu := match r with ByValue => mu' | ByPointer => g_mu g end |} in
      Some {| w_mu := match r with ByValue => w_mu w | ByPointer => mu' end;
              w_map := s';
              w_goroutines := <[tid := g']> (w_goroutines w) |}
  | _ => None
  end.

Fixpoint go_run (r : receiver) (w : world) (sched : list nat) : option world :=
  match sched with
  | [] => Some w
  | tid :: sched => w' ← go_step r w tid; go_run r w' sched
  end.

(** What a goroutine has returned, a panic being the value of the call. *)

Definition result_of (g : goroutine) : option retval :=
  match g_body g with
  | Ret v => Some v
  | Panic p => Some (RList (Err p))
  | Act _ _ => None
  end.

(** ** From positions in the code to bodies *)

(** The program after [n] of its actions, answered from the map [view]. *)

Fixpoint resume {A} (p : prog A) (n : nat) (view : Store) {struct n} : prog A :=
  match n, p with
  | S n, Act a k => resume (k (answer a view)) n view
  | _, _ => p
  end.

(** The goroutine a thread stands for. *)

Definition body_of (t : thread) : goroutine :=
  {| g_body := resume (method (th_call t)) (th_pc t) (default New (th_view t));
     g_mu := th_mu t |}.

Definition world_of (cfg : config) : world :=
  {| w_mu := cfg_mu cfg; w_map := cfg_map cfg; w_goroutines := body_of <$> cfg_threads cfg |}.

(** The view of a thread after an action on the map [s]. *)

Definition view_after (a : instr) (s : Store) (ov : option Store) : option Store :=
  match access_of a with
  | Some Read => Some s
  | _ => ov
  end.

(** The end of a body that returns [v]. *)

Definition ended (v : retval) : prog retval :=
  match v with
  | RList (Err p) => Panic p
  | _ => Ret v
  end.

Section bodies_and_code.
Implicit Types (c : call) (t : thread) (cfg : config) (r : receiver) (view s : Store).

Lemma resume_add {A} (p : prog A) n k view :
  resume p (n + k) view = resume (resume p n view) k view.
Proof. revert p. induction n as [|n IH]; intros [x|e|a f]; simpl; by destruct k. Qed.

Lemma resume_ended v n view : resume (ended v) n view = ended v.
Proof. by destruct n, v as [| | | | |[]]. Qed.

(** After its three actions a body has ended with the value of the call. *)
Lemma resume_method_3 c view : resume (method c) 3 view = ended (ret_of c view).
Proof.
  destruct c; try reflexivity; simpl.
  - unfold Get. by destruct (m view !! key).
  - unfold GetValue, Get. by destruct (m view !! key).
  - unfold GetAllValues. fold (GetAll view pattern).
    by destruct (GetAll view pattern) as [ks [e|]].
  - unfold List. by destruct (List_from _ _).
  - unfold ListDir. by destruct (ListDir_from _ _).
Qed.

Lemma resume_method_ge c n view :
  3 ≤ n → resume (method c) n view = ended (ret_of c view).
Proof.
  intros Hn. replace n with (3 + (n - 3)) by lia.
  by rewrite resume_add, resume_method_3, resume_ended.
Qed.

(** Before that, its next action is the next instruction of the code,
    and what follows the answer of the map is the body one position on. *)
Lemma resume_step c n (ov : option Store) a :
  code c !! n = Some a →
  ∃ k, resume (method c) n (default New ov) = Act a k
    ∧ ∀ s, k (answer a s) = resume (method c) (S n) (default New (view_after a s ov)).
Proof.
  intros Hc. unfold view_after. destruct c, n as [|[|[|?]]]; simplify_option_eq.
  all: try destruct (m (default New ov) !! key);
    try destruct (GetAll_from (range (default New ov)) pattern) as [? []];
    try destruct (List_from (range (default New ov)) path);
    try destruct (ListDir_from (range (default New ov)) path).
  all: by eexists.
Qed.

Lemma exec_instr_view a mu s (ov ov' : option Store) mu' s' :
  exec_instr a mu s ov = Some (mu', s', ov') → ov' = view_after a s ov.
Proof. destruct a; intros; by simplify_option_eq. Qed.

Lemma respond_exec_instr a mu s (ov : option Store) :
  respond a mu s = (λ '(mu', s', _), (answer a s, mu', s')) <$> exec_instr a mu s ov.
Proof.
  unfold respond.
  destruct a; simpl; try done; by destruct (_ mu) as [?|].
Qed.

Lemma result_of_ended g v : g_body g = ended v → result_of g = Some v.
Proof. unfold result_of. intros ->. by destruct v as [| | | | |[]]. Qed.

(** ** The two semantics have the same runs *)

Lemma go_step_world_of r cfg tid :
  go_step r (world_of cfg) tid = world_of <$> step_thread r cfg tid.
Proof.
  unfold go_step, step_thread, world_of. simpl. rewrite list_lookup_fmap.
  destruct (cfg_threads cfg !! tid) as [t|]; [simpl|done]. unfold next_instr.
  destruct (code (th_call t) !! th_pc t) as [a|] eqn:Hc; simpl.
  - destruct (resume_step _ _ (th_view t) _ Hc) as (k & -> & Hk).
    rewrite (respond_exec_instr _ _ _ (th_view t)).
    replace (match r with ByValue => th_mu t | ByPointer => cfg_mu cfg end)
      with (mutex_of r cfg t) by done.
    destruct (exec_instr _ _ _ _) as [[[mu' s'] ov']|] eqn:He; [simpl|done].
    rewrite list_fmap_insert. unfold body_of at 2. simpl. by rewrite Hk, <-(exec_instr_view _ _ _ _ _ _ _ He).
  - apply eq_None_not_Some in Hc. fold (next_instr t) in Hc.
    rewrite next_instr_is_Some in Hc. rewrite resume_method_ge by lia. by destruct (ret_of _ _) as [| | | | |[]].
Qed.

Lemma world_of_init s calls : world_of (init s calls) = world_init s calls.
Proof. unfold world_of, init, world_init. simpl. by rewrite <-list_fmap_compose. Qed.

Lemma go_run_world_of r cfg sched :
  go_run r (world_of cfg) sched = world_of <$> run r cfg sched.
Proof.
  revert cfg. induction sched as [|tid sched IH]; intros cfg; [done|]. simpl.
  rewrite go_step_world_of. destruct (step_thread r cfg tid) as [cfg'|]; [simpl|done].
  apply IH.
Qed.

(** Goroutines that run the method bodies action by action and threads
    that run the code of the methods position by position have the same
    runs: under every schedule the bodies reach the world that the
    threads' configuration stands for, and wait exactly when the threads
    wait. *)
Lemma go_run_init r s calls sched :
  go_run r (world_init s calls) sched = world_of <$> run r (init s calls) sched.
Proof. rewrite <-world_of_init. apply go_run_world_of. Qed.

(** A thread that has returned stands for a body that has ended with the
    same value, and a body that has ended for a thread that has finished. *)
Lemma result_of_returned t v : returned t = Some v → result_of (body_of t) = Some v.
Proof.
  unfold returned. case_decide as Hf; [|done].
  apply eq_None_not_Some in Hf. rewrite next_instr_is_Some in Hf.
  intros Hv. apply result_of_ended. simpl. rewrite resume_method_ge by lia. f_equal.
  destruct (th_view t) as [view|], (th_call t); by simplify_eq/=.
Qed.

Lemma result_of_finished t : is_Some (result_of (body_of t)) → finished t.
Proof.
  intros [v Hv]. apply eq_None_not_Some. intros [a Ha].
  destruct (resume_step (th_call t) (th_pc t) (th_view t) a Ha) as (k & Hk & _).
  unfold result_of, body_of in Hv. simpl in Hv. by rewrite Hk in Hv.
Qed.

End bodies_and_code.

(** ** A writer and a listing that panics *)

Section threads_examples.

(** With one mutex the listing waits at its lock until the writer has
    released it; it then reads the map with the key assigned, and panics. *)
Example bodies_example :
  go_run ByPointer (world_init New [CSet "/k" "v"; CList "/k"]) [0; 1] = None
  ∧ (λ w, result_of <$> w_goroutines w)
      <$> go_run ByPointer (world_init New [CSet "/k" "v"; CList "/k"]) [0; 0; 0; 1; 1; 1]
    = Some [Some RUnit; Some (RList (Err SliceBoundsOutOfRange))].
Proof. by vm_compute. Qed.

End threads_examples.
